(** * ChemBalance: the formula parser and the equation solver

    A shallow embedding of [lib/chem/parser.ts] and [lib/chem/solver.ts],
    and of the counts the playground component computes from them
    ([components/EquationBalancerPlayground.tsx], module [Playground]).
    The file [solver.ts] holds two listings of the solver: the first
    eliminates in floating point and searches the null space for a vector of
    one sign ([nullspace], [findSignedFeasibleSolution],
    [toIntegerCoefficients]); the second eliminates with exact fractions and
    checks its answer ([solveRationalForLastColumn], [fracsToIntegerCoeffs]).
    Both are embedded; the names they share are those of the second, and the
    first has its own in the module [FirstListing].

    Conventions of the embedding.
    - A JavaScript string is the list of its UTF-16 code units ([jsstring]).
    - A JavaScript number that holds an integer is a [Z].  The two agree as
      long as every value read or computed stays inside the safe-integer
      range of a double; beyond it the code rounds.  The module [Safe] holds
      the parser, the second solver listing and the counts of the
      playground once more, with that range checked at every operation;
      what depends on the range is stated on [Safe], and the module
      [Doubles] holds the sanity check of the solver on doubles
      themselves.  The double [-0] is
      the integer 0: the code tests its numbers with [===], [<], [>] and
      [||], which do not tell the two apart.  The tolerance-based routines
      of the first solver listing work on fractions; there a number is an
      exact rational ([Q]).
    - A [Map<string, number>] and a [Record<string, number>] are association
      lists in insertion order with pairwise distinct keys.
    - A call that can raise returns an [outcome]. *)

From Stdlib Require Import String Ascii.
From Stdlib Require Import ZArith NArith QArith Qabs Qround List Bool Lia Lqa.
From Stdlib Require Import Znumtheory Sorting.Sorted Permutation.
From Stdlib Require Import Floats.
Import ListNotations.

Local Open Scope Z_scope.

(* ===================================================================== *)
(** ** JavaScript strings *)
(* ===================================================================== *)

Definition jsstring := list N.

(** An ASCII literal as a JavaScript string. *)
Fixpoint js (s : string) : jsstring :=
  match s with
  | EmptyString => []
  | String c r => N_of_ascii c :: js r
  end.

Fixpoint str_eqb (a b : jsstring) : bool :=
  match a, b with
  | [], [] => true
  | x :: a', y :: b' => N.eqb x y && str_eqb a' b'
  | _, _ => false
  end.

(** Code units the sources name. *)
Definition ch_plus : N := 43.
Definition ch_minus : N := 45.
Definition ch_period : N := 46.
Definition ch_lt : N := 60.
Definition ch_eq : N := 61.
Definition ch_gt : N := 62.
Definition ch_middle_dot : N := 183.          (* U+00B7 *)
Definition ch_rightwards_arrow : N := 8594.   (* U+2192 *)
Definition ch_equilibrium : N := 8652.        (* U+21CC *)
Definition ch_double_arrow : N := 8658.       (* U+21D2 *)
Definition ch_long_left_right : N := 10231.   (* U+27F7 *)

(** The class [\s] of a regular expression and the characters [trim]
    removes: WhiteSpace and LineTerminator of ECMAScript. *)
Definition isWhite (c : N) : bool :=
  ((9 <=? c) && (c <=? 13) || (c =? 32) || (c =? 160) || (c =? 5760)
   || (8192 <=? c) && (c <=? 8202) || (c =? 8232) || (c =? 8233)
   || (c =? 8239) || (c =? 8287) || (c =? 12288) || (c =? 65279))%N.

Definition isDigit (c : N) : bool := ((48 <=? c) && (c <=? 57))%N.
Definition isUpper (c : N) : bool := ((65 <=? c) && (c <=? 90))%N.
Definition isLower (c : N) : bool := ((97 <=? c) && (c <=? 122))%N.

Fixpoint dropWhile {A} (p : A -> bool) (l : list A) : list A :=
  match l with
  | [] => []
  | x :: l' => if p x then dropWhile p l' else l
  end.

Fixpoint takeWhile {A} (p : A -> bool) (l : list A) : list A :=
  match l with
  | [] => []
  | x :: l' => if p x then x :: takeWhile p l' else []
  end.

(** [String.prototype.trim]. *)
Definition trim (s : jsstring) : jsstring :=
  rev (dropWhile isWhite (rev (dropWhile isWhite s))).

Fixpoint isPrefix (p s : jsstring) : bool :=
  match p, s with
  | [], _ => true
  | x :: p', y :: s' => N.eqb x y && isPrefix p' s'
  | _ :: _, [] => false
  end.

(** [s.split(sep)] for a non-empty separator: the occurrences of [sep] are
    found from the left and do not overlap.  [skip] counts the code units of
    the current occurrence still to be passed over, [cur] is the chunk being
    read, reversed. *)
Fixpoint split_from (sep : jsstring) (skip : nat) (cur : jsstring)
    (s : jsstring) : list jsstring :=
  match s with
  | [] => [rev cur]
  | c :: r =>
      match skip with
      | S k => split_from sep k cur r
      | O =>
          if isPrefix sep s
          then rev cur :: split_from sep (length sep - 1) [] r
          else split_from sep 0 (c :: cur) r
      end
  end.

Definition split (sep s : jsstring) : list jsstring := split_from sep 0 [] s.

(** The number of occurrences [split] cuts at. *)
Fixpoint countOcc_from (sep : jsstring) (skip : nat) (s : jsstring) : nat :=
  match s with
  | [] => O
  | _ :: r =>
      match skip with
      | S k => countOcc_from sep k r
      | O =>
          if isPrefix sep s
          then S (countOcc_from sep (length sep - 1) r)
          else countOcc_from sep 0 r
      end
  end.

Definition countOcc (sep s : jsstring) : nat := countOcc_from sep 0 s.

Definition isEmpty (s : jsstring) : bool :=
  match s with [] => true | _ => false end.

(* ===================================================================== *)
(** ** parser.ts: the equation splitter *)
(* ===================================================================== *)

Definition arrow : jsstring := [ch_minus; ch_gt].

(** The alternatives of the regular expression of [normalizeArrow], tried at
    the start of [s]; the answer is the length of the match.  A run [-+] or
    [=+] is greedy, and giving a character back never helps, since the
    character after a shorter run is again [-] (or [=]), not [>]. *)
Definition runThenGt (c : N) (s : jsstring) : option nat :=
  match dropWhile (N.eqb c) s with
  | g :: _ => if N.eqb g ch_gt then Some (S (length (takeWhile (N.eqb c) s))) else None
  | [] => None
  end.

Definition matchArrow (s : jsstring) : option nat :=
  match s with
  | [] => None
  | c :: r =>
      if (c =? ch_equilibrium)%N then Some 1%nat
      else if isPrefix [ch_lt; ch_eq; ch_gt] s then Some 3%nat
      else if (c =? ch_long_left_right)%N then Some 1%nat
      else if (c =? ch_double_arrow)%N then Some 1%nat
      else if (c =? ch_rightwards_arrow)%N then Some 1%nat
      else if (c =? ch_lt)%N then
        match r with
        | d :: _ =>
            if (d =? ch_minus)%N
            then option_map S (runThenGt ch_minus r)
            else None
        | [] => None
        end
      else if (c =? ch_eq)%N then runThenGt ch_eq s
      else if (c =? ch_minus)%N then runThenGt ch_minus s
      else None
  end.

(** [s.replace(/.../g, "->")]: at each position the leftmost match is
    replaced and the scan resumes after it. *)
Fixpoint replaceArrows (skip : nat) (s : jsstring) : jsstring :=
  match s with
  | [] => []
  | c :: r =>
      match skip with
      | S k => replaceArrows k r
      | O =>
          match matchArrow s with
          | Some (S k) => arrow ++ replaceArrows k r
          | _ => c :: replaceArrows 0 r
          end
      end
  end.

Definition normalizeArrow (s : jsstring) : jsstring := replaceArrows 0 s.

(** The object [{ left, right }] both [splitEquation] (of strings) and the
    solver (of coefficients) return. *)
Record LeftRight (A : Type) := mkLR { left : list A; right : list A }.
Arguments mkLR {A} left right.
Arguments left {A} _.
Arguments right {A} _.

Definition Sides := LeftRight jsstring.

Definition chunks (side : jsstring) : list jsstring :=
  filter (fun s => negb (isEmpty s)) (map trim (split [ch_plus] side)).

Definition splitEquation (eqn : jsstring) : option Sides :=
  match split arrow (normalizeArrow eqn) with
  | [lhs; rhs] => Some (mkLR (chunks lhs) (chunks rhs))
  | _ => None
  end.

(* ===================================================================== *)
(** ** parser.ts: the formula tokenizer *)
(* ===================================================================== *)

Inductive Token :=
| TDot
| TParen (value : jsstring)
| TElem (symbol : jsstring) (count : Z)
| TNum (value : Z).

(** [parseInt(ds, 10)] on a non-empty run of decimal digits: the number the
    digits spell.  The code has the nearest double, which is that number
    when it is a safe integer ([Safe.parseInt]). *)
Definition parseInt (ds : jsstring) : Z :=
  fold_left (fun acc d => acc * 10 + (Z.of_N d - 48)) ds 0.

(** [/[()\[\]{}]/.test(c)] for a single code unit. *)
Definition isBracket (c : N) : bool :=
  ((c =? 40) || (c =? 41) || (c =? 91) || (c =? 93) || (c =? 123) || (c =? 125))%N.

(** The loop of [tokenizeFormula] over the string without white space.  The
    list is the part of the string from index [i] on; [skip] is the number of
    code units an iteration has moved [i] beyond the next one ([i += 2],
    [i = j]). *)
Fixpoint tokenize_from (skip : nat) (s : jsstring) : list Token :=
  match s with
  | [] => []
  | c :: r =>
      match skip with
      | S k => tokenize_from k r
      | O =>
          if ((c =? ch_middle_dot) || (c =? ch_period))%N then
            TDot :: tokenize_from 0 r
          else if isBracket c then
            TParen [c] :: tokenize_from 0 r
          else if isUpper c then
            let '(sym, after) :=
              match r with
              | d :: r' => if isLower d then ([c; d], r') else ([c], r)
              | [] => ([c], r)
              end in
            let ds := takeWhile isDigit after in
            let num := match ds with [] => 1 | _ => parseInt ds end in
            TElem sym num :: tokenize_from (length sym - 1 + length ds) r
          else if isDigit c then
            let ds := takeWhile isDigit s in
            TNum (parseInt ds) :: tokenize_from (length ds - 1) r
          else tokenize_from 0 r
      end
  end.

Definition tokenizeFormula (formula : jsstring) : list Token :=
  tokenize_from 0 (filter (fun c => negb (isWhite c)) formula).

(* ===================================================================== *)
(** ** parser.ts: the formula evaluator *)
(* ===================================================================== *)

(** What a call does: it returns, it raises a [TypeError] (a method called
    on [undefined]), it raises the [Error] of [makeFrac], or the model ran
    out of fuel (shown below never to happen).  [Inexact] is the outcome of
    the runs of module [Safe] alone: the run has computed a number that is
    not an integer of magnitude at most [Number.MAX_SAFE_INTEGER], the
    range in which the integers of this model are the doubles of the code;
    from there on the model says nothing about the code. *)
Inductive outcome (A : Type) :=
| Returned (a : A)
| TypeError
| ZeroDenominator
| OutOfFuel
| Inexact.
Arguments Returned {A} a.
Arguments TypeError {A}.
Arguments ZeroDenominator {A}.
Arguments OutOfFuel {A}.
Arguments Inexact {A}.

(** [Map<string, number>] in insertion order. *)
Definition CountMap := list (jsstring * Z).

Fixpoint map_get (m : CountMap) (k : jsstring) : option Z :=
  match m with
  | [] => None
  | (k', v) :: m' => if str_eqb k' k then Some v else map_get m' k
  end.

(** [m.set(k, v)]: an existing key keeps its place. *)
Fixpoint map_set (m : CountMap) (k : jsstring) (v : Z) : CountMap :=
  match m with
  | [] => [(k, v)]
  | (k', v') :: m' =>
      if str_eqb k' k then (k', v) :: m' else (k', v') :: map_set m' k v
  end.

(** [x || 0] for a number or [undefined]. *)
Definition orZero (x : option Z) : Z :=
  match x with Some v => v | None => 0 end.

Definition pushCounts (into : CountMap) (elem : jsstring) (n : Z) : CountMap :=
  map_set into elem (orZero (map_get into elem) + n).

(** [for (const [k, val] of group.entries()) pushCounts(top, k, val * mult)] *)
Definition mergeScaled (top group : CountMap) (mult : Z) : CountMap :=
  fold_left (fun acc kv => pushCounts acc (fst kv) (snd kv * mult)) group top.

(** The same loop when [top] is [stack.at(-1)], which is [undefined] on an
    empty stack: the first [pushCounts] raises. *)
Definition mergeIntoTop (stack : list CountMap) (group : CountMap) (mult : Z)
  : outcome (list CountMap) :=
  match stack with
  | top :: below => Returned (mergeScaled top group mult :: below)
  | [] => match group with [] => Returned [] | _ :: _ => TypeError end
  end.

Definition ch_in (c : N) (s : jsstring) : bool := existsb (N.eqb c) s.

Definition openers : list jsstring := [[40%N]; [91%N]; [123%N]].
Definition closers : list jsstring := [[41%N]; [93%N]; [125%N]].
Definition set_has (set : list jsstring) (v : jsstring) : bool :=
  existsb (str_eqb v) set.

(** [/[\(\[\{]/.test(v)] and [/[\)\]\}]/.test(v)]. *)
Definition hasOpener (v : jsstring) : bool :=
  existsb (fun c => ch_in c [40; 91; 123]%N) v.
Definition hasCloser (v : jsstring) : bool :=
  existsb (fun c => ch_in c [41; 93; 125]%N) v.

(** The scan for the group that follows a multiplier: it starts on the
    opening delimiter with [depth = 0] and ends after the delimiter that
    brings the depth back to 0, or at the end of the tokens.  The result is
    [tokens.slice(i + 1, j)] and the tokens from [j] on. *)
Fixpoint scanGroup (depth : Z) (l : list Token) : list Token * list Token :=
  match l with
  | [] => ([], [])
  | u :: l' =>
      let continue d := let '(g, rest) := scanGroup d l' in (u :: g, rest) in
      match u with
      | TParen v =>
          if hasOpener v then continue (depth + 1)
          else if hasCloser v then
            if depth - 1 =? 0 then ([u], l') else continue (depth - 1)
          else continue depth
      | _ => continue depth
      end
  end.

(** [stack[0]]: the list has the top of the stack first. *)
Definition bottom (stack : list CountMap) : option CountMap :=
  last (map Some stack) None.

(** [tokensToCounts]: [go fuel rest stack] is the [while] loop with [rest]
    the tokens from index [i] on; the result is what the call returns,
    [None] for [undefined].  Each iteration and each recursive call takes one
    unit of fuel.  [parenStack] is only pushed to and popped, it never
    decides anything, so it is left out. *)
Fixpoint go (fuel : nat) (rest : list Token) (stack : list CountMap)
  : outcome (option CountMap) :=
  match fuel with
  | O => OutOfFuel
  | S fuel =>
      match rest with
      | [] => Returned (bottom stack)
      | TElem symbol count :: rest' =>
          match stack with
          | top :: below => go fuel rest' (pushCounts top symbol count :: below)
          | [] => TypeError
          end
      | TParen v :: rest' =>
          if set_has openers v then go fuel rest' ([] :: stack)
          else if set_has closers v then
            match stack with
            | [] => TypeError
            | group :: stack' =>
                let '(mult, rest'') :=
                  match rest' with
                  | TNum m :: r => (m, r)
                  | _ => (1, rest')
                  end in
                match mergeIntoTop stack' group mult with
                | Returned stack'' => go fuel rest'' stack''
                | _ => TypeError
                end
            end
          else go fuel rest' stack
      | TDot :: rest' =>
          match rest' with
          | TNum n :: suffix =>
              match go fuel suffix [[]] with
              | Returned (Some sub) =>
                  match mergeIntoTop stack sub n with
                  | Returned stack' => Returned (bottom stack')
                  | _ => TypeError
                  end
              | Returned None => TypeError
              | e => e
              end
          | _ => go fuel rest' stack
          end
      | TNum n :: rest' =>
          match rest' with
          | [] => go fuel rest' stack
          | TElem symbol count :: r =>
              match stack with
              | top :: below => go fuel r (pushCounts top symbol (count * n) :: below)
              | [] => TypeError
              end
          | TParen v :: _ =>
              if hasOpener v then
                let '(group, after) := scanGroup 0 rest' in
                match go fuel group [[]] with
                | Returned (Some sub) =>
                    match mergeIntoTop stack sub n with
                    | Returned stack' => go fuel after stack'
                    | _ => TypeError
                    end
                | Returned None => TypeError
                | e => e
                end
              else go fuel rest' stack
          | _ => go fuel rest' stack
          end
      end
  end.

Definition tokensToCounts (tokens : list Token) : outcome (option CountMap) :=
  go (S (length tokens)) tokens [[]].

(** [a.localeCompare(b)].  The collation is the host's; on the symbols the
    tokenizer makes (an upper-case ASCII letter, then at most one lower-case
    ASCII letter, [isSymbol]) the root collation orders as the code units
    do, and that order is the one defined here.  On other strings the two
    differ (a collation puts [a] before [B]), so whatever is stated of the
    order of keys is stated of symbols. *)
Fixpoint localeCompare (a b : jsstring) : comparison :=
  match a, b with
  | [], [] => Eq
  | [], _ :: _ => Lt
  | _ :: _, [] => Gt
  | x :: a', y :: b' =>
      match N.compare x y with
      | Eq => localeCompare a' b'
      | c => c
      end
  end.

(** [entries.sort(([a],[b]) => a.localeCompare(b))]: the sort of an array is
    stable, which fixes its result; insertion from the right is stable. *)
Fixpoint insertEntry (e : jsstring * Z) (l : list (jsstring * Z))
  : list (jsstring * Z) :=
  match l with
  | [] => [e]
  | e' :: l' =>
      match localeCompare (fst e) (fst e') with
      | Gt => e' :: insertEntry e l'
      | _ => e :: l
      end
  end.

Definition sortEntries (l : list (jsstring * Z)) : list (jsstring * Z) :=
  fold_right insertEntry [] l.

(** [Record<string, number>]: the own properties in the order [Object.entries]
    lists them.  (A key that is an array index would be listed first; the
    element symbols are never one, and a lookup does not depend on it.) *)
Definition ElementCount := list (jsstring * Z).

Definition fromEntries (l : list (jsstring * Z)) : ElementCount :=
  fold_left (fun o kv => map_set o (fst kv) (snd kv)) l [].

Definition countElementsInFormula (formula : jsstring) : outcome ElementCount :=
  match tokensToCounts (tokenizeFormula formula) with
  | Returned (Some counts) => Returned (fromEntries (sortEntries counts))
  | Returned None => TypeError
  | TypeError => TypeError
  | ZeroDenominator => ZeroDenominator
  | OutOfFuel => OutOfFuel
  | Inexact => Inexact
  end.

Definition multiplyCounts (counts : ElementCount) (k : Z) : ElementCount :=
  fold_left (fun out kv => map_set out (fst kv) (snd kv * k)) counts [].

Definition sumCounts (list : list ElementCount) : ElementCount :=
  let out :=
    fold_left
      (fun out obj =>
         fold_left (fun out kv => pushCounts out (fst kv) (snd kv)) obj out)
      list [] in
  fromEntries (sortEntries out).

(* ===================================================================== *)
(** ** solver.ts (second listing): the stoichiometric matrix *)
(* ===================================================================== *)

Definition bind {A B} (x : outcome A) (f : A -> outcome B) : outcome B :=
  match x with
  | Returned a => f a
  | TypeError => TypeError
  | ZeroDenominator => ZeroDenominator
  | OutOfFuel => OutOfFuel
  | Inexact => Inexact
  end.

Notation "x <- c1 ;; c2" := (bind c1 (fun x => c2))
  (at level 61, c1 at next level, right associativity).
Notation "' pat <- c1 ;; c2" :=
  (bind c1 (fun x => match x with pat => c2 end))
  (at level 61, pat pattern, c1 at next level, right associativity).

(** [Array.from(new Set(l))]: the first occurrence of each string, in order. *)
Fixpoint dedup (seen : list jsstring) (l : list jsstring) : list jsstring :=
  match l with
  | [] => []
  | x :: l' =>
      if set_has seen x then dedup seen l' else x :: dedup (x :: seen) l'
  end.

Fixpoint insertString (x : jsstring) (l : list jsstring) : list jsstring :=
  match l with
  | [] => [x]
  | y :: l' =>
      match localeCompare x y with
      | Gt => y :: insertString x l'
      | _ => x :: l
      end
  end.

Definition sortStrings (l : list jsstring) : list jsstring :=
  fold_right insertString [] l.

Record ElementMatrix := mkEM { A : list (list Z); elements : list jsstring }.

(** The rows of [A] are filled column by column in the source; row [el] ends
    up with the count of [el] in each left formula and minus the count in
    each right formula. *)
Definition buildElementMatrix (leftFormulas rightFormulas : list jsstring)
    (countFn : jsstring -> ElementCount) : ElementMatrix :=
  let elements :=
    sortStrings
      (dedup [] (flat_map (fun f => map fst (countFn f))
                          (leftFormulas ++ rightFormulas))) in
  let A :=
    map (fun el =>
           map (fun f => orZero (map_get (countFn f) el)) leftFormulas
           ++ map (fun f => - orZero (map_get (countFn f) el)) rightFormulas)
        elements in
  mkEM A elements.

(* ===================================================================== *)
(** ** solver.ts (second listing): exact fractions *)
(* ===================================================================== *)

Record Frac := mkFrac { num : Z; den : Z }.

(** The [while (b !== 0)] loop of [gcd]; [%] is the remainder of the
    truncated division. *)
Fixpoint gcd_loop (fuel : nat) (a b : Z) : Z :=
  match fuel with
  | O => a
  | S fuel => if b =? 0 then a else gcd_loop fuel b (Z.rem a b)
  end.

(** The remainders decrease, so the loop runs at most [|b| + 1] tests.  On
    integers [Math.abs] and [%] are exact.  (On [NaN] or [Infinity], which
    are no integers, the loop of the code never ends; the runs of [Safe]
    leave the safe range before they reach it.) *)
Definition gcd (a b : Z) : Z :=
  let a := Z.abs a in
  let b := Z.abs b in
  let a := gcd_loop (S (Z.to_nat b)) a b in
  if a =? 0 then 1 else a.

(** Every [/] of this listing divides by a divisor of the dividend
    ([makeFrac_exact], [lcm_spec], [commonDen_spec], [finalGcd_spec]), so it
    is the integer quotient.  The product is the product of integers; the
    code has it as long as it is a safe integer ([Safe.lcm]). *)
Definition lcm (a b : Z) : Z := (a / gcd a b) * b.

Definition makeFrac (num den : Z) : outcome Frac :=
  if den =? 0 then ZeroDenominator
  else
    let '(num, den) := if den <? 0 then (- num, - den) else (num, den) in
    if num =? 0 then Returned (mkFrac 0 1)
    else
      let g := gcd num den in
      Returned (mkFrac (num / g) (den / g)).

(** The four operations, with the products and sums of integers.  The code
    has them as long as they are safe integers ([Safe.fAdd], [Safe.fSub],
    [Safe.fMul], [Safe.fDiv]). *)
Definition fAdd (a b : Frac) : outcome Frac :=
  makeFrac (num a * den b + num b * den a) (den a * den b).
Definition fSub (a b : Frac) : outcome Frac :=
  makeFrac (num a * den b - num b * den a) (den a * den b).
Definition fMul (a b : Frac) : outcome Frac :=
  makeFrac (num a * num b) (den a * den b).
Definition fDiv (a b : Frac) : outcome Frac :=
  makeFrac (num a * den b) (den a * num b).

(* ===================================================================== *)
(** ** solver.ts (second listing): elimination with the last variable at 1 *)
(* ===================================================================== *)

Definition zeroFrac : Frac := mkFrac 0 1.

Fixpoint mapM {X Y} (f : X -> outcome Y) (l : list X) : outcome (list Y) :=
  match l with
  | [] => Returned []
  | x :: l' => y <- f x ;; ys <- mapM f l' ;; Returned (y :: ys)
  end.

Fixpoint update {X} (l : list X) (i : nat) (x : X) : list X :=
  match l, i with
  | [], _ => []
  | _ :: l', O => x :: l'
  | y :: l', S i' => y :: update l' i' x
  end.

(** [for (let j = col; j < nvars; j++) row[j] = f(row[j])] *)
Fixpoint mapFromM (f : Frac -> outcome Frac) (col : nat) (row : list Frac)
  : outcome (list Frac) :=
  match row with
  | [] => Returned []
  | x :: row' =>
      match col with
      | S col' => ys <- mapFromM f col' row' ;; Returned (x :: ys)
      | O => y <- f x ;; ys <- mapFromM f 0 row' ;; Returned (y :: ys)
      end
  end.

(** [for (let j = col; j < nvars; j++) row[j] = f(row[j], other[j])] *)
Fixpoint map2FromM (f : Frac -> Frac -> outcome Frac) (col : nat)
    (row other : list Frac) : outcome (list Frac) :=
  match row with
  | [] => Returned []
  | x :: row' =>
      match col with
      | S col' => ys <- map2FromM f col' row' (tl other) ;; Returned (x :: ys)
      | O =>
          y <- f x (hd zeroFrac other) ;;
          ys <- map2FromM f 0 row' (tl other) ;;
          Returned (y :: ys)
      end
  end.

Record ElimState := mkElim {
  B : list (list Frac);
  b : list Frac;
  row : nat;
  pivotRowForCol : list (option nat)   (* [None] is the source's -1 *)
}.

(** [while (pivot < m && B[pivot][col].num === 0) pivot++], over the rows
    from [pivot] on; the answer is [m] when the rows run out. *)
Fixpoint findPivot (rows : list (list Frac)) (pivot col : nat) : nat :=
  match rows with
  | [] => pivot
  | r :: rows' =>
      if num (nth col r zeroFrac) =? 0 then findPivot rows' (S pivot) col
      else pivot
  end.

Definition swap {X} (d : X) (l : list X) (i j : nat) : list X :=
  if Nat.eqb i j then l
  else update (update l i (nth j l d)) j (nth i l d).

(** The body of [for (let r = 0; r < m; r++)] for one row [r <> row]. *)
Definition eliminateRow (col : nat) (pivRow : list Frac) (pivb : Frac)
    (Br : list Frac) (br : Frac) : outcome (list Frac * Frac) :=
  let factor := nth col Br zeroFrac in
  if num factor =? 0 then Returned (Br, br)
  else
    Br' <- map2FromM (fun x p => t <- fMul factor p ;; fSub x t) col Br pivRow ;;
    t <- fMul factor pivb ;;
    br' <- fSub br t ;;
    Returned (Br', br').

Fixpoint eliminateRows (col row : nat) (pivRow : list Frac) (pivb : Frac)
    (r : nat) (Bs : list (list Frac)) (bs : list Frac)
  : outcome (list (list Frac) * list Frac) :=
  match Bs, bs with
  | Br :: Bs', br :: bs' =>
      '(Br', br') <-
        (if Nat.eqb r row then Returned (Br, br)
         else eliminateRow col pivRow pivb Br br) ;;
      '(Bs'', bs'') <- eliminateRows col row pivRow pivb (S r) Bs' bs' ;;
      Returned (Br' :: Bs'', br' :: bs'')
  | _, _ => Returned ([], [])
  end.

(** One iteration of [for (let col = 0; col < nvars && row < m; col++)]. *)
Definition eliminateCol (m col : nat) (st : ElimState) : outcome ElimState :=
  let pivot := findPivot (skipn (row st) (B st)) (row st) col in
  if Nat.eqb pivot m then Returned st
  else
    let B1 := swap [] (B st) pivot (row st) in
    let b1 := swap zeroFrac (b st) pivot (row st) in
    let piv := nth col (nth (row st) B1 []) zeroFrac in
    Brow <- mapFromM (fun x => fDiv x piv) col (nth (row st) B1 []) ;;
    brow <- fDiv (nth (row st) b1 zeroFrac) piv ;;
    let B2 := update B1 (row st) Brow in
    let b2 := update b1 (row st) brow in
    '(B3, b3) <- eliminateRows col (row st) Brow brow 0 B2 b2 ;;
    Returned (mkElim B3 b3 (S (row st))
                (update (pivotRowForCol st) col (Some (row st)))).

Fixpoint eliminateCols (m : nat) (cols : list nat) (st : ElimState)
  : outcome ElimState :=
  match cols with
  | [] => Returned st
  | col :: cols' =>
      if Nat.ltb (row st) m
      then st' <- eliminateCol m col st ;; eliminateCols m cols' st'
      else Returned st
  end.

Definition solveRationalForLastColumn (A : list (list Z))
  : outcome (option (list Frac)) :=
  let m := length A in
  let n := length (hd [] A) in
  if Nat.leb n 1 then Returned None
  else
    let nvars := (n - 1)%nat in
    B0 <- mapM (fun Ai => mapM (fun j => makeFrac (nth j Ai 0) 1) (seq 0 nvars)) A ;;
    b0 <- mapM (fun Ai => makeFrac (- nth (n - 1) Ai 0) 1) A ;;
    st <- eliminateCols m (seq 0 nvars)
            (mkElim B0 b0 0 (repeat None nvars)) ;;
    x <- mapM (fun c =>
                 match nth c (pivotRowForCol st) None with
                 | Some r => Returned (nth r (b st) zeroFrac)
                 | None => makeFrac 0 1
                 end) (seq 0 nvars) ;;
    one <- makeFrac 1 1 ;;
    Returned (Some (x ++ [one])).

(* ===================================================================== *)
(** ** solver.ts (second listing): integer coefficients *)
(* ===================================================================== *)

(** [x | 0]: the value modulo 2^32 in the signed 32-bit range. *)
Definition toInt32 (x : Z) : Z := (x + 2 ^ 31) mod 2 ^ 32 - 2 ^ 31.

Definition count {X} (p : X -> bool) (l : list X) : nat := length (filter p l).

(** The row sum [s] of the sanity check, [j] running over the row, as a sum
    of integers: what the row of the matrix and the vector sum to.  The sum
    the code forms is this one as long as every product and partial sum is
    a safe integer ([Safe.rowSum]). *)
Fixpoint rowSum (row final : list Z) : Z :=
  match row, final with
  | a :: row', x :: final' => a * x + rowSum row' final'
  | _, _ => 0
  end.

(** The vector [final] of [fracsToIntegerCoeffs], before the sanity check;
    [None] where the function has already returned [null]. *)
Definition candidate (fv : list Frac) : option (list Z) :=
  match fv with
  | [] => None
  | _ :: _ =>
      let commonDen := fold_left (fun cd f => lcm cd (den f)) fv 1 in
      let vec := map (fun f => toInt32 (num f * (commonDen / den f))) fv in
      if forallb (fun v => v =? 0) vec then None
      else
        let neg := count (fun v => v <? 0) vec in
        let pos := count (fun v => 0 <? v) vec in
        let vec := if Nat.ltb pos neg then map Z.opp vec else vec in
        let absVec := map Z.abs vec in
        let g :=
          fold_left (fun acc v => if v =? 0 then acc else gcd acc v) absVec
                    (let a0 := hd 0 absVec in if a0 =? 0 then 1 else a0) in
        Some (map (fun v => v / g) absVec)
  end.

(** The sanity check on integers: every row of [A] times [final] is exactly
    0.  [Safe.verifies] is the check on the numbers of the code. *)
Definition verifies (A : list (list Z)) (final : list Z) : bool :=
  forallb (fun row => rowSum row final =? 0) A.

Definition Solution := LeftRight Z.

Definition fracsToIntegerCoeffs (fv : list Frac) (leftLen rightLen : nat)
    (A : list (list Z)) : option Solution :=
  match candidate fv with
  | None => None
  | Some final =>
      if verifies A final
      then Some (mkLR (firstn leftLen final) (skipn leftLen final))
      else None
  end.

Record Balanceability := mkBal {
  balanceableAllSpecies : bool;
  nullity : nat;
  suggestion : option Solution
}.

Definition analyzeBalanceability (leftFormulas rightFormulas : list jsstring)
    (countFn : jsstring -> ElementCount) : outcome Balanceability :=
  let A := A (buildElementMatrix leftFormulas rightFormulas countFn) in
  if Nat.eqb (length A) 0 || Nat.eqb (length (hd [] A)) 0
  then Returned (mkBal false 0 None)
  else
    raw <- solveRationalForLastColumn A ;;
    match raw with
    | None => Returned (mkBal false 0 None)
    | Some raw =>
        match fracsToIntegerCoeffs raw (length leftFormulas)
                (length rightFormulas) A with
        | None => Returned (mkBal false 0 None)
        | Some s => Returned (mkBal true 1 (Some s))
        end
    end.

Definition solveEquation (leftFormulas rightFormulas : list jsstring)
    (countFn : jsstring -> ElementCount) : outcome (option Solution) :=
  r <- analyzeBalanceability leftFormulas rightFormulas countFn ;;
  if negb (balanceableAllSpecies r) then Returned None
  else Returned (suggestion r).

(** [countElementsInFormula] as a count function that cannot raise; a
    formula on which it raises has no counts here.  The solver of the code
    does not get to run on such a formula: it ends with the error, as
    [Safe.solveEquation] does, whose count function can raise. *)
Definition countFormula (f : jsstring) : ElementCount :=
  match countElementsInFormula f with
  | Returned c => c
  | _ => []
  end.

(* ===================================================================== *)
(** ** solver.ts (first listing): null space and the search for signs *)
(* ===================================================================== *)

(** The first listing eliminates "over rationals (represented as JS
    numbers)" and compares against a tolerance.  Here its numbers are the
    rationals themselves: every operation is the exact one. *)

Definition EPS : Q := 1 # 1000000000000.

(** [x > y] and [x < y] as the tests of the source. *)
Definition Qgtb (x y : Q) : bool := negb (Qle_bool x y).
Definition Qltb (x y : Q) : bool := negb (Qle_bool y x).

Definition entry (M : list (list Q)) (r c : nat) : Q := nth c (nth r M []) 0%Q.

(** [for (let c = col; c < n; c++) row[c] = f(row[c])] *)
Fixpoint mapFrom (f : Q -> Q) (col : nat) (row : list Q) : list Q :=
  match row with
  | [] => []
  | x :: row' =>
      match col with
      | S col' => x :: mapFrom f col' row'
      | O => f x :: mapFrom f 0 row'
      end
  end.

(** [for (let c = col; c < n; c++) row[c] = f(row[c], other[c])] *)
Fixpoint map2From (f : Q -> Q -> Q) (col : nat) (row other : list Q) : list Q :=
  match row with
  | [] => []
  | x :: row' =>
      match col with
      | S col' => x :: map2From f col' row' (tl other)
      | O => f x (hd 0%Q other) :: map2From f 0 row' (tl other)
      end
  end.

Record NullState := mkNull {
  M : list (list Q);
  nrow : nat;                      (* the variable [row] *)
  pivots : list (option nat)       (* [None] is the source's -1 *)
}.

(** [for (let r = row; r < m; r++) if (|M[r][col]| > |M[best][col]|) best = r] *)
Definition bestPivot (M : list (list Q)) (m row col : nat) : nat :=
  fold_left
    (fun best r =>
       if Qgtb (Qabs (entry M r col)) (Qabs (entry M best col)) then r else best)
    (seq row (m - row)) row.

Definition nullCol (m col : nat) (st : NullState) : NullState :=
  let best := bestPivot (M st) m (nrow st) col in
  if Qltb (Qabs (entry (M st) best col)) EPS then st
  else
    let M1 := swap [] (M st) (nrow st) best in
    let div := entry M1 (nrow st) col in
    let pivRow := mapFrom (fun x => x / div)%Q col (nth (nrow st) M1 []) in
    let M2 := update M1 (nrow st) pivRow in
    let M3 :=
      map (fun rr =>
             let '(r, Mr) := rr in
             if Nat.eqb r (nrow st) then Mr
             else
               let factor := nth col Mr 0%Q in
               if Qgtb (Qabs factor) EPS
               then map2From (fun x p => x - factor * p)%Q col Mr pivRow
               else Mr)
          (combine (seq 0 (length M2)) M2) in
    mkNull M3 (S (nrow st)) (update (pivots st) col (Some (nrow st))).

Fixpoint nullCols (m : nat) (cols : list nat) (st : NullState) : NullState :=
  match cols with
  | [] => st
  | col :: cols' =>
      if Nat.ltb (nrow st) m then nullCols m cols' (nullCol m col st) else st
  end.

(** The columns [c] with [pivots[c] === -1]. *)
Definition freeColumns (pivots : list (option nat)) (n : nat) : list nat :=
  filter (fun c => match nth c pivots None with None => true | Some _ => false end)
         (seq 0 n).

(** The vector for the free column [f]: [v = Array(n).fill(0); v[f] = 1],
    then [v[c] = -M[r][f]] at every column [c] with a pivot row [r]. *)
Definition basisVector (M : list (list Q)) (pivots : list (option nat))
    (n f : nat) : list Q :=
  map (fun c =>
         match nth c pivots None with
         | Some r => (- entry M r f)%Q
         | None => if Nat.eqb c f then 1%Q else 0%Q
         end)
      (seq 0 n).

Definition basisOf (M : list (list Q)) (pivots : list (option nat)) (n : nat)
  : list (list Q) :=
  map (basisVector M pivots n) (freeColumns pivots n).

Definition nullspace (A : list (list Q)) : list (list Q) :=
  let m := length A in
  let n := length (hd [] A) in
  let st := nullCols m (seq 0 n) (mkNull A 0 (repeat None n)) in
  basisOf (M st) (pivots st) n.

Definition allPositiveUpToSign (v : list Q) : bool :=
  let neg := count (fun x => Qltb x 0) v in
  let pos := (length v - neg)%nat in
  let s : Q := if Nat.ltb pos neg then (-1)%Q else 1%Q in
  forallb (fun x => Qgtb (s * x) EPS) v.

Definition K : list Q := [-3; -2; -1; 1; 2; 3]%Q.

(** The tuples the generator [combos] yields, in its order: the first
    coefficient varies slowest. *)
Fixpoint combos (B : nat) : list (list Q) :=
  match B with
  | O => [[]]
  | S B' => flat_map (fun k => map (cons k) (combos B')) K
  end.

(** [v[j] += c * bi[j]] for every [j]. *)
Definition addScaled (v : list Q) (c : Q) (bi : list Q) : list Q :=
  map (fun jv => (snd jv + c * nth (fst jv) bi 0)%Q) (combine (seq 0 (length v)) v).

(** The vector of one tuple of coefficients. *)
Definition combination (basis : list (list Q)) (coeffs : list Q) : list Q :=
  fold_left (fun v cb => addScaled v (fst cb) (snd cb)) (combine coeffs basis)
            (repeat 0%Q (length (hd [] basis))).

Definition findSignedFeasibleSolution (basis : list (list Q))
    (leftLen rightLen : nat) : option (list Q) :=
  match basis with
  | [] => None
  | [b0] =>
      find allPositiveUpToSign (map (fun s => map (Qmult s) b0) [1; -1]%Q)
  | _ =>
      find allPositiveUpToSign (map (combination basis) (combos (length basis)))
  end.

(** The functions of the first listing whose names the second listing uses
    again. *)
Module FirstListing.

(** [gcd2] of [gcdArray]; as in [gcd] the remainders decrease. *)
Fixpoint gcd2_loop (fuel : nat) (a b : Z) : Z :=
  match fuel with
  | O => Z.abs a
  | S fuel => if b =? 0 then Z.abs a else gcd2_loop fuel b (Z.rem a b)
  end.

Definition gcd2 (a b : Z) : Z := gcd2_loop (S (Z.to_nat (Z.abs b))) a b.

Definition gcdArray (arr : list Z) : Z :=
  let g := fold_left gcd2 arr 0 in
  if g =? 0 then 1 else g.

(** [Math.round]: the nearest integer, a half going up.  The argument is
    the exact rational here and a double in the code; the two round alike
    unless the rational lies within the rounding error of a double from a
    half. *)
Definition round (x : Q) : Z := Qfloor (x + (1 # 2)).

(** [x * 1e6] is the product of rationals here, and [ints] the quotients
    by the common divisor [g]. *)
Definition toIntegerCoefficients (v : list Q) (leftLen rightLen : nat)
  : Solution :=
  let neg := count (fun x => Qltb x 0) v in
  let pos := (length v - neg)%nat in
  let v := if Nat.ltb pos neg then map Qopp v else v in
  let all := map Qabs v in
  let scaled := map (fun x => round (x * 1000000)) all in
  let g := gcdArray scaled in
  let ints := map (fun x => x / g) scaled in
  mkLR (firstn leftLen ints) (skipn leftLen ints).

Definition analyzeBalanceability (leftFormulas rightFormulas : list jsstring)
    (countFn : jsstring -> ElementCount) : Balanceability :=
  let A := map (map inject_Z)
             (A (buildElementMatrix leftFormulas rightFormulas countFn)) in
  if Nat.eqb (length A) 0 then mkBal false 0 None
  else
    let basis := nullspace A in
    let nullity := length basis in
    if Nat.eqb nullity 0 then mkBal false nullity None
    else
      match findSignedFeasibleSolution basis (length leftFormulas)
              (length rightFormulas) with
      | None => mkBal false nullity None
      | Some v =>
          mkBal true nullity
            (Some (toIntegerCoefficients v (length leftFormulas)
                     (length rightFormulas)))
      end.

Definition solveEquation (leftFormulas rightFormulas : list jsstring)
    (countFn : jsstring -> ElementCount) : option Solution :=
  let r := analyzeBalanceability leftFormulas rightFormulas countFn in
  if negb (balanceableAllSpecies r) then None else suggestion r.

End FirstListing.

Definition f_FeNO3_9H2O : jsstring :=
  js "Fe(NO3)3" ++ ch_middle_dot :: js "9H2O".
Definition eq_propane_unicode : jsstring :=
  js "C3H8 + O2 " ++ ch_rightwards_arrow :: js " CO2 + H2O".

(** The occurrences of [sep] in [s], position by position. *)
Fixpoint positions (sep s : jsstring) : nat :=
  match s with
  | [] => O
  | _ :: r => ((if isPrefix sep s then 1 else 0) + positions sep r)%nat
  end.

(** [parts.join(sep)] *)
Fixpoint join (sep : jsstring) (parts : list jsstring) : jsstring :=
  match parts with
  | [] => []
  | [p] => p
  | p :: parts' => p ++ sep ++ join sep parts'
  end.

(** The loop of [tokensToCounts] taken up with the tokens [rest] still to
    read and the accumulators [stack]; [tokensToCounts tokens] is
    [resume tokens [[]]]. *)
Definition resume (rest : list Token) (stack : list CountMap)
  : outcome (option CountMap) :=
  go (S (length rest)) rest stack.

(** Every entry is beyond the tolerance, all on the same side. *)
Definition beyondTolerance (v : list Q) : Prop :=
  Forall (fun x => EPS < x)%Q v \/
  (v <> [] /\ Forall (fun x => x < - EPS)%Q v).

(** A tuple of [B] integer coefficients within [-3, 3]. *)
Definition inBound (B : nat) (ks : list Z) : Prop :=
  length ks = B /\ Forall (fun k => -3 <= k <= 3) ks.

(** The integer matrix as a matrix of the first listing. *)
Definition Qmat (A : list (list Z)) : list (list Q) := map (map inject_Z) A.

(** The matrix of [H10000000000000 + O2 -> H + O2] and its null space. *)
Definition tinyMatrix : list (list Q) :=
  Qmat (A (buildElementMatrix [js "H10000000000000"; js "O2"]
             [js "H"; js "O2"] countFormula)).
Definition tinyBasis : list (list Q) := nullspace tinyMatrix.

(** The matrix of [H2 + O2 -> H2O + H2O2]. *)
Definition peroxideMatrix : list (list Q) :=
  Qmat (A (buildElementMatrix [js "H2"; js "O2"] [js "H2O"; js "H2O2"]
             countFormula)).

(** A fraction as the comment on [Frac] wants it: [den > 0]. *)
Definition wfFrac (f : Frac) : Prop := 0 < den f.

(** The state of the elimination is in order for [m] rows. *)
Definition elimOk (m : nat) (st : ElimState) : Prop :=
  length (B st) = m /\ length (b st) = m /\
  Forall (Forall wfFrac) (B st) /\ Forall wfFrac (b st).

(** The call returns or raises a [TypeError]: it neither raises the error of
    [makeFrac] nor runs out of fuel. *)
Definition returnsOrTypeError {X} (o : outcome X) : Prop :=
  match o with
  | Returned _ | TypeError => True
  | ZeroDenominator | OutOfFuel | Inexact => False
  end.

(** The next token is not a standalone integer ([nxt] is [undefined] or of
    another type). *)
Definition notNum (rest : list Token) : bool :=
  match rest with
  | TNum _ :: _ => false
  | _ => true
  end.

(** What a token carries: [Pn] of a standalone integer, [Pe] of the symbol
    and the multiplicity of an element. *)
Definition tokenEntryOk (Pn : Z -> Prop) (Pe : jsstring -> Z -> Prop)
    (t : Token) : Prop :=
  match t with
  | TElem symbol count => Pe symbol count
  | TNum value => Pn value
  | _ => True
  end.

(** The numbers a token carries. *)
Definition tokenOk (Pn : Z -> Prop) (t : Token) : Prop :=
  match t with
  | TElem _ count => Pn count
  | TNum value => Pn value
  | _ => True
  end.

Definition entriesOk (Pe : jsstring -> Z -> Prop) (m : list (jsstring * Z))
  : Prop :=
  Forall (fun kv => Pe (fst kv) (snd kv)) m.

Definition valuesOk (Pn : Z -> Prop) (m : list (jsstring * Z)) : Prop :=
  Forall (fun kv => Pn (snd kv)) m.

(** An element symbol as the tokenizer makes it: an upper-case letter, then
    at most one lower-case letter.  (It is not the decimal form of an array
    index, and it has no letter outside ASCII.) *)
Definition isSymbol (k : jsstring) : bool :=
  match k with
  | [c] => isUpper c
  | [c; d] => isUpper c && isLower d
  | _ => false
  end.

Definition keys (m : list (jsstring * Z)) : list jsstring := map fst m.

(** The lexicographic order of strings by code units. *)
Inductive lex_lt : jsstring -> jsstring -> Prop :=
| lex_lt_nil : forall y b, lex_lt [] (y :: b)
| lex_lt_head : forall x y a b, (x < y)%N -> lex_lt (x :: a) (y :: b)
| lex_lt_tail : forall x a b, lex_lt a b -> lex_lt (x :: a) (x :: b).

(** The loop [for (const [k, n] of entries) pushCounts(acc, k, g(n))]. *)
Definition pushAll (g : Z -> Z) (acc : CountMap) (entries : list (jsstring * Z))
  : CountMap :=
  fold_left (fun acc kv => pushCounts acc (fst kv) (g (snd kv))) entries acc.

(** The operation returns a fraction with a positive denominator. *)
Definition returnsWf (o : outcome Frac) : Prop :=
  exists f, o = Returned f /\ wfFrac f.

(** The order the comparator of the sort accepts: [a] may stand before [b]. *)
Definition entryLe (a b : jsstring * Z) : Prop :=
  localeCompare (fst a) (fst b) <> Gt.

(** The loop over the basis of [findSignedFeasibleSolution], from any
    vector [v]. *)
Definition sumScaled (v : list Q) (cbs : list (Q * list Q)) : list Q :=
  fold_left (fun v cb => addScaled v (fst cb) (snd cb)) cbs v.

(* ===================================================================== *)
(** ** parser.ts: the species of a chunk *)
(* ===================================================================== *)

(** The characters [.] of a regular expression does not match. *)
Definition isLineTerminator (c : N) : bool :=
  ((c =? 10) || (c =? 13) || (c =? 8232) || (c =? 8233))%N.

Record Species := mkSpecies { coeff : Z; formula : jsstring }.

(** [parseSpecies]: the regular expression (white space, one or more digits
    in the first group, white space, any characters but line terminators in
    the second group, anchored at both ends) matches when, after the leading
    white space, there is a digit, and what follows the digits and the white
    space after them holds no line terminator: the second group must reach
    the end of the string, and giving characters back cannot remove a line
    terminator from what is left to match.  The white space and the digits
    are then taken greedily. *)
Definition parseSpecies (raw : jsstring) : Species :=
  let afterSpace := dropWhile isWhite raw in
  let digits := takeWhile isDigit afterSpace in
  let rest := dropWhile isWhite (dropWhile isDigit afterSpace) in
  match digits with
  | _ :: _ =>
      if existsb isLineTerminator rest then mkSpecies 1 (trim raw)
      else mkSpecies (parseInt digits) (trim rest)
  | [] => mkSpecies 1 (trim raw)
  end.

(** No white space at either end. *)
Definition trimmed (s : jsstring) : Prop :=
  match s with [] => True | c :: _ => isWhite c = false end /\
  match rev s with [] => True | c :: _ => isWhite c = false end.

(** The characters that are arrows by themselves. *)
Definition isUnicodeArrow (c : N) : bool :=
  ((c =? ch_equilibrium) || (c =? ch_long_left_right)
   || (c =? ch_double_arrow) || (c =? ch_rightwards_arrow))%N.

(* ===================================================================== *)
(** ** Well-nested token sequences and what they denote *)
(* ===================================================================== *)

(** The token sequences of formulas whose delimiters nest: a sequence of
    elements, elements with an integer in front, groups with or without an
    integer behind, and groups with an integer in front.  The opening and
    the closing delimiter of a group are any of the code's sets, not
    necessarily of the same family. *)
Inductive Parts :=
| PEnd
| PElem (symbol : jsstring) (multiplicity : Z) (next : Parts)
| PNumElem (n : Z) (symbol : jsstring) (multiplicity : Z) (next : Parts)
| PGroup (opener closer : jsstring) (body : Parts) (mult : option Z)
         (next : Parts)
| PNumGroup (n : Z) (opener closer : jsstring) (body : Parts) (next : Parts).

Fixpoint flatten (p : Parts) : list Token :=
  match p with
  | PEnd => []
  | PElem s c next => TElem s c :: flatten next
  | PNumElem n s c next => TNum n :: TElem s c :: flatten next
  | PGroup o c body mult next =>
      TParen o :: flatten body ++ TParen c ::
        match mult with
        | Some m => TNum m :: flatten next
        | None => flatten next
        end
  | PNumGroup n o c body next =>
      TNum n :: TParen o :: flatten body ++ TParen c :: flatten next
  end.

Definition startsWithNum (p : Parts) : bool :=
  match p with
  | PNumElem _ _ _ _ | PNumGroup _ _ _ _ _ => true
  | _ => false
  end.

(** The delimiters are delimiters, and a group without an integer behind it
    is not followed by an integer (which would be read as the group's). *)
Fixpoint wellNested (p : Parts) : bool :=
  match p with
  | PEnd => true
  | PElem _ _ next => wellNested next
  | PNumElem _ _ _ next => wellNested next
  | PGroup o c body mult next =>
      set_has openers o && set_has closers c && wellNested body
      && wellNested next
      && match mult with None => negb (startsWithNum next) | Some _ => true end
  | PNumGroup _ o c body next =>
      set_has openers o && set_has closers c && wellNested body
      && wellNested next
  end.

(** The accumulator after the parts were read into [top]. *)
Fixpoint evalParts (p : Parts) (top : CountMap) : CountMap :=
  match p with
  | PEnd => top
  | PElem s c next => evalParts next (pushCounts top s c)
  | PNumElem n s c next => evalParts next (pushCounts top s (c * n))
  | PGroup _ _ body mult next =>
      evalParts next
        (mergeScaled top (evalParts body [])
           match mult with Some m => m | None => 1 end)
  | PNumGroup n _ _ body next =>
      evalParts next
        (mergeScaled top (mergeScaled [] (evalParts body []) 1) n)
  end.







(* ===================================================================== *)
(** ** parser.ts: [mergeElements]; the counts of the playground *)
(* ===================================================================== *)

(** [Array.from(new Set([...Object.keys(lhs), ...Object.keys(rhs)])).sort(...)] *)
Definition mergeElements (lhs rhs : ElementCount) : list jsstring :=
  sortStrings (dedup [] (keys lhs ++ keys rhs)).

(** The sum over a list of objects of the count of [e] ([0] where [e] is
    not a key). *)
Definition countIn (l : list ElementCount) (e : jsstring) : Z :=
  fold_right (fun c acc => orZero (map_get c e) + acc) 0 l.

(** The atoms of [e] on one side of an equation: the counts of the
    formulas, each times its coefficient. *)
Fixpoint atoms (countFn : jsstring -> ElementCount) (formulas : list jsstring)
    (coeffs : list Z) (e : jsstring) : Z :=
  match formulas, coeffs with
  | f :: formulas', k :: coeffs' =>
      orZero (map_get (countFn f) e) * k + atoms countFn formulas' coeffs' e
  | _, _ => 0
  end.

(** components/EquationBalancerPlayground.tsx: what the component computes
    from the species and the coefficients the user has set, with sums and
    differences of integers; [Safe.counts] is the same on the numbers of
    the code. *)
Module Playground.


(** [species.map((sp, idx) => multiplyCounts(countElementsInFormula(sp.formula),
    coeffs[idx] ?? sp.coeff))], from index [idx] on. *)
Fixpoint sideCounts (idx : nat) (species : list Species) (coeffs : list Z)
  : outcome (list ElementCount) :=
  match species with
  | [] => Returned []
  | sp :: species' =>
      c <- countElementsInFormula (formula sp) ;;
      cs <- sideCounts (S idx) species' coeffs ;;
      Returned (multiplyCounts c (nth idx coeffs (coeff sp)) :: cs)
  end.

Record Counts := mkCounts {
  leftCounts : list ElementCount;
  rightCounts : list ElementCount;
  leftSum : ElementCount;
  rightSum : ElementCount;
  diff : ElementCount;
  elements : list jsstring;
  balanced : bool
}.

Definition counts (species : LeftRight Species) (coeffs : LeftRight Z)
  : outcome Counts :=
  leftCounts <- sideCounts 0 (left species) (left coeffs) ;;
  rightCounts <- sideCounts 0 (right species) (right coeffs) ;;
  let leftSum := sumCounts leftCounts in
  let rightSum := sumCounts rightCounts in
  let elements := mergeElements leftSum rightSum in
  let diff :=
    fromEntries
      (map (fun el => (el, orZero (map_get leftSum el)
                           - orZero (map_get rightSum el)))
           elements) in
  let balanced :=
    forallb (fun d => d =? 0) (map snd diff)
    && Nat.ltb 0 (length elements) in
  Returned (mkCounts leftCounts rightCounts leftSum rightSum diff elements
              balanced).

End Playground.

(* ===================================================================== *)
(** ** The rational number a fraction stands for *)
(* ===================================================================== *)

Definition value (f : Frac) : Q := Qmake (num f) (Z.to_pos (den f)).

(** [den > 0, always reduced]: the invariant the source states for [Frac]. *)
Definition reduced (f : Frac) : Prop :=
  0 < den f /\ Z.gcd (num f) (den f) = 1.

(** The coefficients the playground multiplies by: [coeffs[idx] ?? sp.coeff]
    for the species from index [idx] on. *)
Fixpoint effective (idx : nat) (species : list Species) (coeffs : list Z)
  : list Z :=
  match species with
  | [] => []
  | sp :: species' => nth idx coeffs (coeff sp) :: effective (S idx) species' coeffs
  end.

(** The integers [fracsToIntegerCoeffs] makes of the fractions, before
    [| 0]: every numerator times the common denominator over its own. *)
Definition scaledNumerators (fv : list Frac) : list Z :=
  let commonDen := fold_left (fun cd f => lcm cd (den f)) fv 1 in
  map (fun f => num f * (commonDen / den f)) fv.

(** The integers [| 0] leaves as they are. *)
Definition fitsInt32 (x : Z) : bool := (- 2 ^ 31 <=? x) && (x <? 2 ^ 31).

(* ===================================================================== *)
(** ** Formula texts *)
(* ===================================================================== *)











(* ===================================================================== *)
(** ** The linear system the elimination works on *)
(* ===================================================================== *)

(** The linear form of a row of fractions at a rational point. *)
Fixpoint dotQ (r : list Frac) (y : list Q) : Q :=
  match r, y with
  | f :: r', q :: y' => (value f * q + dotQ r' y')%Q
  | _, _ => 0%Q
  end.

Definition entryF (Bm : list (list Frac)) (r c : nat) : Frac :=
  nth c (nth r Bm []) zeroFrac.

(** [y] is a solution of [Bm y = bv]. *)
Definition satisfies (y : list Q) (Bm : list (list Frac)) (bv : list Frac)
  : Prop :=
  forall r, (r < length Bm)%nat ->
            (dotQ (nth r Bm []) y == value (nth r bv zeroFrac))%Q.

(** The row [row] of the integer matrix at a rational point. *)
Fixpoint rowSumQ (row : list Z) (y : list Q) : Q :=
  match row, y with
  | a :: row', q :: y' => (inject_Z a * q + rowSumQ row' y')%Q
  | _, _ => 0%Q
  end.

(** [y] is a solution of [A y = 0]. *)
Definition solves (A0 : list (list Z)) (y : list Q) : Prop :=
  Forall (fun row => (rowSumQ row y == 0)%Q) A0.

(** The state of the elimination before the column [col] is looked at:
    the rows from [row] on are zero left of [col], every column with a pivot
    is a unit column, the pivot rows are the rows above [row], and the
    system has the solutions of the system it started from. *)
Record ElimInv (m nvars : nat) (B0 : list (list Frac)) (b0 : list Frac)
    (col : nat) (st : ElimState) : Prop := mkElimInv {
  inv_rows : length (B st) = m;
  inv_rhs : length (b st) = m;
  inv_width : Forall (fun r => length r = nvars) (B st);
  inv_pivs : length (pivotRowForCol st) = nvars;
  inv_wfB : Forall (Forall wfFrac) (B st);
  inv_wfb : Forall wfFrac (b st);
  inv_zero :
    forall r j, (row st <= r < m)%nat -> (j < col)%nat ->
                num (entryF (B st) r j) = 0;
  inv_pivot :
    forall c r, nth c (pivotRowForCol st) None = Some r ->
                (c < col)%nat /\ (r < row st)%nat /\ (r < m)%nat /\
                (value (entryF (B st) r c) == 1)%Q /\
                forall r', (r' < m)%nat -> r' <> r ->
                           num (entryF (B st) r' c) = 0;
  inv_distinct :
    forall c c' r, nth c (pivotRowForCol st) None = Some r ->
                   nth c' (pivotRowForCol st) None = Some r -> c = c';
  inv_covered :
    forall r, (r < row st)%nat ->
              exists c, nth c (pivotRowForCol st) None = Some r;
  inv_same :
    forall y, length y = nvars ->
              (satisfies y (B st) (b st) <-> satisfies y B0 b0)
}.

(** What the elimination reads off its final state: the right-hand side of
    the pivot row for a column with a pivot, 0 for a free column. *)
Definition readOut (st : ElimState) (c : nat) : Frac :=
  match nth c (pivotRowForCol st) None with
  | Some r => nth r (b st) zeroFrac
  | None => zeroFrac
  end.

(** The integers of the list have no common divisor but 1. *)
Definition primitive (x : list Z) : Prop :=
  forall d, 0 < d -> Forall (fun v => (d | v)) x -> d = 1.

(* ===================================================================== *)
(** * The code on JavaScript numbers *)
(* ===================================================================== *)

(** A JavaScript number is an IEEE double.  Every integer of magnitude at
    most [Number.MAX_SAFE_INTEGER] is a double, and on such integers [+],
    [-], [*], [%], [Math.abs], [| 0] and a division that leaves no
    remainder give the exact result whenever that result is such an integer
    again.  Outside this range the code rounds, overflows to [Infinity] or
    yields [NaN], none of which is an integer of [Z].

    The definitions above compute with [Z] throughout.  The definitions of
    the module [Safe] are the same code with every arithmetic operation
    checked: an operation on safe integers with a safe integer as its exact
    result returns it, and any other ends the run with [Inexact].  A run of
    [Safe] that returns or raises therefore does what the code does; a run
    that ends with [Inexact] says nothing. *)
Definition MAX_SAFE_INTEGER : Z := 2 ^ 53 - 1.

Definition isSafe (x : Z) : bool :=
  (- MAX_SAFE_INTEGER <=? x) && (x <=? MAX_SAFE_INTEGER).

(** Two outcomes raise the same error (or both left the safe range). *)
Definition sameError {X Y} (x : outcome X) (y : outcome Y) : Prop :=
  match x, y with
  | TypeError, TypeError => True
  | ZeroDenominator, ZeroDenominator => True
  | OutOfFuel, OutOfFuel => True
  | Inexact, Inexact => True
  | _, _ => False
  end.

(** The checked run [g] agrees with the unchecked one [p] unless it has left
    the safe range. *)
Definition agrees {X} (g p : outcome X) : Prop := g = Inexact \/ g = p.

(** A count function that cannot raise, made of one that can. *)
Definition total (countFn : jsstring -> outcome ElementCount) (f : jsstring)
  : ElementCount :=
  match countFn f with
  | Returned c => c
  | _ => []
  end.

Fixpoint foldM {X Y} (f : Y -> X -> outcome Y) (l : list X) (acc : Y)
  : outcome Y :=
  match l with
  | [] => Returned acc
  | x :: l' => acc' <- f acc x ;; foldM f l' acc'
  end.

Module Safe.

(** A number the code holds. *)
Definition exact (x : Z) : outcome Z :=
  if isSafe x then Returned x else Inexact.

Definition add (x y : Z) : outcome Z :=
  if isSafe x && isSafe y then exact (x + y) else Inexact.
Definition sub (x y : Z) : outcome Z :=
  if isSafe x && isSafe y then exact (x - y) else Inexact.
Definition mul (x y : Z) : outcome Z :=
  if isSafe x && isSafe y then exact (x * y) else Inexact.

(** [x / y] where [y] divides [x]; any other quotient is no integer. *)
Definition div (x y : Z) : outcome Z :=
  if isSafe x && isSafe y && negb (y =? 0) && (x mod y =? 0)
  then Returned (x / y) else Inexact.

(** ** parser.ts *)

(** [parseInt(ds, 10)] on a non-empty run of decimal digits: the number
    the digits spell when it is a safe integer (a longer run is rounded,
    and one of 309 digits or more is [Infinity]). *)
Definition parseInt (ds : jsstring) : outcome Z := exact (parseInt ds).

Fixpoint tokenize_from (skip : nat) (s : jsstring) : outcome (list Token) :=
  match s with
  | [] => Returned []
  | c :: r =>
      match skip with
      | S k => tokenize_from k r
      | O =>
          if ((c =? ch_middle_dot) || (c =? ch_period))%N then
            ts <- tokenize_from 0 r ;; Returned (TDot :: ts)
          else if isBracket c then
            ts <- tokenize_from 0 r ;; Returned (TParen [c] :: ts)
          else if isUpper c then
            let '(sym, after) :=
              match r with
              | d :: r' => if isLower d then ([c; d], r') else ([c], r)
              | [] => ([c], r)
              end in
            let ds := takeWhile isDigit after in
            num <- match ds with [] => Returned 1 | _ => parseInt ds end ;;
            ts <- tokenize_from (length sym - 1 + length ds) r ;;
            Returned (TElem sym num :: ts)
          else if isDigit c then
            let ds := takeWhile isDigit s in
            num <- parseInt ds ;;
            ts <- tokenize_from (length ds - 1) r ;;
            Returned (TNum num :: ts)
          else tokenize_from 0 r
      end
  end.

Definition tokenizeFormula (formula : jsstring) : outcome (list Token) :=
  tokenize_from 0 (filter (fun c => negb (isWhite c)) formula).

(** [into.set(elem, (into.get(elem) || 0) + n)] *)
Definition pushCounts (into : CountMap) (elem : jsstring) (n : Z)
  : outcome CountMap :=
  v <- add (orZero (map_get into elem)) n ;;
  Returned (map_set into elem v).

(** [for (const [k, val] of group.entries()) pushCounts(top, k, val * mult)] *)
Fixpoint mergeScaled (top : CountMap) (group : list (jsstring * Z)) (mult : Z)
  : outcome CountMap :=
  match group with
  | [] => Returned top
  | (k, val) :: group' =>
      n <- mul val mult ;;
      top' <- pushCounts top k n ;;
      mergeScaled top' group' mult
  end.

(** The same loop when [top] is [stack.at(-1)]; on an empty stack the first
    product is computed and the first [pushCounts] raises. *)
Definition mergeIntoTop (stack : list CountMap) (group : CountMap) (mult : Z)
  : outcome (list CountMap) :=
  match stack with
  | top :: below =>
      top' <- mergeScaled top group mult ;; Returned (top' :: below)
  | [] =>
      match group with
      | [] => Returned []
      | (_, val) :: _ => _ <- mul val mult ;; TypeError
      end
  end.

(** The loop of [tokensToCounts], as [go] above. *)
Fixpoint go (fuel : nat) (rest : list Token) (stack : list CountMap)
  : outcome (option CountMap) :=
  match fuel with
  | O => OutOfFuel
  | S fuel =>
      match rest with
      | [] => Returned (bottom stack)
      | TElem symbol count :: rest' =>
          match stack with
          | top :: below =>
              top' <- pushCounts top symbol count ;;
              go fuel rest' (top' :: below)
          | [] => TypeError
          end
      | TParen v :: rest' =>
          if set_has openers v then go fuel rest' ([] :: stack)
          else if set_has closers v then
            match stack with
            | [] => TypeError
            | group :: stack' =>
                let '(mult, rest'') :=
                  match rest' with
                  | TNum m :: r => (m, r)
                  | _ => (1, rest')
                  end in
                stack'' <- mergeIntoTop stack' group mult ;;
                go fuel rest'' stack''
            end
          else go fuel rest' stack
      | TDot :: rest' =>
          match rest' with
          | TNum n :: suffix =>
              sub <- go fuel suffix [[]] ;;
              match sub with
              | Some sub =>
                  stack' <- mergeIntoTop stack sub n ;;
                  Returned (bottom stack')
              | None => TypeError
              end
          | _ => go fuel rest' stack
          end
      | TNum n :: rest' =>
          match rest' with
          | [] => go fuel rest' stack
          | TElem symbol count :: r =>
              k <- mul count n ;;
              match stack with
              | top :: below =>
                  top' <- pushCounts top symbol k ;;
                  go fuel r (top' :: below)
              | [] => TypeError
              end
          | TParen v :: _ =>
              if hasOpener v then
                let '(group, after) := scanGroup 0 rest' in
                sub <- go fuel group [[]] ;;
                match sub with
                | Some sub =>
                    stack' <- mergeIntoTop stack sub n ;;
                    go fuel after stack'
                | None => TypeError
                end
              else go fuel rest' stack
          | _ => go fuel rest' stack
          end
      end
  end.

Definition tokensToCounts (tokens : list Token) : outcome (option CountMap) :=
  go (S (length tokens)) tokens [[]].

Definition countElementsInFormula (formula : jsstring) : outcome ElementCount :=
  tokens <- tokenizeFormula formula ;;
  counts <- tokensToCounts tokens ;;
  match counts with
  | Some counts => Returned (fromEntries (sortEntries counts))
  | None => TypeError
  end.

(** [for (const [el, n] of Object.entries(counts)) out[el] = n * k] *)
Definition multiplyCounts (counts : ElementCount) (k : Z) : outcome ElementCount :=
  foldM (fun out kv => v <- mul (snd kv) k ;; Returned (map_set out (fst kv) v))
        counts [].

Definition sumCounts (list : list ElementCount) : outcome ElementCount :=
  out <- foldM (fun out obj =>
                  foldM (fun out kv => pushCounts out (fst kv) (snd kv)) obj out)
               list [] ;;
  Returned (fromEntries (sortEntries out)).

(** ** solver.ts (second listing) *)

(** The count function may raise, and what it raises leaves
    [buildElementMatrix] on the first call, in the [flatMap].  The entries
    are then filled from further calls on the same formulas, which return
    what they returned before. *)
Definition buildElementMatrix (leftFormulas rightFormulas : list jsstring)
    (countFn : jsstring -> outcome ElementCount) : outcome ElementMatrix :=
  allKeys <- mapM (fun f => c <- countFn f ;; Returned (map fst c))
                  (leftFormulas ++ rightFormulas) ;;
  let elements := sortStrings (dedup [] (concat allKeys)) in
  A <- mapM (fun el =>
               l <- mapM (fun f => counts <- countFn f ;;
                                   exact (orZero (map_get counts el)))
                         leftFormulas ;;
               r <- mapM (fun f => counts <- countFn f ;;
                                   v <- exact (orZero (map_get counts el)) ;;
                                   Returned (- v))
                         rightFormulas ;;
               Returned (l ++ r))
            elements ;;
  Returned (mkEM A elements).

Definition lcm (a b : Z) : outcome Z :=
  q <- div a (gcd a b) ;; mul q b.

Definition fAdd (a b : Frac) : outcome Frac :=
  x <- mul (num a) (den b) ;;
  y <- mul (num b) (den a) ;;
  n <- add x y ;;
  d <- mul (den a) (den b) ;;
  makeFrac n d.
Definition fSub (a b : Frac) : outcome Frac :=
  x <- mul (num a) (den b) ;;
  y <- mul (num b) (den a) ;;
  n <- sub x y ;;
  d <- mul (den a) (den b) ;;
  makeFrac n d.
Definition fMul (a b : Frac) : outcome Frac :=
  n <- mul (num a) (num b) ;;
  d <- mul (den a) (den b) ;;
  makeFrac n d.
Definition fDiv (a b : Frac) : outcome Frac :=
  n <- mul (num a) (den b) ;;
  d <- mul (den a) (num b) ;;
  makeFrac n d.

Definition eliminateRow (col : nat) (pivRow : list Frac) (pivb : Frac)
    (Br : list Frac) (br : Frac) : outcome (list Frac * Frac) :=
  let factor := nth col Br zeroFrac in
  if num factor =? 0 then Returned (Br, br)
  else
    Br' <- map2FromM (fun x p => t <- fMul factor p ;; fSub x t) col Br pivRow ;;
    t <- fMul factor pivb ;;
    br' <- fSub br t ;;
    Returned (Br', br').

Fixpoint eliminateRows (col row : nat) (pivRow : list Frac) (pivb : Frac)
    (r : nat) (Bs : list (list Frac)) (bs : list Frac)
  : outcome (list (list Frac) * list Frac) :=
  match Bs, bs with
  | Br :: Bs', br :: bs' =>
      '(Br', br') <-
        (if Nat.eqb r row then Returned (Br, br)
         else eliminateRow col pivRow pivb Br br) ;;
      '(Bs'', bs'') <- eliminateRows col row pivRow pivb (S r) Bs' bs' ;;
      Returned (Br' :: Bs'', br' :: bs'')
  | _, _ => Returned ([], [])
  end.

Definition eliminateCol (m col : nat) (st : ElimState) : outcome ElimState :=
  let pivot := findPivot (skipn (row st) (B st)) (row st) col in
  if Nat.eqb pivot m then Returned st
  else
    let B1 := swap [] (B st) pivot (row st) in
    let b1 := swap zeroFrac (b st) pivot (row st) in
    let piv := nth col (nth (row st) B1 []) zeroFrac in
    Brow <- mapFromM (fun x => fDiv x piv) col (nth (row st) B1 []) ;;
    brow <- fDiv (nth (row st) b1 zeroFrac) piv ;;
    let B2 := update B1 (row st) Brow in
    let b2 := update b1 (row st) brow in
    '(B3, b3) <- eliminateRows col (row st) Brow brow 0 B2 b2 ;;
    Returned (mkElim B3 b3 (S (row st))
                (update (pivotRowForCol st) col (Some (row st)))).

Fixpoint eliminateCols (m : nat) (cols : list nat) (st : ElimState)
  : outcome ElimState :=
  match cols with
  | [] => Returned st
  | col :: cols' =>
      if Nat.ltb (row st) m
      then st' <- eliminateCol m col st ;; eliminateCols m cols' st'
      else Returned st
  end.

(** [A[i][j]] as a number: an entry that is missing is [undefined]. *)
Definition entryOf (Ai : list Z) (j : nat) : outcome Z :=
  match nth_error Ai j with
  | Some x => exact x
  | None => Inexact
  end.

Definition solveRationalForLastColumn (A : list (list Z))
  : outcome (option (list Frac)) :=
  let m := length A in
  let n := length (hd [] A) in
  if Nat.leb n 1 then Returned None
  else
    let nvars := (n - 1)%nat in
    B0 <- mapM (fun Ai => mapM (fun j => x <- entryOf Ai j ;; makeFrac x 1)
                               (seq 0 nvars)) A ;;
    b0 <- mapM (fun Ai => x <- entryOf Ai (n - 1) ;; makeFrac (- x) 1) A ;;
    st <- eliminateCols m (seq 0 nvars)
            (mkElim B0 b0 0 (repeat None nvars)) ;;
    x <- mapM (fun c =>
                 match nth c (pivotRowForCol st) None with
                 | Some r => Returned (nth r (b st) zeroFrac)
                 | None => makeFrac 0 1
                 end) (seq 0 nvars) ;;
    one <- makeFrac 1 1 ;;
    Returned (Some (x ++ [one])).

(** The vector [final] of [fracsToIntegerCoeffs], before the sanity check;
    [None] where the function has already returned [null]. *)
Definition candidate (fv : list Frac) : outcome (option (list Z)) :=
  match fv with
  | [] => Returned None
  | _ :: _ =>
      commonDen <- foldM (fun cd f => lcm cd (den f)) fv 1 ;;
      vec <- mapM (fun f => q <- div commonDen (den f) ;;
                            p <- mul (num f) q ;;
                            Returned (toInt32 p)) fv ;;
      if forallb (fun v => v =? 0) vec then Returned None
      else
        let neg := count (fun v => v <? 0) vec in
        let pos := count (fun v => 0 <? v) vec in
        let vec := if Nat.ltb pos neg then map Z.opp vec else vec in
        let absVec := map Z.abs vec in
        let g :=
          fold_left (fun acc v => if v =? 0 then acc else gcd acc v) absVec
                    (let a0 := hd 0 absVec in if a0 =? 0 then 1 else a0) in
        final <- mapM (fun v => div v g) absVec ;;
        Returned (Some final)
  end.

(** [for (j ...) s += A[i][j] * final[j]], from the sum [s] so far; a row
    longer than [final] multiplies by [undefined]. *)
Fixpoint rowSum (s : Z) (row final : list Z) : outcome Z :=
  match row with
  | [] => Returned s
  | a :: row' =>
      match final with
      | x :: final' =>
          p <- mul a x ;; s' <- add s p ;; rowSum s' row' final'
      | [] => Inexact
      end
  end.

(** The sanity check; it stops at the first row whose sum is not 0. *)
Fixpoint verifies (A : list (list Z)) (final : list Z) : outcome bool :=
  match A with
  | [] => Returned true
  | row :: A' =>
      s <- rowSum 0 row final ;;
      if s =? 0 then verifies A' final else Returned false
  end.

Definition fracsToIntegerCoeffs (fv : list Frac) (leftLen rightLen : nat)
    (A : list (list Z)) : outcome (option Solution) :=
  c <- candidate fv ;;
  match c with
  | None => Returned None
  | Some final =>
      ok <- verifies A final ;;
      if ok
      then Returned (Some (mkLR (firstn leftLen final) (skipn leftLen final)))
      else Returned None
  end.

Definition analyzeBalanceability (leftFormulas rightFormulas : list jsstring)
    (countFn : jsstring -> outcome ElementCount) : outcome Balanceability :=
  em <- buildElementMatrix leftFormulas rightFormulas countFn ;;
  let A := A em in
  if Nat.eqb (length A) 0 || Nat.eqb (length (hd [] A)) 0
  then Returned (mkBal false 0 None)
  else
    raw <- solveRationalForLastColumn A ;;
    match raw with
    | None => Returned (mkBal false 0 None)
    | Some raw =>
        suggestion <- fracsToIntegerCoeffs raw (length leftFormulas)
                        (length rightFormulas) A ;;
        match suggestion with
        | None => Returned (mkBal false 0 None)
        | Some s => Returned (mkBal true 1 (Some s))
        end
    end.

Definition solveEquation (leftFormulas rightFormulas : list jsstring)
    (countFn : jsstring -> outcome ElementCount) : outcome (option Solution) :=
  r <- analyzeBalanceability leftFormulas rightFormulas countFn ;;
  if negb (balanceableAllSpecies r) then Returned None
  else Returned (suggestion r).

(** ** components/EquationBalancerPlayground.tsx *)

Fixpoint sideCounts (idx : nat) (species : list Species) (coeffs : list Z)
  : outcome (list ElementCount) :=
  match species with
  | [] => Returned []
  | sp :: species' =>
      c <- countElementsInFormula (formula sp) ;;
      mc <- multiplyCounts c (nth idx coeffs (coeff sp)) ;;
      cs <- sideCounts (S idx) species' coeffs ;;
      Returned (mc :: cs)
  end.

Definition counts (species : LeftRight Species) (coeffs : LeftRight Z)
  : outcome Playground.Counts :=
  leftCounts <- sideCounts 0 (left species) (left coeffs) ;;
  rightCounts <- sideCounts 0 (right species) (right coeffs) ;;
  leftSum <- sumCounts leftCounts ;;
  rightSum <- sumCounts rightCounts ;;
  let elements := mergeElements leftSum rightSum in
  entries <- mapM (fun el =>
                     d <- sub (orZero (map_get leftSum el))
                              (orZero (map_get rightSum el)) ;;
                     Returned (el, d))
                  elements ;;
  let diff := fromEntries entries in
  let balanced :=
    forallb (fun d => d =? 0) (map snd diff)
    && Nat.ltb 0 (length elements) in
  Returned (Playground.mkCounts leftCounts rightCounts leftSum rightSum diff
              elements balanced).

End Safe.

(** The sanity check of [fracsToIntegerCoeffs] as the code computes it, on
    doubles (the primitive floats are the binary64 numbers of IEEE 754). *)
Module Doubles.

(** [for (j ...) s += A[i][j] * final[j]], from the sum [s] so far; a row
    longer than [final] multiplies by [undefined], which gives [NaN]. *)
Fixpoint rowSum (s : float) (row final : list float) : float :=
  match row with
  | [] => s
  | a :: row' =>
      match final with
      | x :: final' => rowSum (s + a * x)%float row' final'
      | [] => rowSum (s + a * nan)%float row' []
      end
  end.

(** [if (s !== 0) return null], row after row; [true] when no row has
    returned [null]. *)
Definition verifies (A : list (list float)) (final : list float) : bool :=
  forallb (fun row => PrimFloat.eqb (rowSum 0%float row final) 0%float) A.

End Doubles.

(* ===================================================================== *)
(** * Properties *)
(* ===================================================================== *)

(** ** Strings *)

Lemma str_eqb_eq (a b : jsstring) : str_eqb a b = true <-> a = b.
Proof.
  revert b; induction a as [|x a IH]; intros [|y b]; simpl; split;
    try congruence; try reflexivity.
  - intros H; apply andb_true_iff in H as [H1 H2].
    apply N.eqb_eq in H1; apply IH in H2; congruence.
  - intros H; injection H as -> ->.
    rewrite N.eqb_refl; simpl; now apply IH.
Qed.

Lemma str_eqb_refl (a : jsstring) : str_eqb a a = true.
Proof. now apply str_eqb_eq. Qed.

Lemma str_eqb_neq (a b : jsstring) : str_eqb a b = false <-> a <> b.
Proof.
  split.
  - intros H E; apply str_eqb_eq in E; congruence.
  - intros H; destruct (str_eqb a b) eqn:E; [|reflexivity].
    apply str_eqb_eq in E; contradiction.
Qed.

Lemma str_eqb_sym (a b : jsstring) : str_eqb a b = str_eqb b a.
Proof.
  destruct (str_eqb a b) eqn:E.
  - apply str_eqb_eq in E; subst; symmetry; apply str_eqb_refl.
  - symmetry; apply str_eqb_neq; apply str_eqb_neq in E; congruence.
Qed.

Lemma isPrefix_app (p s : jsstring) :
  isPrefix p s = true -> s = p ++ skipn (length p) s.
Proof.
  revert s; induction p as [|x p IH]; intros [|y s]; simpl; try congruence.
  intros H; apply andb_true_iff in H as [H1 H2].
  apply N.eqb_eq in H1; subst; f_equal; now apply IH.
Qed.

Lemma isPrefix_length (p s : jsstring) :
  isPrefix p s = true -> (length p <= length s)%nat.
Proof.
  revert s; induction p as [|x p IH]; intros [|y s]; simpl; try congruence;
    try lia.
  intros H; apply andb_true_iff in H as [_ H2]; apply IH in H2; lia.
Qed.

(** ** [split] *)

Lemma split_from_length (sep : jsstring) (s : jsstring) :
  forall skip cur,
    length (split_from sep skip cur s) = S (countOcc_from sep skip s).
Proof.
  induction s as [|c r IH]; intros skip cur; simpl; [reflexivity|].
  destruct skip as [|k]; [|apply IH].
  destruct (isPrefix sep (c :: r)); simpl; now rewrite IH.
Qed.

Lemma split_length (sep s : jsstring) :
  length (split sep s) = S (countOcc sep s).
Proof. apply split_from_length. Qed.

Lemma join_cons (sep p : jsstring) (parts : list jsstring) :
  parts <> [] -> join sep (p :: parts) = p ++ sep ++ join sep parts.
Proof. destruct parts; [congruence | reflexivity]. Qed.

Lemma split_from_nonempty (sep s : jsstring) skip cur :
  split_from sep skip cur s <> [].
Proof.
  intros H; apply (f_equal (@length _)) in H.
  rewrite split_from_length in H; discriminate.
Qed.

(** Joining the chunks with the separator gives the string back. *)
Lemma split_from_join (sep : jsstring) :
  sep <> [] ->
  forall s skip cur,
    (skip <= length s)%nat ->
    join sep (split_from sep skip cur s) = rev cur ++ skipn skip s.
Proof.
  intros Hsep; induction s as [|c r IH]; intros skip cur Hk; simpl.
  - destruct skip; simpl in *; [|lia]. now rewrite app_nil_r.
  - destruct skip as [|k]; simpl.
    + destruct (isPrefix sep (c :: r)) eqn:E.
      * rewrite join_cons by apply split_from_nonempty.
        pose proof (isPrefix_length _ _ E) as Hl.
        pose proof (isPrefix_app _ _ E) as Ha.
        destruct sep as [|x sep']; [congruence|].
        simpl in Hl, Ha |- *.
        rewrite IH by (rewrite Nat.sub_0_r; lia).
        rewrite Nat.sub_0_r; simpl.
        injection Ha as -> Ha. rewrite Ha at 2. reflexivity.
      * rewrite IH by lia. simpl. now rewrite <- app_assoc.
    + apply IH; simpl in Hk; lia.
Qed.

Lemma split_join (sep s : jsstring) :
  sep <> [] -> join sep (split sep s) = s.
Proof.
  intros H; unfold split; rewrite split_from_join; simpl; auto; lia.
Qed.

(** No chunk of a split at a single code unit holds that code unit. *)
Lemma split_from_char_free (c : N) (s : jsstring) :
  forall cur,
    ~ In c cur ->
    Forall (fun p => ~ In c p) (split_from [c] 0 cur s).
Proof.
  induction s as [|x r IH]; intros cur Hcur; simpl.
  - constructor; [|constructor]. now rewrite <- in_rev.
  - destruct (N.eqb_spec c x) as [->|Hne]; simpl.
    + constructor; [now rewrite <- in_rev|]. apply IH; simpl; tauto.
    + apply IH. simpl; intros [H|H]; [congruence | tauto].
Qed.

Lemma split_char_free (c : N) (s : jsstring) :
  Forall (fun p => ~ In c p) (split [c] s).
Proof. apply split_from_char_free; simpl; tauto. Qed.

(** For the arrow, which cannot overlap itself, the occurrences [split]
    cuts at are all the positions where the arrow stands. *)
Lemma countOcc_arrow_positions_aux (n : nat) :
  forall s, (length s <= n)%nat ->
    countOcc_from arrow 0 s = positions arrow s.
Proof.
  induction n as [|n IH]; intros s Hn.
  - destruct s; simpl in *; [reflexivity | lia].
  - destruct s as [|c r]; [reflexivity|].
    cbn [countOcc_from positions].
    destruct (isPrefix arrow (c :: r)) eqn:E.
    + unfold arrow in E; cbn [isPrefix] in E.
      destruct r as [|d r']; [now rewrite andb_false_r in E|].
      apply andb_true_iff in E as [_ E].
      rewrite andb_true_r in E. apply N.eqb_eq in E; subst d.
      cbn [arrow length Nat.sub countOcc_from positions].
      replace (isPrefix [ch_minus; ch_gt] (ch_gt :: r')) with false
        by reflexivity.
      simpl in Hn. rewrite IH by lia. reflexivity.
    + simpl in Hn. rewrite IH by lia. reflexivity.
Qed.

Lemma countOcc_arrow_positions (s : jsstring) :
  countOcc arrow s = positions arrow s.
Proof. apply (countOcc_arrow_positions_aux (length s)); lia. Qed.

Lemma splitEquation_none (eqn : jsstring) :
  splitEquation eqn = None <->
  positions arrow (normalizeArrow eqn) <> 1%nat.
Proof.
  unfold splitEquation.
  rewrite <- countOcc_arrow_positions.
  pose proof (split_length arrow (normalizeArrow eqn)) as H.
  destruct (split arrow (normalizeArrow eqn)) as [|p1 [|p2 [|p3 l]]];
    simpl in H; split; intros H'; try congruence; try lia.
Qed.

Lemma splitEquation_some (eqn : jsstring) (r : Sides) :
  splitEquation eqn = Some r ->
  exists lhs rhs,
    normalizeArrow eqn = lhs ++ arrow ++ rhs /\
    left r = chunks lhs /\ right r = chunks rhs.
Proof.
  unfold splitEquation; intros H.
  assert (Hj := split_join arrow (normalizeArrow eqn)).
  destruct (split arrow (normalizeArrow eqn)) as [|lhs [|rhs [|p3 l]]];
    try discriminate.
  injection H as <-. exists lhs, rhs; simpl.
  repeat split. symmetry; apply Hj. discriminate.
Qed.

(** ** [normalizeArrow] on the runs of dashes *)

Lemma dropWhile_repeat (c : N) (n : nat) (s : jsstring) :
  dropWhile (N.eqb c) (repeat c n ++ s) = dropWhile (N.eqb c) s.
Proof. induction n; simpl; [reflexivity|]. now rewrite N.eqb_refl. Qed.

Lemma takeWhile_repeat (c : N) (n : nat) (s : jsstring) :
  takeWhile (N.eqb c) (repeat c n ++ s) = repeat c n ++ takeWhile (N.eqb c) s.
Proof.
  induction n; simpl; [reflexivity|]. rewrite N.eqb_refl. now f_equal.
Qed.

Lemma replaceArrows_skip_all (s : jsstring) :
  forall k, (length s <= k)%nat -> replaceArrows k s = [].
Proof.
  induction s as [|c r IH]; intros k Hk; simpl; [reflexivity|].
  destruct k; simpl in Hk; [lia|]. apply IH; lia.
Qed.

Lemma normalizeArrow_dashes (n : nat) :
  normalizeArrow (ch_lt :: repeat ch_minus (S n) ++ [ch_gt]) = arrow.
Proof.
  unfold normalizeArrow. cbn [replaceArrows].
  assert (E : matchArrow (ch_lt :: repeat ch_minus (S n) ++ [ch_gt])
              = Some (S (S (S n)))).
  { cbn [matchArrow repeat app isPrefix].
    replace (ch_lt =? ch_equilibrium)%N with false by reflexivity.
    replace ((ch_lt =? ch_lt)%N && ((ch_eq =? ch_minus)%N && isPrefix [ch_gt]
               (repeat ch_minus n ++ [ch_gt]))) with false by reflexivity.
    replace (ch_lt =? ch_long_left_right)%N with false by reflexivity.
    replace (ch_lt =? ch_double_arrow)%N with false by reflexivity.
    replace (ch_lt =? ch_rightwards_arrow)%N with false by reflexivity.
    rewrite !N.eqb_refl. unfold runThenGt.
    change (ch_minus :: repeat ch_minus n ++ [ch_gt])
      with (repeat ch_minus (S n) ++ [ch_gt]).
    rewrite dropWhile_repeat, takeWhile_repeat.
    cbn [dropWhile takeWhile].
    replace (ch_minus =? ch_gt)%N with false by reflexivity.
    rewrite N.eqb_refl. cbn [option_map].
    rewrite app_nil_r, repeat_length. reflexivity. }
  rewrite E.
  rewrite replaceArrows_skip_all.
  - now rewrite app_nil_r.
  - rewrite length_app, repeat_length. simpl. lia.
Qed.

(** ** The claims on the equation splitter *)

(** C4.  [splitEquation] is a total function: no step of it can raise.  It
    answers [null] exactly when the normalized string does not hold exactly
    one arrow.  Otherwise the normalized string is [lhs], the arrow, [rhs],
    and each side of the answer is the list of the chunks of that part
    between the [+] signs (joining the chunks with [+] gives the part back
    and no chunk holds a [+]), trimmed, the empty ones dropped.  The two
    scenarios of the specification come out as stated. *)
Theorem splitEquation_exactly_one_arrow :
  (forall eqn : jsstring,
      (splitEquation eqn = None <->
       positions arrow (normalizeArrow eqn) <> 1%nat) /\
      (forall r, splitEquation eqn = Some r ->
         exists lhs rhs,
           normalizeArrow eqn = lhs ++ arrow ++ rhs /\
           left r = filter (fun s => negb (isEmpty s))
                      (map trim (split [ch_plus] lhs)) /\
           right r = filter (fun s => negb (isEmpty s))
                       (map trim (split [ch_plus] rhs)))) /\
  (forall side : jsstring,
      join [ch_plus] (split [ch_plus] side) = side /\
      Forall (fun chunk => ~ In ch_plus chunk) (split [ch_plus] side)) /\
  splitEquation (js "C3H8 + O2 -> CO2 + H2O")
    = Some (mkLR [js "C3H8"; js "O2"] [js "CO2"; js "H2O"]) /\
  splitEquation (js "H2 + O2 CO2 + H2O") = None.
Proof.
  split; [|split; [|split]].
  - intros eqn; split.
    + apply splitEquation_none.
    + intros r H. apply splitEquation_some in H. exact H.
  - intros side; split.
    + apply split_join; discriminate.
    + apply split_char_free.
  - reflexivity.
  - reflexivity.
Qed.

Lemma splitEquation_exactly_one_arrow_witness :
  exists lhs rhs,
    normalizeArrow (js "Fe + O2 => Fe2O3") = lhs ++ arrow ++ rhs /\
    [js "Fe"; js "O2"]
    = filter (fun s => negb (isEmpty s)) (map trim (split [ch_plus] lhs)) /\
    [js "Fe2O3"]
    = filter (fun s => negb (isEmpty s)) (map trim (split [ch_plus] rhs)).
Proof.
  destruct splitEquation_exactly_one_arrow as (H & _).
  destruct (H (js "Fe + O2 => Fe2O3")) as [_ H'].
  apply (H' (mkLR [js "Fe"; js "O2"] [js "Fe2O3"])).
  reflexivity.
Defined.

(** C10.  The ASCII two-way arrows are normalized too: [<=>] and [<], one or
    more [-], [>] each become the canonical arrow, and the equation
    [H2 + O2 <-> H2O] splits into its two sides. *)
Theorem splitEquation_ascii_bidirectional :
  normalizeArrow (js "<=>") = arrow /\
  (forall n : nat,
      normalizeArrow (ch_lt :: repeat ch_minus (S n) ++ [ch_gt]) = arrow) /\
  normalizeArrow (js "<--->") = arrow /\
  splitEquation (js "H2 + O2 <-> H2O")
    = Some (mkLR [js "H2"; js "O2"] [js "H2O"]).
Proof.
  split; [reflexivity|]. split; [apply normalizeArrow_dashes|].
  split; reflexivity.
Qed.

(** ** The evaluator: fuel *)

Lemma scanGroup_app (l : list Token) :
  forall depth, fst (scanGroup depth l) ++ snd (scanGroup depth l) = l.
Proof.
  induction l as [|u l IH]; intros depth; [reflexivity|].
  cbn [scanGroup].
  assert (C : forall d,
             fst (let '(g, rest) := scanGroup d l in (u :: g, rest))
             ++ snd (let '(g, rest) := scanGroup d l in (u :: g, rest))
             = u :: l).
  { intros d. specialize (IH d). destruct (scanGroup d l); simpl in *.
    now f_equal. }
  destruct u as [|v| |]; try apply C.
  destruct (hasOpener v); [apply C|].
  destruct (hasCloser v); [|apply C].
  destruct (depth - 1 =? 0); [reflexivity | apply C].
Qed.

Lemma scanGroup_lengths (l g after : list Token) (depth : Z) :
  scanGroup depth l = (g, after) ->
  (length g <= length l)%nat /\ (length after <= length l)%nat.
Proof.
  intros H. pose proof (scanGroup_app l depth) as E.
  rewrite H in E; simpl in E. subst l. rewrite length_app; lia.
Qed.

(** One unit of fuel more changes nothing once the fuel exceeds the number
    of tokens. *)
Lemma go_fuel_step (fuel : nat) :
  forall rest stack,
    (length rest < fuel)%nat ->
    go (S fuel) rest stack = go fuel rest stack.
Proof.
  induction fuel as [|fuel IH]; intros rest stack Hlen; [lia|].
  remember (S fuel) as f1 eqn:Ef1.
  destruct rest as [|t rest']; [subst; reflexivity|].
  simpl in Hlen.
  assert (IH' : forall r st, (length r <= length rest')%nat ->
                  go f1 r st = go fuel r st).
  { intros r st Hr. subst f1. apply IH. lia. }
  assert (Ht : forall r, (length (t :: r) <= length rest')%nat ->
                 (length r <= length rest')%nat) by (simpl; intros; lia).
  rewrite Ef1 at 2.
  cbn [go]. clear Ef1 IH Hlen.
  destruct t as [|v|symbol cnt|n].
  - destruct rest' as [|[| | |n] suffix];
      rewrite ?IH' by (simpl; lia); reflexivity.
  - destruct (set_has openers v); [apply IH'; lia|].
    destruct (set_has closers v); [|apply IH'; lia].
    destruct stack as [|group stack']; [reflexivity|].
    destruct rest' as [|[| | |m] r]; cbn beta iota;
      destruct (mergeIntoTop stack' group _); try reflexivity;
      apply IH'; simpl; lia.
  - destruct stack; [reflexivity|]. apply IH'; lia.
  - destruct rest' as [|[|v|symbol cnt|m] r].
    + apply IH'; lia.
    + apply IH'; lia.
    + destruct (hasOpener v); [|apply IH'; lia].
      destruct (scanGroup 0 (TParen v :: r)) as [g after] eqn:Es.
      apply scanGroup_lengths in Es as [Hg Ha].
      rewrite (IH' g) by exact Hg.
      destruct (go fuel g [[]]) as [[sub|]| | | |]; try reflexivity.
      destruct (mergeIntoTop stack sub n); try reflexivity.
      apply IH'; exact Ha.
    + destruct stack; [reflexivity|]. apply IH'; simpl; lia.
    + apply IH'; lia.
Qed.

Lemma go_fuel_enough (rest : list Token) (stack : list CountMap) (fuel : nat) :
  (length rest < fuel)%nat -> go fuel rest stack = resume rest stack.
Proof.
  unfold resume. intros H.
  induction fuel as [|fuel IH]; [lia|].
  destruct (Nat.eq_dec fuel (length rest)) as [->|Hne]; [reflexivity|].
  rewrite go_fuel_step by lia. apply IH; lia.
Qed.

(** The fuel [tokensToCounts] starts with is never used up: the call
    returns or raises a [TypeError]. *)
Lemma go_terminates (fuel : nat) :
  forall rest stack,
    (length rest < fuel)%nat -> returnsOrTypeError (go fuel rest stack).
Proof.
  induction fuel as [|fuel IH]; intros rest stack Hlen; [lia|].
  destruct rest as [|t rest']; [exact Logic.I|].
  simpl in Hlen.
  assert (IH' : forall r st, (length r <= length rest')%nat ->
                  returnsOrTypeError (go fuel r st)).
  { intros r st Hr. apply IH. lia. }
  cbn [go]. clear IH Hlen.
  destruct t as [|v|symbol cnt|n].
  - destruct rest' as [|[| | |n] suffix]; try (apply IH'; simpl; lia).
    pose proof (IH' suffix [[]]) as Hs.
    destruct (go fuel suffix [[]]) as [[sub|]| | | |]; try exact Logic.I;
      try (apply Hs; simpl; lia).
    destruct (mergeIntoTop stack sub n); exact Logic.I.
  - destruct (set_has openers v); [apply IH'; lia|].
    destruct (set_has closers v); [|apply IH'; lia].
    destruct stack as [|group stack']; [exact Logic.I|].
    destruct rest' as [|[| | |m] r]; cbn beta iota;
      destruct (mergeIntoTop stack' group _); try exact Logic.I;
      apply IH'; simpl; lia.
  - destruct stack; [exact Logic.I|]. apply IH'; lia.
  - destruct rest' as [|[|v|symbol cnt|m] r]; try (apply IH'; simpl; lia).
    + destruct (hasOpener v); [|apply IH'; lia].
      destruct (scanGroup 0 (TParen v :: r)) as [g after] eqn:Es.
      apply scanGroup_lengths in Es as [Hg Ha].
      pose proof (IH' g [[]] Hg) as Hs.
      destruct (go fuel g [[]]) as [[sub|]| | | |]; try exact Logic.I;
        try exact Hs.
      destruct (mergeIntoTop stack sub n); try exact Logic.I.
      apply IH'; exact Ha.
    + destruct stack; [exact Logic.I|]. apply IH'; simpl; lia.
Qed.

Lemma tokensToCounts_resume (tokens : list Token) :
  tokensToCounts tokens = resume tokens [[]].
Proof. reflexivity. Qed.

Lemma resume_terminates (rest : list Token) (stack : list CountMap) :
  returnsOrTypeError (resume rest stack).
Proof. apply go_terminates; lia. Qed.

(** [countElementsInFormula] returns or raises a [TypeError]. *)
Lemma countElementsInFormula_terminates (formula : jsstring) :
  returnsOrTypeError (countElementsInFormula formula).
Proof.
  unfold countElementsInFormula.
  pose proof (resume_terminates (tokenizeFormula formula) [[]]) as H.
  rewrite <- tokensToCounts_resume in H.
  destruct (tokensToCounts (tokenizeFormula formula)) as [[c|]| | | |];
    simpl in *; auto.
Qed.

(** ** Maps *)

Lemma map_get_set_same (m : CountMap) (k : jsstring) (v : Z) :
  map_get (map_set m k v) k = Some v.
Proof.
  induction m as [|[k' v'] m IH]; simpl.
  - now rewrite str_eqb_refl.
  - destruct (str_eqb k' k) eqn:E; simpl; rewrite E; auto.
Qed.

Lemma map_get_set_other (m : CountMap) (k e : jsstring) (v : Z) :
  k <> e -> map_get (map_set m k v) e = map_get m e.
Proof.
  intros Hne. induction m as [|[k' v'] m IH]; simpl.
  - apply str_eqb_neq in Hne. now rewrite Hne.
  - destruct (str_eqb k' k) eqn:E; simpl.
    + apply str_eqb_eq in E; subst k'.
      apply str_eqb_neq in Hne. now rewrite Hne.
    + now rewrite IH.
Qed.

Lemma map_get_none (m : CountMap) (k : jsstring) :
  map_get m k = None <-> ~ In k (keys m).
Proof.
  induction m as [|[k' v'] m IH]; simpl; [tauto|].
  destruct (str_eqb k' k) eqn:E.
  - apply str_eqb_eq in E; subst. split; [discriminate | tauto].
  - apply str_eqb_neq in E. rewrite IH. tauto.
Qed.


Lemma map_get_In (m : CountMap) (k : jsstring) (v : Z) :
  map_get m k = Some v -> In (k, v) m.
Proof.
  induction m as [|[k' v'] m IH]; simpl; [discriminate|].
  destruct (str_eqb k' k) eqn:E.
  - apply str_eqb_eq in E; subst. intros [= ->]. now left.
  - intros H; right; auto.
Qed.

Lemma In_map_get (m : CountMap) (k : jsstring) (v : Z) :
  NoDup (keys m) -> In (k, v) m -> map_get m k = Some v.
Proof.
  induction m as [|[k' v'] m IH]; simpl; [tauto|].
  intros Hnd [H|H]; inversion Hnd; subst.
  - injection H as -> ->. now rewrite str_eqb_refl.
  - destruct (str_eqb k' k) eqn:E; [|auto].
    apply str_eqb_eq in E; subst.
    exfalso. apply H2. change k with (fst (k, v)). now apply in_map.
Qed.

Lemma map_get_perm (l l' : CountMap) (e : jsstring) :
  NoDup (keys l) -> Permutation l l' -> map_get l e = map_get l' e.
Proof.
  intros Hnd Hp.
  assert (Hnd' : NoDup (keys l')).
  { eapply Permutation_NoDup; [|exact Hnd]. now apply Permutation_map. }
  destruct (map_get l e) eqn:E.
  - symmetry. apply In_map_get; auto.
    eapply Permutation_in; [exact Hp|]. now apply map_get_In.
  - symmetry. apply map_get_none. apply map_get_none in E.
    intros H; apply E. eapply Permutation_in; [|exact H].
    apply Permutation_map. now symmetry.
Qed.

Lemma keys_map_set (m : CountMap) (k : jsstring) (v : Z) :
  keys (map_set m k v) = if existsb (str_eqb k) (keys m) then keys m
                         else keys m ++ [k].
Proof.
  induction m as [|[k' v'] m IH]; simpl; [reflexivity|].
  rewrite (str_eqb_sym k k').
  destruct (str_eqb k' k) eqn:E; simpl; [reflexivity|].
  rewrite IH. unfold keys. destruct (existsb _ _); reflexivity.
Qed.

Lemma existsb_str_eqb (k : jsstring) (l : list jsstring) :
  existsb (str_eqb k) l = true <-> In k l.
Proof.
  rewrite existsb_exists. split.
  - intros (x & Hx & E). apply str_eqb_eq in E. now subst.
  - intros H. exists k. split; [exact H | apply str_eqb_refl].
Qed.

Lemma map_set_absent (m : CountMap) (k : jsstring) (v : Z) :
  ~ In k (keys m) -> map_set m k v = m ++ [(k, v)].
Proof.
  induction m as [|[k' v'] m IH]; simpl; [reflexivity|].
  intros H. destruct (str_eqb k' k) eqn:E.
  - apply str_eqb_eq in E. tauto.
  - f_equal. apply IH. tauto.
Qed.

Lemma map_set_NoDup (m : CountMap) (k : jsstring) (v : Z) :
  NoDup (keys m) -> NoDup (keys (map_set m k v)).
Proof.
  intros H. rewrite keys_map_set.
  destruct (existsb (str_eqb k) (keys m)) eqn:E; [exact H|].
  apply NoDup_app; [exact H | repeat constructor; simpl; tauto |].
  intros x Hx [<-|[]].
  apply existsb_str_eqb in Hx. congruence.
Qed.

Lemma map_set_in_keys (m : CountMap) (k e : jsstring) (v : Z) :
  In e (keys (map_set m k v)) <-> e = k \/ In e (keys m).
Proof.
  rewrite keys_map_set.
  destruct (existsb (str_eqb k) (keys m)) eqn:E.
  - apply existsb_str_eqb in E. split; [tauto|]. intros [->|H]; auto.
  - rewrite in_app_iff; simpl. intuition congruence.
Qed.

Lemma map_set_entries (Pe : jsstring -> Z -> Prop) (m : CountMap)
    (k : jsstring) (v : Z) :
  entriesOk Pe m -> Pe k v -> entriesOk Pe (map_set m k v).
Proof.
  unfold entriesOk. intros Hm Hv.
  induction m as [|[k' v'] m IH]; simpl.
  - repeat constructor; exact Hv.
  - inversion Hm; subst.
    destruct (str_eqb k' k) eqn:E; constructor; auto.
    apply str_eqb_eq in E. now subst.
Qed.

Lemma map_set_values (Pn : Z -> Prop) (m : CountMap) (k : jsstring) (v : Z) :
  valuesOk Pn m -> Pn v -> valuesOk Pn (map_set m k v).
Proof. apply (map_set_entries (fun _ => Pn)). Qed.

Lemma pushCounts_get (m : CountMap) (k e : jsstring) (n : Z) :
  orZero (map_get (pushCounts m k n) e)
  = orZero (map_get m e) + (if str_eqb k e then n else 0).
Proof.
  unfold pushCounts. destruct (str_eqb k e) eqn:E.
  - apply str_eqb_eq in E; subst. now rewrite map_get_set_same.
  - apply str_eqb_neq in E. rewrite map_get_set_other by exact E. lia.
Qed.

Lemma pushAll_get (g : Z -> Z) (entries : list (jsstring * Z)) :
  forall (acc : CountMap) (e : jsstring),
    NoDup (keys entries) ->
    orZero (map_get (pushAll g acc entries) e)
    = orZero (map_get acc e)
      + match map_get entries e with Some v => g v | None => 0 end.
Proof.
  unfold pushAll.
  induction entries as [|[k v] l IH]; intros acc e Hnd; simpl; [lia|].
  inversion Hnd; subst.
  rewrite IH by assumption. rewrite pushCounts_get.
  destruct (str_eqb k e) eqn:E.
  - apply str_eqb_eq in E; subst.
    apply map_get_none in H1. rewrite H1. lia.
  - lia.
Qed.

Lemma pushAll_keys (g : Z -> Z) (entries : list (jsstring * Z)) :
  forall (acc : CountMap) (e : jsstring),
    In e (keys (pushAll g acc entries)) <->
    In e (keys acc) \/ In e (keys entries).
Proof.
  unfold pushAll.
  induction entries as [|[k v] l IH]; intros acc e; simpl; [tauto|].
  rewrite IH. unfold pushCounts. rewrite map_set_in_keys.
  intuition congruence.
Qed.

Lemma pushAll_NoDup (g : Z -> Z) (entries : list (jsstring * Z)) :
  forall acc, NoDup (keys acc) -> NoDup (keys (pushAll g acc entries)).
Proof.
  unfold pushAll.
  induction entries as [|[k v] l IH]; intros acc H; simpl; [exact H|].
  apply IH. now apply map_set_NoDup.
Qed.



Lemma fromEntries_NoDup_aux (l : list (jsstring * Z)) :
  forall acc,
    NoDup (keys (acc ++ l)) ->
    fold_left (fun o kv => map_set o (fst kv) (snd kv)) l acc = acc ++ l.
Proof.
  induction l as [|[k v] l IH]; intros acc H; simpl.
  - now rewrite app_nil_r.
  - rewrite map_set_absent.
    + rewrite IH; rewrite <- app_assoc; [reflexivity | exact H].
    + unfold keys in H. rewrite map_app in H. simpl in H.
      apply NoDup_remove_2 in H. rewrite in_app_iff in H. tauto.
Qed.

(** On entries with distinct keys [Object.fromEntries] keeps the order. *)
Lemma fromEntries_NoDup (l : list (jsstring * Z)) :
  NoDup (keys l) -> fromEntries l = l.
Proof. intros H. apply (fromEntries_NoDup_aux l []). exact H. Qed.

(** ** The order of the keys *)

Lemma localeCompare_Lt (a b : jsstring) :
  localeCompare a b = Lt <-> lex_lt a b.
Proof.
  revert b; induction a as [|x a IH]; intros [|y b]; simpl.
  - split; [discriminate | inversion 1].
  - split; [constructor | reflexivity].
  - split; [discriminate | inversion 1].
  - destruct (N.compare_spec x y) as [->|H|H].
    + rewrite IH. split; [constructor; assumption|].
      inversion 1; subst; [lia | assumption].
    + split; [constructor; assumption | reflexivity].
    + split; [discriminate|]. inversion 1; subst; lia.
Qed.

Lemma localeCompare_Eq (a b : jsstring) :
  localeCompare a b = Eq <-> a = b.
Proof.
  revert b; induction a as [|x a IH]; intros [|y b]; simpl;
    try (split; [reflexivity + discriminate | reflexivity + discriminate]).
  destruct (N.compare_spec x y) as [->|H|H].
  - rewrite IH. split; congruence.
  - split; [discriminate|]. intros [= -> _]; lia.
  - split; [discriminate|]. intros [= -> _]; lia.
Qed.

Lemma localeCompare_antisym (a b : jsstring) :
  localeCompare b a = CompOpp (localeCompare a b).
Proof.
  revert b; induction a as [|x a IH]; intros [|y b]; simpl; try reflexivity.
  rewrite (N.compare_antisym x y).
  destruct (N.compare x y); simpl; auto.
Qed.

Lemma lex_lt_trans (a b c : jsstring) :
  lex_lt a b -> lex_lt b c -> lex_lt a c.
Proof.
  intros H; revert c; induction H; intros c Hc; inversion Hc; subst.
  - constructor.
  - constructor.
  - apply lex_lt_head; lia.
  - apply lex_lt_head; assumption.
  - apply lex_lt_head; assumption.
  - apply lex_lt_tail; auto.
Qed.

Lemma lex_lt_irrefl (a : jsstring) : ~ lex_lt a a.
Proof. induction a; inversion 1; subst; [lia | auto]. Qed.

Lemma insertEntry_perm (e : jsstring * Z) (l : list (jsstring * Z)) :
  Permutation (insertEntry e l) (e :: l).
Proof.
  induction l as [|e' l IH]; simpl; [reflexivity|].
  destruct (localeCompare (fst e) (fst e')); try reflexivity.
  rewrite IH. apply perm_swap.
Qed.

Lemma sortEntries_perm (l : list (jsstring * Z)) :
  Permutation (sortEntries l) l.
Proof.
  induction l as [|e l IH]; simpl; [reflexivity|].
  rewrite insertEntry_perm. now constructor.
Qed.

Lemma insertEntry_sorted (e : jsstring * Z) (l : list (jsstring * Z)) :
  Sorted entryLe l -> Sorted entryLe (insertEntry e l).
Proof.
  induction l as [|e' l IH]; simpl; intros H.
  - repeat constructor.
  - inversion H as [|? ? Hs Hh]; subst.
    destruct (localeCompare (fst e) (fst e')) eqn:E.
    + constructor; [exact H|]. constructor. unfold entryLe. congruence.
    + constructor; [exact H|]. constructor. unfold entryLe. congruence.
    + constructor; [auto|].
      assert (He : entryLe e' e).
      { unfold entryLe. rewrite localeCompare_antisym, E. discriminate. }
      destruct l as [|e'' l]; simpl.
      * constructor; exact He.
      * destruct (localeCompare (fst e) (fst e'')); constructor; auto;
          inversion Hh; assumption.
Qed.

Lemma sortEntries_sorted (l : list (jsstring * Z)) :
  Sorted entryLe (sortEntries l).
Proof.
  induction l as [|e l IH]; simpl; [constructor|].
  now apply insertEntry_sorted.
Qed.

(** Sorted entries with distinct keys have their keys in strictly
    increasing lexicographic order. *)
Lemma sorted_keys_strict (l : list (jsstring * Z)) :
  Sorted entryLe l -> NoDup (keys l) -> StronglySorted lex_lt (keys l).
Proof.
  intros Hs Hnd.
  apply Sorted_StronglySorted; [intros a b c; apply lex_lt_trans|].
  induction Hs as [|e l Hs IH Hh]; simpl; [constructor|].
  inversion Hnd as [|? ? Hnotin Hnd']; subst.
  constructor; [auto|].
  destruct Hh as [|e' l' Hle]; simpl; constructor.
  apply localeCompare_Lt.
  destruct (localeCompare (fst e) (fst e')) eqn:E; [| reflexivity |].
  - apply localeCompare_Eq in E. exfalso. apply Hnotin. simpl. now left.
  - exfalso. apply Hle. exact E.
Qed.

Lemma sortEntries_keys_NoDup (l : list (jsstring * Z)) :
  NoDup (keys l) -> NoDup (keys (sortEntries l)).
Proof.
  intros H. eapply Permutation_NoDup; [|exact H].
  apply Permutation_map. symmetry. apply sortEntries_perm.
Qed.

Lemma sorted_object_keys (m : CountMap) :
  NoDup (keys m) ->
  StronglySorted lex_lt (keys (fromEntries (sortEntries m))).
Proof.
  intros H. pose proof (sortEntries_keys_NoDup m H) as H'.
  rewrite fromEntries_NoDup by exact H'.
  apply sorted_keys_strict; [apply sortEntries_sorted | exact H'].
Qed.

Lemma sorted_object_get (m : CountMap) (e : jsstring) :
  NoDup (keys m) ->
  map_get (fromEntries (sortEntries m)) e = map_get m e.
Proof.
  intros H. pose proof (sortEntries_keys_NoDup m H) as H'.
  rewrite fromEntries_NoDup by exact H'.
  symmetry. apply map_get_perm; [exact H|].
  symmetry. apply sortEntries_perm.
Qed.

Lemma sorted_object_values (Pn : Z -> Prop) (m : CountMap) :
  NoDup (keys m) -> valuesOk Pn m ->
  valuesOk Pn (fromEntries (sortEntries m)).
Proof.
  intros H Hv. pose proof (sortEntries_keys_NoDup m H) as H'.
  rewrite fromEntries_NoDup by exact H'.
  unfold valuesOk. eapply Permutation_Forall; [|exact Hv].
  symmetry. apply sortEntries_perm.
Qed.

(** ** The claim on [sumCounts] *)



(** ** The tests of the repository *)

(** The expectations of the repository's test file for the parser hold of
    the embedding (an object is compared by its keys and values; here it is
    written in the sorted order the function returns). *)
Example parser_tests :
  countElementsInFormula (js "H2O") = Returned [(js "H", 2); (js "O", 1)] /\
  countElementsInFormula (js "Mg(OH)2")
  = Returned [(js "H", 2); (js "Mg", 1); (js "O", 2)] /\
  countElementsInFormula (js "(NH4)2SO4")
  = Returned [(js "H", 8); (js "N", 2); (js "O", 4); (js "S", 1)] /\
  countElementsInFormula f_FeNO3_9H2O
  = Returned [(js "Fe", 1); (js "H", 18); (js "N", 3); (js "O", 18)] /\
  countElementsInFormula (js "2(NH3)")
  = Returned [(js "H", 6); (js "N", 2)] /\
  countElementsInFormula (js "  Ca3 ( PO4 )2   ")
  = Returned [(js "Ca", 3); (js "O", 8); (js "P", 2)] /\
  splitEquation eq_propane_unicode
  = Some (mkLR [js "C3H8"; js "O2"] [js "CO2"; js "H2O"]) /\
  splitEquation (js " Fe + O2   =>   Fe2O3 ")
  = Some (mkLR [js "Fe"; js "O2"] [js "Fe2O3"]) /\
  sumCounts [multiplyCounts (countFormula (js "CO2")) 2;
             multiplyCounts (countFormula (js "H2O")) 3]
  = [(js "C", 2); (js "H", 6); (js "O", 7)] /\
  sumCounts [multiplyCounts (countFormula (js "H2")) 2;
             multiplyCounts (countFormula (js "O2")) 1]
  = sumCounts [multiplyCounts (countFormula (js "H2O")) 2].
Proof. repeat split; reflexivity. Qed.

(** ** The evaluator: what every accumulator satisfies *)

Section EvaluatorInvariant.

(** [Pn] holds of the multipliers, [Pe] of the symbols with their counts,
    [Inv] of the accumulators. *)
Variable Pn : Z -> Prop.
Variable Pe : jsstring -> Z -> Prop.
Variable Inv : CountMap -> Prop.
Hypothesis Pn_one : Pn 1.
Hypothesis Pe_mul : forall k x y, Pe k x -> Pn y -> Pe k (x * y).
Hypothesis Inv_nil : Inv [].
Hypothesis Inv_entries : forall m, Inv m -> entriesOk Pe m.
Hypothesis Inv_push :
  forall m k n, Inv m -> Pe k n -> Inv (pushCounts m k n).

Lemma mergeScaled_inv (group : CountMap) (mult : Z) :
  forall top,
    Inv top -> entriesOk Pe group -> Pn mult ->
    Inv (mergeScaled top group mult).
Proof.
  unfold mergeScaled.
  induction group as [|[k v] g IH]; intros top Ht Hg Hm; simpl; [exact Ht|].
  inversion Hg; subst. apply IH; auto.
Qed.

Lemma mergeIntoTop_inv (stack stack' : list CountMap) (group : CountMap)
    (mult : Z) :
  Forall Inv stack -> Inv group -> Pn mult ->
  mergeIntoTop stack group mult = Returned stack' ->
  Forall Inv stack'.
Proof.
  intros Hs Hg Hm. destruct stack as [|top below]; simpl.
  - destruct group; [|discriminate]. intros [= <-]. constructor.
  - intros [= <-]. inversion Hs; subst. constructor; [|assumption].
    apply mergeScaled_inv; auto.
Qed.

Lemma bottom_inv (stack : list CountMap) (r : CountMap) :
  Forall Inv stack -> bottom stack = Some r -> Inv r.
Proof.
  unfold bottom. intros Hs.
  induction Hs as [|m [|m' l] Hm Hl IH]; simpl; intros H.
  - discriminate.
  - now injection H as <-.
  - apply IH. exact H.
Qed.

Lemma scanGroup_inv (l g after : list Token) (depth : Z) :
  Forall (tokenEntryOk Pn Pe) l -> scanGroup depth l = (g, after) ->
  Forall (tokenEntryOk Pn Pe) g /\ Forall (tokenEntryOk Pn Pe) after.
Proof.
  intros Hl H. pose proof (scanGroup_app l depth) as E.
  rewrite H in E; simpl in E. subst l. now apply Forall_app.
Qed.

Lemma go_inv (fuel : nat) :
  forall rest stack r,
    Forall (tokenEntryOk Pn Pe) rest -> Forall Inv stack ->
    go fuel rest stack = Returned (Some r) -> Inv r.
Proof.
  induction fuel as [|fuel IH]; intros rest stack r Hr Hs; [discriminate|].
  assert (Hnil : Forall Inv [[] : CountMap]) by (repeat constructor; auto).
  destruct rest as [|t rest']; cbn [go].
  - intros [= H]. eapply bottom_inv; [exact Hs | exact H].
  - inversion Hr as [|? ? Ht Hr']; subst.
    destruct t as [|v|symbol cnt|n].
    + destruct rest' as [|[| | |n] suffix]; try (apply IH; auto).
      inversion Hr' as [|? ? Hn Hsuf]; subst.
      destruct (go fuel suffix [[]]) as [[sub|]| | | |] eqn:Esub;
        try discriminate.
      apply IH in Esub; auto.
      destruct (mergeIntoTop stack sub n) eqn:Em; try discriminate.
      intros [= H]. eapply bottom_inv; [|exact H].
      eapply mergeIntoTop_inv; [exact Hs | exact Esub | exact Hn | exact Em].
    + destruct (set_has openers v); [apply IH; auto|].
      destruct (set_has closers v); [|apply IH; auto].
      destruct stack as [|group stack']; [discriminate|].
      inversion Hs; subst.
      destruct rest' as [|[| | |m] r0]; cbn beta iota;
        destruct (mergeIntoTop stack' group _) eqn:Em; try discriminate;
        apply IH; auto;
        try (eapply mergeIntoTop_inv; [| | |exact Em]; auto);
        inversion Hr'; subst; auto.
    + destruct stack as [|top below]; [discriminate|].
      inversion Hs; subst. apply IH; auto.
    + destruct rest' as [|[|v|symbol cnt|m] r0]; try (apply IH; auto).
      * destruct (hasOpener v); [|apply IH; auto].
        destruct (scanGroup 0 (TParen v :: r0)) as [g after] eqn:Es.
        eapply scanGroup_inv in Es as [Hg Ha]; [|exact Hr'].
        destruct (go fuel g [[]]) as [[sub|]| | | |] eqn:Esub;
          try discriminate.
        apply IH in Esub; auto.
        destruct (mergeIntoTop stack sub n) eqn:Em; try discriminate.
        apply IH; auto.
        eapply mergeIntoTop_inv; [exact Hs | exact Esub | exact Ht | exact Em].
      * destruct stack as [|top below]; [discriminate|].
        inversion Hs; subst. inversion Hr'; subst.
        apply IH; auto.
Qed.

Lemma tokensToCounts_inv (tokens : list Token) (r : CountMap) :
  Forall (tokenEntryOk Pn Pe) tokens ->
  tokensToCounts tokens = Returned (Some r) -> Inv r.
Proof.
  intros H. apply go_inv; [exact H|]. repeat constructor; auto.
Qed.

End EvaluatorInvariant.

Lemma pushCounts_values (Pn : Z -> Prop) (m : CountMap) (k : jsstring) (n : Z) :
  (forall x y, Pn x -> Pn y -> Pn (x + y)) ->
  valuesOk Pn m -> Pn n -> valuesOk Pn (pushCounts m k n).
Proof.
  intros Hadd Hm Hn. unfold pushCounts. apply map_set_values; [exact Hm|].
  destruct (map_get m k) as [v|] eqn:E; simpl; [|exact Hn].
  apply Hadd; [|exact Hn].
  apply map_get_In in E. unfold valuesOk in Hm.
  rewrite Forall_forall in Hm. apply (Hm _ E).
Qed.

Lemma tokenEntryOk_weaken (Pn Pn' : Z -> Prop) (Pe Pe' : jsstring -> Z -> Prop)
    (tokens : list Token) :
  (forall n, Pn n -> Pn' n) -> (forall k n, Pe k n -> Pe' k n) ->
  Forall (tokenEntryOk Pn Pe) tokens -> Forall (tokenEntryOk Pn' Pe') tokens.
Proof.
  intros Hn He. apply Forall_impl. intros [] H; simpl in *; auto.
Qed.

Lemma tokenEntryOk_True (tokens : list Token) :
  Forall (tokenEntryOk (fun _ => True) (fun _ _ => True)) tokens.
Proof. apply Forall_forall. intros [] _; exact Logic.I. Qed.

(** The keys of the map [tokensToCounts] returns are distinct. *)
Lemma tokensToCounts_NoDup (tokens : list Token) (r : CountMap) :
  tokensToCounts tokens = Returned (Some r) -> NoDup (keys r).
Proof.
  apply (tokensToCounts_inv (fun _ => True) (fun _ _ => True)
           (fun m => NoDup (keys m))); auto.
  - constructor.
  - intros m _. apply Forall_forall. auto.
  - intros m k n H _. now apply map_set_NoDup.
  - apply tokenEntryOk_True.
Qed.

Lemma tokensToCounts_values (Pn : Z -> Prop) (tokens : list Token)
    (r : CountMap) :
  Pn 1 ->
  (forall x y, Pn x -> Pn y -> Pn (x * y)) ->
  (forall x y, Pn x -> Pn y -> Pn (x + y)) ->
  Forall (tokenOk Pn) tokens ->
  tokensToCounts tokens = Returned (Some r) -> valuesOk Pn r.
Proof.
  intros H1 Hmul Hadd.
  apply (tokensToCounts_inv Pn (fun _ => Pn) (valuesOk Pn)); auto.
  - constructor.
  - intros m k n Hm Hn. now apply pushCounts_values.
Qed.

(** The keys of the map [tokensToCounts] returns are symbols of its
    tokens. *)
Lemma tokensToCounts_symbols (tokens : list Token) (r : CountMap) :
  Forall (tokenEntryOk (fun _ => True) (fun k _ => isSymbol k = true)) tokens ->
  tokensToCounts tokens = Returned (Some r) ->
  Forall (fun k => isSymbol k = true) (keys r).
Proof.
  intros Ht Hr. unfold keys. apply Forall_map.
  revert Ht Hr.
  apply (tokensToCounts_inv (fun _ => True) (fun k _ => isSymbol k = true)
           (entriesOk (fun k _ => isSymbol k = true))); auto.
  - constructor.
  - intros m k n Hm Hk. unfold pushCounts. now apply map_set_entries.
Qed.

(** ** The tokenizer reads no negative number *)

Lemma parseInt_nonneg (ds : jsstring) :
  Forall (fun d => isDigit d = true) ds -> 0 <= parseInt ds.
Proof.
  unfold parseInt. intros H.
  assert (G : forall acc, 0 <= acc ->
            0 <= fold_left (fun acc d => acc * 10 + (Z.of_N d - 48)) ds acc).
  { induction H as [|d ds Hd Hds IH]; intros acc Hacc; simpl; [exact Hacc|].
    apply IH. unfold isDigit in Hd.
    apply andb_true_iff in Hd as [Hd _]. apply N.leb_le in Hd. lia. }
  apply G. lia.
Qed.

Lemma takeWhile_Forall {X} (p : X -> bool) (l : list X) :
  Forall (fun x => p x = true) (takeWhile p l).
Proof.
  induction l as [|x l IH]; simpl; [constructor|].
  destruct (p x) eqn:E; constructor; auto.
Qed.

(** The tokens of the tokenizer: symbols as [isSymbol] says, numbers not
    negative. *)
Lemma tokenize_from_ok (s : jsstring) :
  forall skip,
    Forall (tokenEntryOk (fun n => 0 <= n)
              (fun k n => isSymbol k = true /\ 0 <= n))
           (tokenize_from skip s).
Proof.
  induction s as [|c r IH]; intros skip; simpl; [constructor|].
  destruct skip; [|apply IH].
  destruct ((c =? ch_middle_dot)%N || (c =? ch_period)%N);
    [constructor; [exact Logic.I | apply IH]|].
  destruct (isBracket c); [constructor; [exact Logic.I | apply IH]|].
  destruct (isUpper c) eqn:Eu.
  - assert (G : forall sym after,
               isSymbol sym = true ->
               Forall (tokenEntryOk (fun n => 0 <= n)
                         (fun k n => isSymbol k = true /\ 0 <= n))
                 (TElem sym
                    match takeWhile isDigit after with
                    | [] => 1
                    | _ :: _ => parseInt (takeWhile isDigit after)
                    end
                  :: tokenize_from
                       (length sym - 1 + length (takeWhile isDigit after)) r)).
    { intros sym after Hsym. constructor; [|apply IH]. simpl.
      split; [exact Hsym|].
      pose proof (parseInt_nonneg _ (takeWhile_Forall isDigit after)).
      destruct (takeWhile isDigit after); [lia | assumption]. }
    destruct r as [|d r']; [apply G; simpl; exact Eu|].
    destruct (isLower d) eqn:El; apply G; simpl; rewrite ?Eu, ?El; reflexivity.
  - destruct (isDigit c) eqn:Ed; [|apply IH].
    constructor; [|apply IH]. simpl.
    apply (parseInt_nonneg (c :: takeWhile isDigit r)).
    constructor; [exact Ed | apply takeWhile_Forall].
Qed.

Lemma tokenizeFormula_nonneg (formula : jsstring) :
  Forall (tokenOk (fun n => 0 <= n)) (tokenizeFormula formula).
Proof.
  unfold tokenizeFormula.
  apply (tokenEntryOk_weaken (fun n => 0 <= n) (fun n => 0 <= n)
           (fun k n => isSymbol k = true /\ 0 <= n) (fun _ n => 0 <= n));
    [auto | intros k n [_ H]; exact H | apply tokenize_from_ok].
Qed.

Lemma tokenizeFormula_symbols (formula : jsstring) :
  Forall (tokenEntryOk (fun _ => True) (fun k _ => isSymbol k = true))
         (tokenizeFormula formula).
Proof.
  unfold tokenizeFormula.
  apply (tokenEntryOk_weaken (fun n => 0 <= n) (fun _ => True)
           (fun k n => isSymbol k = true /\ 0 <= n)
           (fun k _ => isSymbol k = true));
    [auto | intros k n [H _]; exact H | apply tokenize_from_ok].
Qed.

(** ** The claims on the formula evaluator *)





Lemma closers_not_openers (v : jsstring) :
  In v closers -> set_has openers v = false /\ set_has closers v = true.
Proof.
  intros [<-|[<-|[<-|[]]]]; split; reflexivity.
Qed.

Lemma resume_close_any (v : jsstring) (rest : list Token)
    (group : CountMap) (stack : list CountMap) :
  In v closers ->
  (forall m : Z,
      resume (TParen v :: TNum m :: rest) (group :: stack)
      = match mergeIntoTop stack group m with
        | Returned stack' => resume rest stack'
        | _ => TypeError
        end) /\
  (notNum rest = true ->
   resume (TParen v :: rest) (group :: stack)
   = match mergeIntoTop stack group 1 with
     | Returned stack' => resume rest stack'
     | _ => TypeError
     end) /\
  resume (TParen v :: rest) [] = TypeError.
Proof.
  intros H. apply closers_not_openers in H as [H1 H2].
  split; [|split].
  - intros m. unfold resume at 1. cbn [length].
    remember (S (S (length rest))) as fuel eqn:Ef. cbn [go]. rewrite H1, H2.
    destruct (mergeIntoTop stack group m); try reflexivity.
    apply go_fuel_enough. lia.
  - intros Hn. unfold resume at 1. cbn [length].
    remember (S (length rest)) as fuel eqn:Ef. cbn [go]. rewrite H1, H2.
    destruct rest as [|[| | |n] r]; try discriminate;
      destruct (mergeIntoTop stack group 1); subst; reflexivity.
  - unfold resume. cbn [length].
    remember (S (length rest)) as fuel eqn:Ef. cbn [go]. now rewrite H1, H2.
Qed.

Lemma resume_close_num (v : jsstring) (m : Z) (rest : list Token)
    (group top : CountMap) (below : list CountMap) :
  In v closers ->
  resume (TParen v :: TNum m :: rest) (group :: top :: below)
  = resume rest (mergeScaled top group m :: below).
Proof.
  intros H. destruct (resume_close_any v rest group (top :: below) H)
    as (E & _ & _). now rewrite E.
Qed.

Lemma resume_close_plain (v : jsstring) (rest : list Token)
    (group top : CountMap) (below : list CountMap) :
  In v closers -> notNum rest = true ->
  resume (TParen v :: rest) (group :: top :: below)
  = resume rest (mergeScaled top group 1 :: below).
Proof.
  intros H Hn. destruct (resume_close_any v rest group (top :: below) H)
    as (_ & E & _). now rewrite E.
Qed.

Lemma resume_open (v : jsstring) (rest : list Token) (stack : list CountMap) :
  In v openers ->
  resume (TParen v :: rest) stack = resume rest ([] :: stack).
Proof.
  intros H. unfold resume at 1. cbn [length].
  remember (S (length rest)) as fuel eqn:Ef. cbn [go].
  replace (set_has openers v) with true; [subst; reflexivity|].
  destruct H as [<-|[<-|[<-|[]]]]; reflexivity.
Qed.



(** ** The claims on [countElementsInFormula] *)

Lemma countElementsInFormula_inv (formula : jsstring) (r : ElementCount) :
  countElementsInFormula formula = Returned r ->
  exists counts,
    tokensToCounts (tokenizeFormula formula) = Returned (Some counts) /\
    NoDup (keys counts) /\
    r = fromEntries (sortEntries counts).
Proof.
  unfold countElementsInFormula.
  destruct (tokensToCounts (tokenizeFormula formula)) as [[counts|]| | | |] eqn:E;
    try discriminate.
  intros [= <-]. exists counts. split; [reflexivity|]. split; [|reflexivity].
  now apply tokensToCounts_NoDup in E.
Qed.

(** Every key of a result is an element symbol of the shape the tokenizer
    makes, the shape on which [localeCompare] and [Object.fromEntries] are
    as modelled. *)
Lemma countElementsInFormula_keys (formula : jsstring) (r : ElementCount) :
  countElementsInFormula formula = Returned r ->
  Forall (fun k => isSymbol k = true) (keys r).
Proof.
  intros H. apply countElementsInFormula_inv in H as (counts & E & Hnd & ->).
  rewrite fromEntries_NoDup by now apply sortEntries_keys_NoDup.
  eapply Permutation_Forall.
  - apply Permutation_map. symmetry. apply sortEntries_perm.
  - apply (tokensToCounts_symbols (tokenizeFormula formula));
      [apply tokenizeFormula_symbols | exact E].
Qed.

(** On exact integers every count [countElementsInFormula] returns is
    non-negative.  A count of 0 is possible; it needs a 0 among the numbers
    of the formula: when every multiplicity and multiplier the tokenizer
    reads is positive, every count is positive. *)
Lemma counts_nonnegative_Z (formula : jsstring) (r : ElementCount) :
  countElementsInFormula formula = Returned r ->
  valuesOk (fun n => 0 <= n) r /\
  (Forall (tokenOk (fun n => 0 < n)) (tokenizeFormula formula) ->
   valuesOk (fun n => 0 < n) r).
Proof.
  intros H. apply countElementsInFormula_inv in H as (counts & E & Hnd & ->).
  split.
  - apply sorted_object_values; [exact Hnd|].
    apply (tokensToCounts_values _ (tokenizeFormula formula));
      [lia | intros; nia | intros; lia | apply tokenizeFormula_nonneg | exact E].
  - intros Hpos. apply sorted_object_values; [exact Hnd|].
    apply (tokensToCounts_values _ (tokenizeFormula formula));
      [lia | intros; nia | intros; lia | exact Hpos | exact E].
Qed.


(** C9.  [countElementsInFormula] is a function of its argument: equal
    strings give equal results (the same object, or the same error).  The
    keys of a result it returns are element symbols, and they stand in
    strictly increasing lexicographic order. *)
Theorem countElementsInFormula_deterministic_sorted (f1 f2 : jsstring) :
  f1 = f2 ->
  countElementsInFormula f1 = countElementsInFormula f2 /\
  forall r, countElementsInFormula f1 = Returned r ->
            StronglySorted lex_lt (keys r) /\
            Forall (fun k => isSymbol k = true) (keys r).
Proof.
  intros <-. split; [reflexivity|].
  intros r H. split; [|now apply (countElementsInFormula_keys f1)].
  apply countElementsInFormula_inv in H as (counts & _ & Hnd & ->).
  now apply sorted_object_keys.
Qed.

Lemma countElementsInFormula_deterministic_sorted_witness :
  countElementsInFormula (js "K4[Fe(CN)6]")
  = countElementsInFormula (js "K4[Fe(CN)6]") /\
  StronglySorted lex_lt [js "C"; js "Fe"; js "K"; js "N"].
Proof.
  destruct (countElementsInFormula_deterministic_sorted
              (js "K4[Fe(CN)6]") (js "K4[Fe(CN)6]") eq_refl) as [H1 H2].
  split; [exact H1|].
  apply (proj1 (H2 [(js "C", 6); (js "Fe", 1); (js "K", 4); (js "N", 6)]
                  eq_refl)).
Defined.

(** ** The exact solver: greatest common divisors *)

Lemma gcd_loop_spec (fuel : nat) :
  forall a b,
    0 <= a -> 0 <= b -> (Z.to_nat b < fuel)%nat ->
    gcd_loop fuel a b = Z.gcd a b.
Proof.
  induction fuel as [|fuel IH]; intros a b Ha Hb Hf; [lia|].
  simpl. destruct (Z.eqb_spec b 0) as [->|Hne].
  - now rewrite Z.gcd_0_r_nonneg.
  - pose proof (Z.rem_bound_pos a b Ha ltac:(lia)) as Hr.
    rewrite IH by lia.
    rewrite (Z.gcd_comm b (Z.rem a b)), Z.gcd_rem by exact Hne.
    apply Z.gcd_comm.
Qed.

Lemma gcd_spec (a b : Z) :
  gcd a b = if Z.gcd a b =? 0 then 1 else Z.gcd a b.
Proof.
  unfold gcd. rewrite gcd_loop_spec by lia.
  now rewrite Z.gcd_abs_l, Z.gcd_abs_r.
Qed.

Lemma gcd_pos (a b : Z) : 0 < gcd a b.
Proof.
  rewrite gcd_spec. pose proof (Z.gcd_nonneg a b).
  destruct (Z.eqb_spec (Z.gcd a b) 0); lia.
Qed.

Lemma gcd_divide_l (a b : Z) : (gcd a b | a).
Proof.
  rewrite gcd_spec. destruct (Z.eqb_spec (Z.gcd a b) 0).
  - apply Z.divide_1_l.
  - apply Z.gcd_divide_l.
Qed.

Lemma gcd_divide_r (a b : Z) : (gcd a b | b).
Proof.
  rewrite gcd_spec. destruct (Z.eqb_spec (Z.gcd a b) 0).
  - apply Z.divide_1_l.
  - apply Z.gcd_divide_r.
Qed.

(** ** The exact solver: fractions never have a zero denominator *)

Lemma makeFrac_wf (n d : Z) : d <> 0 -> returnsWf (makeFrac n d).
Proof.
  intros Hd. unfold makeFrac, returnsWf, wfFrac.
  destruct (Z.eqb_spec d 0); [contradiction|].
  assert (G : forall n' d', 0 < d' ->
            exists f,
              (if n' =? 0 then Returned (mkFrac 0 1)
               else Returned (mkFrac (n' / gcd n' d') (d' / gcd n' d')))
              = Returned f /\ 0 < den f).
  { intros n' d' Hd'. destruct (n' =? 0).
    - eexists; split; [reflexivity | simpl; lia].
    - eexists; split; [reflexivity|]. simpl.
      apply Z.div_str_pos. split; [apply gcd_pos|].
      apply Z.divide_pos_le; [exact Hd' | apply gcd_divide_r]. }
  destruct (Z.ltb_spec d 0); apply G; lia.
Qed.

(** The divisions of [makeFrac] are exact. *)
Lemma makeFrac_exact (n d : Z) :
  (gcd n d | n) /\ (gcd n d | d).
Proof. split; [apply gcd_divide_l | apply gcd_divide_r]. Qed.

Lemma zeroFrac_wf : wfFrac zeroFrac.
Proof. unfold wfFrac; simpl; lia. Qed.

Lemma fMul_wf (x y : Frac) : wfFrac x -> wfFrac y -> returnsWf (fMul x y).
Proof. unfold wfFrac, fMul. intros; apply makeFrac_wf; nia. Qed.

Lemma fSub_wf (x y : Frac) : wfFrac x -> wfFrac y -> returnsWf (fSub x y).
Proof. unfold wfFrac, fSub. intros; apply makeFrac_wf; nia. Qed.

Lemma fAdd_wf (x y : Frac) : wfFrac x -> wfFrac y -> returnsWf (fAdd x y).
Proof. unfold wfFrac, fAdd. intros; apply makeFrac_wf; nia. Qed.

Lemma fDiv_wf (x piv : Frac) :
  wfFrac x -> num piv <> 0 -> returnsWf (fDiv x piv).
Proof. unfold wfFrac, fDiv. intros; apply makeFrac_wf; nia. Qed.

(** ** The exact solver: every division is exact *)

Lemma lcm_spec (x y : Z) :
  0 < x -> 0 < y ->
  (gcd x y | x) /\ 0 < lcm x y /\ (x | lcm x y) /\ (y | lcm x y).
Proof.
  intros Hx Hy. unfold lcm.
  pose proof (gcd_pos x y) as Hg.
  destruct (gcd_divide_l x y) as [x' Ex].
  destruct (gcd_divide_r x y) as [y' Ey].
  split; [exists x'; exact Ex|].
  assert (Hq : x / gcd x y = x').
  { rewrite Ex at 1. apply Z.div_mul. lia. }
  rewrite Hq.
  assert (Hx' : 0 < x') by nia.
  split; [nia|]. split.
  - exists y'. rewrite Ey at 1. rewrite Ex at 2. ring.
  - exists x'. reflexivity.
Qed.

(** The common denominator is a positive multiple of every denominator. *)
Lemma commonDen_spec (fv : list Frac) :
  Forall wfFrac fv ->
  forall acc,
    0 < acc ->
    let cd := fold_left (fun cd f => lcm cd (den f)) fv acc in
    0 < cd /\ (acc | cd) /\ Forall (fun f => (den f | cd)) fv.
Proof.
  induction 1 as [|f fv Hf Hfv IH]; intros acc Hacc; simpl.
  - repeat split; [exact Hacc | apply Z.divide_refl | constructor].
  - destruct (lcm_spec acc (den f) Hacc Hf) as (_ & Hl & Ha & Hd).
    destruct (IH (lcm acc (den f)) Hl) as (Hcd & Hdiv & Hall).
    repeat split; [exact Hcd | | constructor; [|exact Hall]].
    + eapply Z.divide_trans; eassumption.
    + eapply Z.divide_trans; eassumption.
Qed.

(** The divisor [g] of the last step divides every entry. *)
Lemma finalGcd_spec (l : list Z) :
  forall a0,
    let g := fold_left (fun acc v => if v =? 0 then acc else gcd acc v) l a0 in
    (g | a0) /\ Forall (fun v => (g | v)) l.
Proof.
  induction l as [|v l IH]; intros a0; simpl.
  - split; [apply Z.divide_refl | constructor].
  - destruct (Z.eqb_spec v 0) as [->|Hne].
    + destruct (IH a0) as [H1 H2]. split; [exact H1|].
      constructor; [apply Z.divide_0_r | exact H2].
    + destruct (IH (gcd a0 v)) as [H1 H2]. split.
      * eapply Z.divide_trans; [exact H1 | apply gcd_divide_l].
      * constructor; [|exact H2].
        eapply Z.divide_trans; [exact H1 | apply gcd_divide_r].
Qed.

(** ** The exact solver: lists *)

Lemma update_length {X} (l : list X) (i : nat) (x : X) :
  length (update l i x) = length l.
Proof.
  revert i; induction l as [|y l IH]; intros [|i]; simpl; auto.
Qed.

Lemma update_Forall {X} (P : X -> Prop) (l : list X) (i : nat) (x : X) :
  Forall P l -> P x -> Forall P (update l i x).
Proof.
  intros Hl Hx. revert i; induction Hl as [|y l Hy Hl IH]; intros [|i];
    simpl; constructor; auto.
Qed.

Lemma update_nth_same {X} (l : list X) (i : nat) (x d : X) :
  (i < length l)%nat -> nth i (update l i x) d = x.
Proof.
  revert i; induction l as [|y l IH]; intros [|i]; simpl; intros H;
    try lia; auto. apply IH; lia.
Qed.

Lemma nth_Forall {X} (P : X -> Prop) (l : list X) (i : nat) (d : X) :
  Forall P l -> P d -> P (nth i l d).
Proof.
  intros Hl Hd. revert i; induction Hl; intros [|i]; simpl; auto.
Qed.

Lemma swap_length {X} (d : X) (l : list X) (i j : nat) :
  length (swap d l i j) = length l.
Proof.
  unfold swap. destruct (Nat.eqb i j); [reflexivity|].
  now rewrite !update_length.
Qed.

Lemma swap_Forall {X} (P : X -> Prop) (d : X) (l : list X) (i j : nat) :
  Forall P l -> P d -> Forall P (swap d l i j).
Proof.
  intros Hl Hd. unfold swap. destruct (Nat.eqb i j); [exact Hl|].
  repeat apply update_Forall; auto; now apply nth_Forall.
Qed.

(** After [swap l i j] the place [j] holds what the place [i] held. *)
Lemma swap_nth {X} (d : X) (l : list X) (i j : nat) :
  (j < length l)%nat -> nth j (swap d l i j) d = nth i l d.
Proof.
  intros Hj. unfold swap. destruct (Nat.eqb_spec i j) as [->|Hne];
    [reflexivity|].
  apply update_nth_same. now rewrite update_length.
Qed.

Lemma findPivot_spec (col : nat) (rows : list (list Frac)) :
  forall p,
    (p <= findPivot rows p col <= p + length rows)%nat /\
    ((findPivot rows p col < p + length rows)%nat ->
     num (nth col (nth (findPivot rows p col - p) rows []) zeroFrac) <> 0).
Proof.
  induction rows as [|r rows IH]; intros p; simpl.
  - split; lia.
  - destruct (Z.eqb_spec (num (nth col r zeroFrac)) 0) as [E|E].
    + destruct (IH (S p)) as [H1 H2]. split; [lia|].
      intros H. specialize (H2 ltac:(lia)).
      replace (findPivot rows (S p) col - p)%nat
        with (S (findPivot rows (S p) col - S p)) by lia.
      exact H2.
    + split; [lia|]. intros _. now rewrite Nat.sub_diag.
Qed.

Lemma findPivot_skipn (Bm : list (list Frac)) (row col : nat) :
  (row < length Bm)%nat ->
  findPivot (skipn row Bm) row col <> length Bm ->
  (findPivot (skipn row Bm) row col < length Bm)%nat /\
  num (nth col (nth (findPivot (skipn row Bm) row col) Bm []) zeroFrac) <> 0.
Proof.
  intros Hrow Hne.
  destruct (findPivot_spec col (skipn row Bm) row) as [[H1 H2] H3].
  rewrite length_skipn in H2, H3.
  assert (Hlt : (findPivot (skipn row Bm) row col < length Bm)%nat) by lia.
  split; [exact Hlt|].
  specialize (H3 ltac:(lia)). rewrite nth_skipn in H3.
  replace (row + (findPivot (skipn row Bm) row col - row))%nat
    with (findPivot (skipn row Bm) row col) in H3 by lia.
  exact H3.
Qed.

Lemma mapM_returns {X Y} (f : X -> outcome Y) (P : Y -> Prop) (l : list X) :
  (forall x, In x l -> exists y, f x = Returned y /\ P y) ->
  exists ys, mapM f l = Returned ys /\ Forall P ys /\ length ys = length l.
Proof.
  induction l as [|x l IH]; intros H; simpl.
  - exists []. repeat split; constructor.
  - destruct (H x (or_introl eq_refl)) as (y & Ey & Py).
    destruct IH as (ys & Eys & Pys & Lys); [intros; apply H; now right|].
    rewrite Ey, Eys. simpl. exists (y :: ys).
    repeat split; [constructor; auto | simpl; lia].
Qed.

Lemma mapFromM_returns (f : Frac -> outcome Frac) (row : list Frac) :
  (forall x, wfFrac x -> returnsWf (f x)) ->
  forall col,
    Forall wfFrac row ->
    exists row',
      mapFromM f col row = Returned row' /\ Forall wfFrac row' /\
      length row' = length row.
Proof.
  intros Hf. induction row as [|x row IH]; intros col Hrow; simpl.
  - exists []. repeat split; constructor.
  - inversion Hrow; subst.
    destruct col as [|col].
    + destruct (Hf x) as (y & Ey & Wy); [assumption|].
      destruct (IH 0%nat) as (ys & Eys & Wys & Lys); [assumption|].
      rewrite Ey, Eys. simpl. exists (y :: ys).
      repeat split; [constructor; auto | simpl; lia].
    + destruct (IH col) as (ys & Eys & Wys & Lys); [assumption|].
      rewrite Eys. simpl. exists (x :: ys).
      repeat split; [constructor; auto | simpl; lia].
Qed.

Lemma map2FromM_returns (f : Frac -> Frac -> outcome Frac) (row : list Frac) :
  (forall x y, wfFrac x -> wfFrac y -> returnsWf (f x y)) ->
  forall col other,
    Forall wfFrac row -> Forall wfFrac other ->
    exists row',
      map2FromM f col row other = Returned row' /\ Forall wfFrac row' /\
      length row' = length row.
Proof.
  intros Hf. induction row as [|x row IH]; intros col other Hrow Hoth; simpl.
  - exists []. repeat split; constructor.
  - inversion Hrow; subst.
    assert (Htl : Forall wfFrac (tl other)).
    { destruct Hoth; simpl; [constructor | assumption]. }
    assert (Hhd : wfFrac (hd zeroFrac other)).
    { destruct Hoth; simpl; [apply zeroFrac_wf | assumption]. }
    destruct col as [|col].
    + destruct (Hf x (hd zeroFrac other)) as (y & Ey & Wy); auto.
      destruct (IH 0%nat (tl other)) as (ys & Eys & Wys & Lys); auto.
      rewrite Ey, Eys. simpl. exists (y :: ys).
      repeat split; [constructor; auto | simpl; lia].
    + destruct (IH col (tl other)) as (ys & Eys & Wys & Lys); auto.
      rewrite Eys. simpl. exists (x :: ys).
      repeat split; [constructor; auto | simpl; lia].
Qed.

(** ** The exact solver: the elimination never raises *)

Lemma eliminateRow_returns (col : nat) (pivRow : list Frac) (pivb : Frac)
    (Br : list Frac) (br : Frac) :
  Forall wfFrac pivRow -> wfFrac pivb -> Forall wfFrac Br -> wfFrac br ->
  exists Br' br',
    eliminateRow col pivRow pivb Br br = Returned (Br', br') /\
    Forall wfFrac Br' /\ wfFrac br'.
Proof.
  intros Hp Hpb HB Hb. unfold eliminateRow.
  set (factor := nth col Br zeroFrac).
  assert (Hf : wfFrac factor) by (apply nth_Forall; [exact HB | apply zeroFrac_wf]).
  destruct (num factor =? 0); [exists Br, br; auto|].
  destruct (map2FromM_returns
              (fun x p => t <- fMul factor p ;; fSub x t) Br) with (col := col)
    (other := pivRow) as (Br' & E1 & W1 & _); auto.
  { intros x y Hx Hy. destruct (fMul_wf factor y Hf Hy) as (t & Et & Wt).
    rewrite Et. simpl. now apply fSub_wf. }
  destruct (fMul_wf factor pivb Hf Hpb) as (t & Et & Wt).
  destruct (fSub_wf br t Hb Wt) as (br' & Eb & Wb).
  rewrite E1. simpl. rewrite Et. simpl. rewrite Eb. simpl.
  exists Br', br'. auto.
Qed.

Lemma eliminateRows_returns (col row : nat) (pivRow : list Frac) (pivb : Frac) :
  Forall wfFrac pivRow -> wfFrac pivb ->
  forall Bs bs r,
    length Bs = length bs ->
    Forall (Forall wfFrac) Bs -> Forall wfFrac bs ->
    exists Bs' bs',
      eliminateRows col row pivRow pivb r Bs bs = Returned (Bs', bs') /\
      Forall (Forall wfFrac) Bs' /\ Forall wfFrac bs' /\
      length Bs' = length Bs /\ length bs' = length bs.
Proof.
  intros Hp Hpb. induction Bs as [|Br Bs IH]; intros bs r Hlen HB Hb.
  - exists [], []. destruct bs; [|discriminate]. simpl. auto.
  - destruct bs as [|br bs]; [discriminate|].
    inversion HB; subst. inversion Hb; subst. simpl in Hlen.
    destruct (IH bs (S r)) as (Bs' & bs' & E & W1 & W2 & L1 & L2); auto.
    assert (Hrow : exists Br' br',
               (if Nat.eqb r row then Returned (Br, br)
                else eliminateRow col pivRow pivb Br br) = Returned (Br', br')
               /\ Forall wfFrac Br' /\ wfFrac br').
    { destruct (Nat.eqb r row); [exists Br, br; auto|].
      now apply eliminateRow_returns. }
    destruct Hrow as (Br' & br' & E' & W1' & W2').
    cbn [eliminateRows]. rewrite E'. simpl. rewrite E. simpl.
    exists (Br' :: Bs'), (br' :: bs'). simpl.
    repeat split; try constructor; auto.
Qed.

Lemma eliminateCol_returns (m col : nat) (st : ElimState) :
  elimOk m st -> (row st < m)%nat ->
  exists st', eliminateCol m col st = Returned st' /\ elimOk m st'.
Proof.
  intros (LB & Lb & WB & Wb) Hrow. unfold eliminateCol.
  set (pivot := findPivot (skipn (row st) (B st)) (row st) col).
  destruct (Nat.eqb_spec pivot m) as [E|E].
  - exists st. split; [reflexivity|]. repeat split; assumption.
  - destruct (findPivot_skipn (B st) (row st) col) as [Hlt Hnum];
      [lia | fold pivot; lia |]. fold pivot in Hlt, Hnum.
    set (B1 := swap [] (B st) pivot (row st)).
    set (b1 := swap zeroFrac (b st) pivot (row st)).
    assert (WB1 : Forall (Forall wfFrac) B1)
      by (apply swap_Forall; [exact WB | constructor]).
    assert (Wb1 : Forall wfFrac b1)
      by (apply swap_Forall; [exact Wb | apply zeroFrac_wf]).
    assert (Erow : nth (row st) B1 [] = nth pivot (B st) []).
    { apply swap_nth. lia. }
    set (piv := nth col (nth (row st) B1 []) zeroFrac).
    assert (Hpiv : num piv <> 0) by (unfold piv; now rewrite Erow).
    assert (Wrow : Forall wfFrac (nth (row st) B1 []))
      by (apply nth_Forall; [exact WB1 | constructor]).
    destruct (mapFromM_returns (fun x => fDiv x piv) (nth (row st) B1 []))
      with (col := col) as (Brow & E1 & W1 & _); auto.
    { intros x Hx. now apply fDiv_wf. }
    destruct (fDiv_wf (nth (row st) b1 zeroFrac) piv) as (brow & E2 & W2); auto.
    { apply nth_Forall; [exact Wb1 | apply zeroFrac_wf]. }
    rewrite E1. simpl. rewrite E2. simpl.
    destruct (eliminateRows_returns col (row st) Brow brow W1 W2
                (update B1 (row st) Brow) (update b1 (row st) brow) 0%nat)
      as (B3 & b3 & E3 & W3 & W4 & L3 & L4).
    { unfold B1, b1. rewrite !update_length, !swap_length. lia. }
    { now apply update_Forall. }
    { now apply update_Forall. }
    rewrite E3. simpl.
    eexists. split; [reflexivity|].
    unfold elimOk; simpl.
    rewrite L3, L4. unfold B1, b1.
    rewrite !update_length, !swap_length. auto.
Qed.

Lemma eliminateCols_returns (m : nat) (cols : list nat) :
  forall st,
    elimOk m st ->
    exists st', eliminateCols m cols st = Returned st' /\ elimOk m st'.
Proof.
  induction cols as [|col cols IH]; intros st Hst; simpl.
  - exists st; auto.
  - destruct (Nat.ltb_spec (row st) m) as [Hrow|Hrow]; [|exists st; auto].
    destruct (eliminateCol_returns m col st Hst Hrow) as (st1 & E1 & H1).
    rewrite E1. simpl. now apply IH.
Qed.

Lemma makeFrac_int (n : Z) : returnsWf (makeFrac n 1).
Proof. apply makeFrac_wf; lia. Qed.

(** [solveRationalForLastColumn] returns: the [Error] of [makeFrac] is never
    raised.  The fractions it returns have positive denominators. *)
Lemma solveRationalForLastColumn_returns (A : list (list Z)) :
  exists r,
    solveRationalForLastColumn A = Returned r /\
    forall raw, r = Some raw -> Forall wfFrac raw.
Proof.
  unfold solveRationalForLastColumn.
  destruct (Nat.leb (length (hd [] A)) 1).
  { exists None. split; [reflexivity | discriminate]. }
  set (n := length (hd [] A)). set (nvars := (n - 1)%nat).
  destruct (mapM_returns
              (fun Ai => mapM (fun j => makeFrac (nth j Ai 0) 1) (seq 0 nvars))
              (Forall wfFrac) A) as (B0 & EB & WB & LB).
  { intros Ai _.
    destruct (mapM_returns (fun j => makeFrac (nth j Ai 0) 1) wfFrac
                (seq 0 nvars)) as (r & Er & Wr & _).
    - intros j _. apply makeFrac_int.
    - exists r. auto. }
  destruct (mapM_returns (fun Ai => makeFrac (- nth nvars Ai 0) 1) wfFrac A)
    as (b0 & Eb & Wb & Lb).
  { intros Ai _. apply makeFrac_int. }
  rewrite EB. cbn [bind]. rewrite Eb. cbn [bind].
  destruct (eliminateCols_returns (length A) (seq 0 nvars)
              (mkElim B0 b0 0 (repeat None nvars)))
    as (st & Est & (_ & _ & _ & Wst)).
  { repeat split; assumption. }
  rewrite Est. cbn [bind].
  destruct (mapM_returns
              (fun c =>
                 match nth c (pivotRowForCol st) None with
                 | Some r => Returned (nth r (b st) zeroFrac)
                 | None => makeFrac 0 1
                 end) wfFrac (seq 0 nvars)) as (x & Ex & Wx & _).
  { intros c _. destruct (nth c (pivotRowForCol st) None).
    - eexists; split; [reflexivity|].
      apply nth_Forall; [exact Wst | apply zeroFrac_wf].
    - apply makeFrac_int. }
  rewrite Ex. cbn [bind].
  destruct (makeFrac_int 1) as (one & E1 & W1).
  rewrite E1. cbn [bind].
  eexists. split; [reflexivity|].
  intros raw [= <-]. apply Forall_app. split; [exact Wx|].
  constructor; [exact W1 | constructor].
Qed.

(** ** The claims on the exact solver *)

Lemma fracsToIntegerCoeffs_some (fv : list Frac) (leftLen rightLen : nat)
    (A : list (list Z)) (s : Solution) :
  fracsToIntegerCoeffs fv leftLen rightLen A = Some s ->
  candidate fv = Some (left s ++ right s) /\
  verifies A (left s ++ right s) = true.
Proof.
  unfold fracsToIntegerCoeffs.
  destruct (candidate fv) as [final|]; [|discriminate].
  destruct (verifies A final) eqn:V; [|discriminate].
  intros [= <-]. simpl. rewrite firstn_skipn. auto.
Qed.

Lemma solveEquation_unfold (leftFormulas rightFormulas : list jsstring)
    (countFn : jsstring -> ElementCount) :
  let A := A (buildElementMatrix leftFormulas rightFormulas countFn) in
  solveEquation leftFormulas rightFormulas countFn
  = if Nat.eqb (length A) 0 || Nat.eqb (length (hd [] A)) 0
    then Returned None
    else
      raw <- solveRationalForLastColumn A ;;
      match raw with
      | None => Returned None
      | Some raw =>
          Returned (fracsToIntegerCoeffs raw (length leftFormulas)
                      (length rightFormulas) A)
      end.
Proof.
  intros A0. unfold solveEquation, analyzeBalanceability. fold A0.
  destruct (Nat.eqb (length A0) 0 || Nat.eqb (length (hd [] A0)) 0);
    [reflexivity|].
  destruct (solveRationalForLastColumn A0) as [[raw|]| | | |]; try reflexivity.
  simpl.
  destruct (fracsToIntegerCoeffs raw (length leftFormulas)
              (length rightFormulas) A0); reflexivity.
Qed.

Lemma solveEquation_some (leftFormulas rightFormulas : list jsstring)
    (countFn : jsstring -> ElementCount) (s : Solution) :
  solveEquation leftFormulas rightFormulas countFn = Returned (Some s) ->
  exists raw,
    solveRationalForLastColumn
      (A (buildElementMatrix leftFormulas rightFormulas countFn))
    = Returned (Some raw) /\
    candidate raw = Some (left s ++ right s) /\
    Forall (fun row => rowSum row (left s ++ right s) = 0)
      (A (buildElementMatrix leftFormulas rightFormulas countFn)).
Proof.
  pose proof (solveEquation_unfold leftFormulas rightFormulas countFn) as U.
  cbv zeta in U. rewrite U. clear U.
  set (A0 := A (buildElementMatrix leftFormulas rightFormulas countFn)).
  destruct (Nat.eqb (length A0) 0 || Nat.eqb (length (hd [] A0)) 0);
    [discriminate|].
  destruct (solveRationalForLastColumn A0) as [[raw|]| | | |]; try discriminate.
  simpl. intros [= Hs]. exists raw. split; [reflexivity|].
  apply fracsToIntegerCoeffs_some in Hs as [Hc Hv]. split; [exact Hc|].
  unfold verifies in Hv. rewrite forallb_forall in Hv.
  apply Forall_forall. intros row Hrow. apply Z.eqb_eq. now apply Hv.
Qed.


(** C1 fails on the code.  The exact solver (second listing) answers
    [H2 + O2 -> H2] with the coefficient 0 for [O2], and
    [H2 + O2 -> H2O + H2O2], whose null space has two dimensions, with the
    coefficient 0 for [H2O]: the free columns are set to 0 and nothing asks
    the coefficients to be positive.  The solver of the first listing (its
    numbers taken as exact rationals) answers [O3 -> O2] with 666667 and
    1000000, the rounded millionths of 2/3 and 1, which do not balance: the
    row sum of oxygen is 1.  (The scenario of the specification, the
    combustion of propane, comes out as stated in both.) *)
Theorem solveEquation_returns_zero_coefficient :
  solveEquation [js "H2"; js "O2"] [js "H2"] countFormula
  = Returned (Some (mkLR [1; 0] [1])) /\
  solveEquation [js "H2"; js "O2"] [js "H2O"; js "H2O2"] countFormula
  = Returned (Some (mkLR [1; 1] [0; 1])) /\
  solveEquation [js "C3H8"; js "O2"] [js "CO2"; js "H2O"] countFormula
  = Returned (Some (mkLR [1; 5] [3; 4])) /\
  FirstListing.solveEquation [js "O3"] [js "O2"] countFormula
  = Some (mkLR [666667] [1000000]) /\
  A (buildElementMatrix [js "O3"] [js "O2"] countFormula) = [[3; -2]] /\
  rowSum [3; -2] ([666667] ++ [1000000]) = 1 /\
  FirstListing.solveEquation [js "C3H8"; js "O2"] [js "CO2"; js "H2O"]
    countFormula
  = Some (mkLR [1; 5] [3; 4]).
Proof. repeat split; vm_compute; reflexivity. Qed.

(** What does hold of every answer of the exact solver: no coefficient is
    negative. *)
Lemma candidate_nonneg (fv : list Frac) (final : list Z) :
  candidate fv = Some final -> Forall (fun x => 0 <= x) final.
Proof.
  unfold candidate. destruct fv as [|f fv]; [discriminate|].
  destruct (forallb _ _); [discriminate|].
  intros [= <-].
  match goal with
  | |- Forall _ (map _ (map Z.abs ?vec)) => set (vec0 := vec)
  end.
  clearbody vec0.
  match goal with
  | |- Forall _ (map (fun v => v / ?g) _) => set (g0 := g)
  end.
  assert (Hg : 0 < g0).
  { unfold g0.
    match goal with
    | |- 0 < fold_left ?f ?l ?a0 =>
        assert (G : forall l' a, 0 < a -> 0 < fold_left f l' a)
    end.
    { induction l' as [|x l' IH]; intros a Ha; simpl; [exact Ha|].
      apply IH. destruct (x =? 0); [exact Ha | apply gcd_pos]. }
    apply G. cbv zeta.
    assert (Habs : 0 <= hd 0 (map Z.abs vec0))
      by (destruct vec0; simpl; [lia | apply Z.abs_nonneg]).
    destruct (Z.eqb_spec (hd 0 (map Z.abs vec0)) 0); lia. }
  rewrite Forall_map, Forall_map. apply Forall_forall. intros x _.
  apply Z.div_pos; [apply Z.abs_nonneg | exact Hg].
Qed.

Lemma solveEquation_coefficients_nonneg
    (leftFormulas rightFormulas : list jsstring)
    (countFn : jsstring -> ElementCount) (s : Solution) :
  solveEquation leftFormulas rightFormulas countFn = Returned (Some s) ->
  Forall (fun x => 0 <= x) (left s ++ right s).
Proof.
  intros H. apply solveEquation_some in H as (raw & _ & Hc & _).
  now apply candidate_nonneg in Hc.
Qed.

(** ** The first listing: its greatest common divisor *)

Lemma gcd2_loop_spec (fuel : nat) :
  forall a b,
    0 <= a -> 0 <= b -> (Z.to_nat b < fuel)%nat ->
    FirstListing.gcd2_loop fuel a b = Z.gcd a b.
Proof.
  induction fuel as [|fuel IH]; intros a b Ha Hb Hf; [lia|].
  simpl. destruct (Z.eqb_spec b 0) as [->|Hne].
  - rewrite Z.gcd_0_r. reflexivity.
  - pose proof (Z.rem_bound_pos a b Ha ltac:(lia)) as Hr.
    rewrite IH by lia.
    rewrite (Z.gcd_comm b (Z.rem a b)), Z.gcd_rem by exact Hne.
    apply Z.gcd_comm.
Qed.

(** On the rounded absolute values [gcd2] is the greatest common divisor:
    its recursion ends within the fuel. *)
Lemma gcd2_spec (a b : Z) :
  0 <= a -> 0 <= b -> FirstListing.gcd2 a b = Z.gcd a b.
Proof.
  intros Ha Hb. unfold FirstListing.gcd2.
  apply gcd2_loop_spec; try assumption. rewrite Z.abs_eq by exact Hb. lia.
Qed.

(** ** The first listing: the test of the signs *)

Lemma EPS_pos : (0 < EPS)%Q.
Proof. reflexivity. Qed.

Lemma Qgtb_true (x y : Q) : Qgtb x y = true <-> (y < x)%Q.
Proof.
  unfold Qgtb. rewrite negb_true_iff. split.
  - intros H. apply Qnot_le_lt. intros Hle.
    apply Qle_bool_iff in Hle. congruence.
  - intros H. destruct (Qle_bool x y) eqn:E; [|reflexivity].
    apply Qle_bool_iff in E. apply Qlt_not_le in H. contradiction.
Qed.

Lemma Qltb_true (x y : Q) : Qltb x y = true <-> (x < y)%Q.
Proof. apply (Qgtb_true y x). Qed.

Lemma count_none {X} (p : X -> bool) (l : list X) :
  Forall (fun x => p x = false) l -> count p l = 0%nat.
Proof.
  unfold count. induction 1 as [|x l Hx Hl IH]; simpl; [reflexivity|].
  now rewrite Hx.
Qed.

Lemma count_all {X} (p : X -> bool) (l : list X) :
  Forall (fun x => p x = true) l -> count p l = length l.
Proof.
  unfold count. induction 1 as [|x l Hx Hl IH]; simpl; [reflexivity|].
  rewrite Hx. simpl. now f_equal.
Qed.

Lemma count_le {X} (p : X -> bool) (l : list X) :
  (count p l <= length l)%nat.
Proof. apply filter_length_le. Qed.

(** [allPositiveUpToSign] accepts exactly the vectors whose entries all
    exceed the tolerance on one and the same side. *)
Lemma allPositiveUpToSign_spec (v : list Q) :
  allPositiveUpToSign v = true <-> beyondTolerance v.
Proof.
  unfold allPositiveUpToSign, beyondTolerance. pose proof EPS_pos as HE.
  split.
  - intros H. rewrite forallb_forall in H.
    destruct (Nat.ltb_spec (length v - count (fun x => Qltb x 0) v)
                (count (fun x => Qltb x 0) v)) as [Hlt|Hge].
    + right. split.
      * intros ->. simpl in Hlt. unfold count in Hlt; simpl in Hlt. lia.
      * apply Forall_forall. intros x Hx. apply H in Hx.
        apply Qgtb_true in Hx. lra.
    + left. apply Forall_forall. intros x Hx. apply H in Hx.
      apply Qgtb_true in Hx. lra.
  - intros [Hpos|[Hne Hneg]].
    + rewrite count_none.
      * rewrite Nat.sub_0_r.
        replace (Nat.ltb (length v) 0) with false
          by (symmetry; apply Nat.ltb_ge; lia).
        apply forallb_forall. intros x Hx.
        rewrite Forall_forall in Hpos. apply Hpos in Hx.
        apply Qgtb_true. lra.
      * eapply Forall_impl; [|exact Hpos]. intros x Hx. simpl in Hx.
        destruct (Qltb x 0) eqn:E; [|reflexivity].
        apply Qltb_true in E. lra.
    + rewrite count_all.
      * rewrite Nat.sub_diag.
        replace (Nat.ltb 0 (length v)) with true.
        -- apply forallb_forall. intros x Hx.
           rewrite Forall_forall in Hneg. apply Hneg in Hx.
           apply Qgtb_true. lra.
        -- symmetry. apply Nat.ltb_lt. destruct v; [congruence | simpl; lia].
      * eapply Forall_impl; [|exact Hneg]. intros x Hx. simpl in Hx.
        apply Qltb_true. lra.
Qed.

(** A vector with an entry equal to 0 is not accepted. *)
Lemma zero_entry_rejected (v : list Q) (j : nat) :
  (j < length v)%nat -> (nth j v 0 == 0)%Q -> allPositiveUpToSign v = false.
Proof.
  intros Hj Hz. destruct (allPositiveUpToSign v) eqn:E; [|reflexivity].
  apply allPositiveUpToSign_spec in E. pose proof EPS_pos as HE.
  pose proof (nth_In v 0%Q Hj) as Hin.
  destruct E as [H|[_ H]]; rewrite Forall_forall in H; apply H in Hin; lra.
Qed.

(** ** The first listing: combinations of the basis *)

Lemma addScaled_length (v : list Q) (c : Q) (bi : list Q) :
  length (addScaled v c bi) = length v.
Proof.
  unfold addScaled. now rewrite length_map, length_combine, length_seq,
    Nat.min_id.
Qed.

Lemma addScaled_nth_aux (c : Q) (bi : list Q) (v : list Q) :
  forall s j,
    (j < length v)%nat ->
    nth j (map (fun jv => (snd jv + c * nth (fst jv) bi 0)%Q)
             (combine (seq s (length v)) v)) 0%Q
    = (nth j v 0 + c * nth (s + j) bi 0)%Q.
Proof.
  induction v as [|x v IH]; intros s j Hj; simpl in Hj; [lia|].
  destruct j as [|j]; simpl.
  - now rewrite Nat.add_0_r.
  - rewrite IH by lia. now rewrite Nat.add_succ_r.
Qed.

Lemma addScaled_nth (v : list Q) (c : Q) (bi : list Q) (j : nat) :
  (j < length v)%nat ->
  nth j (addScaled v c bi) 0%Q = (nth j v 0 + c * nth j bi 0)%Q.
Proof. intros H. unfold addScaled. now rewrite addScaled_nth_aux. Qed.

Lemma sumScaled_length (cbs : list (Q * list Q)) :
  forall v, length (sumScaled v cbs) = length v.
Proof.
  unfold sumScaled. induction cbs as [|cb cbs IH]; intros v; simpl;
    [reflexivity|]. now rewrite IH, addScaled_length.
Qed.

(** An entry to which every basis vector contributes 0 stays 0. *)
Lemma sumScaled_zero_at (j : nat) (cbs : list (Q * list Q)) :
  forall v,
    (j < length v)%nat -> (nth j v 0 == 0)%Q ->
    (forall c bi, In (c, bi) cbs -> (c * nth j bi 0 == 0)%Q) ->
    (nth j (sumScaled v cbs) 0 == 0)%Q.
Proof.
  unfold sumScaled.
  induction cbs as [|[c bi] cbs IH]; intros v Hj Hv Hc; simpl; [exact Hv|].
  apply IH.
  - now rewrite addScaled_length.
  - rewrite addScaled_nth by exact Hj.
    rewrite Hv, (Hc c bi) by (now left). reflexivity.
  - intros c' bi' H. apply Hc. now right.
Qed.

Lemma combination_sumScaled (basis : list (list Q)) (coeffs : list Q) :
  combination basis coeffs
  = sumScaled (repeat 0%Q (length (hd [] basis))) (combine coeffs basis).
Proof. reflexivity. Qed.

(** ** The first listing: the shape of the basis of [nullspace] *)

Lemma freeColumns_spec (pivots : list (option nat)) (n f : nat) :
  In f (freeColumns pivots n) <-> (f < n)%nat /\ nth f pivots None = None.
Proof.
  unfold freeColumns. rewrite filter_In, in_seq.
  destruct (nth f pivots None); split; intros [H1 H2];
    try discriminate; split; auto; lia.
Qed.

Lemma freeColumns_NoDup (pivots : list (option nat)) (n : nat) :
  NoDup (freeColumns pivots n).
Proof. apply NoDup_filter, seq_NoDup. Qed.

Lemma basisVector_length (M0 : list (list Q)) (pivots : list (option nat))
    (n f : nat) :
  length (basisVector M0 pivots n f) = n.
Proof. unfold basisVector. now rewrite length_map, length_seq. Qed.

Lemma nth_map_seq {X} (g : nat -> X) (n j : nat) (d : X) :
  (j < n)%nat -> nth j (map g (seq 0 n)) d = g j.
Proof.
  intros H.
  rewrite (nth_indep _ d (g 0%nat)) by (now rewrite length_map, length_seq).
  rewrite (map_nth g (seq 0 n) 0%nat j). now rewrite seq_nth.
Qed.

(** At a free column the vector of the free column [f] has 1 if the column
    is [f] itself and 0 otherwise. *)
Lemma basisVector_free (M0 : list (list Q)) (pivots : list (option nat))
    (n f j : nat) :
  (j < n)%nat -> nth j pivots None = None ->
  nth j (basisVector M0 pivots n f) 0%Q = if Nat.eqb j f then 1%Q else 0%Q.
Proof.
  intros Hj Hp. unfold basisVector.
  rewrite nth_map_seq by exact Hj. now rewrite Hp.
Qed.

Lemma combine_map_r {X Y Z0} (g : Y -> Z0) (xs : list X) (ys : list Y)
    (x : X) (z : Z0) :
  In (x, z) (combine xs (map g ys)) ->
  exists y, z = g y /\ In (x, y) (combine xs ys).
Proof.
  revert xs; induction ys as [|y ys IH]; intros [|x' xs]; simpl; try tauto.
  intros [H|H].
  - injection H as -> <-. exists y. auto.
  - destruct (IH xs H) as (y' & E & Hin). exists y'. auto.
Qed.

Lemma combine_In_l {X Y} (xs : list X) (ys : list Y) (x : X) :
  length xs = length ys -> In x xs -> exists y, In (x, y) (combine xs ys).
Proof.
  revert ys; induction xs as [|x' xs IH]; intros [|y ys] Hl Hin;
    simpl in *; try tauto; try discriminate.
  destruct Hin as [->|Hin].
  - exists y. now left.
  - destruct (IH ys) as (y' & H); [lia | exact Hin |]. exists y'. now right.
Qed.

Lemma combine_NoDup_r {X Y} (xs : list X) (ys : list Y) (x x' : X) (y : Y) :
  NoDup ys -> In (x, y) (combine xs ys) -> In (x', y) (combine xs ys) ->
  x = x'.
Proof.
  intros Hnd. revert xs; induction Hnd as [|y0 ys Hnot Hnd IH];
    intros [|x0 xs]; simpl; try tauto.
  intros [H|H] [H'|H'].
  - congruence.
  - injection H as -> ->. apply in_combine_r in H'. contradiction.
  - injection H' as -> ->. apply in_combine_r in H. contradiction.
  - eapply IH; eauto.
Qed.

(** A combination of the basis of [basisOf] in which some coefficient is 0
    has an entry equal to 0: the entry at the free column of that
    coefficient. *)
Lemma zero_coefficient_zero_entry (M0 : list (list Q))
    (pivots : list (option nat)) (n : nat) (coeffs : list Q) :
  length coeffs = length (freeColumns pivots n) ->
  (exists c, In c coeffs /\ (c == 0)%Q) ->
  allPositiveUpToSign (combination (basisOf M0 pivots n) coeffs) = false.
Proof.
  intros Hlen (c0 & Hc0 & Hz).
  destruct (combine_In_l coeffs (freeColumns pivots n) c0 Hlen Hc0)
    as (f0 & Hf0).
  pose proof (in_combine_r _ _ _ _ Hf0) as Hfree.
  apply freeColumns_spec in Hfree as [Hlt Hpiv].
  assert (Hhd : length (hd [] (basisOf M0 pivots n)) = n).
  { unfold basisOf. destruct (freeColumns pivots n) as [|f fs] eqn:E.
    - simpl in Hf0. destruct coeffs; contradiction.
    - simpl. apply basisVector_length. }
  apply (zero_entry_rejected _ f0).
  - rewrite combination_sumScaled, sumScaled_length, repeat_length. lia.
  - rewrite combination_sumScaled. apply sumScaled_zero_at.
    + rewrite repeat_length. lia.
    + rewrite nth_repeat. reflexivity.
    + intros c bi Hin. unfold basisOf in Hin.
      apply combine_map_r in Hin as (f & -> & Hin).
      rewrite basisVector_free by assumption.
      destruct (Nat.eqb_spec f0 f) as [<-|Hne].
      * assert (c = c0)
          by (eapply combine_NoDup_r; eauto using freeColumns_NoDup).
        subst c. rewrite Hz. reflexivity.
      * apply Qmult_0_r.
Qed.

(** ** The first listing: the tuples of the search *)

Lemma combos_spec (n : nat) :
  forall cs, In cs (combos n) <-> length cs = n /\ Forall (fun c => In c K) cs.
Proof.
  induction n as [|n IH]; intros cs; cbn [combos].
  - split.
    + intros [<-|[]]. split; [reflexivity | constructor].
    + intros [H _]. destruct cs; [now left | discriminate].
  - rewrite in_flat_map. split.
    + intros (k & Hk & H). apply in_map_iff in H as (cs' & <- & H).
      apply IH in H as [Hl Hf]. split; [simpl; lia | now constructor].
    + intros [Hl Hf]. destruct cs as [|k cs']; [discriminate|].
      inversion Hf; subst. exists k. split; [assumption|].
      apply in_map. apply IH. split; [simpl in Hl; lia | assumption].
Qed.

Lemma K_spec (c : Q) :
  In c K <-> exists k, c = inject_Z k /\ -3 <= k <= 3 /\ k <> 0.
Proof.
  unfold K. split.
  - intros H. simpl in H.
    destruct H as [<-|[<-|[<-|[<-|[<-|[<-|[]]]]]]];
      [exists (-3) | exists (-2) | exists (-1) | exists 1 | exists 2
       | exists 3]; (split; [reflexivity | lia]).
  - intros (k & -> & Hk & Hne).
    assert (k = -3 \/ k = -2 \/ k = -1 \/ k = 1 \/ k = 2 \/ k = 3) by lia.
    simpl. intuition (subst; auto).
Qed.

Lemma combos_of_integers (ks : list Z) :
  inBound (length ks) ks -> ~ In 0 ks ->
  In (map inject_Z ks) (combos (length ks)).
Proof.
  intros [_ Hb] Hnz. apply combos_spec. split; [apply length_map|].
  apply Forall_map. rewrite Forall_forall in *. intros k Hk.
  apply K_spec. exists k. split; [reflexivity|]. split; [now apply Hb|].
  intros ->. contradiction.
Qed.

Lemma combos_are_integers (n : nat) (cs : list Q) :
  In cs (combos n) ->
  exists ks, cs = map inject_Z ks /\ inBound n ks /\ ~ In 0 ks.
Proof.
  intros H. apply combos_spec in H as [Hl Hf]. subst n.
  induction Hf as [|c cs Hc Hf IH].
  - exists []. repeat split; simpl; auto.
  - destruct IH as (ks & -> & [Hl Hb] & Hnz).
    apply K_spec in Hc as (k & -> & Hk & Hne).
    exists (k :: ks). split; [reflexivity|]. split.
    + split; [simpl in *; rewrite length_map in *; lia|].
      constructor; assumption.
    + simpl. intros [H|H]; [lia | contradiction].
Qed.

(** ** The claim on the search *)

Lemma basisOf_length (M0 : list (list Q)) (pivots : list (option nat))
    (n : nat) :
  length (basisOf M0 pivots n) = length (freeColumns pivots n).
Proof. unfold basisOf. apply length_map. Qed.

Lemma search_unfold (basis : list (list Q)) (leftLen rightLen : nat) :
  (1 < length basis)%nat ->
  findSignedFeasibleSolution basis leftLen rightLen
  = find allPositiveUpToSign
      (map (combination basis) (combos (length basis))).
Proof.
  intros H. destruct basis as [|b0 [|b1 rest]]; simpl in H; try lia.
  reflexivity.
Qed.

Lemma search_basisOf (M0 : list (list Q)) (pivots : list (option nat))
    (n leftLen rightLen : nat) :
  (1 < length (basisOf M0 pivots n))%nat ->
  (forall v,
      findSignedFeasibleSolution (basisOf M0 pivots n) leftLen rightLen
      = Some v ->
      beyondTolerance v /\
      exists ks,
        inBound (length (basisOf M0 pivots n)) ks /\ ~ In 0 ks /\
        v = combination (basisOf M0 pivots n) (map inject_Z ks)) /\
  (findSignedFeasibleSolution (basisOf M0 pivots n) leftLen rightLen = None
   <->
   forall ks,
     inBound (length (basisOf M0 pivots n)) ks ->
     ~ beyondTolerance (combination (basisOf M0 pivots n) (map inject_Z ks))).
Proof.
  intros HB. rewrite search_unfold by exact HB.
  set (basis := basisOf M0 pivots n) in *.
  assert (Hsome : forall v,
             find allPositiveUpToSign
               (map (combination basis) (combos (length basis))) = Some v ->
             beyondTolerance v /\
             exists ks,
               inBound (length basis) ks /\ ~ In 0 ks /\
               v = combination basis (map inject_Z ks)).
  { intros v H. apply find_some in H as [Hin Hacc].
    split; [now apply allPositiveUpToSign_spec|].
    apply in_map_iff in Hin as (cs & <- & Hcs).
    apply combos_are_integers in Hcs as (ks & -> & Hb & Hnz).
    exists ks. auto. }
  split; [exact Hsome|]. split.
  - intros Hnone ks [Hl Hb] Hacc.
    apply allPositiveUpToSign_spec in Hacc.
    destruct (in_dec Z.eq_dec 0 ks) as [Hz|Hnz].
    + assert (Hrej : allPositiveUpToSign
                       (combination basis (map inject_Z ks)) = false).
      { apply zero_coefficient_zero_entry.
        - rewrite length_map, Hl. apply basisOf_length.
        - exists (inject_Z 0). split; [now apply in_map | reflexivity]. }
      congruence.
    + rewrite (find_none _ _ Hnone) in Hacc; [discriminate|].
      apply in_map. rewrite <- Hl. apply combos_of_integers; [|exact Hnz].
      split; [reflexivity | exact Hb].
  - intros Hall.
    destruct (find allPositiveUpToSign
                (map (combination basis) (combos (length basis))))
      as [v|] eqn:E; [|reflexivity].
    destruct (Hsome v eq_refl) as (Hacc & ks & Hb & _ & ->).
    exfalso. exact (Hall ks Hb Hacc).
Qed.

(** C3, as the code has it (the first listing, the one with the search; its
    numbers taken as exact rationals).  When the basis [nullspace] computes
    has more than one vector, [findSignedFeasibleSolution] tries the tuples
    of coefficients from -3, -2, -1, 1, 2, 3 and accepts a combination when
    its entries are all greater than the tolerance 1e-12 or all less than
    -1e-12.  What it returns is such a combination.  It returns [null]
    exactly when no tuple of integers in [-3, 3], zeros included, gives an
    accepted combination: with a coefficient 0 the combination has an entry
    0, so leaving 0 out of the search loses nothing. *)
Theorem search_is_exhaustive_up_to_tolerance (A0 : list (list Q))
    (leftLen rightLen : nat) :
  (1 < length (nullspace A0))%nat ->
  (forall v,
      findSignedFeasibleSolution (nullspace A0) leftLen rightLen = Some v ->
      beyondTolerance v /\
      exists ks,
        inBound (length (nullspace A0)) ks /\ ~ In 0 ks /\
        v = combination (nullspace A0) (map inject_Z ks)) /\
  (findSignedFeasibleSolution (nullspace A0) leftLen rightLen = None <->
   forall ks,
     inBound (length (nullspace A0)) ks ->
     ~ beyondTolerance (combination (nullspace A0) (map inject_Z ks))) /\
  (forall v, allPositiveUpToSign v = true <-> beyondTolerance v).
Proof.
  intros HB. unfold nullspace in *.
  destruct (search_basisOf _ _ _ leftLen rightLen HB) as [H1 H2].
  split; [exact H1|]. split; [exact H2|].
  exact allPositiveUpToSign_spec.
Qed.

Lemma search_is_exhaustive_up_to_tolerance_witness :
  exists v,
    findSignedFeasibleSolution (nullspace peroxideMatrix) 2 2 = Some v /\
    beyondTolerance v /\
    exists ks,
      inBound (length (nullspace peroxideMatrix)) ks /\ ~ In 0 ks /\
      v = combination (nullspace peroxideMatrix) (map inject_Z ks).
Proof.
  eexists. split; [vm_compute; reflexivity|].
  apply (proj1 (search_is_exhaustive_up_to_tolerance peroxideMatrix 2 2
                  ltac:(vm_compute; lia))).
  vm_compute; reflexivity.
Defined.

(** C3, as the specification has it, fails.  For
    [H10000000000000 + O2 -> H + O2] the basis has two vectors, the
    combination with the coefficients 1 and 1 has only positive entries, and
    the search answers [null]: the first entry, 1e-13, is within the
    tolerance. *)
Lemma positive_combination_rejected :
  length tinyBasis = 2%nat /\
  inBound 2 [1; 1] /\
  Forall (fun x => 0 < x)%Q (combination tinyBasis (map inject_Z [1; 1])) /\
  findSignedFeasibleSolution tinyBasis 2 2 = None.
Proof.
  split; [vm_compute; reflexivity|].
  split; [split; [reflexivity | repeat constructor; lia]|].
  split; [|vm_compute; reflexivity].
  vm_compute. repeat (constructor; [reflexivity|]). constructor.
Qed.


(* ===================================================================== *)
(** * Further properties of the parser *)
(* ===================================================================== *)

(** ** [trim] *)

Lemma dropWhile_incl {X} (p : X -> bool) (l : list X) (x : X) :
  In x (dropWhile p l) -> In x l.
Proof.
  induction l as [|y l IH]; simpl; [tauto|].
  destruct (p y); simpl; tauto.
Qed.

Lemma dropWhile_head {X} (p : X -> bool) (l : list X) :
  match dropWhile p l with [] => True | x :: _ => p x = false end.
Proof.
  induction l as [|y l IH]; simpl; [exact Logic.I|].
  destruct (p y) eqn:E; [exact IH | exact E].
Qed.

Lemma dropWhile_all {X} (p : X -> bool) (l : list X) :
  Forall (fun x => p x = true) l -> dropWhile p l = [].
Proof. induction 1 as [|x l Hx Hl IH]; simpl; [reflexivity|]. now rewrite Hx. Qed.

Lemma dropWhile_app_all {X} (p : X -> bool) (l1 l2 : list X) :
  Forall (fun x => p x = true) l1 -> dropWhile p (l1 ++ l2) = dropWhile p l2.
Proof. induction 1 as [|x l Hx Hl IH]; simpl; [reflexivity|]. now rewrite Hx. Qed.

Lemma takeWhile_app_all {X} (p : X -> bool) (l1 l2 : list X) :
  Forall (fun x => p x = true) l1 ->
  takeWhile p (l1 ++ l2) = l1 ++ takeWhile p l2.
Proof.
  induction 1 as [|x l Hx Hl IH]; simpl; [reflexivity|].
  rewrite Hx. now f_equal.
Qed.

Lemma dropWhile_stop {X} (p : X -> bool) (l : list X) :
  match l with [] => True | x :: _ => p x = false end -> dropWhile p l = l.
Proof. destruct l as [|x l]; simpl; [reflexivity|]. now intros ->. Qed.

Lemma takeWhile_stop {X} (p : X -> bool) (l : list X) :
  match l with [] => True | x :: _ => p x = false end -> takeWhile p l = [].
Proof. destruct l as [|x l]; simpl; [reflexivity|]. now intros ->. Qed.

(** What [dropWhile] leaves of a list that ends with an element it keeps
    still ends with that element. *)
Lemma dropWhile_keeps_last {X} (p : X -> bool) (l : list X) (x : X) :
  p x = false -> exists l', dropWhile p (l ++ [x]) = l' ++ [x].
Proof.
  intros Hx. induction l as [|y l IH]; simpl.
  - rewrite Hx. now exists [].
  - destruct (p y); [exact IH|]. now exists (y :: l).
Qed.

Lemma trim_trimmed (s : jsstring) : trimmed (trim s).
Proof.
  unfold trimmed, trim. rewrite rev_involutive. split.
  - pose proof (dropWhile_head isWhite s) as Hh.
    destruct (dropWhile isWhite s) as [|c t] eqn:E; [exact Logic.I|].
    simpl rev.
    destruct (dropWhile_keeps_last isWhite (rev t) c Hh) as (l' & El).
    rewrite El, rev_app_distr. exact Hh.
  - apply dropWhile_head.
Qed.

Lemma trim_incl (s : jsstring) (c : N) : In c (trim s) -> In c s.
Proof.
  unfold trim. intros H. apply in_rev in H.
  apply dropWhile_incl in H. apply in_rev in H.
  now apply dropWhile_incl in H.
Qed.

(** A string with no white space at either end is left as it is. *)
Lemma trim_fixed (s : jsstring) : trimmed s -> trim s = s.
Proof.
  intros [Hh Ht]. unfold trim.
  rewrite (dropWhile_stop isWhite s Hh).
  rewrite (dropWhile_stop isWhite (rev s) Ht).
  apply rev_involutive.
Qed.

(** ** [parseSpecies] *)

Lemma digit_not_white (c : N) : isDigit c = true -> isWhite c = false.
Proof.
  unfold isDigit, isWhite. intros H.
  rewrite Bool.andb_true_iff, !N.leb_le in H.
  apply Bool.not_true_is_false. intros Hw.
  rewrite !Bool.orb_true_iff, !Bool.andb_true_iff, !N.leb_le, !N.eqb_eq in Hw.
  lia.
Qed.

Lemma white_not_digit (c : N) : isWhite c = true -> isDigit c = false.
Proof.
  intros H. destruct (isDigit c) eqn:E; [|reflexivity].
  apply digit_not_white in E. congruence.
Qed.

(** X1. A chunk made of optional white space, a run of digits, optional
    white space and a body that holds no line terminator is read as the
    coefficient the digits spell and the trimmed body.  (The body starts
    where the white space ends, and where the digits end when no white
    space follows them.) *)
Theorem parseSpecies_coefficient_then_formula
  (ws1 ds ws2 body : jsstring) :
  Forall (fun c => isWhite c = true) ws1 ->
  ds <> [] ->
  Forall (fun c => isDigit c = true) ds ->
  Forall (fun c => isWhite c = true) ws2 ->
  match body with
  | [] => True
  | c :: _ => isWhite c = false /\ (ws2 = [] -> isDigit c = false)
  end ->
  existsb isLineTerminator body = false ->
  parseSpecies (ws1 ++ ds ++ ws2 ++ body)
  = mkSpecies (parseInt ds) (trim body).
Proof.
  intros Hws1 Hne Hds Hws2 Hbody Hlt.
  assert (Hhead : match ws2 ++ body with
                  | [] => True | c :: _ => isDigit c = false end).
  { destruct ws2 as [|w ws2]; simpl.
    - destruct body as [|c body]; [exact Logic.I|]. now apply Hbody.
    - inversion Hws2; subst. now apply white_not_digit. }
  assert (Hbody' : match body with
                   | [] => True | c :: _ => isWhite c = false end).
  { destruct body; [exact Logic.I|]. now apply Hbody. }
  unfold parseSpecies.
  rewrite (dropWhile_app_all isWhite ws1) by exact Hws1.
  rewrite (dropWhile_stop isWhite (ds ++ ws2 ++ body)).
  2:{ destruct ds as [|d ds]; [congruence|]. simpl.
      inversion Hds; subst. now apply digit_not_white. }
  rewrite (takeWhile_app_all isDigit ds) by exact Hds.
  rewrite (takeWhile_stop isDigit (ws2 ++ body)) by exact Hhead.
  rewrite (dropWhile_app_all isDigit ds) by exact Hds.
  rewrite (dropWhile_stop isDigit (ws2 ++ body)) by exact Hhead.
  rewrite (dropWhile_app_all isWhite ws2) by exact Hws2.
  rewrite (dropWhile_stop isWhite body) by exact Hbody'.
  rewrite app_nil_r, Hlt.
  destruct ds; [congruence|reflexivity].
Qed.

Lemma parseSpecies_coefficient_then_formula_witness :
  parseSpecies (js " 12 H2O ") = mkSpecies 12 (js "H2O").
Proof.
  apply (parseSpecies_coefficient_then_formula
           (js " ") (js "12") (js " ") (js "H2O ")).
  - repeat constructor.
  - discriminate.
  - repeat constructor.
  - repeat constructor.
  - split; [reflexivity | discriminate].
  - reflexivity.
Defined.

(** X2. Whatever the chunk, the formula [parseSpecies] returns has no white
    space at either end and is made of characters of the chunk, and the
    coefficient is a non-negative integer (it is 0 for a chunk such as
    ["0H2"]); a chunk that does not start, after white space, with a digit
    gets the coefficient 1 and is trimmed as a whole. *)
Theorem parseSpecies_formula_trimmed (raw : jsstring) :
  trimmed (formula (parseSpecies raw)) /\
  (forall c, In c (formula (parseSpecies raw)) -> In c raw) /\
  0 <= coeff (parseSpecies raw) /\
  (takeWhile isDigit (dropWhile isWhite raw) = [] ->
   parseSpecies raw = mkSpecies 1 (trim raw)) /\
  parseSpecies (js "0H2") = mkSpecies 0 (js "H2").
Proof.
  unfold parseSpecies.
  destruct (takeWhile isDigit (dropWhile isWhite raw)) as [|d ds] eqn:Ed.
  - simpl. repeat split; try apply trim_trimmed; try lia.
    intros c. apply trim_incl.
  - destruct (existsb isLineTerminator _); simpl.
    + repeat split; try apply trim_trimmed; try lia; try discriminate.
      intros c. apply trim_incl.
    + repeat split; try apply trim_trimmed; try discriminate.
      * intros c H. apply trim_incl in H.
        do 2 apply dropWhile_incl in H. now apply dropWhile_incl in H.
      * apply parseInt_nonneg. rewrite <- Ed. apply takeWhile_Forall.
Qed.

Lemma parseSpecies_formula_trimmed_witness :
  parseSpecies (js " H2O ") = mkSpecies 1 (js "H2O").
Proof.
  destruct (parseSpecies_formula_trimmed (js " H2O ")) as (_ & _ & _ & H & _).
  apply H. reflexivity.
Defined.

(** ** The chunks of [splitEquation] *)

(** X3. Every species chunk [splitEquation] returns is non-empty, has no
    white space at either end and holds no [+]. *)
Theorem splitEquation_chunks_clean (eqn : jsstring) (r : Sides) :
  splitEquation eqn = Some r ->
  Forall (fun chunk => chunk <> [] /\ trimmed chunk /\ ~ In ch_plus chunk)
         (left r ++ right r).
Proof.
  intros H. apply splitEquation_some in H.
  destruct H as (lhs & rhs & _ & -> & ->).
  assert (G : forall side,
             Forall (fun chunk => chunk <> [] /\ trimmed chunk /\
                                  ~ In ch_plus chunk) (chunks side)).
  { intros side. apply Forall_forall. intros chunk Hin.
    unfold chunks in Hin. apply filter_In in Hin. destruct Hin as [Hin Hne].
    apply in_map_iff in Hin. destruct Hin as (p & <- & Hp).
    split; [|split].
    - intros E. rewrite E in Hne. discriminate.
    - apply trim_trimmed.
    - intros Hplus. apply trim_incl in Hplus.
      pose proof (split_char_free ch_plus side) as F.
      rewrite Forall_forall in F. exact (F p Hp Hplus). }
  apply Forall_app. split; apply G.
Qed.

Lemma splitEquation_chunks_clean_witness :
  Forall (fun chunk => chunk <> [] /\ trimmed chunk /\ ~ In ch_plus chunk)
         ([js "Fe"; js "O2"] ++ [js "Fe2O3"]).
Proof.
  apply (splitEquation_chunks_clean (js " Fe +  + O2 => Fe2O3 ")
           (mkLR [js "Fe"; js "O2"] [js "Fe2O3"])).
  reflexivity.
Defined.

(** ** [normalizeArrow] *)

Lemma runThenGt_firstn (c : N) (s : jsstring) (n : nat) :
  runThenGt c s = Some n ->
  firstn n s = takeWhile (N.eqb c) s ++ [ch_gt] /\ In ch_gt s.
Proof.
  unfold runThenGt.
  assert (E : s = takeWhile (N.eqb c) s ++ dropWhile (N.eqb c) s).
  { induction s as [|x s IH]; simpl; [reflexivity|].
    destruct (N.eqb c x); simpl; [now f_equal | reflexivity]. }
  destruct (dropWhile (N.eqb c) s) as [|g rest] eqn:Ed; [discriminate|].
  destruct (N.eqb g ch_gt) eqn:Eg; [|discriminate].
  apply N.eqb_eq in Eg. subst g. intros [= <-]. split.
  - remember (takeWhile (N.eqb c) s) as t eqn:Et. clear Et Ed. subst s.
    induction t as [|x t IH]; simpl; [reflexivity|]. now f_equal.
  - apply (dropWhile_incl (N.eqb c)). rewrite Ed. now left.
Qed.

Lemma takeWhile_eqb_Forall (c : N) (s : jsstring) :
  Forall (fun x => x = c) (takeWhile (N.eqb c) s).
Proof.
  induction s as [|x s IH]; simpl; [constructor|].
  destruct (N.eqb c x) eqn:E; constructor; [|exact IH].
  apply N.eqb_eq in E. congruence.
Qed.

Lemma runThenGt_ascii (c : N) (s : jsstring) (n : nat) :
  isUnicodeArrow c = false ->
  runThenGt c s = Some n ->
  Forall (fun x => isUnicodeArrow x = false) (firstn n s).
Proof.
  intros Hc H. apply runThenGt_firstn in H. destruct H as [-> _].
  apply Forall_app. split.
  - eapply Forall_impl; [|apply takeWhile_eqb_Forall].
    intros x ->. exact Hc.
  - repeat constructor.
Qed.

(** The characters a match passes over, after its first, are ASCII. *)
Lemma matchArrow_ascii_tail (c : N) (r : jsstring) (k : nat) :
  matchArrow (c :: r) = Some (S k) ->
  Forall (fun x => isUnicodeArrow x = false) (firstn k r).
Proof.
  unfold matchArrow.
  destruct (c =? ch_equilibrium)%N; [intros [= <-]; constructor|].
  destruct (isPrefix [ch_lt; ch_eq; ch_gt] (c :: r)) eqn:Ep.
  { intros [= <-]. cbn [isPrefix] in Ep.
    destruct r as [|d1 [|d2 r]]; try (rewrite ?Bool.andb_false_r in Ep; discriminate).
    rewrite !Bool.andb_true_iff, !N.eqb_eq in Ep.
    destruct Ep as (_ & <- & <- & _). repeat constructor. }
  destruct (c =? ch_long_left_right)%N; [intros [= <-]; constructor|].
  destruct (c =? ch_double_arrow)%N; [intros [= <-]; constructor|].
  destruct (c =? ch_rightwards_arrow)%N; [intros [= <-]; constructor|].
  destruct (c =? ch_lt)%N.
  { destruct r as [|d r']; [discriminate|].
    destruct (d =? ch_minus)%N; [|discriminate].
    destruct (runThenGt ch_minus (d :: r')) as [n|] eqn:En; [|discriminate].
    intros [= <-]. now apply (runThenGt_ascii ch_minus). }
  destruct (c =? ch_eq)%N eqn:Ee.
  { intros H. apply (runThenGt_ascii ch_eq) in H; [|reflexivity].
    simpl in H. now inversion H. }
  destruct (c =? ch_minus)%N eqn:Em; [|discriminate].
  intros H. apply (runThenGt_ascii ch_minus) in H; [|reflexivity].
  simpl in H. now inversion H.
Qed.

Lemma matchArrow_unicode (c : N) (r : jsstring) :
  isUnicodeArrow c = true -> matchArrow (c :: r) = Some 1%nat.
Proof.
  unfold isUnicodeArrow.
  rewrite !Bool.orb_true_iff, !N.eqb_eq.
  intros [[[-> | ->] | ->] | ->]; reflexivity.
Qed.

Lemma replaceArrows_ascii (s : jsstring) :
  forall skip,
    Forall (fun x => isUnicodeArrow x = false) (firstn skip s) ->
    Forall (fun x => isUnicodeArrow x = false) (replaceArrows skip s).
Proof.
  induction s as [|c r IH]; intros skip Hskip; [constructor|].
  destruct skip as [|k].
  - cbn [replaceArrows].
    destruct (matchArrow (c :: r)) as [[|k]|] eqn:Em.
    + constructor; [|apply IH; constructor].
      destruct (isUnicodeArrow c) eqn:Eu; [|reflexivity].
      rewrite (matchArrow_unicode c r Eu) in Em. discriminate.
    + apply Forall_app. split; [repeat constructor|].
      apply IH. now apply matchArrow_ascii_tail with (c := c).
    + constructor; [|apply IH; constructor].
      destruct (isUnicodeArrow c) eqn:Eu; [|reflexivity].
      rewrite (matchArrow_unicode c r Eu) in Em. discriminate.
  - cbn [replaceArrows]. apply IH. simpl in Hskip. now inversion Hskip.
Qed.

(** X4. None of the four Unicode arrows of the regular expression is left
    in a normalized equation: every character of the result of
    [normalizeArrow] is other than U+21CC, U+27F7, U+21D2 and U+2192.  The
    arrow U+21D4 is not among them; it is left as it is. *)
Theorem normalizeArrow_leaves_no_unicode_arrow (s : jsstring) :
  forallb (fun c => negb (isUnicodeArrow c)) (normalizeArrow s) = true /\
  Forall (fun c => c <> 8652 /\ c <> 10231 /\ c <> 8658 /\ c <> 8594)%N
         (normalizeArrow s) /\
  normalizeArrow [8660%N] = [8660%N].
Proof.
  assert (H : forall c, In c (normalizeArrow s) -> isUnicodeArrow c = false).
  { intros c Hc.
    pose proof (replaceArrows_ascii s 0 (Forall_nil _)) as H.
    rewrite Forall_forall in H. now apply H. }
  split; [|split; [|reflexivity]].
  - apply forallb_forall. intros c Hc. now rewrite (H c Hc).
  - apply Forall_forall. intros c Hc. specialize (H c Hc).
    unfold isUnicodeArrow in H. rewrite !Bool.orb_false_iff in H.
    destruct H as [[[H1 H2] H3] H4].
    apply N.eqb_neq in H1, H2, H3, H4.
    unfold ch_equilibrium, ch_long_left_right, ch_double_arrow,
      ch_rightwards_arrow in *.
    now repeat split.
Qed.

Lemma isPrefix_arrow_gt (s : jsstring) :
  isPrefix arrow s = true -> In ch_gt s.
Proof.
  unfold arrow. destruct s as [|x [|y s]]; cbn [isPrefix];
    rewrite ?Bool.andb_false_r; try discriminate.
  rewrite !Bool.andb_true_iff, !N.eqb_eq. intros (_ & <- & _).
  right; now left.
Qed.

Lemma matchArrow_needs_gt (s : jsstring) (n : nat) :
  matchArrow s = Some n ->
  exists c, In c s /\ ((c =? ch_gt)%N || isUnicodeArrow c = true).
Proof.
  destruct s as [|c r]; [discriminate|].
  destruct (isUnicodeArrow c) eqn:Eu.
  { intros _. exists c. split; [now left|]. now rewrite Eu, Bool.orb_true_r. }
  assert (G : In ch_gt (c :: r) ->
              exists x, In x (c :: r) /\
                        ((x =? ch_gt)%N || isUnicodeArrow x = true)).
  { intros Hin. exists ch_gt. split; [exact Hin | reflexivity]. }
  unfold isUnicodeArrow in Eu. rewrite !Bool.orb_false_iff in Eu.
  destruct Eu as (((E1 & E2) & E3) & E4).
  unfold matchArrow. rewrite E1, E2, E3, E4.
  destruct (isPrefix [ch_lt; ch_eq; ch_gt] (c :: r)) eqn:Ep.
  { intros _. apply G. cbn [isPrefix] in Ep.
    destruct r as [|d1 [|d2 r]]; try (rewrite ?Bool.andb_false_r in Ep; discriminate).
    rewrite !Bool.andb_true_iff, !N.eqb_eq in Ep.
    destruct Ep as (_ & _ & <- & _). right; right; now left. }
  destruct (c =? ch_lt)%N.
  { destruct r as [|d r']; [discriminate|].
    destruct (d =? ch_minus)%N; [|discriminate].
    destruct (runThenGt ch_minus (d :: r')) as [k|] eqn:En; [|discriminate].
    intros _. apply G. right. now apply runThenGt_firstn in En. }
  destruct (c =? ch_eq)%N.
  { intros H. apply G. now apply runThenGt_firstn in H. }
  destruct (c =? ch_minus)%N; [|discriminate].
  intros H. apply G. now apply runThenGt_firstn in H.
Qed.

Lemma replaceArrows_fixed (s : jsstring) :
  existsb (fun c => (c =? ch_gt)%N || isUnicodeArrow c) s = false ->
  replaceArrows 0 s = s.
Proof.
  induction s as [|c r IH]; intros H; [reflexivity|].
  cbn [replaceArrows].
  destruct (matchArrow (c :: r)) as [n|] eqn:Em.
  - apply matchArrow_needs_gt in Em. destruct Em as (x & Hx & Ex).
    assert (existsb (fun c => (c =? ch_gt)%N || isUnicodeArrow c) (c :: r)
            = true) by (apply existsb_exists; eauto).
    congruence.
  - f_equal. apply IH. simpl in H. now apply Bool.orb_false_iff in H.
Qed.

Lemma split_arrow_fixed (s : jsstring) :
  ~ In ch_gt s -> forall cur, split_from arrow 0 cur s = [rev cur ++ s].
Proof.
  induction s as [|c r IH]; intros Hs cur.
  - simpl. now rewrite app_nil_r.
  - cbn [split_from].
    destruct (isPrefix arrow (c :: r)) eqn:Ep.
    + now apply isPrefix_arrow_gt in Ep.
    + rewrite IH by (simpl in Hs; tauto).
      simpl. now rewrite <- app_assoc.
Qed.

(** X5. A text that holds neither [>] nor one of the four Unicode arrows has
    no arrow at all: [normalizeArrow] returns it unchanged and
    [splitEquation] returns null.  In particular a lone [=] is not an
    arrow. *)
Theorem splitEquation_needs_an_arrow (s : jsstring) :
  existsb (fun c => (c =? ch_gt)%N || isUnicodeArrow c) s = false ->
  normalizeArrow s = s /\ splitEquation s = None.
Proof.
  intros H.
  assert (E : normalizeArrow s = s) by now apply replaceArrows_fixed.
  split; [exact E|].
  unfold splitEquation, split. rewrite E.
  rewrite split_arrow_fixed; [reflexivity|].
  intros Hin.
  assert (existsb (fun c => (c =? ch_gt)%N || isUnicodeArrow c) s = true).
  { apply existsb_exists. exists ch_gt. split; [exact Hin | reflexivity]. }
  congruence.
Qed.

Lemma splitEquation_needs_an_arrow_witness :
  normalizeArrow (js "2 H2 + O2 = 2 H2O") = js "2 H2 + O2 = 2 H2O" /\
  splitEquation (js "2 H2 + O2 = 2 H2O") = None.
Proof.
  apply (splitEquation_needs_an_arrow (js "2 H2 + O2 = 2 H2O")).
  reflexivity.
Defined.

(** ** The evaluator on well-nested token sequences *)

Lemma resume_nil (stack : list CountMap) :
  resume [] stack = Returned (bottom stack).
Proof. reflexivity. Qed.

Lemma resume_elem (symbol : jsstring) (cnt : Z) (rest : list Token)
    (top : CountMap) (below : list CountMap) :
  resume (TElem symbol cnt :: rest) (top :: below)
  = resume rest (pushCounts top symbol cnt :: below).
Proof. reflexivity. Qed.

Lemma resume_num_elem (n : Z) (symbol : jsstring) (cnt : Z)
    (rest : list Token) (top : CountMap) (below : list CountMap) :
  resume (TNum n :: TElem symbol cnt :: rest) (top :: below)
  = resume rest (pushCounts top symbol (cnt * n) :: below).
Proof.
  unfold resume at 1. cbn [length].
  remember (S (S (length rest))) as fuel eqn:Ef. cbn [go].
  apply go_fuel_enough. lia.
Qed.

Lemma resume_num_opener (n : Z) (v : jsstring) (l : list Token)
    (stack : list CountMap) :
  hasOpener v = true ->
  resume (TNum n :: TParen v :: l) stack
  = match resume (fst (scanGroup 0 (TParen v :: l))) [[]] with
    | Returned (Some sub) =>
        match mergeIntoTop stack sub n with
        | Returned stack' => resume (snd (scanGroup 0 (TParen v :: l))) stack'
        | _ => TypeError
        end
    | Returned None => TypeError
    | e => e
    end.
Proof.
  intros Hv. unfold resume at 1. cbn [length].
  remember (S (S (length l))) as fuel eqn:Ef. cbn [go]. rewrite Hv.
  destruct (scanGroup 0 (TParen v :: l)) as [g after] eqn:Es.
  pose proof (scanGroup_lengths _ _ _ _ Es) as [Hg Ha]. simpl in Hg, Ha.
  cbn [fst snd].
  rewrite (go_fuel_enough g) by lia.
  destruct (resume g [[]]) as [[sub|]| | | |]; try reflexivity.
  destruct (mergeIntoTop stack sub n); try reflexivity.
  apply go_fuel_enough. lia.
Qed.

Lemma set_has_In (set : list jsstring) (v : jsstring) :
  set_has set v = true <-> In v set.
Proof. unfold set_has. apply existsb_str_eqb. Qed.

Lemma openers_hasOpener (v : jsstring) : In v openers -> hasOpener v = true.
Proof. intros [<-|[<-|[<-|[]]]]; reflexivity. Qed.

Lemma closers_hasCloser (v : jsstring) :
  In v closers -> hasOpener v = false /\ hasCloser v = true.
Proof. intros [<-|[<-|[<-|[]]]]; split; reflexivity. Qed.

Lemma scanGroup_other (u : Token) (l : list Token) (d : Z) :
  match u with TParen _ => False | _ => True end ->
  scanGroup d (u :: l) = (u :: fst (scanGroup d l), snd (scanGroup d l)).
Proof.
  intros Hu. cbn [scanGroup].
  destruct u; try contradiction; destruct (scanGroup d l); reflexivity.
Qed.

Lemma scanGroup_open (v : jsstring) (l : list Token) (d : Z) :
  In v openers ->
  scanGroup d (TParen v :: l)
  = (TParen v :: fst (scanGroup (d + 1) l), snd (scanGroup (d + 1) l)).
Proof.
  intros Hv. cbn [scanGroup]. rewrite (openers_hasOpener v Hv).
  destruct (scanGroup (d + 1) l); reflexivity.
Qed.

Lemma scanGroup_close (v : jsstring) (l : list Token) (d : Z) :
  In v closers ->
  scanGroup d (TParen v :: l)
  = if d - 1 =? 0 then ([TParen v], l)
    else (TParen v :: fst (scanGroup (d - 1) l), snd (scanGroup (d - 1) l)).
Proof.
  intros Hv. cbn [scanGroup].
  destruct (closers_hasCloser v Hv) as [-> ->].
  destruct (d - 1 =? 0); [reflexivity|].
  destruct (scanGroup (d - 1) l); reflexivity.
Qed.

(** Inside a group the scan passes over a well-nested sequence. *)
Lemma scanGroup_flatten (p : Parts) :
  wellNested p = true ->
  forall (d : Z) (l : list Token),
    1 <= d ->
    scanGroup d (flatten p ++ l)
    = (flatten p ++ fst (scanGroup d l), snd (scanGroup d l)).
Proof.
  induction p as [|s c next IHn|n s c next IHn
                  |o c body IHb mult next IHn|n o c body IHb next IHn];
    intros Hwf d l Hd; cbn [flatten wellNested] in *.
  - simpl. now destruct (scanGroup d l).
  - cbn [app]. rewrite scanGroup_other by exact Logic.I.
    rewrite IHn by assumption. reflexivity.
  - cbn [app]. rewrite !scanGroup_other by exact Logic.I.
    rewrite IHn by assumption. reflexivity.
  - rewrite !Bool.andb_true_iff in Hwf.
    destruct Hwf as ((((Ho & Hc) & Hb) & Hn) & _).
    apply set_has_In in Ho. apply set_has_In in Hc.
    cbn [app]. rewrite scanGroup_open by exact Ho.
    rewrite <- app_assoc. rewrite IHb by (try assumption; lia).
    cbn [app fst snd]. rewrite scanGroup_close by exact Hc.
    replace (d + 1 - 1 =? 0) with false by (symmetry; apply Z.eqb_neq; lia).
    replace (d + 1 - 1) with d by lia. cbn [fst snd].
    destruct mult as [m|]; cbn [app].
    + rewrite scanGroup_other by exact Logic.I. cbn [fst snd].
      rewrite IHn by assumption. cbn [fst snd].
      rewrite <- app_assoc. reflexivity.
    + rewrite IHn by assumption. cbn [fst snd].
      rewrite <- app_assoc. reflexivity.
  - rewrite !Bool.andb_true_iff in Hwf.
    destruct Hwf as (((Ho & Hc) & Hb) & Hn).
    apply set_has_In in Ho. apply set_has_In in Hc.
    cbn [app]. rewrite scanGroup_other by exact Logic.I.
    rewrite scanGroup_open by exact Ho. cbn [fst snd].
    rewrite <- app_assoc. rewrite IHb by (try assumption; lia).
    cbn [app fst snd]. rewrite scanGroup_close by exact Hc.
    replace (d + 1 - 1 =? 0) with false by (symmetry; apply Z.eqb_neq; lia).
    replace (d + 1 - 1) with d by lia. cbn [fst snd].
    rewrite IHn by assumption. cbn [fst snd].
    rewrite <- app_assoc. reflexivity.
Qed.

(** From the opening delimiter the scan ends right after the delimiter
    that closes the group. *)
Lemma scanGroup_group (o c : jsstring) (body : Parts) (rest : list Token) :
  In o openers -> In c closers -> wellNested body = true ->
  scanGroup 0 (TParen o :: flatten body ++ TParen c :: rest)
  = (TParen o :: flatten body ++ [TParen c], rest).
Proof.
  intros Ho Hc Hb. rewrite scanGroup_open by exact Ho.
  rewrite scanGroup_flatten by (try assumption; lia).
  rewrite scanGroup_close by exact Hc. reflexivity.
Qed.

Lemma flatten_notNum (p : Parts) (rest : list Token) :
  startsWithNum p = false -> notNum rest = true ->
  notNum (flatten p ++ rest) = true.
Proof. destruct p; simpl; intros; try assumption; try reflexivity; discriminate. Qed.

(** The loop reads a well-nested sequence into the top accumulator and
    goes on with what follows. *)
Lemma resume_flatten (p : Parts) :
  wellNested p = true ->
  forall (rest : list Token) (top : CountMap) (below : list CountMap),
    notNum rest = true ->
    resume (flatten p ++ rest) (top :: below)
    = resume rest (evalParts p top :: below).
Proof.
  induction p as [|s c next IHn|n s c next IHn
                  |o c body IHb mult next IHn|n o c body IHb next IHn];
    intros Hwf rest top below Hrest; cbn [flatten wellNested evalParts] in *.
  - reflexivity.
  - cbn [app]. rewrite resume_elem. now apply IHn.
  - cbn [app]. rewrite resume_num_elem. now apply IHn.
  - rewrite !Bool.andb_true_iff in Hwf.
    destruct Hwf as ((((Ho & Hc) & Hb) & Hn) & Hm).
    apply set_has_In in Ho. apply set_has_In in Hc.
    cbn [app]. rewrite resume_open by exact Ho.
    rewrite <- app_assoc. rewrite IHb by (try assumption; reflexivity).
    destruct mult as [m|]; cbn [app].
    + rewrite resume_close_num by exact Hc. now apply IHn.
    + rewrite resume_close_plain; [now apply IHn | exact Hc |].
      apply flatten_notNum; [|exact Hrest].
      now apply Bool.negb_true_iff.
  - rewrite !Bool.andb_true_iff in Hwf.
    destruct Hwf as (((Ho & Hc) & Hb) & Hn).
    apply set_has_In in Ho. apply set_has_In in Hc.
    cbn [app]. rewrite <- app_assoc. cbn [app].
    rewrite resume_num_opener by now apply openers_hasOpener.
    rewrite scanGroup_group by assumption. cbn [fst snd].
    rewrite resume_open by exact Ho.
    rewrite IHb by (try assumption; reflexivity).
    rewrite resume_close_plain by (try assumption; reflexivity).
    rewrite resume_nil. cbn [bottom map last mergeIntoTop].
    now apply IHn.
Qed.








(* ===================================================================== *)
(** * Further properties of the counts *)
(* ===================================================================== *)

(** ** [multiplyCounts] *)

Lemma multiplyCounts_aux (k : Z) (c : ElementCount) :
  forall acc,
    NoDup (keys acc ++ keys c) ->
    fold_left (fun out kv => map_set out (fst kv) (snd kv * k)) c acc
    = acc ++ map (fun kv => (fst kv, snd kv * k)) c.
Proof.
  induction c as [|[el n] c IH]; intros acc H; simpl.
  - now rewrite app_nil_r.
  - simpl in H. rewrite map_set_absent.
    + rewrite IH.
      * now rewrite <- app_assoc.
      * unfold keys. rewrite map_app. simpl. rewrite <- app_assoc. exact H.
    + apply NoDup_remove_2 in H. rewrite in_app_iff in H. tauto.
Qed.

Lemma multiplyCounts_map (c : ElementCount) (k : Z) :
  NoDup (keys c) ->
  multiplyCounts c k = map (fun kv => (fst kv, snd kv * k)) c.
Proof. intros H. apply (multiplyCounts_aux k c []). exact H. Qed.

Lemma multiplyCounts_keys (c : ElementCount) (k : Z) :
  NoDup (keys c) -> keys (multiplyCounts c k) = keys c.
Proof.
  intros H. rewrite multiplyCounts_map by exact H.
  unfold keys. rewrite map_map. reflexivity.
Qed.

Lemma multiplyCounts_get (c : ElementCount) (k : Z) (e : jsstring) :
  NoDup (keys c) ->
  orZero (map_get (multiplyCounts c k) e) = orZero (map_get c e) * k.
Proof.
  intros H. rewrite multiplyCounts_map by exact H. clear H.
  induction c as [|[el n] c IH]; simpl; [reflexivity|].
  destruct (str_eqb el e); [reflexivity | exact IH].
Qed.



(** ** [sumCounts] of any number of objects *)

Lemma sumCounts_fold_NoDup (l : list ElementCount) :
  forall acc,
    NoDup (keys acc) ->
    NoDup (keys (fold_left
                   (fun out obj =>
                      fold_left (fun out kv => pushCounts out (fst kv) (snd kv))
                                obj out) l acc)).
Proof.
  induction l as [|c l IH]; intros acc H; simpl; [exact H|].
  apply IH. apply (pushAll_NoDup (fun n => n)). exact H.
Qed.

Lemma sumCounts_fold_get (l : list ElementCount) (e : jsstring) :
  Forall (fun c => NoDup (keys c)) l ->
  forall acc,
    orZero (map_get (fold_left
                       (fun out obj =>
                          fold_left
                            (fun out kv => pushCounts out (fst kv) (snd kv))
                            obj out) l acc) e)
    = orZero (map_get acc e) + countIn l e.
Proof.
  induction 1 as [|c l Hc Hl IH]; intros acc; simpl; [lia|].
  rewrite IH.
  change (fold_left (fun out kv => pushCounts out (fst kv) (snd kv)) c acc)
    with (pushAll (fun n => n) acc c).
  rewrite pushAll_get by exact Hc.
  destruct (map_get c e); simpl; lia.
Qed.

Lemma sumCounts_fold_keys (l : list ElementCount) (e : jsstring) :
  forall acc,
    In e (keys (fold_left
                  (fun out obj =>
                     fold_left (fun out kv => pushCounts out (fst kv) (snd kv))
                               obj out) l acc))
    <-> In e (keys acc) \/ exists c, In c l /\ In e (keys c).
Proof.
  induction l as [|c l IH]; intros acc; simpl.
  - split; [tauto|]. intros [H|(c & [] & _)]; exact H.
  - rewrite IH.
    change (fold_left (fun out kv => pushCounts out (fst kv) (snd kv)) c acc)
      with (pushAll (fun n => n) acc c).
    rewrite pushAll_keys. split.
    + intros [[H|H]|(c' & Hc' & H)]; eauto.
    + intros [H|(c' & [<-|Hc'] & H)]; eauto.
Qed.

Lemma sortEntries_keys_In (m : CountMap) (e : jsstring) :
  In e (keys (sortEntries m)) <-> In e (keys m).
Proof.
  unfold keys. split; intros H.
  - eapply Permutation_in; [|exact H].
    apply Permutation_map, sortEntries_perm.
  - eapply Permutation_in; [|exact H].
    apply Permutation_map. symmetry. apply sortEntries_perm.
Qed.

Lemma sumCounts_get (l : list ElementCount) (e : jsstring) :
  Forall (fun c => NoDup (keys c)) l ->
  orZero (map_get (sumCounts l) e) = countIn l e.
Proof.
  intros H. unfold sumCounts.
  rewrite sorted_object_get by (apply sumCounts_fold_NoDup; constructor).
  rewrite sumCounts_fold_get by exact H. reflexivity.
Qed.

Lemma sumCounts_keys (l : list ElementCount) (e : jsstring) :
  In e (keys (sumCounts l)) <-> exists c, In c l /\ In e (keys c).
Proof.
  unfold sumCounts.
  rewrite fromEntries_NoDup
    by (apply sortEntries_keys_NoDup, sumCounts_fold_NoDup; constructor).
  rewrite sortEntries_keys_In, sumCounts_fold_keys. simpl. tauto.
Qed.

Lemma sumCounts_sorted (l : list ElementCount) :
  StronglySorted lex_lt (keys (sumCounts l)).
Proof.
  unfold sumCounts. apply sorted_object_keys.
  apply sumCounts_fold_NoDup. constructor.
Qed.


(** Entries already in order stay as they are. *)
Lemma insertEntry_head (e : jsstring * Z) (l : list (jsstring * Z)) :
  Forall (fun e' => lex_lt (fst e) (fst e')) l -> insertEntry e l = e :: l.
Proof.
  destruct l as [|e' l]; [reflexivity|]. intros H. inversion H; subst.
  simpl. replace (localeCompare (fst e) (fst e')) with Lt; [reflexivity|].
  symmetry. now apply localeCompare_Lt.
Qed.

Lemma sortEntries_sorted_fixed (l : list (jsstring * Z)) :
  StronglySorted lex_lt (keys l) -> sortEntries l = l.
Proof.
  induction l as [|e l IH]; intros H; simpl; [reflexivity|].
  simpl in H. inversion H as [|? ? Hs Hall]; subst.
  rewrite IH by exact Hs. apply insertEntry_head.
  unfold keys in Hall. now rewrite Forall_map in Hall.
Qed.

Lemma StronglySorted_lex_NoDup (l : list jsstring) :
  StronglySorted lex_lt l -> NoDup l.
Proof.
  induction 1 as [|x l Hs IH Hall]; constructor; [|exact IH].
  intros Hin. rewrite Forall_forall in Hall.
  exact (lex_lt_irrefl x (Hall x Hin)).
Qed.

Lemma pushAll_fresh (c : ElementCount) :
  forall acc,
    NoDup (keys acc ++ keys c) ->
    pushAll (fun n => n) acc c = acc ++ c.
Proof.
  unfold pushAll.
  induction c as [|[el n] c IH]; intros acc H; simpl.
  - now rewrite app_nil_r.
  - simpl in H.
    assert (Hnot : ~ In el (keys acc)).
    { apply NoDup_remove_2 in H. rewrite in_app_iff in H. tauto. }
    unfold pushCounts at 2. simpl.
    replace (map_get acc el) with (@None Z)
      by (symmetry; now apply map_get_none).
    simpl. rewrite map_set_absent by exact Hnot.
    rewrite IH.
    + now rewrite <- app_assoc.
    + unfold keys. rewrite map_app. simpl. rewrite <- app_assoc. exact H.
Qed.


(** ** Sorted lists of symbols *)

Lemma dedup_In (l : list jsstring) :
  forall seen x, In x (dedup seen l) <-> In x l /\ ~ In x seen.
Proof.
  induction l as [|y l IH]; intros seen x; simpl; [tauto|].
  destruct (set_has seen y) eqn:E.
  - apply set_has_In in E. rewrite IH. split; [tauto|].
    intros [[<-|H] Hn]; tauto.
  - assert (Hy : ~ In y seen).
    { intros Hin. apply set_has_In in Hin. congruence. }
    simpl. rewrite IH. simpl. split.
    + intros [<-|[H Hn]]; tauto.
    + intros [[<-|H] Hn]; [now left|].
      destruct (list_eq_dec N.eq_dec y x) as [<-|Hne]; [now left|].
      right. tauto.
Qed.

Lemma dedup_NoDup (l : list jsstring) :
  forall seen, NoDup (dedup seen l).
Proof.
  induction l as [|y l IH]; intros seen; simpl; [constructor|].
  destruct (set_has seen y); [apply IH|].
  constructor; [|apply IH].
  rewrite dedup_In. simpl. tauto.
Qed.

Lemma insertString_perm (x : jsstring) (l : list jsstring) :
  Permutation (insertString x l) (x :: l).
Proof.
  induction l as [|y l IH]; simpl; [reflexivity|].
  destruct (localeCompare x y); try reflexivity.
  rewrite IH. apply perm_swap.
Qed.

Lemma sortStrings_perm (l : list jsstring) : Permutation (sortStrings l) l.
Proof.
  induction l as [|x l IH]; simpl; [reflexivity|].
  rewrite insertString_perm. now constructor.
Qed.

Lemma insertString_sorted (x : jsstring) (l : list jsstring) :
  Sorted (fun a b => localeCompare a b <> Gt) l ->
  Sorted (fun a b => localeCompare a b <> Gt) (insertString x l).
Proof.
  induction l as [|y l IH]; simpl; intros H.
  - repeat constructor.
  - inversion H as [|? ? Hs Hh]; subst.
    destruct (localeCompare x y) eqn:E.
    + constructor; [exact H|]. constructor. congruence.
    + constructor; [exact H|]. constructor. congruence.
    + constructor; [auto|].
      assert (He : localeCompare y x <> Gt).
      { rewrite localeCompare_antisym, E. discriminate. }
      destruct l as [|z l]; simpl.
      * constructor; exact He.
      * destruct (localeCompare x z); constructor; auto;
          inversion Hh; subst; assumption.
Qed.

Lemma sortStrings_sorted (l : list jsstring) :
  Sorted (fun a b => localeCompare a b <> Gt) (sortStrings l).
Proof.
  induction l as [|x l IH]; simpl; [constructor|].
  now apply insertString_sorted.
Qed.

Lemma sortStrings_strict (l : list jsstring) :
  NoDup l -> StronglySorted lex_lt (sortStrings l).
Proof.
  intros Hnd.
  assert (Hnd' : NoDup (sortStrings l)).
  { eapply Permutation_NoDup; [|exact Hnd]. symmetry. apply sortStrings_perm. }
  pose proof (sortStrings_sorted l) as Hs.
  apply Sorted_StronglySorted; [intros a b c; apply lex_lt_trans|].
  induction Hs as [|x t Hs IH Hh]; [constructor|].
  inversion Hnd' as [|? ? Hnotin Hnd'']; subst.
  constructor; [auto|].
  destruct Hh as [|y t' Hle]; constructor.
  apply localeCompare_Lt.
  destruct (localeCompare x y) eqn:E; [| reflexivity |].
  - apply localeCompare_Eq in E. exfalso. apply Hnotin. now left.
  - exfalso. apply Hle. reflexivity.
Qed.

Lemma sortStrings_In (l : list jsstring) (x : jsstring) :
  In x (sortStrings l) <-> In x l.
Proof.
  split; intros H.
  - eapply Permutation_in; [apply sortStrings_perm | exact H].
  - eapply Permutation_in; [symmetry; apply sortStrings_perm | exact H].
Qed.

Lemma sorted_dedup_strict (l : list jsstring) :
  StronglySorted lex_lt (sortStrings (dedup [] l)).
Proof. apply sortStrings_strict, dedup_NoDup. Qed.

Lemma sorted_dedup_In (l : list jsstring) (x : jsstring) :
  In x (sortStrings (dedup [] l)) <-> In x l.
Proof. rewrite sortStrings_In, dedup_In. simpl. tauto. Qed.

(** X11. [mergeElements] returns the keys of either object, each once; when
    the keys are element symbols, on which [localeCompare] is the order of
    the code units, they are in strictly increasing order. *)
Theorem mergeElements_sorted_union (lhs rhs : ElementCount) :
  (Forall (fun k => isSymbol k = true) (keys lhs ++ keys rhs) ->
   StronglySorted lex_lt (mergeElements lhs rhs)) /\
  NoDup (mergeElements lhs rhs) /\
  forall e, In e (mergeElements lhs rhs) <-> In e (keys lhs) \/ In e (keys rhs).
Proof.
  unfold mergeElements. split; [intros _; apply sorted_dedup_strict|].
  split; [apply StronglySorted_lex_NoDup, sorted_dedup_strict|].
  intros e. rewrite sorted_dedup_In. apply in_app_iff.
Qed.

Lemma mergeElements_sorted_union_witness :
  StronglySorted lex_lt
    (mergeElements [(js "O", 2); (js "H", 2)] [(js "H", 2); (js "C", 1)]).
Proof.
  destruct (mergeElements_sorted_union [(js "O", 2); (js "H", 2)]
              [(js "H", 2); (js "C", 1)]) as (H & _).
  apply H. repeat constructor.
Defined.

(** ** The atom totals of the playground *)









(* ===================================================================== *)
(** * Further properties of the exact solver *)
(* ===================================================================== *)

(** ** [gcd] and [lcm] *)


(** ** Fractions *)

Lemma makeFrac_normal (n d : Z) :
  d <> 0 ->
  exists f,
    makeFrac n d = Returned f /\ reduced f /\ num f * d = n * den f.
Proof.
  intros Hd. unfold makeFrac.
  destruct (Z.eqb_spec d 0); [contradiction|].
  assert (G : forall n' d', 0 < d' ->
            exists f,
              (if n' =? 0 then Returned (mkFrac 0 1)
               else Returned (mkFrac (n' / gcd n' d') (d' / gcd n' d')))
              = Returned f /\ reduced f /\ num f * d' = n' * den f).
  { intros n' d' Hd'. destruct (Z.eqb_spec n' 0) as [->|Hn].
    - eexists; split; [reflexivity|]. unfold reduced; simpl.
      repeat split; lia.
    - eexists; split; [reflexivity|]. unfold reduced; simpl.
      rewrite gcd_spec.
      destruct (Z.eqb_spec (Z.gcd n' d') 0) as [E|E].
      { apply Z.gcd_eq_0 in E. lia. }
      pose proof (Z.gcd_nonneg n' d') as Hg.
      destruct (Z.gcd_divide_l n' d') as [a Ea].
      destruct (Z.gcd_divide_r n' d') as [c Ec].
      assert (Hgcd : Z.gcd (n' / Z.gcd n' d') (d' / Z.gcd n' d') = 1)
        by (apply Z.gcd_div_gcd; [exact E | reflexivity]).
      set (g := Z.gcd n' d') in *.
      assert (Qa : n' / g = a) by (rewrite Ea at 1; apply Z.div_mul; lia).
      assert (Qc : d' / g = c) by (rewrite Ec at 1; apply Z.div_mul; lia).
      rewrite Qa, Qc in *.
      repeat split; [nia | exact Hgcd | nia]. }
  destruct (Z.ltb_spec d 0).
  - destruct (G (- n) (- d)) as (f & E & R & V); [lia|].
    exists f. repeat split; [exact E | apply R | apply R | lia].
  - destruct (G n d) as (f & E & R & V); [lia|].
    exists f. repeat split; [exact E | apply R | apply R | exact V].
Qed.

(** Two reduced fractions that stand for the same number are the same. *)
Lemma reduced_unique (f g : Frac) :
  reduced f -> reduced g -> num f * den g = num g * den f -> f = g.
Proof.
  destruct f as [nf df], g as [ng dg]. unfold reduced; simpl.
  intros [Hdf Hf] [Hdg Hg] E.
  assert (D1 : (df | dg)).
  { apply Z.gauss with (m := nf).
    - exists ng. lia.
    - now rewrite Z.gcd_comm. }
  assert (D2 : (dg | df)).
  { apply Z.gauss with (m := ng).
    - exists nf. lia.
    - now rewrite Z.gcd_comm. }
  assert (Ed : df = dg).
  { apply Z.divide_antisym_nonneg; [lia | lia | exact D1 | exact D2]. }
  subst dg. f_equal. nia.
Qed.

(** X14. [makeFrac] keeps the invariant the source states for [Frac]: for a
    non-zero denominator it returns the fraction in lowest terms with a
    positive denominator that stands for [n / d], so that equal numbers
    have equal representations and zero is [0/1]; for the denominator 0 it
    raises. *)
Theorem makeFrac_lowest_terms (n d : Z) :
  makeFrac n 0 = ZeroDenominator /\
  (d <> 0 ->
   exists f,
     makeFrac n d = Returned f /\
     0 < den f /\ Z.gcd (num f) (den f) = 1 /\
     num f * d = n * den f /\
     (n = 0 -> f = mkFrac 0 1) /\
     forall n' d', d' <> 0 -> n * d' = n' * d ->
                   makeFrac n' d' = Returned f).
Proof.
  split; [reflexivity|]. intros Hd.
  destruct (makeFrac_normal n d Hd) as (f & E & [Hden Hred] & V).
  exists f. repeat split; try assumption.
  - intros ->. apply (reduced_unique f (mkFrac 0 1)).
    + split; assumption.
    + split; simpl; [lia | reflexivity].
    + simpl. nia.
  - intros n' d' Hd' Eq.
    destruct (makeFrac_normal n' d' Hd') as (f' & E' & R' & V').
    rewrite E'. f_equal. apply reduced_unique.
    + exact R'.
    + split; assumption.
    + destruct R' as [Hden' _].
      apply (Z.mul_reg_r _ _ (d * d')); [nia|].
      replace (num f' * den f * (d * d'))
        with (num f' * d' * (den f * d)) by ring.
      replace (num f * den f' * (d * d'))
        with (num f * d * (den f' * d')) by ring.
      rewrite V, V'.
      replace (n' * den f' * (den f * d))
        with (den f' * den f * (n' * d)) by ring.
      rewrite <- Eq. ring.
Qed.

Lemma makeFrac_lowest_terms_witness :
  exists f,
    makeFrac 6 (-4) = Returned f /\
    0 < den f /\ Z.gcd (num f) (den f) = 1 /\
    num f * (-4) = 6 * den f /\
    (6 = 0 -> f = mkFrac 0 1) /\
    forall n' d', d' <> 0 -> 6 * d' = n' * (-4) ->
                  makeFrac n' d' = Returned f.
Proof.
  apply (makeFrac_lowest_terms 6 (-4)). discriminate.
Defined.

Lemma value_cross (f : Frac) (n d : Z) :
  0 < den f -> 0 < d ->
  (Qeq (value f) (Qmake n (Z.to_pos d)) <-> num f * d = n * den f).
Proof.
  intros Hf Hd. unfold value, Qeq. simpl.
  rewrite !Z2Pos.id by assumption. reflexivity.
Qed.

Lemma value_makeFrac (n d : Z) (f : Frac) :
  0 < d -> makeFrac n d = Returned f ->
  reduced f /\ Qeq (value f) (Qmake n (Z.to_pos d)).
Proof.
  intros Hd E.
  destruct (makeFrac_normal n d) as (f' & E' & R & V); [lia|].
  rewrite E in E'. injection E' as <-.
  split; [exact R|]. apply value_cross; [apply R | exact Hd | exact V].
Qed.


(** ** The matrix of an equation *)

Lemma buildElementMatrix_elements (leftFormulas rightFormulas : list jsstring)
    (countFn : jsstring -> ElementCount) (e : jsstring) :
  In e (elements (buildElementMatrix leftFormulas rightFormulas countFn)) <->
  exists f, In f (leftFormulas ++ rightFormulas) /\ In e (keys (countFn f)).
Proof.
  unfold buildElementMatrix. cbn [elements].
  rewrite sorted_dedup_In, in_flat_map. reflexivity.
Qed.

Lemma buildElementMatrix_rows (leftFormulas rightFormulas : list jsstring)
    (countFn : jsstring -> ElementCount) :
  Forall (fun row =>
            length row = (length leftFormulas + length rightFormulas)%nat)
         (A (buildElementMatrix leftFormulas rightFormulas countFn)).
Proof.
  unfold buildElementMatrix. cbn [A].
  apply Forall_forall. intros row Hrow. apply in_map_iff in Hrow.
  destruct Hrow as (el & <- & _).
  now rewrite length_app, !length_map.
Qed.

(** X16. The matrix [buildElementMatrix] makes has one row for each element
    and one column for each species; its elements are the keys of the
    counts of some formula of the equation, each once, and when these keys
    are element symbols, on which [localeCompare] is the order of the code
    units, they are in strictly increasing order. *)
Theorem buildElementMatrix_shape (leftFormulas rightFormulas : list jsstring)
    (countFn : jsstring -> ElementCount) :
  let em := buildElementMatrix leftFormulas rightFormulas countFn in
  length (A em) = length (elements em) /\
  Forall (fun row =>
            length row = (length leftFormulas + length rightFormulas)%nat)
         (A em) /\
  ((forall f, In f (leftFormulas ++ rightFormulas) ->
              Forall (fun k => isSymbol k = true) (keys (countFn f))) ->
   StronglySorted lex_lt (elements em)) /\
  NoDup (elements em) /\
  forall e, In e (elements em) <->
            exists f, In f (leftFormulas ++ rightFormulas) /\
                      In e (keys (countFn f)).
Proof.
  cbv zeta. split; [|split; [|split; [|split]]].
  - unfold buildElementMatrix. cbn [A elements]. apply length_map.
  - apply buildElementMatrix_rows.
  - intros _. unfold buildElementMatrix. cbn [elements].
    apply sorted_dedup_strict.
  - unfold buildElementMatrix. cbn [elements].
    apply StronglySorted_lex_NoDup, sorted_dedup_strict.
  - apply buildElementMatrix_elements.
Qed.

Lemma buildElementMatrix_shape_witness :
  StronglySorted lex_lt
    (elements (buildElementMatrix [js "H2"; js "O2"] [js "H2O"] countFormula)).
Proof.
  destruct (buildElementMatrix_shape [js "H2"; js "O2"] [js "H2O"]
              countFormula) as (_ & _ & H & _).
  apply H. intros f [<-|[<-|[<-|[]]]]; vm_compute; repeat constructor.
Defined.

(** ** What a solved equation satisfies *)

Lemma mapM_length {X Y} (f : X -> outcome Y) (l : list X) :
  forall ys, mapM f l = Returned ys -> length ys = length l.
Proof.
  induction l as [|x l IH]; simpl; intros ys H.
  - now injection H as <-.
  - destruct (f x) as [y| | | |]; try discriminate. cbn [bind] in H.
    destruct (mapM f l) as [ys'| | | |]; try discriminate. cbn [bind] in H.
    injection H as <-. simpl. f_equal. now apply IH.
Qed.

(** The vector of fractions has one entry for each column, and its last
    entry is 1. *)
Lemma solveRationalForLastColumn_some (A0 : list (list Z)) (raw : list Frac) :
  solveRationalForLastColumn A0 = Returned (Some raw) ->
  length raw = length (hd [] A0) /\ (2 <= length (hd [] A0))%nat /\
  exists x, raw = x ++ [mkFrac 1 1].
Proof.
  unfold solveRationalForLastColumn.
  destruct (Nat.leb_spec (length (hd [] A0)) 1) as [Hn|Hn]; [discriminate|].
  destruct (mapM _ A0) as [B0| | | |]; try discriminate. cbn [bind].
  destruct (mapM _ A0) as [b0| | | |]; try discriminate. cbn [bind].
  destruct (eliminateCols _ _ _) as [st| | | |]; try discriminate. cbn [bind].
  destruct (mapM _ (seq 0 (length (hd [] A0) - 1))) as [x| | | |] eqn:Ex;
    try discriminate.
  cbn [bind]. change (makeFrac 1 1) with (Returned (mkFrac 1 1)). cbn [bind].
  intros [= <-]. apply mapM_length in Ex. rewrite length_seq in Ex.
  rewrite length_app. simpl. repeat split; [lia | lia | now exists x].
Qed.

(** The integer vector, without the signs the function drops. *)
Lemma candidate_some (fv : list Frac) (final : list Z) :
  candidate fv = Some final ->
  let commonDen := fold_left (fun cd f => lcm cd (den f)) fv 1 in
  let absVec :=
    map (fun f => Z.abs (toInt32 (num f * (commonDen / den f)))) fv in
  let g :=
    fold_left (fun acc v => if v =? 0 then acc else gcd acc v) absVec
              (let a0 := hd 0 absVec in if a0 =? 0 then 1 else a0) in
  final = map (fun v => v / g) absVec /\
  0 < g /\ Forall (fun v => (g | v)) absVec /\
  Exists (fun v => v <> 0) absVec.
Proof.
  unfold candidate. destruct fv as [|f0 fv']; [discriminate|].
  set (fv := f0 :: fv').
  set (cd := fold_left (fun cd f => lcm cd (den f)) fv 1).
  set (vec := map (fun f => toInt32 (num f * (cd / den f))) fv).
  destruct (forallb (fun v => v =? 0) vec) eqn:Ez; [discriminate|].
  intros [= <-]. cbv zeta.
  assert (Eabs : forall flip : bool,
             map Z.abs (if flip then map Z.opp vec else vec)
             = map (fun f => Z.abs (toInt32 (num f * (cd / den f)))) fv).
  { intros flip. unfold vec. destruct flip; rewrite !map_map; apply map_ext;
      intros a; [apply Z.abs_opp | reflexivity]. }
  set (flip := Nat.ltb _ _).
  repeat match goal with
  | |- context [if flip then ?x else vec] =>
      progress change (if flip then x else vec)
        with (if flip then map Z.opp vec else vec)
  end.
  rewrite !Eabs.
  set (absVec := map (fun f => Z.abs (toInt32 (num f * (cd / den f)))) fv).
  set (a0 := let a0 := hd 0 absVec in if a0 =? 0 then 1 else a0).
  assert (Ha0 : 0 < a0).
  { unfold a0. cbv zeta.
    assert (Habs : 0 <= hd 0 absVec)
      by (unfold absVec; simpl; apply Z.abs_nonneg).
    destruct (Z.eqb_spec (hd 0 absVec) 0); lia. }
  split; [reflexivity|]. split; [|split].
  - assert (G : forall l a, 0 < a ->
              0 < fold_left (fun acc v => if v =? 0 then acc else gcd acc v)
                            l a).
    { induction l as [|x l IH]; intros a Ha; simpl; [exact Ha|].
      apply IH. destruct (x =? 0); [exact Ha | apply gcd_pos]. }
    apply G. exact Ha0.
  - apply finalGcd_spec.
  - apply Exists_exists.
    assert (Hex : existsb (fun v => negb (v =? 0)) vec = true).
    { clear -Ez. induction vec as [|v vec IH]; simpl in *; [discriminate|].
      destruct (v =? 0); simpl in *; [now apply IH | reflexivity]. }
    apply existsb_exists in Hex. destruct Hex as (v & Hv & Hne).
    unfold vec in Hv. apply in_map_iff in Hv. destruct Hv as (f & <- & Hf).
    exists (Z.abs (toInt32 (num f * (cd / den f)))). split.
    + unfold absVec. apply in_map_iff. now exists f.
    + apply Bool.negb_true_iff, Z.eqb_neq in Hne. lia.
Qed.

Lemma candidate_length (fv : list Frac) (final : list Z) :
  candidate fv = Some final -> length final = length fv.
Proof.
  intros H. apply candidate_some in H. cbv zeta in H.
  destruct H as (-> & _). now rewrite !length_map.
Qed.

Lemma candidate_positive_entry (fv : list Frac) (final : list Z) :
  candidate fv = Some final -> Exists (fun x => 0 < x) final.
Proof.
  intros H. apply candidate_some in H. cbv zeta in H.
  destruct H as (-> & Hg & Hdiv & Hex).
  apply Exists_exists in Hex. destruct Hex as (v & Hv & Hne).
  apply Exists_exists. eexists. split; [apply in_map; exact Hv|].
  cbv beta.
  rewrite Forall_forall in Hdiv. destruct (Hdiv v Hv) as [q Eq].
  assert (Hnonneg : 0 <= v).
  { apply in_map_iff in Hv. destruct Hv as (f & <- & _). apply Z.abs_nonneg. }
  rewrite Eq at 1. rewrite Z.div_mul by lia. nia.
Qed.

(** What [solveEquation] did when it returns an answer. *)
Lemma solveEquation_answer (leftFormulas rightFormulas : list jsstring)
    (countFn : jsstring -> ElementCount) (s : Solution) :
  solveEquation leftFormulas rightFormulas countFn = Returned (Some s) ->
  let A0 := A (buildElementMatrix leftFormulas rightFormulas countFn) in
  exists raw final,
    A0 <> [] /\
    solveRationalForLastColumn A0 = Returned (Some raw) /\
    candidate raw = Some final /\
    verifies A0 final = true /\
    s = mkLR (firstn (length leftFormulas) final)
             (skipn (length leftFormulas) final).
Proof.
  pose proof (solveEquation_unfold leftFormulas rightFormulas countFn) as U.
  cbv zeta in *. rewrite U. clear U.
  set (A0 := A (buildElementMatrix leftFormulas rightFormulas countFn)).
  destruct (Nat.eqb (length A0) 0) eqn:En; [discriminate|]. cbn [orb].
  destruct (Nat.eqb (length (hd [] A0)) 0); [discriminate|].
  destruct (solveRationalForLastColumn A0) as [[raw|]| | | |]; try discriminate.
  cbn [bind]. unfold fracsToIntegerCoeffs.
  destruct (candidate raw) as [final|] eqn:Ec; [|discriminate].
  destruct (verifies A0 final) eqn:V; [|discriminate].
  intros [= <-]. exists raw, final.
  split; [intros E; rewrite E in En; discriminate|].
  repeat split; try reflexivity; assumption.
Qed.

Lemma solveEquation_lengths (leftFormulas rightFormulas : list jsstring)
    (countFn : jsstring -> ElementCount) (s : Solution) :
  solveEquation leftFormulas rightFormulas countFn = Returned (Some s) ->
  length (left s) = length leftFormulas /\
  length (right s) = length rightFormulas /\
  (2 <= length leftFormulas + length rightFormulas)%nat.
Proof.
  intros H. apply solveEquation_answer in H. cbv zeta in H.
  destruct H as (raw & final & HA & Hraw & Hc & _ & ->).
  apply solveRationalForLastColumn_some in Hraw.
  destruct Hraw as (Hlen & Hn & _).
  apply candidate_length in Hc.
  pose proof (buildElementMatrix_rows leftFormulas rightFormulas countFn) as R.
  destruct (A (buildElementMatrix leftFormulas rightFormulas countFn))
    as [|row0 rows]; [congruence|].
  inversion R; subst. simpl in Hlen, Hn. cbn [left right].
  rewrite length_firstn, length_skipn. lia.
Qed.

Lemma rowSum_app (r1 r2 x1 x2 : list Z) :
  length r1 = length x1 ->
  rowSum (r1 ++ r2) (x1 ++ x2) = rowSum r1 x1 + rowSum r2 x2.
Proof.
  revert x1. induction r1 as [|a r1 IH]; intros [|x x1] H; simpl in *;
    try discriminate; [reflexivity|].
  rewrite IH by lia. lia.
Qed.

Lemma rowSum_atoms (countFn : jsstring -> ElementCount) (e : jsstring)
    (formulas : list jsstring) :
  forall coeffs,
    rowSum (map (fun f => orZero (map_get (countFn f) e)) formulas) coeffs
    = atoms countFn formulas coeffs e /\
    rowSum (map (fun f => - orZero (map_get (countFn f) e)) formulas) coeffs
    = - atoms countFn formulas coeffs e.
Proof.
  induction formulas as [|f l IH]; intros [|k ks]; simpl; try (split; lia).
  destruct (IH ks) as [-> ->]. split; lia.
Qed.

Lemma atoms_absent (countFn : jsstring -> ElementCount) (e : jsstring)
    (formulas : list jsstring) :
  (forall f, In f formulas -> ~ In e (keys (countFn f))) ->
  forall coeffs, atoms countFn formulas coeffs e = 0.
Proof.
  induction formulas as [|f l IH]; intros H [|k ks]; simpl; try reflexivity.
  rewrite IH by (intros; apply H; now right).
  replace (map_get (countFn f) e) with (@None Z); [reflexivity|].
  symmetry. apply map_get_none. apply H. now left.
Qed.

Lemma solveEquation_atoms (leftFormulas rightFormulas : list jsstring)
    (countFn : jsstring -> ElementCount) (s : Solution) (e : jsstring) :
  solveEquation leftFormulas rightFormulas countFn = Returned (Some s) ->
  atoms countFn leftFormulas (left s) e
  = atoms countFn rightFormulas (right s) e.
Proof.
  intros H. pose proof (solveEquation_lengths _ _ _ _ H) as (Hl & Hr & _).
  destruct (in_dec (list_eq_dec N.eq_dec) e
              (elements (buildElementMatrix leftFormulas rightFormulas countFn)))
    as [Hin|Hout].
  - apply solveEquation_some in H. destruct H as (_ & _ & _ & Hrows).
    rewrite Forall_forall in Hrows.
    specialize (Hrows
      (map (fun f => orZero (map_get (countFn f) e)) leftFormulas
       ++ map (fun f => - orZero (map_get (countFn f) e)) rightFormulas)).
    rewrite rowSum_app in Hrows by (rewrite length_map; lia).
    destruct (rowSum_atoms countFn e leftFormulas (left s)) as [E1 _].
    destruct (rowSum_atoms countFn e rightFormulas (right s)) as [_ E2].
    rewrite E1, E2 in Hrows.
    assert (atoms countFn leftFormulas (left s) e
            + - atoms countFn rightFormulas (right s) e = 0); [|lia].
    apply Hrows. unfold buildElementMatrix. cbn [A].
    apply in_map_iff. exists e. split; [reflexivity | exact Hin].
  - rewrite buildElementMatrix_elements in Hout.
    rewrite !atoms_absent; [reflexivity | |];
      intros f Hf Hk; apply Hout; exists f;
      (split; [apply in_app_iff; auto | exact Hk]).
Qed.


(** X18. [solveEquation] returns null for an equation with fewer than two
    species and for one whose formulas have no element at all.  An answer
    has no negative coefficient and at least one positive coefficient, and
    the equation it answers has at least two species and one element. *)
Theorem solveEquation_answer_shape (leftFormulas rightFormulas : list jsstring)
    (countFn : jsstring -> ElementCount) :
  ((length leftFormulas + length rightFormulas <= 1)%nat ->
   solveEquation leftFormulas rightFormulas countFn = Returned None) /\
  ((forall f, In f (leftFormulas ++ rightFormulas) -> countFn f = []) ->
   solveEquation leftFormulas rightFormulas countFn = Returned None) /\
  (forall s,
      solveEquation leftFormulas rightFormulas countFn = Returned (Some s) ->
      Forall (fun x => 0 <= x) (left s ++ right s) /\
      Exists (fun x => 0 < x) (left s ++ right s) /\
      (2 <= length leftFormulas + length rightFormulas)%nat /\
      exists f e, In f (leftFormulas ++ rightFormulas) /\
                  In e (keys (countFn f))).
Proof.
  pose proof (solveEquation_unfold leftFormulas rightFormulas countFn) as U.
  cbv zeta in U.
  pose proof (buildElementMatrix_rows leftFormulas rightFormulas countFn) as R.
  split; [|split].
  - intros Hn. rewrite U.
    destruct (A (buildElementMatrix leftFormulas rightFormulas countFn))
      as [|row0 rows] eqn:EA; [reflexivity|].
    inversion R; subst. cbn [length hd Nat.eqb orb].
    destruct (Nat.eqb (length row0) 0) eqn:E0; [reflexivity|].
    unfold solveRationalForLastColumn. cbn [hd].
    destruct (Nat.leb_spec (length row0) 1); [reflexivity | lia].
  - intros Hnone. rewrite U.
    replace (A (buildElementMatrix leftFormulas rightFormulas countFn))
      with (@nil (list Z)); [reflexivity|].
    unfold buildElementMatrix. cbn [A].
    replace (flat_map (fun f => map fst (countFn f))
               (leftFormulas ++ rightFormulas)) with (@nil jsstring);
      [reflexivity|].
    symmetry. induction (leftFormulas ++ rightFormulas) as [|f l IH];
      [reflexivity|].
    simpl. rewrite (Hnone f) by now left. simpl.
    apply IH. intros; apply Hnone; now right.
  - intros s H.
    pose proof (solveEquation_lengths _ _ _ _ H) as (_ & _ & Hn).
    pose proof (solveEquation_answer _ _ _ _ H) as Ha. cbv zeta in Ha.
    destruct Ha as (raw & final & HA & _ & Hc & _ & ->).
    cbn [left right]. rewrite firstn_skipn.
    split; [now apply candidate_nonneg in Hc|].
    split; [now apply candidate_positive_entry in Hc|].
    split; [exact Hn|].
    destruct (elements (buildElementMatrix leftFormulas rightFormulas countFn))
      as [|e els] eqn:Ee.
    + exfalso. apply HA. unfold buildElementMatrix in *. cbn [A elements] in *.
      now rewrite Ee.
    + assert (Hin : In e (elements (buildElementMatrix leftFormulas
                                      rightFormulas countFn)))
        by (rewrite Ee; now left).
      apply buildElementMatrix_elements in Hin.
      destruct Hin as (f & Hf & Hk). now exists f, e.
Qed.

Lemma solveEquation_answer_shape_witness :
  solveEquation [js "H2"] [] countFormula = Returned None /\
  solveEquation [js "()"; js "2"] [js "3"] countFormula = Returned None /\
  Forall (fun x => 0 <= x) ([2; 1] ++ [2]).
Proof.
  split; [|split].
  - destruct (solveEquation_answer_shape [js "H2"] [] countFormula)
      as (H & _ & _).
    apply H. simpl. lia.
  - destruct (solveEquation_answer_shape [js "()"; js "2"] [js "3"]
                countFormula) as (_ & H & _).
    apply H. intros f [<-|[<-|[<-|[]]]]; reflexivity.
  - destruct (solveEquation_answer_shape [js "H2"; js "O2"] [js "H2O"]
                countFormula) as (_ & _ & H).
    apply (H (mkLR [2; 1] [2])). vm_compute. reflexivity.
Defined.

(* ===================================================================== *)
(** * The balance the playground shows *)
(* ===================================================================== *)

Lemma mergeElements_spec (lhs rhs : ElementCount) :
  StronglySorted lex_lt (mergeElements lhs rhs) /\
  forall e, In e (mergeElements lhs rhs) <-> In e (keys lhs) \/ In e (keys rhs).
Proof.
  unfold mergeElements. split; [apply sorted_dedup_strict|].
  intros e. rewrite sorted_dedup_In. apply in_app_iff.
Qed.

Lemma countElementsInFormula_NoDup (f : jsstring) (c : ElementCount) :
  countElementsInFormula f = Returned c -> NoDup (keys c).
Proof.
  intros H. apply countElementsInFormula_inv in H.
  destruct H as (counts & _ & Hnd & ->).
  apply StronglySorted_lex_NoDup. now apply sorted_object_keys.
Qed.

Lemma sideCounts_inv (species : list Species) (coeffs : list Z) :
  forall idx cs,
    Playground.sideCounts idx species coeffs = Returned cs ->
    Forall (fun c => NoDup (keys c)) cs /\
    (forall e,
        countIn cs e
        = atoms countFormula (map formula species)
            (effective idx species coeffs) e) /\
    (forall e,
        (exists c, In c cs /\ In e (keys c)) <->
        (exists sp, In sp species /\
                    In e (keys (countFormula (formula sp))))).
Proof.
  induction species as [|sp species IH]; intros idx cs H; simpl in H.
  - injection H as <-. repeat split; try constructor.
    + intros (c & [] & _).
    + intros (c & [] & _).
  - destruct (countElementsInFormula (formula sp)) as [c| | | |] eqn:Ec;
      try discriminate.
    cbn [bind] in H.
    destruct (Playground.sideCounts (S idx) species coeffs) as [cs'| | | |]
      eqn:Ecs; try discriminate.
    cbn [bind] in H. injection H as <-.
    destruct (IH (S idx) cs' Ecs) as (Hnd & Hget & Hkeys).
    pose proof (countElementsInFormula_NoDup _ _ Ec) as Hc.
    assert (Ecf : countFormula (formula sp) = c)
      by (unfold countFormula; now rewrite Ec).
    repeat split.
    + constructor; [|exact Hnd]. now rewrite multiplyCounts_keys.
    + intros e. cbn [countIn fold_right map effective atoms].
      fold (countIn cs' e). rewrite Hget, Ecf.
      now rewrite multiplyCounts_get.
    + intros (c0 & [<-|Hin] & Hk).
      * exists sp. split; [now left|].
        rewrite Ecf. now rewrite multiplyCounts_keys in Hk.
      * destruct (proj1 (Hkeys e)) as (sp' & Hsp & Hk'); [eauto|].
        exists sp'. split; [now right | exact Hk'].
    + intros (sp' & [<-|Hin] & Hk).
      * eexists. split; [now left|].
        rewrite multiplyCounts_keys by exact Hc. now rewrite <- Ecf.
      * destruct (proj2 (Hkeys e)) as (c0 & Hc0 & Hk'); [eauto|].
        exists c0. split; [now right | exact Hk'].
Qed.



Lemma forallb_zero (d : jsstring -> Z) (els : list jsstring) :
  forallb (fun x => x =? 0) (map d els) = true <->
  forall e, In e els -> d e = 0.
Proof.
  rewrite forallb_forall. split.
  - intros H e He. apply Z.eqb_eq. apply H. now apply in_map.
  - intros H x Hx. apply in_map_iff in Hx. destruct Hx as (e & <- & He).
    apply Z.eqb_eq. now apply H.
Qed.

(** What the component computed, in terms of the atoms of either side. *)
Lemma counts_inv (species : LeftRight Species) (coeffs : LeftRight Z)
    (v : Playground.Counts) :
  Playground.counts species coeffs = Returned v ->
  let L := atoms countFormula (map formula (left species))
             (effective 0 (left species) (left coeffs)) in
  let R := atoms countFormula (map formula (right species))
             (effective 0 (right species) (right coeffs)) in
  (forall e, In e (Playground.elements v) <->
             exists sp, In sp (left species ++ right species) /\
                        In e (keys (countFormula (formula sp)))) /\
  NoDup (Playground.elements v) /\
  Playground.diff v = map (fun e => (e, L e - R e)) (Playground.elements v) /\
  Playground.balanced v
  = forallb (fun x => x =? 0) (map (fun e => L e - R e) (Playground.elements v))
    && Nat.ltb 0 (length (Playground.elements v)) /\
  (forall e, ~ In e (Playground.elements v) -> L e = 0 /\ R e = 0).
Proof.
  unfold Playground.counts. intros H.
  destruct (Playground.sideCounts 0 (left species) (left coeffs))
    as [lc| | | |] eqn:El; try discriminate.
  cbn [bind] in H.
  destruct (Playground.sideCounts 0 (right species) (right coeffs))
    as [rc| | | |] eqn:Er; try discriminate.
  cbn [bind] in H. injection H as <-. cbv zeta.
  cbn [Playground.elements Playground.diff Playground.balanced].
  destruct (sideCounts_inv _ _ _ _ El) as (Hlnd & Hlget & Hlkeys).
  destruct (sideCounts_inv _ _ _ _ Er) as (Hrnd & Hrget & Hrkeys).
  destruct (mergeElements_spec (sumCounts lc) (sumCounts rc))
    as [Hsorted Hin].
  pose proof (StronglySorted_lex_NoDup _ Hsorted) as Hnd.
  assert (Hel : forall e,
             In e (mergeElements (sumCounts lc) (sumCounts rc)) <->
             exists sp, In sp (left species ++ right species) /\
                        In e (keys (countFormula (formula sp)))).
  { intros e. rewrite Hin, !sumCounts_keys, Hlkeys, Hrkeys. split.
    - intros [(sp & Hsp & Hk)|(sp & Hsp & Hk)]; exists sp;
        (split; [apply in_app_iff; auto | exact Hk]).
    - intros (sp & Hsp & Hk). apply in_app_iff in Hsp.
      destruct Hsp; [left | right]; eauto. }
  assert (Hd : map (fun el => (el, orZero (map_get (sumCounts lc) el)
                                   - orZero (map_get (sumCounts rc) el)))
                   (mergeElements (sumCounts lc) (sumCounts rc))
               = map (fun e =>
                        (e, atoms countFormula (map formula (left species))
                              (effective 0 (left species) (left coeffs)) e
                            - atoms countFormula (map formula (right species))
                                (effective 0 (right species) (right coeffs)) e))
                     (mergeElements (sumCounts lc) (sumCounts rc))).
  { apply map_ext. intros e.
    rewrite !sumCounts_get by assumption. now rewrite Hlget, Hrget. }
  rewrite Hd.
  rewrite fromEntries_NoDup
    by (unfold keys; rewrite map_map; simpl; now rewrite map_id).
  split; [exact Hel|]. split; [exact Hnd|]. split; [reflexivity|].
  split; [now rewrite map_map|].
  intros e He.
  assert (Hno : forall sp, In sp (left species ++ right species) ->
                           ~ In e (keys (countFormula (formula sp)))).
  { intros sp Hsp Hk. apply He, Hel. eauto. }
  split; apply atoms_absent; intros f Hf; apply in_map_iff in Hf;
    destruct Hf as (sp & <- & Hsp); apply Hno; apply in_app_iff; auto.
Qed.

(** On exact integers the balanced flag is set exactly when the equation
    has at least one element and, for every symbol, the atoms on the left
    are as many as the atoms on the right; the elements listed are the
    symbols of the formulas of either side, and the difference shown for
    each is left minus right. *)
Lemma balanced_flag_Z (species : LeftRight Species)
    (coeffs : LeftRight Z) (v : Playground.Counts) :
  Playground.counts species coeffs = Returned v ->
  let L := atoms countFormula (map formula (left species))
             (effective 0 (left species) (left coeffs)) in
  let R := atoms countFormula (map formula (right species))
             (effective 0 (right species) (right coeffs)) in
  (Playground.balanced v = true <->
   Playground.elements v <> [] /\ forall e, L e = R e) /\
  (forall e, In e (Playground.elements v) <->
             exists sp, In sp (left species ++ right species) /\
                        In e (keys (countFormula (formula sp)))) /\
  (forall e, orZero (map_get (Playground.diff v) e) = L e - R e).
Proof.
  intros H. apply counts_inv in H. cbv zeta in *.
  destruct H as (Hel & Hnd & Hdiff & Hbal & Hout).
  split; [|split; [exact Hel|]].
  - rewrite Hbal, Bool.andb_true_iff, forallb_zero, Nat.ltb_lt. split.
    + intros [Hz Hlen]. split.
      * intros E. rewrite E in Hlen. simpl in Hlen. lia.
      * intros e.
        destruct (in_dec (list_eq_dec N.eq_dec) e (Playground.elements v))
          as [Hin|Hnin].
        -- specialize (Hz e Hin). lia.
        -- destruct (Hout e Hnin) as [-> ->]. reflexivity.
    + intros [Hne Heq]. split.
      * intros e _. rewrite Heq. lia.
      * destruct (Playground.elements v); [congruence | simpl; lia].
  - intros e. rewrite Hdiff.
    destruct (in_dec (list_eq_dec N.eq_dec) e (Playground.elements v))
      as [Hin|Hnin].
    + erewrite In_map_get; [reflexivity | |].
      * unfold keys. rewrite map_map. simpl. now rewrite map_id.
      * apply in_map_iff. exists e. split; [reflexivity | exact Hin].
    + destruct (Hout e Hnin) as [-> ->].
      replace (map_get _ e) with (@None Z); [reflexivity|].
      symmetry. apply map_get_none.
      unfold keys. rewrite map_map. simpl. now rewrite map_id.
Qed.



(* ===================================================================== *)
(** * The answer is in lowest terms *)
(* ===================================================================== *)

Lemma makeFrac_reduced (n d : Z) (f : Frac) :
  makeFrac n d = Returned f -> reduced f.
Proof.
  intros H. destruct (Z.eq_dec d 0) as [->|Hd].
  - unfold makeFrac in H. simpl in H. discriminate.
  - destruct (makeFrac_normal n d Hd) as (f' & E & R & _).
    rewrite H in E. injection E as <-. exact R.
Qed.

Lemma zeroFrac_reduced : reduced zeroFrac.
Proof. split; simpl; [lia | reflexivity]. Qed.

Lemma mapM_Forall {X Y} (f : X -> outcome Y) (P : Y -> Prop) (l : list X) :
  (forall x y, f x = Returned y -> P y) ->
  forall ys, mapM f l = Returned ys -> Forall P ys.
Proof.
  intros Hf. induction l as [|x l IH]; simpl; intros ys H.
  - injection H as <-. constructor.
  - destruct (f x) as [y| | | |] eqn:Ey; try discriminate. cbn [bind] in H.
    destruct (mapM f l) as [ys'| | | |]; try discriminate. cbn [bind] in H.
    injection H as <-. constructor; [eapply Hf; eassumption | now apply IH].
Qed.

Lemma mapFromM_reduced (f : Frac -> outcome Frac) (row : list Frac) :
  (forall x y, f x = Returned y -> reduced y) ->
  forall col row',
    Forall reduced row -> mapFromM f col row = Returned row' ->
    Forall reduced row'.
Proof.
  intros Hf. induction row as [|x row IH]; intros col row' Hrow H; simpl in H.
  - injection H as <-. constructor.
  - inversion Hrow; subst. destruct col as [|col].
    + destruct (f x) as [y| | | |] eqn:Ey; try discriminate. cbn [bind] in H.
      destruct (mapFromM f 0 row) as [ys| | | |] eqn:Eys; try discriminate.
      cbn [bind] in H. injection H as <-.
      constructor; [eapply Hf; eassumption | eapply IH; eassumption].
    + destruct (mapFromM f col row) as [ys| | | |] eqn:Eys; try discriminate.
      cbn [bind] in H. injection H as <-.
      constructor; [assumption | eapply IH; eassumption].
Qed.

Lemma map2FromM_reduced (f : Frac -> Frac -> outcome Frac) (row : list Frac) :
  (forall x p y, f x p = Returned y -> reduced y) ->
  forall col other row',
    Forall reduced row -> map2FromM f col row other = Returned row' ->
    Forall reduced row'.
Proof.
  intros Hf. induction row as [|x row IH]; intros col other row' Hrow H;
    simpl in H.
  - injection H as <-. constructor.
  - inversion Hrow; subst. destruct col as [|col].
    + destruct (f x (hd zeroFrac other)) as [y| | | |] eqn:Ey; try discriminate.
      cbn [bind] in H.
      destruct (map2FromM f 0 row (tl other)) as [ys| | | |] eqn:Eys;
        try discriminate.
      cbn [bind] in H. injection H as <-.
      constructor; [eapply Hf; eassumption | eapply IH; eassumption].
    + destruct (map2FromM f col row (tl other)) as [ys| | | |] eqn:Eys;
        try discriminate.
      cbn [bind] in H. injection H as <-.
      constructor; [assumption | eapply IH; eassumption].
Qed.

Lemma eliminateRow_reduced (col : nat) (pivRow : list Frac) (pivb : Frac)
    (Br Br' : list Frac) (br br' : Frac) :
  Forall reduced Br -> reduced br ->
  eliminateRow col pivRow pivb Br br = Returned (Br', br') ->
  Forall reduced Br' /\ reduced br'.
Proof.
  intros HB Hb. unfold eliminateRow.
  destruct (num (nth col Br zeroFrac) =? 0).
  { intros [= <- <-]. auto. }
  destruct (map2FromM _ col Br pivRow) as [Br1| | | |] eqn:E1; try discriminate.
  cbn [bind].
  destruct (fMul (nth col Br zeroFrac) pivb) as [t| | | |]; try discriminate.
  cbn [bind].
  destruct (fSub br t) as [br1| | | |] eqn:E3; try discriminate.
  cbn [bind]. intros [= <- <-]. split.
  - eapply map2FromM_reduced; [|exact HB|exact E1].
    intros x p y. cbv beta.
    destruct (fMul (nth col Br zeroFrac) p) as [t'| | | |]; try discriminate.
    cbn [bind]. apply makeFrac_reduced.
  - revert E3. apply makeFrac_reduced.
Qed.

Lemma eliminateRows_reduced (col row : nat) (pivRow : list Frac) (pivb : Frac) :
  forall Bs bs r Bs' bs',
    Forall (Forall reduced) Bs -> Forall reduced bs ->
    eliminateRows col row pivRow pivb r Bs bs = Returned (Bs', bs') ->
    Forall (Forall reduced) Bs' /\ Forall reduced bs'.
Proof.
  induction Bs as [|Br Bs IH]; intros bs r Bs' bs' HB Hb H.
  - simpl in H. injection H as <- <-. auto.
  - destruct bs as [|br bs].
    { simpl in H. injection H as <- <-. auto. }
    inversion HB as [|? ? HBr HBs]; subst.
    inversion Hb as [|? ? Hbr Hbs]; subst. cbn [eliminateRows] in H.
    destruct (if Nat.eqb r row then Returned (Br, br)
              else eliminateRow col pivRow pivb Br br)
      as [[Br1 br1]| | | |] eqn:E1; try discriminate.
    cbn [bind] in H.
    destruct (eliminateRows col row pivRow pivb (S r) Bs bs)
      as [[Bs1 bs1]| | | |] eqn:E2; try discriminate.
    cbn [bind] in H. injection H as <- <-.
    destruct (IH _ _ _ _ HBs Hbs E2) as [W1 W2].
    assert (W : Forall reduced Br1 /\ reduced br1).
    { destruct (Nat.eqb r row).
      - injection E1 as <- <-. auto.
      - eapply eliminateRow_reduced; [| |exact E1]; assumption. }
    destruct W. split; constructor; assumption.
Qed.

Lemma eliminateCol_reduced (m col : nat) (st st' : ElimState) :
  Forall (Forall reduced) (B st) -> Forall reduced (b st) ->
  eliminateCol m col st = Returned st' ->
  Forall (Forall reduced) (B st') /\ Forall reduced (b st').
Proof.
  intros HB Hb. unfold eliminateCol.
  destruct (Nat.eqb _ m); [intros [= <-]; auto|].
  set (pivot := findPivot (skipn (row st) (B st)) (row st) col).
  set (B1 := swap [] (B st) pivot (row st)).
  set (b1 := swap zeroFrac (b st) pivot (row st)).
  assert (WB1 : Forall (Forall reduced) B1)
    by (apply swap_Forall; [exact HB | constructor]).
  assert (Wb1 : Forall reduced b1)
    by (apply swap_Forall; [exact Hb | apply zeroFrac_reduced]).
  destruct (mapFromM _ col (nth (row st) B1 [])) as [Brow| | | |] eqn:E1;
    try discriminate.
  cbn [bind].
  destruct (fDiv (nth (row st) b1 zeroFrac) _) as [brow| | | |] eqn:E2;
    try discriminate.
  cbn [bind].
  destruct (eliminateRows col (row st) Brow brow 0 _ _)
    as [[B3 b3]| | | |] eqn:E3; try discriminate.
  cbn [bind]. intros [= <-]. cbn [B b].
  assert (W1 : Forall reduced Brow).
  { eapply mapFromM_reduced; [| |exact E1].
    - intros x y. apply makeFrac_reduced.
    - apply nth_Forall; [exact WB1 | constructor]. }
  assert (W2 : reduced brow) by (revert E2; apply makeFrac_reduced).
  eapply eliminateRows_reduced; [| |exact E3]; now apply update_Forall.
Qed.

Lemma eliminateCols_reduced (m : nat) (cols : list nat) :
  forall st st',
    Forall (Forall reduced) (B st) -> Forall reduced (b st) ->
    eliminateCols m cols st = Returned st' ->
    Forall (Forall reduced) (B st') /\ Forall reduced (b st').
Proof.
  induction cols as [|col cols IH]; intros st st' HB Hb H; simpl in H.
  - injection H as <-. auto.
  - destruct (Nat.ltb (row st) m); [|injection H as <-; auto].
    destruct (eliminateCol m col st) as [st1| | | |] eqn:E1; try discriminate.
    cbn [bind] in H.
    destruct (eliminateCol_reduced _ _ _ _ HB Hb E1) as [HB1 Hb1].
    eapply IH; eassumption.
Qed.

(** Every fraction [solveRationalForLastColumn] returns is in lowest
    terms. *)
Lemma solveRationalForLastColumn_reduced (A0 : list (list Z))
    (raw : list Frac) :
  solveRationalForLastColumn A0 = Returned (Some raw) -> Forall reduced raw.
Proof.
  unfold solveRationalForLastColumn.
  destruct (Nat.leb (length (hd [] A0)) 1); [discriminate|].
  destruct (mapM (fun Ai => mapM _ _) A0) as [B0| | | |] eqn:EB;
    try discriminate.
  cbn [bind].
  destruct (mapM (fun Ai => makeFrac _ _) A0) as [b0| | | |] eqn:Eb;
    try discriminate.
  cbn [bind].
  destruct (eliminateCols _ _ _) as [st| | | |] eqn:Est; try discriminate.
  cbn [bind].
  destruct (mapM _ (seq 0 (length (hd [] A0) - 1))) as [x| | | |] eqn:Ex;
    try discriminate.
  cbn [bind]. change (makeFrac 1 1) with (Returned (mkFrac 1 1)). cbn [bind].
  intros [= <-].
  assert (WB : Forall (Forall reduced) B0).
  { eapply mapM_Forall; [|exact EB]. intros Ai r Hr. cbv beta in Hr.
    eapply mapM_Forall; [|exact Hr]. intros j f. apply makeFrac_reduced. }
  assert (Wb : Forall reduced b0).
  { eapply mapM_Forall; [|exact Eb]. intros Ai f. apply makeFrac_reduced. }
  destruct (eliminateCols_reduced _ _ (mkElim B0 b0 0 _) st WB Wb Est)
    as [_ Wst].
  apply Forall_app. split.
  - eapply mapM_Forall; [|exact Ex]. intros c f. cbv beta.
    destruct (nth c (pivotRowForCol st) None).
    + intros [= <-]. apply nth_Forall; [exact Wst | apply zeroFrac_reduced].
    + apply makeFrac_reduced.
  - constructor; [|constructor]. split; simpl; [lia | reflexivity].
Qed.

Lemma lcm_Zlcm (a c : Z) : 0 < a -> 0 < c -> lcm a c = Z.lcm a c.
Proof.
  intros Ha Hc. unfold lcm, Z.lcm. rewrite gcd_spec.
  destruct (Z.eqb_spec (Z.gcd a c) 0) as [E|E].
  { apply Z.gcd_eq_0 in E. lia. }
  pose proof (Z.gcd_nonneg a c) as Hg.
  destruct (Z.gcd_divide_l a c) as [a' Ea].
  destruct (Z.gcd_divide_r a c) as [c' Ec].
  set (g := Z.gcd a c) in *.
  assert (Qa : a / g = a') by (rewrite Ea at 1; apply Z.div_mul; lia).
  assert (Qc : c / g = c') by (rewrite Ec at 1; apply Z.div_mul; lia).
  rewrite Qa, Qc.
  assert (0 < a') by nia. assert (0 < c') by nia.
  rewrite Z.abs_eq by nia. nia.
Qed.

(** The common denominator divides every common multiple of the
    denominators. *)
Lemma commonDen_least (M : Z) (fv : list Frac) :
  Forall wfFrac fv ->
  Forall (fun f => (den f | M)) fv ->
  forall acc,
    0 < acc -> (acc | M) ->
    (fold_left (fun cd f => lcm cd (den f)) fv acc | M).
Proof.
  induction 1 as [|f fv Hf Hfv IH]; intros Hdiv acc Hacc HM; simpl;
    [exact HM|].
  inversion Hdiv; subst.
  destruct (lcm_spec acc (den f) Hacc Hf) as (_ & Hl & _ & _).
  apply IH; [assumption | exact Hl |].
  rewrite lcm_Zlcm by assumption. now apply Z.lcm_least.
Qed.

Lemma toInt32_fits (x : Z) : fitsInt32 x = true -> toInt32 x = x.
Proof.
  unfold fitsInt32, toInt32. rewrite Bool.andb_true_iff, Z.leb_le, Z.ltb_lt.
  intros [H1 H2]. rewrite Z.mod_small; lia.
Qed.

(** Fractions in lowest terms, one of which is 1, scaled by their common
    denominator, have no common divisor. *)
Lemma scaledNumerators_primitive (fv : list Frac) (G : Z) :
  Forall reduced fv -> In (mkFrac 1 1) fv ->
  0 < G -> Forall (fun v => (G | v)) (scaledNumerators fv) -> G = 1.
Proof.
  intros Hred Hone HG Hdiv. unfold scaledNumerators in Hdiv. cbv zeta in Hdiv.
  assert (Hwf : Forall wfFrac fv).
  { eapply Forall_impl; [|exact Hred]. intros f [H _]. exact H. }
  destruct (commonDen_spec fv Hwf 1 ltac:(lia)) as (Hcd & _ & Hden).
  cbv zeta in Hcd, Hden.
  set (cd := fold_left (fun cd f => lcm cd (den f)) fv 1) in *.
  rewrite Forall_map in Hdiv. rewrite Forall_forall in Hdiv, Hden, Hred.
  assert (HGcd : (G | cd)).
  { pose proof (Hdiv _ Hone) as H1. cbv beta in H1. cbn [num den] in H1.
    now rewrite Z.div_1_r, Z.mul_1_l in H1. }
  assert (Hmult : forall f, In f fv -> (den f | cd / G)).
  { intros f Hf. destruct (Hden f Hf) as [c Ec].
    destruct (Hred f Hf) as [Hdf Hgcd].
    assert (Qc : cd / den f = c) by (rewrite Ec; apply Z.div_mul; lia).
    specialize (Hdiv f Hf). cbv beta in Hdiv. rewrite Qc in Hdiv.
    assert (HGc : (G | c)).
    { assert (Hg : (G | Z.gcd (num f * c) (den f * c))).
      { apply Z.gcd_greatest; [exact Hdiv|].
        rewrite Z.mul_comm. rewrite <- Ec. exact HGcd. }
      rewrite Z.gcd_mul_mono_r, Hgcd, Z.mul_1_l in Hg.
      exact (proj1 (Z.divide_abs_r _ _) Hg). }
    destruct HGc as [t Et]. exists t.
    rewrite Ec, Et. replace (t * G * den f) with (t * den f * G) by ring.
    apply Z.div_mul. lia. }
  assert (Hleast : (cd | cd / G)).
  { apply commonDen_least; [exact Hwf | | lia | apply Z.divide_1_l].
    apply Forall_forall. exact Hmult. }
  destruct HGcd as [q Eq]. rewrite Eq, Z.div_mul in Hleast by lia.
  assert (Hq : 0 < q) by nia.
  apply Z.divide_pos_le in Hleast; [|exact Hq]. nia.
Qed.

Lemma candidate_lowest_terms (fv : list Frac) (final : list Z) (d : Z) :
  Forall reduced fv -> In (mkFrac 1 1) fv ->
  forallb fitsInt32 (scaledNumerators fv) = true ->
  candidate fv = Some final ->
  0 < d -> Forall (fun x => (d | x)) final -> d = 1.
Proof.
  intros Hred Hone Hfit Hc Hd Hdiv.
  apply candidate_some in Hc. cbv zeta in Hc.
  destruct Hc as (-> & Hg & Hgdiv & _).
  set (cd := fold_left (fun cd f => lcm cd (den f)) fv 1) in *.
  set (absVec := map (fun f => Z.abs (toInt32 (num f * (cd / den f)))) fv) in *.
  set (g := fold_left _ absVec _) in *.
  assert (HG : d * g = 1); [|nia].
  apply (scaledNumerators_primitive fv); [assumption | assumption | nia |].
  unfold scaledNumerators. cbv zeta. fold cd.
  rewrite Forall_map. apply Forall_forall. intros f Hf.
  rewrite forallb_forall in Hfit.
  assert (Hfits : fitsInt32 (num f * (cd / den f)) = true).
  { apply Hfit. unfold scaledNumerators. cbv zeta. fold cd.
    apply in_map_iff. now exists f. }
  assert (Hin : In (Z.abs (num f * (cd / den f))) absVec).
  { unfold absVec. apply in_map_iff. exists f. split; [|exact Hf].
    now rewrite toInt32_fits. }
  rewrite Forall_forall in Hgdiv. destruct (Hgdiv _ Hin) as [q Eq].
  rewrite Forall_map, Forall_forall in Hdiv.
  specialize (Hdiv _ Hin). cbv beta in Hdiv.
  rewrite Eq, Z.div_mul in Hdiv by lia.
  destruct Hdiv as [t Et].
  apply Z.divide_abs_r. rewrite Eq, Et. exists t. ring.
Qed.

(** X21. The coefficients of an answer have no common factor: when the
    scaled numerators of the fractions fit in 32 bits (so that [| 0] leaves
    them as they are), the only positive integer that divides every
    coefficient is 1. *)
Theorem solveEquation_lowest_terms (leftFormulas rightFormulas : list jsstring)
    (countFn : jsstring -> ElementCount) (s : Solution) (d : Z) :
  solveEquation leftFormulas rightFormulas countFn = Returned (Some s) ->
  (forall raw,
      solveRationalForLastColumn
        (A (buildElementMatrix leftFormulas rightFormulas countFn))
      = Returned (Some raw) ->
      forallb fitsInt32 (scaledNumerators raw) = true) ->
  0 < d -> Forall (fun x => (d | x)) (left s ++ right s) -> d = 1.
Proof.
  intros Hs Hfit Hd Hdiv.
  apply solveEquation_some in Hs. destruct Hs as (raw & Hraw & Hc & _).
  pose proof (solveRationalForLastColumn_reduced _ _ Hraw) as Hred.
  destruct (solveRationalForLastColumn_some _ _ Hraw) as (_ & _ & x & Ex).
  apply (candidate_lowest_terms raw (left s ++ right s)); auto.
  rewrite Ex. apply in_app_iff. right. now left.
Qed.

Lemma solveEquation_lowest_terms_witness :
  solveEquation [js "C8H18"; js "O2"] [js "CO2"; js "H2O"] countFormula
  = Returned (Some (mkLR [2; 25] [16; 18])) /\ 1 = 1.
Proof.
  split; [vm_compute; reflexivity|].
  apply (solveEquation_lowest_terms [js "C8H18"; js "O2"] [js "CO2"; js "H2O"]
           countFormula (mkLR [2; 25] [16; 18]) 1).
  - vm_compute. reflexivity.
  - intros raw H. vm_compute in H. injection H as <-. vm_compute. reflexivity.
  - lia.
  - repeat constructor; apply Z.divide_1_l.
Defined.

(* ===================================================================== *)
(** * Further properties of the first listing of solver.ts *)
(* ===================================================================== *)

Lemma beyondTolerance_opp (v : list Q) :
  beyondTolerance (map Qopp v) <-> beyondTolerance v.
Proof.
  unfold beyondTolerance. pose proof EPS_pos as HE.
  destruct v as [|x v]; [simpl; split; intros _; left; constructor|].
  rewrite !Forall_map. split.
  - intros [H|[_ H]].
    + right. split; [discriminate|].
      eapply Forall_impl; [|exact H]. cbv beta. intros a Ha. lra.
    + left. eapply Forall_impl; [|exact H]. cbv beta. intros a Ha. lra.
  - intros [H|[_ H]].
    + right. split; [discriminate|].
      eapply Forall_impl; [|exact H]. cbv beta. intros a Ha. lra.
    + left. eapply Forall_impl; [|exact H]. cbv beta. intros a Ha. lra.
Qed.

Lemma beyondTolerance_ext (g h : Q -> Q) (v : list Q) :
  (forall x, (g x == h x)%Q) ->
  (beyondTolerance (map g v) <-> beyondTolerance (map h v)).
Proof.
  intros Hg. unfold beyondTolerance. rewrite !Forall_map.
  assert (Hne : map g v <> [] <-> map h v <> [])
    by (destruct v; simpl; split; congruence).
  rewrite Hne.
  assert (F1 : Forall (fun x => (EPS < g x)%Q) v
               <-> Forall (fun x => (EPS < h x)%Q) v).
  { split; intros H; (eapply Forall_impl; [|exact H]); cbv beta;
      intros a Ha; pose proof (Hg a); lra. }
  assert (F2 : Forall (fun x => (g x < - EPS)%Q) v
               <-> Forall (fun x => (h x < - EPS)%Q) v).
  { split; intros H; (eapply Forall_impl; [|exact H]); cbv beta;
      intros a Ha; pose proof (Hg a); lra. }
  rewrite F1, F2. reflexivity.
Qed.

Lemma allPositiveUpToSign_opp (v : list Q) :
  allPositiveUpToSign (map Qopp v) = allPositiveUpToSign v.
Proof.
  apply Bool.eq_iff_eq_true.
  rewrite !allPositiveUpToSign_spec. apply beyondTolerance_opp.
Qed.

(** X22. The test of the signs does not tell a vector from its negation,
    so the second try of the one-dimensional case, with [s = -1], never
    succeeds: for a basis of one vector [findSignedFeasibleSolution] returns
    the vector itself (times 1) when its entries are all beyond the
    tolerance on the same side, positive or negative, and null otherwise. *)
Theorem one_dimensional_search (b0 : list Q) (leftLen rightLen : nat) :
  allPositiveUpToSign (map Qopp b0) = allPositiveUpToSign b0 /\
  findSignedFeasibleSolution [b0] leftLen rightLen
  = (if allPositiveUpToSign b0 then Some (map (Qmult 1) b0) else None) /\
  (findSignedFeasibleSolution [b0] leftLen rightLen <> None <->
   beyondTolerance b0).
Proof.
  assert (E1 : allPositiveUpToSign (map (Qmult 1) b0) = allPositiveUpToSign b0).
  { apply Bool.eq_iff_eq_true. rewrite !allPositiveUpToSign_spec.
    rewrite <- (map_id b0) at 2.
    apply beyondTolerance_ext. intros x. ring. }
  assert (E2 : allPositiveUpToSign (map (Qmult (-1)) b0)
               = allPositiveUpToSign b0).
  { apply Bool.eq_iff_eq_true. rewrite !allPositiveUpToSign_spec.
    rewrite <- (beyondTolerance_opp b0).
    apply beyondTolerance_ext. intros x. ring. }
  assert (E : findSignedFeasibleSolution [b0] leftLen rightLen
              = if allPositiveUpToSign b0 then Some (map (Qmult 1) b0)
                else None).
  { unfold findSignedFeasibleSolution. cbn [map find].
    rewrite E1, E2. now destruct (allPositiveUpToSign b0). }
  split; [apply allPositiveUpToSign_opp|]. split; [exact E|].
  rewrite E, <- allPositiveUpToSign_spec.
  destruct (allPositiveUpToSign b0); split; congruence.
Qed.

(** ** [gcdArray] and [toIntegerCoefficients] *)

Lemma gcdArray_fold (arr : list Z) :
  Forall (fun x => 0 <= x) arr ->
  forall a, 0 <= a ->
    0 <= fold_left FirstListing.gcd2 arr a /\
    (fold_left FirstListing.gcd2 arr a | a) /\
    Forall (fun x => (fold_left FirstListing.gcd2 arr a | x)) arr /\
    (forall d, (d | a) -> Forall (fun x => (d | x)) arr ->
               (d | fold_left FirstListing.gcd2 arr a)).
Proof.
  induction 1 as [|x arr Hx Harr IH]; intros a Ha; simpl.
  - repeat split; [exact Ha | apply Z.divide_refl | constructor | auto].
  - rewrite gcd2_spec by assumption.
    destruct (IH (Z.gcd a x) (Z.gcd_nonneg a x)) as (H0 & H1 & H2 & H3).
    repeat split; [exact H0 | | |].
    + eapply Z.divide_trans; [exact H1 | apply Z.gcd_divide_l].
    + constructor; [|exact H2].
      eapply Z.divide_trans; [exact H1 | apply Z.gcd_divide_r].
    + intros d Hda Hdx. inversion Hdx; subst.
      apply H3; [now apply Z.gcd_greatest | assumption].
Qed.

(** X23. On non-negative integers [gcdArray] is their greatest common
    divisor: it is positive, divides every entry, and every common divisor
    of the entries divides it unless the entries are all 0, when it is 1. *)
Theorem gcdArray_greatest_common_divisor (arr : list Z) :
  Forall (fun x => 0 <= x) arr ->
  0 < FirstListing.gcdArray arr /\
  Forall (fun x => (FirstListing.gcdArray arr | x)) arr /\
  (Forall (fun x => x = 0) arr -> FirstListing.gcdArray arr = 1) /\
  (Exists (fun x => x <> 0) arr ->
   forall d, Forall (fun x => (d | x)) arr -> (d | FirstListing.gcdArray arr)).
Proof.
  intros H. unfold FirstListing.gcdArray. cbv zeta.
  destruct (gcdArray_fold arr H 0 ltac:(lia)) as (H0 & _ & H2 & H3).
  set (g := fold_left FirstListing.gcd2 arr 0) in *.
  destruct (Z.eqb_spec g 0) as [Eg|Eg].
  - assert (Hz : Forall (fun x => x = 0) arr).
    { eapply Forall_impl; [|exact H2]. cbv beta. intros x Hx.
      rewrite Eg in Hx. now apply Z.divide_0_l in Hx. }
    split; [lia|]. split; [|split; [reflexivity|]].
    + eapply Forall_impl; [|exact H]. intros; apply Z.divide_1_l.
    + intros Hex. apply Exists_exists in Hex. destruct Hex as (x & Hx & Hne).
      rewrite Forall_forall in Hz. specialize (Hz x Hx). contradiction.
  - split; [lia|]. split; [exact H2|]. split.
    + intros Hz. exfalso. apply Eg.
      assert (Hd : (0 | g)).
      { apply H3; [apply Z.divide_refl|].
        eapply Forall_impl; [|exact Hz]. cbv beta. intros x ->.
        apply Z.divide_refl. }
      now apply Z.divide_0_l in Hd.
    + intros _ d Hd. apply H3; [apply Z.divide_0_r | exact Hd].
Qed.

Lemma gcdArray_greatest_common_divisor_witness :
  0 < FirstListing.gcdArray [12; 0; 18].
Proof.
  apply (gcdArray_greatest_common_divisor [12; 0; 18]).
  repeat constructor; lia.
Defined.

Lemma Qabs_opp_eq (x : Q) : Qabs (- x) = Qabs x.
Proof. destruct x as [n d]. unfold Qabs, Qopp. simpl. now rewrite Z.abs_opp. Qed.

Lemma round_nonneg (x : Q) : (0 <= x)%Q -> 0 <= FirstListing.round x.
Proof.
  intros H. unfold FirstListing.round.
  change 0 with (Qfloor 0). apply Qfloor_resp_le. lra.
Qed.

(** X24. [toIntegerCoefficients] reads only the absolute values of the
    vector: the vector and its negation give the same coefficients (the
    change of sign the function starts with has no effect on the result).
    No coefficient is negative, and every entry of the vector gets a
    coefficient, the first [leftLen] on the left. *)
Theorem toIntegerCoefficients_ignores_signs (v : list Q)
    (leftLen rightLen : nat) :
  FirstListing.toIntegerCoefficients (map Qopp v) leftLen rightLen
  = FirstListing.toIntegerCoefficients v leftLen rightLen /\
  Forall (fun x => 0 <= x)
    (left (FirstListing.toIntegerCoefficients v leftLen rightLen)
     ++ right (FirstListing.toIntegerCoefficients v leftLen rightLen)) /\
  length (left (FirstListing.toIntegerCoefficients v leftLen rightLen)
          ++ right (FirstListing.toIntegerCoefficients v leftLen rightLen))
  = length v /\
  length (left (FirstListing.toIntegerCoefficients v leftLen rightLen))
  = Nat.min leftLen (length v).
Proof.
  assert (Eabs : forall (w : list Q) (flip : bool),
             map Qabs (if flip then map Qopp w else w) = map Qabs w).
  { intros w flip. destruct flip; [|reflexivity].
    rewrite map_map. apply map_ext. apply Qabs_opp_eq. }
  unfold FirstListing.toIntegerCoefficients. cbv zeta.
  assert (Eopp : map Qabs (map Qopp v) = map Qabs v)
    by (rewrite map_map; apply map_ext, Qabs_opp_eq).
  rewrite !Eabs, Eopp.
  split; [reflexivity|]. cbn [left right]. rewrite firstn_skipn.
  set (scaled := map (fun x => FirstListing.round (x * 1000000)) (map Qabs v)).
  assert (Hs : Forall (fun x => 0 <= x) scaled).
  { unfold scaled. rewrite !Forall_map. apply Forall_forall. intros x _.
    apply round_nonneg. pose proof (Qabs_nonneg x). nra. }
  assert (Hg : 0 < FirstListing.gcdArray scaled).
  { unfold FirstListing.gcdArray. cbv zeta.
    destruct (gcdArray_fold scaled Hs 0 ltac:(lia)) as (H0 & _).
    destruct (Z.eqb_spec (fold_left FirstListing.gcd2 scaled 0) 0); lia. }
  split; [|split].
  - rewrite Forall_map. eapply Forall_impl; [|exact Hs]. cbv beta.
    intros x Hx. now apply Z.div_pos.
  - unfold scaled. now rewrite !length_map.
  - rewrite length_firstn. unfold scaled. now rewrite !length_map.
Qed.

(** ** The basis [nullspace] returns *)

(** X25. The vectors [nullspace] returns have one entry for each column of
    the matrix, there are at most as many of them as columns, and each has
    a column of its own (the free column it was made for) where it is 1 and
    all the others are 0: no vector of the basis is zero or a combination
    of the others. *)
Theorem nullspace_basis_shape (A0 : list (list Q)) :
  let n := length (hd [] A0) in
  Forall (fun v => length v = n) (nullspace A0) /\
  (length (nullspace A0) <= n)%nat /\
  exists cols : list nat,
    length cols = length (nullspace A0) /\ NoDup cols /\
    Forall (fun c => (c < n)%nat) cols /\
    forall i j,
      (i < length cols)%nat -> (j < length cols)%nat ->
      nth (nth j cols 0%nat) (nth i (nullspace A0) []) 0%Q
      = if Nat.eqb i j then 1%Q else 0%Q.
Proof.
  cbv zeta. unfold nullspace. cbv zeta.
  set (n := length (hd [] A0)).
  set (st := nullCols (length A0) (seq 0 n) (mkNull A0 0 (repeat None n))).
  set (cols := freeColumns (pivots st) n).
  assert (Hcols : Forall (fun c => (c < n)%nat /\ nth c (pivots st) None = None)
                         cols).
  { apply Forall_forall. intros c Hc. now apply freeColumns_spec in Hc. }
  split; [|split].
  - unfold basisOf. rewrite Forall_map. apply Forall_forall. intros f _.
    apply basisVector_length.
  - rewrite basisOf_length. unfold freeColumns.
    etransitivity; [apply filter_length_le|]. now rewrite length_seq.
  - exists cols. split; [symmetry; apply basisOf_length|].
    split; [apply freeColumns_NoDup|]. split.
    + eapply Forall_impl; [|exact Hcols]. cbv beta. tauto.
    + intros i j Hi Hj. unfold basisOf. fold cols.
      rewrite (nth_indep _ [] (basisVector (M st) (pivots st) n 0%nat))
        by (now rewrite length_map).
      rewrite (map_nth (basisVector (M st) (pivots st) n) cols 0%nat i).
      rewrite Forall_forall in Hcols.
      destruct (Hcols (nth j cols 0%nat) (nth_In _ _ Hj)) as [Hlt Hfree].
      rewrite basisVector_free by assumption.
      destruct (Nat.eqb_spec i j) as [->|Hne].
      * now rewrite Nat.eqb_refl.
      * destruct (Nat.eqb_spec (nth j cols 0%nat) (nth i cols 0%nat))
          as [E|E]; [|reflexivity].
        exfalso. apply Hne. symmetry.
        apply (proj1 (NoDup_nth cols 0%nat) (freeColumns_NoDup _ _));
          assumption.
Qed.

Lemma nullspace_basis_shape_witness :
  exists c : nat,
    (c < 3)%nat /\
    nth c (nth 0 (nullspace [[2; 0; -2]; [0; 2; -1]]%Q) []) 0%Q = 1%Q.
Proof.
  destruct (nullspace_basis_shape [[2; 0; -2]; [0; 2; -1]]%Q)
    as (_ & _ & cols & Hlen & _ & Hlt & H).
  assert (L : length (nullspace [[2; 0; -2]; [0; 2; -1]]%Q) = 1%nat)
    by (vm_compute; reflexivity).
  rewrite L in Hlen.
  exists (nth 0 cols 0%nat). split.
  - rewrite Forall_forall in Hlt. apply Hlt. apply nth_In. lia.
  - apply (H 0%nat 0%nat); lia.
Defined.

(* ===================================================================== *)
(** * From the text of a formula to its counts *)
(* ===================================================================== *)


























(* ===================================================================== *)
(** * The elimination solves the system *)
(* ===================================================================== *)

(** ** Values of fractions *)

Lemma value_zero (f : Frac) : wfFrac f -> ((value f == 0)%Q <-> num f = 0).
Proof.
  unfold wfFrac, value, Qeq. simpl. intros H. lia.
Qed.

Lemma value_int (n : Z) (f : Frac) :
  makeFrac n 1 = Returned f -> (value f == inject_Z n)%Q.
Proof.
  intros H. destruct (value_makeFrac n 1 f ltac:(lia) H) as [_ E].
  rewrite E. reflexivity.
Qed.

Lemma makeFrac_value (n d : Z) (f : Frac) :
  makeFrac n d = Returned f ->
  d <> 0 /\ wfFrac f /\ num f * d = n * den f.
Proof.
  intros H. destruct (Z.eq_dec d 0) as [->|Hd].
  - unfold makeFrac in H. simpl in H. discriminate.
  - destruct (makeFrac_normal n d Hd) as (f' & E & R & V).
    rewrite H in E. injection E as <-.
    split; [exact Hd|]. split; [apply R | exact V].
Qed.

Lemma fSub_value (x y r : Frac) :
  wfFrac x -> wfFrac y -> fSub x y = Returned r ->
  wfFrac r /\ (value r == value x - value y)%Q.
Proof.
  unfold wfFrac, fSub. intros Hx Hy H.
  apply makeFrac_value in H. destruct H as (_ & Hr & V).
  split; [exact Hr|]. unfold wfFrac in Hr.
  unfold value, Qeq, Qminus, Qplus, Qopp. simpl.
  rewrite Pos2Z.inj_mul, !Z2Pos.id by assumption. nia.
Qed.

Lemma fMul_value (x y r : Frac) :
  wfFrac x -> wfFrac y -> fMul x y = Returned r ->
  wfFrac r /\ (value r == value x * value y)%Q.
Proof.
  unfold wfFrac, fMul. intros Hx Hy H.
  apply makeFrac_value in H. destruct H as (_ & Hr & V).
  split; [exact Hr|]. unfold wfFrac in Hr.
  unfold value, Qeq, Qmult. simpl.
  rewrite Pos2Z.inj_mul, !Z2Pos.id by assumption. nia.
Qed.

Lemma fDiv_value (x p r : Frac) :
  wfFrac x -> wfFrac p -> fDiv x p = Returned r ->
  wfFrac r /\ num p <> 0 /\ (value r == value x / value p)%Q.
Proof.
  unfold wfFrac, fDiv. intros Hx Hp H.
  apply makeFrac_value in H. destruct H as (Hd & Hr & V).
  assert (Hn : num p <> 0) by nia.
  split; [exact Hr|]. split; [exact Hn|]. unfold wfFrac in Hr.
  unfold value, Qeq, Qdiv, Qmult, Qinv. simpl.
  destruct (num p) as [|q|q] eqn:En; [congruence| |]; simpl;
    rewrite ?Pos2Z.inj_mul, !Z2Pos.id by assumption.
  - nia.
  - assert (Ep : Z.neg q = - Z.pos q) by reflexivity.
    rewrite Ep in V.
    change (Z.neg (Z.to_pos (den p))) with (- Z.pos (Z.to_pos (den p))).
    rewrite Z2Pos.id by assumption. nia.
Qed.

Lemma value_self_div (p : Frac) :
  wfFrac p -> num p <> 0 -> (value p / value p == 1)%Q.
Proof.
  intros Hp Hn. apply Qmult_inv_r. intros E.
  apply (value_zero p Hp) in E. contradiction.
Qed.

(** ** Lists by index *)

Lemma update_nth_other {X} (l : list X) (i k : nat) (x d : X) :
  i <> k -> nth k (update l i x) d = nth k l d.
Proof.
  revert i k; induction l as [|y l IH]; intros [|i] [|k] H; simpl;
    try reflexivity; try congruence.
  apply IH. congruence.
Qed.

Lemma swap_nth_all {X} (d : X) (l : list X) (i j k : nat) :
  (i < length l)%nat -> (j < length l)%nat ->
  nth k (swap d l i j) d
  = nth (if Nat.eqb k j then i else if Nat.eqb k i then j else k) l d.
Proof.
  intros Hi Hj. unfold swap.
  destruct (Nat.eqb_spec i j) as [->|Hij].
  - destruct (Nat.eqb_spec k j) as [->|Hk]; reflexivity.
  - destruct (Nat.eqb_spec k j) as [->|Hkj].
    + apply update_nth_same. now rewrite update_length.
    + rewrite update_nth_other by congruence.
      destruct (Nat.eqb_spec k i) as [->|Hki].
      * now apply update_nth_same.
      * apply update_nth_other. congruence.
Qed.

Lemma mapFromM_nth (f : Frac -> outcome Frac) (d : Frac) (row : list Frac) :
  forall col row',
    mapFromM f col row = Returned row' ->
    length row' = length row /\
    forall j, (j < length row)%nat ->
      ((j < col)%nat -> nth j row' d = nth j row d) /\
      ((col <= j)%nat -> f (nth j row d) = Returned (nth j row' d)).
Proof.
  induction row as [|x row IH]; intros col row' H; simpl in H.
  - injection H as <-. split; [reflexivity|]. simpl. intros; lia.
  - destruct col as [|col].
    + destruct (f x) as [y| | | |] eqn:Ey; try discriminate. cbn [bind] in H.
      destruct (mapFromM f 0 row) as [ys| | | |] eqn:Eys; try discriminate.
      cbn [bind] in H. injection H as <-.
      destruct (IH _ _ Eys) as [L E]. split; [simpl; now f_equal|].
      intros [|j] Hj; simpl in *.
      * split; [lia | intros _; exact Ey].
      * destruct (E j ltac:(lia)) as [_ E2]. split; [lia|].
        intros _. apply E2. lia.
    + destruct (mapFromM f col row) as [ys| | | |] eqn:Eys; try discriminate.
      cbn [bind] in H. injection H as <-.
      destruct (IH _ _ Eys) as [L E]. split; [simpl; now f_equal|].
      intros [|j] Hj; simpl in *.
      * split; [reflexivity | lia].
      * destruct (E j ltac:(lia)) as [E1 E2]. split; intros; [apply E1|apply E2]; lia.
Qed.

Lemma map2FromM_nth (f : Frac -> Frac -> outcome Frac) (d : Frac)
    (row : list Frac) :
  forall col other row',
    map2FromM f col row other = Returned row' ->
    length row' = length row /\
    forall j, (j < length row)%nat ->
      ((j < col)%nat -> nth j row' d = nth j row d) /\
      ((col <= j)%nat ->
       f (nth j row d) (nth j other zeroFrac) = Returned (nth j row' d)).
Proof.
  induction row as [|x row IH]; intros col other row' H; simpl in H.
  - injection H as <-. split; [reflexivity|]. simpl. intros; lia.
  - assert (Hnth : forall j, nth j (tl other) zeroFrac
                             = nth (S j) other zeroFrac).
    { intros j. destruct other; [destruct j|]; reflexivity. }
    assert (Hhd : hd zeroFrac other = nth 0 other zeroFrac)
      by (destruct other; reflexivity).
    destruct col as [|col].
    + destruct (f x (hd zeroFrac other)) as [y| | | |] eqn:Ey; try discriminate.
      cbn [bind] in H.
      destruct (map2FromM f 0 row (tl other)) as [ys| | | |] eqn:Eys;
        try discriminate.
      cbn [bind] in H. injection H as <-.
      destruct (IH _ _ _ Eys) as [L E]. split; [simpl; now f_equal|].
      intros [|j] Hj; simpl nth; simpl in Hj.
      * split; [lia | intros _; now rewrite <- Hhd].
      * destruct (E j ltac:(lia)) as [_ E2]. split; [lia|].
        intros _. rewrite <- Hnth. apply E2. lia.
    + destruct (map2FromM f col row (tl other)) as [ys| | | |] eqn:Eys;
        try discriminate.
      cbn [bind] in H. injection H as <-.
      destruct (IH _ _ _ Eys) as [L E]. split; [simpl; now f_equal|].
      intros [|j] Hj; simpl nth; simpl in Hj.
      * split; [reflexivity | lia].
      * destruct (E j ltac:(lia)) as [E1 E2].
        split; intros; [apply E1 | rewrite <- Hnth; apply E2]; lia.
Qed.

(** ** Linear forms *)

Lemma dotQ_combine (a c : Q) (y : list Q) (u : list Frac) :
  forall v w,
    length v = length u -> length w = length u ->
    (forall j, (j < length u)%nat ->
       (value (nth j u zeroFrac)
        == a * value (nth j v zeroFrac) + c * value (nth j w zeroFrac))%Q) ->
    (dotQ u y == a * dotQ v y + c * dotQ w y)%Q.
Proof.
  revert y. induction u as [|f u IH]; intros y v w Hv Hw H.
  - destruct v; [|discriminate]. destruct w; [|discriminate]. simpl. ring.
  - destruct v as [|g v]; [discriminate|]. destruct w as [|h w]; [discriminate|].
    destruct y as [|q y]; simpl; [ring|].
    rewrite (IH y v w); try (simpl in *; lia).
    + pose proof (H 0%nat ltac:(simpl; lia)) as H0. simpl in H0.
      rewrite H0. ring.
    + intros j Hj. apply (H (S j)). simpl. lia.
Qed.

Lemma dotQ_zero (u : list Frac) (y : list Q) :
  (forall j, (j < length u)%nat -> num (nth j u zeroFrac) = 0) ->
  (dotQ u y == 0)%Q.
Proof.
  revert y. induction u as [|f u IH]; intros y H; [reflexivity|].
  destruct y as [|q y]; [reflexivity|]. simpl.
  rewrite IH by (intros j Hj; apply (H (S j)); simpl; lia).
  pose proof (H 0%nat ltac:(simpl; lia)) as H0. simpl in H0.
  assert (E : (value f == 0)%Q) by (unfold value, Qeq; simpl; lia).
  rewrite E. ring.
Qed.

Lemma dotQ_single (u : list Frac) :
  forall (y : list Q) (c : nat),
    (c < length u)%nat -> length y = length u ->
    (forall j, (j < length u)%nat -> j <> c ->
               (value (nth j u zeroFrac) * nth j y 0 == 0)%Q) ->
    (dotQ u y == value (nth c u zeroFrac) * nth c y 0)%Q.
Proof.
  induction u as [|f u IH]; intros y c Hc Hy H; [simpl in Hc; lia|].
  destruct y as [|q y]; [discriminate|]. simpl in Hc, Hy. simpl dotQ.
  destruct c as [|c]; simpl nth.
  - assert (E : (dotQ u y == 0)%Q).
    { clear IH Hc. revert y Hy H.
      induction u as [|g u IHu]; intros y Hy H; [reflexivity|].
      destruct y as [|q' y]; [reflexivity|]. simpl.
      rewrite IHu.
      - pose proof (H 1%nat ltac:(simpl; lia) ltac:(lia)) as H1.
        simpl in H1. rewrite H1. ring.
      - simpl in Hy. lia.
      - intros [|j] Hj Hne; [congruence|].
        apply (H (S (S j))); simpl in *; lia. }
    rewrite E. ring.
  - rewrite (IH y c) by
      (try lia; intros j Hj Hne; apply (H (S j)); simpl; lia).
    pose proof (H 0%nat ltac:(simpl; lia) ltac:(lia)) as H0. simpl in H0.
    rewrite H0. ring.
Qed.

(** ** One row, all rows, one column *)

Lemma eliminateRow_entries (col : nat) (pivRow : list Frac) (pivb : Frac)
    (Br Br' : list Frac) (br br' : Frac) :
  Forall wfFrac pivRow -> wfFrac pivb -> Forall wfFrac Br -> wfFrac br ->
  eliminateRow col pivRow pivb Br br = Returned (Br', br') ->
  length Br' = length Br /\ Forall wfFrac Br' /\ wfFrac br' /\
  (forall j, (j < length Br)%nat ->
     ((j < col)%nat -> nth j Br' zeroFrac = nth j Br zeroFrac) /\
     ((col <= j)%nat ->
      (value (nth j Br' zeroFrac)
       == value (nth j Br zeroFrac)
          - value (nth col Br zeroFrac) * value (nth j pivRow zeroFrac))%Q)) /\
  (value br' == value br - value (nth col Br zeroFrac) * value pivb)%Q.
Proof.
  intros Hp Hpb HB Hb. unfold eliminateRow.
  set (factor := nth col Br zeroFrac).
  assert (Hf : wfFrac factor)
    by (apply nth_Forall; [exact HB | apply zeroFrac_wf]).
  destruct (Z.eqb_spec (num factor) 0) as [Ez|Ez].
  { intros [= <- <-].
    assert (E0 : (value factor == 0)%Q) by now apply value_zero.
    repeat split; try assumption.
    - intros _. rewrite E0. ring.
    - rewrite E0. ring. }
  destruct (map2FromM _ col Br pivRow) as [Br1| | | |] eqn:E1; try discriminate.
  cbn [bind].
  destruct (fMul factor pivb) as [t| | | |] eqn:Et; try discriminate.
  cbn [bind].
  destruct (fSub br t) as [br1| | | |] eqn:E3; try discriminate.
  cbn [bind]. intros [= <- <-].
  destruct (map2FromM_nth _ zeroFrac _ _ _ _ E1) as [L E].
  assert (Hent : forall j, (j < length Br)%nat -> (col <= j)%nat ->
            wfFrac (nth j Br1 zeroFrac) /\
            (value (nth j Br1 zeroFrac)
             == value (nth j Br zeroFrac)
                - value factor * value (nth j pivRow zeroFrac))%Q).
  { intros j Hj Hc. destruct (E j Hj) as [_ E2]. specialize (E2 Hc).
    cbv beta in E2.
    destruct (fMul factor (nth j pivRow zeroFrac)) as [t'| | | |] eqn:Et';
      try discriminate.
    cbn [bind] in E2.
    assert (Wp : wfFrac (nth j pivRow zeroFrac))
      by (apply nth_Forall; [exact Hp | apply zeroFrac_wf]).
    assert (Wx : wfFrac (nth j Br zeroFrac))
      by (apply nth_Forall; [exact HB | apply zeroFrac_wf]).
    destruct (fMul_value _ _ _ Hf Wp Et') as [Wt Vt].
    destruct (fSub_value _ _ _ Wx Wt E2) as [Wr Vr].
    split; [exact Wr|]. rewrite Vr, Vt. reflexivity. }
  destruct (fMul_value _ _ _ Hf Hpb Et) as [Wt Vt].
  destruct (fSub_value _ _ _ Hb Wt E3) as [Wr Vr].
  split; [exact L|]. split; [|split; [exact Wr|split]].
  - apply Forall_forall. intros x Hx.
    destruct (In_nth _ _ zeroFrac Hx) as (j & Hj & <-).
    rewrite L in Hj.
    destruct (Nat.lt_ge_cases j col) as [Hlt|Hge].
    + destruct (E j Hj) as [E1' _]. rewrite (E1' Hlt).
      apply nth_Forall; [exact HB | apply zeroFrac_wf].
    + now apply Hent.
  - intros j Hj. split.
    + intros Hlt. now apply (E j Hj).
    + intros Hge. now apply Hent.
  - rewrite Vr, Vt. reflexivity.
Qed.

Lemma eliminateRows_nth (col row : nat) (pivRow : list Frac) (pivb : Frac) :
  forall Bs bs r0 Bs' bs',
    length Bs = length bs ->
    eliminateRows col row pivRow pivb r0 Bs bs = Returned (Bs', bs') ->
    length Bs' = length Bs /\ length bs' = length bs /\
    forall i, (i < length Bs)%nat ->
      (if Nat.eqb (r0 + i) row
       then Returned (nth i Bs [], nth i bs zeroFrac)
       else eliminateRow col pivRow pivb (nth i Bs []) (nth i bs zeroFrac))
      = Returned (nth i Bs' [], nth i bs' zeroFrac).
Proof.
  induction Bs as [|Br Bs IH]; intros bs r0 Bs' bs' Hlen H.
  - simpl in H. injection H as <- <-. destruct bs; [|discriminate].
    repeat split. simpl. intros; lia.
  - destruct bs as [|br bs]; [discriminate|]. cbn [eliminateRows] in H.
    destruct (if Nat.eqb r0 row then Returned (Br, br)
              else eliminateRow col pivRow pivb Br br)
      as [[Br1 br1]| | | |] eqn:E1; try discriminate.
    cbn [bind] in H.
    destruct (eliminateRows col row pivRow pivb (S r0) Bs bs)
      as [[Bs1 bs1]| | | |] eqn:E2; try discriminate.
    cbn [bind] in H. injection H as <- <-.
    simpl in Hlen.
    destruct (IH bs (S r0) Bs1 bs1 ltac:(lia) E2) as (L1 & L2 & E).
    split; [simpl; lia|]. split; [simpl; lia|].
    intros [|i] Hi; simpl nth.
    + now rewrite Nat.add_0_r.
    + replace (r0 + S i)%nat with (S r0 + i)%nat by lia.
      apply E. simpl in Hi. lia.
Qed.


Lemma Forall_nth_len {X} (P : X -> Prop) (l : list X) (d : X) :
  (forall i, (i < length l)%nat -> P (nth i l d)) -> Forall P l.
Proof.
  intros H. apply Forall_forall. intros x Hx.
  destruct (In_nth _ _ d Hx) as (i & Hi & <-). now apply H.
Qed.

Lemma nth_Forall_lt {X} (P : X -> Prop) (l : list X) (i : nat) (d : X) :
  Forall P l -> (i < length l)%nat -> P (nth i l d).
Proof.
  intros H Hi. rewrite Forall_forall in H. apply H. now apply nth_In.
Qed.

(** What one iteration that finds a pivot makes of the system: the pivot
    row divided by the pivot, and every other row minus its entry in the
    column times the new pivot row; left of the column nothing changes but
    the places of the two rows swapped. *)
Lemma eliminateCol_step (m nvars col : nat) (st : ElimState) :
  length (B st) = m -> length (b st) = m ->
  Forall (fun r => length r = nvars) (B st) ->
  Forall (Forall wfFrac) (B st) -> Forall wfFrac (b st) ->
  (row st < m)%nat ->
  findPivot (skipn (row st) (B st)) (row st) col <> m ->
  let pivot := findPivot (skipn (row st) (B st)) (row st) col in
  let sigma r :=
    if Nat.eqb r (row st) then pivot
    else if Nat.eqb r pivot then row st else r in
  exists B3 b3,
    eliminateCol m col st
    = Returned (mkElim B3 b3 (S (row st))
                  (update (pivotRowForCol st) col (Some (row st)))) /\
    length B3 = m /\ length b3 = m /\
    Forall (fun r => length r = nvars) B3 /\
    Forall (Forall wfFrac) B3 /\ Forall wfFrac b3 /\
    (row st <= pivot < m)%nat /\
    num (entryF (B st) pivot col) <> 0 /\
    (forall j, (j < nvars)%nat ->
       ((j < col)%nat -> entryF B3 (row st) j = entryF (B st) pivot j) /\
       ((col <= j)%nat ->
        (value (entryF B3 (row st) j)
         == value (entryF (B st) pivot j)
            / value (entryF (B st) pivot col))%Q)) /\
    (value (nth (row st) b3 zeroFrac)
     == value (nth pivot (b st) zeroFrac)
        / value (entryF (B st) pivot col))%Q /\
    (forall r, (r < m)%nat -> r <> row st ->
       (forall j, (j < nvars)%nat ->
          ((j < col)%nat -> entryF B3 r j = entryF (B st) (sigma r) j) /\
          ((col <= j)%nat ->
           (value (entryF B3 r j)
            == value (entryF (B st) (sigma r) j)
               - value (entryF (B st) (sigma r) col)
                 * value (entryF B3 (row st) j))%Q)) /\
       (value (nth r b3 zeroFrac)
        == value (nth (sigma r) (b st) zeroFrac)
           - value (entryF (B st) (sigma r) col)
             * value (nth (row st) b3 zeroFrac))%Q).
Proof.
  intros LB Lb Hw WB Wb Hrow Hne pivot sigma.
  destruct (findPivot_skipn (B st) (row st) col) as [Hlt Hnum]; [lia | lia |].
  destruct (findPivot_spec col (skipn (row st) (B st)) (row st)) as [[Hle _] _].
  fold pivot in Hlt, Hnum, Hle, Hne.
  unfold eliminateCol. fold pivot.
  destruct (Nat.eqb_spec pivot m) as [E|_]; [contradiction|].
  set (B1 := swap [] (B st) pivot (row st)).
  set (b1 := swap zeroFrac (b st) pivot (row st)).
  assert (LB1 : length B1 = m) by (unfold B1; now rewrite swap_length).
  assert (Lb1 : length b1 = m) by (unfold b1; now rewrite swap_length).
  assert (EB1 : forall k, nth k B1 [] = nth (sigma k) (B st) []).
  { intros k. unfold B1. apply swap_nth_all; lia. }
  assert (Eb1 : forall k, nth k b1 zeroFrac = nth (sigma k) (b st) zeroFrac).
  { intros k. unfold b1. apply swap_nth_all; lia. }
  assert (Srow : sigma (row st) = pivot)
    by (unfold sigma; now rewrite Nat.eqb_refl).
  assert (Slt : forall k, (k < m)%nat -> (sigma k < m)%nat).
  { intros k Hk. unfold sigma.
    destruct (Nat.eqb k (row st)); [lia|]. destruct (Nat.eqb k pivot); lia. }
  assert (WB1 : Forall (Forall wfFrac) B1)
    by (apply swap_Forall; [exact WB | constructor]).
  assert (Wb1 : Forall wfFrac b1)
    by (apply swap_Forall; [exact Wb | apply zeroFrac_wf]).
  assert (Hw1 : forall k, (k < m)%nat -> length (nth k B1 []) = nvars).
  { intros k Hk. rewrite EB1.
    apply (nth_Forall_lt (fun r => length r = nvars)); [exact Hw|].
    rewrite LB. now apply Slt. }
  set (piv := nth col (nth (row st) B1 []) zeroFrac).
  assert (Epiv : piv = entryF (B st) pivot col).
  { unfold piv, entryF. now rewrite EB1, Srow. }
  assert (Hpiv : num piv <> 0) by (rewrite Epiv; exact Hnum).
  assert (Wrow : Forall wfFrac (nth (row st) B1 []))
    by (apply nth_Forall; [exact WB1 | constructor]).
  assert (Wpiv : wfFrac piv)
    by (apply nth_Forall; [exact Wrow | apply zeroFrac_wf]).
  destruct (mapFromM_returns (fun x => fDiv x piv) (nth (row st) B1 []))
    with (col := col) as (Brow & E1 & W1 & L1); auto.
  { intros x Hx. now apply fDiv_wf. }
  destruct (fDiv_wf (nth (row st) b1 zeroFrac) piv) as (brow & E2 & W2); auto.
  { apply nth_Forall; [exact Wb1 | apply zeroFrac_wf]. }
  rewrite E1. cbn [bind]. rewrite E2. cbn [bind].
  destruct (eliminateRows_returns col (row st) Brow brow W1 W2
              (update B1 (row st) Brow) (update b1 (row st) brow) 0%nat)
    as (B3 & b3 & E3 & W3 & W4 & L3 & L4).
  { rewrite !update_length. lia. }
  { now apply update_Forall. }
  { now apply update_Forall. }
  rewrite E3. cbn [bind]. exists B3, b3.
  rewrite update_length in L3. rewrite update_length in L4.
  assert (Hl23 : length (update B1 (row st) Brow)
                 = length (update b1 (row st) brow))
    by (rewrite !update_length; lia).
  destruct (eliminateRows_nth _ _ _ _ _ _ _ _ _ Hl23 E3) as (_ & _ & Hrows).
  rewrite update_length in Hrows. cbn [Nat.add] in Hrows.
  assert (LBrow : length Brow = nvars) by (rewrite L1; now apply Hw1).
  destruct (mapFromM_nth _ zeroFrac _ _ _ E1) as [_ Erow].
  rewrite (Hw1 _ Hrow) in Erow.
  (* the pivot row of the result *)
  assert (H3row : nth (row st) B3 [] = Brow /\ nth (row st) b3 zeroFrac = brow).
  { specialize (Hrows (row st) ltac:(lia)). rewrite Nat.eqb_refl in Hrows.
    rewrite !update_nth_same in Hrows by lia.
    injection Hrows as <- <-. auto. }
  destruct H3row as [E3row E3b].
  assert (Hprow : forall j, (j < nvars)%nat ->
            ((j < col)%nat -> entryF B3 (row st) j = entryF (B st) pivot j) /\
            ((col <= j)%nat ->
             (value (entryF B3 (row st) j)
              == value (entryF (B st) pivot j)
                 / value (entryF (B st) pivot col))%Q)).
  { intros j Hj. unfold entryF at 1 3. rewrite E3row.
    destruct (Erow j Hj) as [Ea Eb]. split.
    - intros Hc. rewrite (Ea Hc). unfold entryF. now rewrite EB1, Srow.
    - intros Hc. specialize (Eb Hc). cbv beta in Eb.
      apply fDiv_value in Eb; [|apply nth_Forall; [exact Wrow|apply zeroFrac_wf]
                               |exact Wpiv].
      destruct Eb as (_ & _ & V). rewrite V, Epiv.
      unfold entryF. now rewrite EB1, Srow. }
  assert (Hpb : (value (nth (row st) b3 zeroFrac)
                 == value (nth pivot (b st) zeroFrac)
                    / value (entryF (B st) pivot col))%Q).
  { rewrite E3b.
    apply fDiv_value in E2; [|apply nth_Forall; [exact Wb1|apply zeroFrac_wf]
                             |exact Wpiv].
    destruct E2 as (_ & _ & V). rewrite V, Epiv, Eb1, Srow. reflexivity. }
  (* the other rows *)
  assert (Hother : forall r, (r < m)%nat -> r <> row st ->
            eliminateRow col Brow brow (nth (sigma r) (B st) [])
              (nth (sigma r) (b st) zeroFrac)
            = Returned (nth r B3 [], nth r b3 zeroFrac)).
  { intros r Hr Hne'. specialize (Hrows r ltac:(lia)).
    replace (Nat.eqb r (row st)) with false in Hrows
      by (symmetry; now apply Nat.eqb_neq).
    rewrite !update_nth_other in Hrows by congruence.
    now rewrite EB1, Eb1 in Hrows. }
  assert (WBk : forall k, Forall wfFrac (nth k (B st) []))
    by (intros k; apply nth_Forall; [exact WB | constructor]).
  assert (Wbk : forall k, wfFrac (nth k (b st) zeroFrac))
    by (intros k; apply nth_Forall; [exact Wb | apply zeroFrac_wf]).
  assert (Lsig : forall r, (r < m)%nat ->
                           length (nth (sigma r) (B st) []) = nvars).
  { intros r Hr.
    apply (nth_Forall_lt (fun r => length r = nvars)); [exact Hw|].
    rewrite LB. now apply Slt. }
  assert (Hwid : Forall (fun r => length r = nvars) B3).
  { apply (Forall_nth_len _ _ []). rewrite L3, LB1. intros i Hi.
    destruct (Nat.eq_dec i (row st)) as [->|Hne'].
    - now rewrite E3row.
    - destruct (eliminateRow_entries _ _ _ _ _ _ _ W1 W2 (WBk _) (Wbk _)
                  (Hother i Hi Hne')) as (L & _).
      rewrite L. now apply Lsig. }
  split; [reflexivity|].
  split; [lia|]. split; [lia|]. split; [exact Hwid|].
  split; [exact W3|]. split; [exact W4|]. split; [lia|].
  split; [exact Hnum|]. split; [exact Hprow|]. split; [exact Hpb|].
  intros r Hr Hne'.
  destruct (eliminateRow_entries _ _ _ _ _ _ _ W1 W2 (WBk _) (Wbk _)
              (Hother r Hr Hne')) as (L & _ & _ & Hent & Hb3).
  rewrite (Lsig r Hr) in Hent. split.
  - intros j Hj. destruct (Hent j Hj) as [Ha Hb]. split.
    + intros Hc. unfold entryF. now apply Ha.
    + intros Hc. unfold entryF. rewrite E3row. now apply Hb.
  - rewrite E3b. exact Hb3.
Qed.

Lemma findPivot_all_zero (col : nat) (rows : list (list Frac)) :
  forall p,
    findPivot rows p col = (p + length rows)%nat ->
    forall i, (i < length rows)%nat ->
              num (nth col (nth i rows []) zeroFrac) = 0.
Proof.
  induction rows as [|r rows IH]; intros p H i Hi; simpl in *; [lia|].
  destruct (Z.eqb_spec (num (nth col r zeroFrac)) 0) as [E|E]; [|lia].
  destruct i as [|i]; [exact E|].
  apply (IH (S p)); lia.
Qed.

Lemma entry_wf (Bm : list (list Frac)) (r c : nat) :
  Forall (Forall wfFrac) Bm -> wfFrac (entryF Bm r c).
Proof.
  intros H. unfold entryF.
  apply nth_Forall; [|apply zeroFrac_wf].
  apply nth_Forall; [exact H | constructor].
Qed.

Lemma value_nonzero (f : Frac) :
  wfFrac f -> num f <> 0 -> ~ (value f == 0)%Q.
Proof. intros Hf Hn E. apply (value_zero f Hf) in E. contradiction. Qed.

(** The system after the step has the solutions of the system before. *)
Lemma step_same_solutions (m nvars col rw pivot : nat)
    (Bm B3 : list (list Frac)) (bv b3 : list Frac) (y : list Q) :
  let sigma r :=
    if Nat.eqb r rw then pivot else if Nat.eqb r pivot then rw else r in
  length Bm = m -> length B3 = m ->
  Forall (fun r => length r = nvars) Bm ->
  Forall (fun r => length r = nvars) B3 ->
  Forall (Forall wfFrac) Bm -> Forall (Forall wfFrac) B3 ->
  (rw <= pivot < m)%nat ->
  num (entryF Bm pivot col) <> 0 ->
  (forall j, (j < col)%nat -> num (entryF Bm pivot j) = 0) ->
  (forall j, (j < nvars)%nat ->
     ((j < col)%nat -> entryF B3 rw j = entryF Bm pivot j) /\
     ((col <= j)%nat ->
      (value (entryF B3 rw j)
       == value (entryF Bm pivot j) / value (entryF Bm pivot col))%Q)) ->
  (value (nth rw b3 zeroFrac)
   == value (nth pivot bv zeroFrac) / value (entryF Bm pivot col))%Q ->
  (forall r, (r < m)%nat -> r <> rw ->
     (forall j, (j < nvars)%nat ->
        ((j < col)%nat -> entryF B3 r j = entryF Bm (sigma r) j) /\
        ((col <= j)%nat ->
         (value (entryF B3 r j)
          == value (entryF Bm (sigma r) j)
             - value (entryF Bm (sigma r) col) * value (entryF B3 rw j))%Q)) /\
     (value (nth r b3 zeroFrac)
      == value (nth (sigma r) bv zeroFrac)
         - value (entryF Bm (sigma r) col) * value (nth rw b3 zeroFrac))%Q) ->
  (satisfies y B3 b3 <-> satisfies y Bm bv).
Proof.
  intros sigma LB L3 Hw Hw3 WB W3 Hpiv Hnum Hzero Hprow Hpb Hother.
  set (p := value (entryF Bm pivot col)) in *.
  assert (Hp : ~ (p == 0)%Q) by (apply value_nonzero; [now apply entry_wf|exact Hnum]).
  assert (Hlen : forall (M0 : list (list Frac)) r,
             Forall (fun r => length r = nvars) M0 -> (r < length M0)%nat ->
             length (nth r M0 []) = nvars).
  { intros M0 r HM Hr.
    now apply (nth_Forall_lt (fun r => length r = nvars)). }
  assert (Slt : forall k, (k < m)%nat -> (sigma k < m)%nat).
  { intros k Hk. unfold sigma.
    destruct (Nat.eqb k rw); [lia|]. destruct (Nat.eqb k pivot); lia. }
  assert (Sinv : forall k, sigma (sigma k) = k).
  { intros k. unfold sigma.
    destruct (Nat.eqb_spec k rw) as [->|H1].
    - destruct (Nat.eqb_spec pivot rw) as [E|H2]; [exact E|].
      now rewrite Nat.eqb_refl.
    - destruct (Nat.eqb_spec k pivot) as [->|H2].
      + now rewrite Nat.eqb_refl.
      + destruct (Nat.eqb_spec k rw); [contradiction|].
        destruct (Nat.eqb_spec k pivot); [contradiction | reflexivity]. }
  assert (Srow : sigma rw = pivot) by (unfold sigma; now rewrite Nat.eqb_refl).
  assert (Zrow : forall j, (j < col)%nat -> (j < nvars)%nat ->
                           (value (entryF B3 rw j) == 0)%Q).
  { intros j Hj Hn. destruct (Hprow j Hn) as [E _]. rewrite (E Hj).
    apply value_zero; [now apply entry_wf | now apply Hzero]. }
  (* the pivot row *)
  assert (Drow : (dotQ (nth rw B3 []) y
                  == / p * dotQ (nth pivot Bm []) y
                     + 0 * dotQ (nth pivot Bm []) y)%Q).
  { apply dotQ_combine.
    - rewrite !Hlen; auto; lia.
    - rewrite !Hlen; auto; lia.
    - rewrite Hlen by (auto; lia). intros j Hj.
      change (nth j (nth rw B3 []) zeroFrac) with (entryF B3 rw j).
      change (nth j (nth pivot Bm []) zeroFrac) with (entryF Bm pivot j).
      destruct (Nat.lt_ge_cases j col) as [Hlt|Hge].
      + rewrite (Zrow j Hlt Hj).
        assert (E : (value (entryF Bm pivot j) == 0)%Q)
          by (apply value_zero; [now apply entry_wf | now apply Hzero]).
        rewrite E. ring.
      + destruct (Hprow j Hj) as [_ E]. rewrite (E Hge). fold p.
        unfold Qdiv. ring. }
  (* the other rows *)
  assert (Doth : forall r, (r < m)%nat -> r <> rw ->
            (dotQ (nth r B3 []) y
             == 1 * dotQ (nth (sigma r) Bm []) y
                + - value (entryF Bm (sigma r) col)
                  * dotQ (nth rw B3 []) y)%Q).
  { intros r Hr Hne. apply dotQ_combine.
    - rewrite !Hlen; auto; try lia. rewrite LB. now apply Slt.
    - rewrite !Hlen; auto; lia.
    - rewrite Hlen by (auto; lia). intros j Hj.
      change (nth j (nth r B3 []) zeroFrac) with (entryF B3 r j).
      change (nth j (nth (sigma r) Bm []) zeroFrac)
        with (entryF Bm (sigma r) j).
      change (nth j (nth rw B3 []) zeroFrac) with (entryF B3 rw j).
      destruct (Hother r Hr Hne) as [Hent _].
      destruct (Nat.lt_ge_cases j col) as [Hlt|Hge].
      + destruct (Hent j Hj) as [E _]. rewrite (E Hlt).
        rewrite (Zrow j Hlt Hj). ring.
      + destruct (Hent j Hj) as [_ E]. rewrite (E Hge). ring. }
  unfold satisfies. rewrite L3, LB. split.
  - intros Hs r Hr.
    assert (Epiv : (dotQ (nth pivot Bm []) y
                    == value (nth pivot bv zeroFrac))%Q).
    { pose proof (Hs rw ltac:(lia)) as H1. rewrite Drow, Hpb in H1.
      fold p in H1.
      assert (H2 : (p * (/ p * dotQ (nth pivot Bm []) y
                         + 0 * dotQ (nth pivot Bm []) y)
                    == p * (value (nth pivot bv zeroFrac) / p))%Q)
        by (rewrite H1; reflexivity).
      rewrite <- (Qmult_div_r (value (nth pivot bv zeroFrac)) p) by exact Hp.
      rewrite <- H2. field. exact Hp. }
    destruct (Nat.eq_dec r pivot) as [->|Hrp]; [exact Epiv|].
    assert (Hsr : sigma r <> rw).
    { intros E. apply Hrp. rewrite <- (Sinv r), E. exact Srow. }
    pose proof (Hs (sigma r) (Slt r Hr)) as H1.
    rewrite (Doth (sigma r) (Slt r Hr) Hsr) in H1.
    destruct (Hother (sigma r) (Slt r Hr) Hsr) as [_ Hb].
    rewrite Hb in H1. rewrite (Sinv r) in H1.
    pose proof (Hs rw ltac:(lia)) as H2. rewrite H2 in H1.
    lra.
  - intros Hs r Hr.
    assert (Erow : (dotQ (nth rw B3 []) y == value (nth rw b3 zeroFrac))%Q).
    { rewrite Drow, Hpb. fold p. rewrite (Hs pivot ltac:(lia)).
      field. exact Hp. }
    destruct (Nat.eq_dec r rw) as [->|Hne]; [exact Erow|].
    rewrite (Doth r Hr Hne).
    destruct (Hother r Hr Hne) as [_ Hb]. rewrite Hb.
    rewrite (Hs (sigma r) (Slt r Hr)), Erow. ring.
Qed.

(** One iteration of the loop keeps the invariant. *)
Lemma eliminateCol_inv (m nvars col : nat) (B0 : list (list Frac))
    (b0 : list Frac) (st : ElimState) :
  ElimInv m nvars B0 b0 col st ->
  (row st < m)%nat -> (col < nvars)%nat ->
  exists st',
    eliminateCol m col st = Returned st' /\
    ElimInv m nvars B0 b0 (S col) st'.
Proof.
  intros [LB Lb Hw Lp WB Wb Hz Hp Hd Hc Hs] Hrow Hcol.
  destruct (Nat.eq_dec (findPivot (skipn (row st) (B st)) (row st) col) m)
    as [Em|Nm].
  - exists st. split.
    { unfold eliminateCol. rewrite Em, Nat.eqb_refl. reflexivity. }
    constructor; try assumption.
    + intros r j Hr Hj.
      destruct (Nat.eq_dec j col) as [->|Hne]; [|apply Hz; lia].
      pose proof (findPivot_all_zero col (skipn (row st) (B st)) (row st))
        as Hall.
      rewrite length_skipn, LB in Hall.
      specialize (Hall ltac:(lia) (r - row st)%nat ltac:(lia)).
      rewrite nth_skipn in Hall.
      replace (row st + (r - row st))%nat with r in Hall by lia.
      exact Hall.
    + intros c r Hcr. destruct (Hp c r Hcr) as (H1 & H2). split; [lia|exact H2].
  - destruct (eliminateCol_step m nvars col st LB Lb Hw WB Wb Hrow Nm)
      as (B3 & b3 & E & L3 & L4 & Hw3 & W3 & W4 & Hpv & Hnum & Hprow & Hpb
          & Hother).
    set (pivot := findPivot (skipn (row st) (B st)) (row st) col) in *.
    set (sigma := fun r => if Nat.eqb r (row st) then pivot
                           else if Nat.eqb r pivot then row st else r) in *.
    assert (Sfix : forall r, (r < row st)%nat -> sigma r = r).
    { intros r Hr. unfold sigma.
      destruct (Nat.eqb_spec r (row st)); [lia|].
      destruct (Nat.eqb_spec r pivot); [lia | reflexivity]. }
    assert (Sge : forall r, (row st <= r)%nat -> (row st <= sigma r)%nat).
    { intros r Hr. unfold sigma.
      destruct (Nat.eqb r (row st)); [lia|].
      destruct (Nat.eqb r pivot); lia. }
    assert (Slt : forall r, (r < m)%nat -> (sigma r < m)%nat).
    { intros r Hr. unfold sigma.
      destruct (Nat.eqb r (row st)); [lia|].
      destruct (Nat.eqb r pivot); lia. }
    assert (Sne : forall r r0, (r0 < row st)%nat -> r <> r0 -> sigma r <> r0).
    { intros r r0 Hr0 Hne. unfold sigma.
      destruct (Nat.eqb_spec r (row st)); [lia|].
      destruct (Nat.eqb_spec r pivot); [lia | exact Hne]. }
    unfold sigma in Sfix, Sge, Slt, Sne. cbv beta in Sfix, Sge, Slt, Sne.
    assert (Hone : (value (entryF B3 (row st) col) == 1)%Q).
    { destruct (Hprow col Hcol) as [_ H]. rewrite (H (Nat.le_refl _)).
      apply value_self_div; [now apply entry_wf | exact Hnum]. }
    assert (Hcolzero : forall r, (r < m)%nat -> r <> row st ->
                                 num (entryF B3 r col) = 0).
    { intros r Hr Hne. destruct (Hother r Hr Hne) as [Hent _].
      destruct (Hent col Hcol) as [_ H]. specialize (H (Nat.le_refl _)).
      apply value_zero; [now apply entry_wf|].
      rewrite H, Hone. ring. }
    exists (mkElim B3 b3 (S (row st))
              (update (pivotRowForCol st) col (Some (row st)))).
    split; [exact E|].
    constructor; cbn [B b row pivotRowForCol]; try assumption.
    + now rewrite update_length.
    + (* zero block *)
      intros r j Hr Hj.
      destruct (Nat.eq_dec j col) as [->|Hne]; [apply Hcolzero; lia|].
      destruct (Hother r ltac:(lia) ltac:(lia)) as [Hent _].
      destruct (Hent j ltac:(lia)) as [H _]. rewrite H by lia.
      apply Hz; [|lia]. split; [apply Sge; lia | apply Slt; lia].
    + (* pivot columns *)
      intros c r Hcr.
      destruct (Nat.eq_dec c col) as [->|Hne].
      * rewrite update_nth_same in Hcr by lia. injection Hcr as <-.
        split; [lia|]. split; [lia|]. split; [lia|]. split; [exact Hone|].
        intros r' Hr' Hne'. now apply Hcolzero.
      * rewrite update_nth_other in Hcr by congruence.
        destruct (Hp c r Hcr) as (H1 & H2 & H3 & H4 & H5).
        split; [lia|]. split; [lia|]. split; [lia|]. split.
        -- destruct (Hother r H3 ltac:(lia)) as [Hent _].
           destruct (Hent c ltac:(lia)) as [H _]. rewrite H by lia.
           now rewrite Sfix.
        -- intros r' Hr' Hne'.
           destruct (Nat.eq_dec r' (row st)) as [->|Hnr].
           ++ destruct (Hprow c ltac:(lia)) as [H _]. rewrite H by lia.
              apply H5; lia.
           ++ destruct (Hother r' Hr' Hnr) as [Hent _].
              destruct (Hent c ltac:(lia)) as [H _]. rewrite H by lia.
              apply H5; [now apply Slt | now apply Sne].
    + (* distinct pivot rows *)
      intros c c' r H1 H2.
      destruct (Nat.eq_dec c col) as [->|Hne];
        destruct (Nat.eq_dec c' col) as [->|Hne']; [reflexivity| | |].
      * rewrite update_nth_same in H1 by lia. injection H1 as <-.
        rewrite update_nth_other in H2 by congruence.
        destruct (Hp c' _ H2) as (_ & H & _). lia.
      * rewrite update_nth_same in H2 by lia. injection H2 as <-.
        rewrite update_nth_other in H1 by congruence.
        destruct (Hp c _ H1) as (_ & H & _). lia.
      * rewrite update_nth_other in H1, H2 by congruence.
        now apply (Hd c c' r).
    + (* every row above is a pivot row *)
      intros r Hr.
      destruct (Nat.eq_dec r (row st)) as [->|Hne].
      * exists col. apply update_nth_same. lia.
      * destruct (Hc r ltac:(lia)) as (c & Hcr). exists c.
        destruct (Hp c r Hcr) as (H & _).
        rewrite update_nth_other by lia. exact Hcr.
    + (* the solutions *)
      intros y Hy. rewrite <- (Hs y Hy).
      apply (step_same_solutions m nvars col (row st) pivot); auto.
Qed.

Lemma eliminateCols_inv (m nvars : nat) (B0 : list (list Frac))
    (b0 : list Frac) :
  forall k col st,
    (col + k = nvars)%nat ->
    ElimInv m nvars B0 b0 col st ->
    exists st',
      eliminateCols m (seq col k) st = Returned st' /\
      ElimInv m nvars B0 b0 nvars st'.
Proof.
  induction k as [|k IH]; intros col st Hk Hinv; simpl.
  - exists st. split; [reflexivity|].
    assert (E : col = nvars) by lia. subst col. exact Hinv.
  - destruct (Nat.ltb_spec (row st) m) as [Hrow|Hrow].
    + destruct (eliminateCol_inv m nvars col B0 b0 st Hinv Hrow ltac:(lia))
        as (st1 & E1 & H1).
      rewrite E1. cbn [bind]. apply IH; [lia | exact H1].
    + exists st. split; [reflexivity|].
      destruct Hinv as [LB Lb Hw Lp WB Wb Hz Hp Hd Hc Hs].
      constructor; try assumption.
      * intros r j Hr _. lia.
      * intros c r Hcr. destruct (Hp c r Hcr) as (H1 & H2).
        split; [lia | exact H2].
Qed.

(** ** The vector read off the final state *)

Lemma mapM_nth {X Y} (f : X -> outcome Y) (dx : X) (dy : Y) (l : list X) :
  forall ys, mapM f l = Returned ys ->
    forall j, (j < length l)%nat -> f (nth j l dx) = Returned (nth j ys dy).
Proof.
  induction l as [|x l IH]; simpl; intros ys H j Hj; [lia|].
  destruct (f x) as [y| | | |] eqn:Ey; try discriminate. cbn [bind] in H.
  destruct (mapM f l) as [ys'| | | |] eqn:Eys; try discriminate.
  cbn [bind] in H. injection H as <-.
  destruct j as [|j]; [exact Ey|]. simpl. apply (IH ys' eq_refl). lia.
Qed.

Lemma mapM_pure {X Y} (f : X -> outcome Y) (g : X -> Y) (l : list X) :
  (forall x, f x = Returned (g x)) -> mapM f l = Returned (map g l).
Proof.
  intros H. induction l as [|x l IH]; simpl; [reflexivity|].
  now rewrite H, IH.
Qed.

Lemma rowSumQ_dotQ (z : list Q) :
  forall (Ai : list Z) (r : list Frac),
    length r = length z -> length Ai = S (length z) ->
    (forall j, (j < length z)%nat ->
               (value (nth j r zeroFrac) == inject_Z (nth j Ai 0%Z))%Q) ->
    (rowSumQ Ai (z ++ [1%Q])
     == dotQ r z + inject_Z (nth (length z) Ai 0%Z))%Q.
Proof.
  induction z as [|q z IH]; intros Ai r Hr HA H.
  - destruct r; [|discriminate].
    destruct Ai as [|a [|a' Ai]]; try discriminate. simpl. ring.
  - destruct r as [|f r]; [discriminate|].
    destruct Ai as [|a Ai]; [discriminate|].
    simpl in Hr, HA. cbn [app rowSumQ dotQ length nth].
    rewrite (IH Ai r) by
      (try lia; intros j Hj; apply (H (S j)); simpl; lia).
    pose proof (H 0%nat ltac:(simpl; lia)) as H0. simpl in H0.
    rewrite H0. ring.
Qed.

Lemma nth_repeat_None {X} (n c : nat) :
  nth c (repeat (@None X) n) None = None.
Proof.
  revert c; induction n as [|n IH]; intros [|c]; simpl; auto.
Qed.

(** The vector read off a final state solves the final system as soon as
    the system has a solution. *)
Lemma readOut_satisfies (m nvars : nat) (B0 : list (list Frac))
    (b0 : list Frac) (st : ElimState) (y : list Q) :
  ElimInv m nvars B0 b0 nvars st ->
  length y = nvars -> satisfies y (B st) (b st) ->
  satisfies (map (fun c => value (readOut st c)) (seq 0 nvars))
            (B st) (b st).
Proof.
  intros [LB Lb Hw Lp WB Wb Hz Hp Hd Hc Hs] Hy Hsat.
  set (xq := map (fun c => value (readOut st c)) (seq 0 nvars)).
  assert (Lx : length xq = nvars)
    by (unfold xq; now rewrite length_map, length_seq).
  assert (Ex : forall j, (j < nvars)%nat ->
                         nth j xq 0%Q = value (readOut st j)).
  { intros j Hj. unfold xq.
    now rewrite (nth_map_seq (fun c => value (readOut st c))). }
  intros r Hr. rewrite LB in Hr.
  assert (Lr : length (nth r (B st) []) = nvars).
  { apply (nth_Forall_lt (fun r => length r = nvars)); [exact Hw | lia]. }
  destruct (Nat.lt_ge_cases r (row st)) as [Hlt|Hge].
  - destruct (Hc r Hlt) as (c & Hcr).
    destruct (Hp c r Hcr) as (Hcn & _ & _ & Hone & Hcol).
    rewrite (dotQ_single _ xq c); try lia.
    + change (nth c (nth r (B st) []) zeroFrac) with (entryF (B st) r c).
      rewrite Hone, (Ex c Hcn). unfold readOut. rewrite Hcr. ring.
    + rewrite Lr. intros j Hj Hne. rewrite (Ex j Hj). unfold readOut.
      destruct (nth j (pivotRowForCol st) None) as [r'|] eqn:Ej.
      * assert (Hrr : r <> r').
        { intros <-. apply Hne. now apply (Hd j c r). }
        destruct (Hp j r' Ej) as (_ & _ & _ & _ & Hz').
        assert (E : (value (nth j (nth r (B st) []) zeroFrac) == 0)%Q).
        { apply value_zero.
          - apply (entry_wf (B st) r j WB).
          - apply (Hz' r); lia. }
        rewrite E. ring.
      * change (value zeroFrac) with 0%Q. ring.
  - assert (Hzero : forall j, (j < length (nth r (B st) []))%nat ->
                              num (nth j (nth r (B st) []) zeroFrac) = 0).
    { rewrite Lr. intros j Hj. apply (Hz r j); lia. }
    rewrite dotQ_zero by exact Hzero.
    rewrite <- (Hsat r ltac:(lia)).
    symmetry. now apply dotQ_zero.
Qed.

(** The system the elimination starts from is the system of the matrix
    with the last unknown at 1. *)
Lemma initial_system (A0 : list (list Z)) (nvars : nat)
    (B0 : list (list Frac)) (b0 : list Frac) (z : list Q) :
  Forall (fun Ai => length Ai = S nvars) A0 ->
  mapM (fun Ai => mapM (fun j => makeFrac (nth j Ai 0) 1) (seq 0 nvars)) A0
  = Returned B0 ->
  mapM (fun Ai => makeFrac (- nth nvars Ai 0) 1) A0 = Returned b0 ->
  length z = nvars ->
  (satisfies z B0 b0 <-> solves A0 (z ++ [1%Q])).
Proof.
  intros HA EB Eb Hz.
  pose proof (mapM_length _ _ _ EB) as LB.
  pose proof (mapM_length _ _ _ Eb) as Lb.
  assert (Hrow : forall i, (i < length A0)%nat ->
            (rowSumQ (nth i A0 []) (z ++ [1%Q])
             == dotQ (nth i B0 []) z - value (nth i b0 zeroFrac))%Q).
  { intros i Hi.
    pose proof (mapM_nth _ [] [] _ _ EB i Hi) as Ei. cbv beta in Ei.
    pose proof (mapM_nth _ [] zeroFrac _ _ Eb i Hi) as Ebi. cbv beta in Ebi.
    assert (LAi : length (nth i A0 []) = S nvars)
      by now apply (nth_Forall_lt (fun Ai => length Ai = S nvars)).
    rewrite (rowSumQ_dotQ z (nth i A0 []) (nth i B0 [])).
    - rewrite Hz. rewrite (value_int _ _ Ebi).
      rewrite inject_Z_opp. ring.
    - apply mapM_length in Ei. rewrite length_seq in Ei. lia.
    - lia.
    - intros j Hj.
      pose proof (mapM_nth _ 0%nat zeroFrac _ _ Ei j
                    ltac:(rewrite length_seq; lia)) as Ej.
      cbv beta in Ej. rewrite seq_nth in Ej by lia. simpl in Ej.
      now apply value_int. }
  unfold satisfies, solves. rewrite LB. split.
  - intros H. apply (Forall_nth_len _ _ []). intros i Hi.
    rewrite (Hrow i Hi), (H i Hi). ring.
  - intros H i Hi.
    pose proof (nth_Forall_lt _ _ i [] H Hi) as Hi'. cbv beta in Hi'.
    rewrite (Hrow i Hi) in Hi'. lra.
Qed.

Lemma initial_inv (A0 : list (list Z)) (nvars : nat)
    (B0 : list (list Frac)) (b0 : list Frac) :
  mapM (fun Ai => mapM (fun j => makeFrac (nth j Ai 0) 1) (seq 0 nvars)) A0
  = Returned B0 ->
  mapM (fun Ai => makeFrac (- nth nvars Ai 0) 1) A0 = Returned b0 ->
  ElimInv (length A0) nvars B0 b0 0 (mkElim B0 b0 0 (repeat None nvars)).
Proof.
  intros EB Eb.
  constructor; cbn [B b row pivotRowForCol].
  - now apply mapM_length in EB.
  - now apply mapM_length in Eb.
  - eapply mapM_Forall; [|exact EB]. intros Ai r Hr. cbv beta in Hr.
    apply mapM_length in Hr. now rewrite length_seq in Hr.
  - apply repeat_length.
  - eapply mapM_Forall; [|exact EB]. intros Ai r Hr. cbv beta in Hr.
    eapply mapM_Forall; [|exact Hr]. intros j f Hf.
    apply makeFrac_reduced in Hf. apply Hf.
  - eapply mapM_Forall; [|exact Eb]. intros Ai f Hf.
    apply makeFrac_reduced in Hf. apply Hf.
  - intros r j _ Hj. lia.
  - intros c r H. rewrite nth_repeat_None in H. discriminate.
  - intros c c' r H. rewrite nth_repeat_None in H. discriminate.
  - intros r Hr. lia.
  - intros y _. reflexivity.
Qed.

(** [solveRationalForLastColumn] as the read-out of the final state. *)
Lemma solveRationalForLastColumn_readOut (A0 : list (list Z)) :
  let n := length (hd [] A0) in
  (2 <= n)%nat ->
  exists B0 b0 st,
    mapM (fun Ai => mapM (fun j => makeFrac (nth j Ai 0) 1) (seq 0 (n - 1))) A0
    = Returned B0 /\
    mapM (fun Ai => makeFrac (- nth (n - 1) Ai 0) 1) A0 = Returned b0 /\
    ElimInv (length A0) (n - 1) B0 b0 (n - 1) st /\
    solveRationalForLastColumn A0
    = Returned (Some (map (readOut st) (seq 0 (n - 1)) ++ [mkFrac 1 1])).
Proof.
  intros n Hn. unfold solveRationalForLastColumn. fold n.
  destruct (Nat.leb_spec n 1) as [H|_]; [lia|].
  set (nvars := (n - 1)%nat).
  destruct (mapM_returns
              (fun Ai => mapM (fun j => makeFrac (nth j Ai 0) 1) (seq 0 nvars))
              (Forall wfFrac) A0) as (B0 & EB & _ & _).
  { intros Ai _.
    destruct (mapM_returns (fun j => makeFrac (nth j Ai 0) 1) wfFrac
                (seq 0 nvars)) as (r & Er & Wr & _).
    - intros j _. apply makeFrac_int.
    - exists r. auto. }
  destruct (mapM_returns (fun Ai => makeFrac (- nth nvars Ai 0) 1) wfFrac A0)
    as (b0 & Eb & _ & _).
  { intros Ai _. apply makeFrac_int. }
  rewrite EB. cbn [bind]. rewrite Eb. cbn [bind].
  destruct (eliminateCols_inv (length A0) nvars B0 b0 nvars 0%nat
              (mkElim B0 b0 0 (repeat None nvars)) ltac:(lia)
              (initial_inv A0 nvars B0 b0 EB Eb)) as (st & Est & Hinv).
  rewrite Est. cbn [bind].
  rewrite (mapM_pure _ (readOut st)).
  2:{ intros c. unfold readOut.
      destruct (nth c (pivotRowForCol st) None); reflexivity. }
  cbn [bind]. change (makeFrac 1 1) with (Returned (mkFrac 1 1)). cbn [bind].
  exists B0, b0, st. auto.
Qed.

Lemma solveRationalForLastColumn_solves (A0 : list (list Z)) (y : list Q) :
  let n := length (hd [] A0) in
  (2 <= n)%nat -> Forall (fun Ai => length Ai = n) A0 ->
  length y = (n - 1)%nat -> solves A0 (y ++ [1%Q]) ->
  exists x,
    solveRationalForLastColumn A0 = Returned (Some (x ++ [mkFrac 1 1])) /\
    length x = (n - 1)%nat /\ solves A0 (map value x ++ [1%Q]) /\
    Forall reduced x.
Proof.
  intros n Hn HA Hy Hsol.
  destruct (solveRationalForLastColumn_readOut A0 Hn)
    as (B0 & b0 & st & EB & Eb & Hinv & E).
  fold n in EB, Eb, Hinv, E.
  set (nvars := (n - 1)%nat) in *.
  assert (HA' : Forall (fun Ai => length Ai = S nvars) A0).
  { eapply Forall_impl; [|exact HA]. cbv beta. intros Ai ->. unfold nvars. lia. }
  assert (Lx : length (map (readOut st) (seq 0 nvars)) = nvars)
    by now rewrite length_map, length_seq.
  exists (map (readOut st) (seq 0 nvars)).
  split; [exact E|]. split; [exact Lx|]. split.
  - rewrite map_map.
    apply (initial_system A0 nvars B0 b0); auto.
    { now rewrite length_map, length_seq. }
    apply (inv_same _ _ _ _ _ _ Hinv).
    { now rewrite length_map, length_seq. }
    apply (readOut_satisfies (length A0) nvars B0 b0 st y Hinv Hy).
    apply (inv_same _ _ _ _ _ _ Hinv); [exact Hy|].
    now apply (initial_system A0 nvars B0 b0).
  - pose proof (solveRationalForLastColumn_reduced A0 _ E) as H.
    apply Forall_app in H. apply H.
Qed.


(** ** From the fractions to the coefficients *)

Lemma rowSumQ_ext (row : list Z) :
  forall y y', Forall2 Qeq y y' -> (rowSumQ row y == rowSumQ row y')%Q.
Proof.
  induction row as [|a row IH]; intros y y' H; [reflexivity|].
  destruct H as [|q q' y y' Hq Hy]; [reflexivity|].
  simpl. rewrite Hq, (IH y y' Hy). reflexivity.
Qed.

Lemma rowSumQ_scaled (t : Q) (row : list Z) :
  forall x,
    (rowSumQ row (map (fun xi => t * inject_Z xi) x)
     == t * inject_Z (rowSum row x))%Q.
Proof.
  induction row as [|a row IH]; intros [|xi x]; simpl; try ring.
  rewrite IH, inject_Z_plus, inject_Z_mult. ring.
Qed.

Lemma Forall2_map_both {X Y X' Y'} (R : X' -> Y' -> Prop) (f : X -> X')
    (g : Y -> Y') (l : list X) :
  forall l', Forall2 R (map f l) (map g l') ->
             Forall2 (fun a c => R (f a) (g c)) l l'.
Proof.
  induction l as [|a l IH]; intros [|c l'] H; simpl in H; inversion H; subst.
  - constructor.
  - constructor; auto.
Qed.

Lemma value_ratio (f : Frac) (xi xn : Z) :
  wfFrac f -> 0 < xn ->
  (value f == / inject_Z xn * inject_Z xi)%Q ->
  num f * xn = xi * den f.
Proof.
  unfold wfFrac. intros Hf Hxn H.
  assert (Hne : ~ (inject_Z xn == 0)%Q).
  { unfold Qeq, inject_Z. simpl. lia. }
  assert (E : (value f * inject_Z xn == inject_Z xi)%Q).
  { rewrite H. field. exact Hne. }
  unfold value, Qeq, Qmult, inject_Z in E. simpl in E.
  rewrite Pos.mul_1_r, Z2Pos.id in E by exact Hf. lia.
Qed.

Lemma proportional_divides (a' b' : Z) (vec x : list Z) :
  Z.gcd b' a' = 1 ->
  Forall2 (fun v xi => v * a' = xi * b') vec x ->
  Forall (fun v => (b' | v)) vec.
Proof.
  intros Hg. induction 1 as [|v xi vec x Hv H IH]; constructor; [|exact IH].
  apply Z.gauss with (m := a'); [|exact Hg].
  exists xi. lia.
Qed.

Lemma Forall2_flip {X Y} (R : X -> Y -> Prop) (l : list X) (l' : list Y) :
  Forall2 R l l' -> Forall2 (fun c a => R a c) l' l.
Proof. induction 1; constructor; auto. Qed.

(** Two lists of integers without common divisor that are proportional,
    with positive factors, are equal. *)
Lemma primitive_proportional (a c : Z) (vec x : list Z) :
  0 < a -> 0 < c ->
  Forall2 (fun v xi => v * a = xi * c) vec x ->
  primitive vec -> primitive x -> vec = x.
Proof.
  intros Ha Hc H Pv Px.
  pose proof (Z.gcd_nonneg a c) as Hg.
  assert (Hg0 : Z.gcd a c <> 0).
  { intros E. apply Z.gcd_eq_0 in E. lia. }
  destruct (Z.gcd_divide_l a c) as [a' Ea].
  destruct (Z.gcd_divide_r a c) as [c' Ec].
  pose proof (Z.gcd_div_gcd a c (Z.gcd a c) Hg0 eq_refl) as Hrel.
  set (g := Z.gcd a c) in *.
  assert (Qa : a / g = a') by (rewrite Ea at 1; apply Z.div_mul; lia).
  assert (Qc : c / g = c') by (rewrite Ec at 1; apply Z.div_mul; lia).
  rewrite Qa, Qc in Hrel.
  assert (Ha' : 0 < a') by nia. assert (Hc' : 0 < c') by nia.
  assert (H' : Forall2 (fun v xi => v * a' = xi * c') vec x).
  { eapply Forall2_impl; [|exact H]. cbv beta. intros v xi E.
    rewrite Ea, Ec in E. nia. }
  assert (E1 : c' = 1).
  { apply Pv; [exact Hc'|].
    apply (proportional_divides a' c' vec x); [|exact H'].
    now rewrite Z.gcd_comm. }
  assert (E2 : a' = 1).
  { apply Px; [exact Ha'|].
    apply (proportional_divides c' a' x vec); [exact Hrel|].
    apply Forall2_flip. eapply Forall2_impl; [|exact H'].
    cbv beta. intros v xi E. lia. }
  rewrite E1, E2 in H'.
  clear -H' . induction H' as [|v xi vec x Hv H IH]; [reflexivity|].
  f_equal; [lia | exact IH].
Qed.

(** The function gives back a vector of small non-negative integers
    without common divisor. *)
Lemma candidate_exact (fv : list Frac) (x : list Z) :
  scaledNumerators fv = x ->
  Forall (fun v => 0 <= v < 2 ^ 31) x ->
  Exists (fun v => v <> 0) x ->
  primitive x ->
  candidate fv = Some x.
Proof.
  intros Hx Hfit Hex Hprim.
  assert (Habs : map (fun f =>
                        Z.abs (toInt32
                                 (num f * (fold_left
                                             (fun cd f => lcm cd (den f)) fv 1
                                           / den f)))) fv = x).
  { rewrite <- Hx. unfold scaledNumerators. cbv zeta.
    apply map_ext_in. intros f Hf.
    assert (Hin : In (num f * (fold_left (fun cd f => lcm cd (den f)) fv 1
                               / den f)) x).
    { rewrite <- Hx. unfold scaledNumerators. cbv zeta.
      apply in_map_iff. now exists f. }
    rewrite Forall_forall in Hfit. specialize (Hfit _ Hin).
    rewrite toInt32_fits.
    - apply Z.abs_eq. lia.
    - unfold fitsInt32. apply Bool.andb_true_iff.
      rewrite Z.leb_le, Z.ltb_lt. lia. }
  destruct (candidate fv) as [final|] eqn:Ec.
  - apply candidate_some in Ec. cbv zeta in Ec. rewrite Habs in Ec.
    destruct Ec as (-> & Hg & Hdiv & _).
    set (g := fold_left _ x _) in *.
    assert (Eg : g = 1) by (apply Hprim; assumption).
    rewrite Eg. f_equal. rewrite <- (map_id x) at 2.
    apply map_ext. intros v. apply Z.div_1_r.
  - exfalso. unfold candidate in Ec.
    destruct fv as [|f0 fv']; [simpl in Hx; subst x; inversion Hex|].
    set (fv := f0 :: fv') in *.
    destruct (forallb _ _) eqn:Ez; [|discriminate].
    rewrite forallb_forall in Ez.
    apply Exists_exists in Hex. destruct Hex as (v & Hv & Hne).
    rewrite <- Habs in Hv. apply in_map_iff in Hv.
    destruct Hv as (f & <- & Hf).
    assert (Hz : (toInt32 (num f * (fold_left (fun cd f => lcm cd (den f))
                                      fv 1 / den f)) =? 0) = true).
    { apply Ez. apply in_map_iff. now exists f. }
    apply Z.eqb_eq in Hz. rewrite Hz in Hne. simpl in Hne. congruence.
Qed.

Lemma scaled_proportional (cd xn : Z) (fv : list Frac) (x : list Z) :
  Forall (fun f => (den f | cd)) fv -> Forall wfFrac fv ->
  Forall2 (fun f xi => num f * xn = xi * den f) fv x ->
  Forall2 (fun v xi => v * xn = xi * cd)
          (map (fun f => num f * (cd / den f)) fv) x.
Proof.
  intros Hd Hw H. induction H as [|f xi fv x Hf H IH]; simpl; [constructor|].
  inversion Hd as [|? ? Hdf Hd']; subst. destruct Hdf as [q Eq].
  inversion Hw as [|? ? Hwf Hw']; subst. unfold wfFrac in Hwf.
  constructor; [|now apply IH].
  cbv beta. rewrite Z.div_mul by lia.
  replace (num f * q * xn) with (q * (num f * xn)) by ring.
  rewrite Hf. ring.
Qed.

(** On exact integers the solver finds the balance when the equation has
    exactly one: if the non-negative integers [x], one for each species,
    the last of them positive, without common divisor and all below 2^31,
    balance the equation, and every rational solution of it is a multiple
    of [x], then [solveEquation] returns [x], split into its left and right
    parts. *)
Lemma finds_the_balance_Z
    (leftFormulas rightFormulas : list jsstring)
    (countFn : jsstring -> ElementCount) (x' : list Z) (xn : Z) :
  let A0 := A (buildElementMatrix leftFormulas rightFormulas countFn) in
  let x := x' ++ [xn] in
  A0 <> [] ->
  length x = (length leftFormulas + length rightFormulas)%nat ->
  x' <> [] ->
  Forall (fun v => 0 <= v < 2 ^ 31) x -> 0 < xn ->
  primitive x ->
  Forall (fun row => rowSum row x = 0) A0 ->
  (forall z : list Q,
      length z = length x -> solves A0 z ->
      exists t : Q, Forall2 (fun zi xi => (zi == t * inject_Z xi)%Q) z x) ->
  solveEquation leftFormulas rightFormulas countFn
  = Returned (Some (mkLR (firstn (length leftFormulas) x)
                         (skipn (length leftFormulas) x))).
Proof.
  intros A0 x HA Hlen Hne Hfit Hxn Hprim Hbal Huniq.
  pose proof (buildElementMatrix_rows leftFormulas rightFormulas countFn) as R.
  fold A0 in R. rewrite <- Hlen in R.
  assert (Lx : length x = S (length x'))
    by (unfold x; rewrite length_app; simpl; lia).
  assert (Hhd : length (hd [] A0) = length x).
  { destruct A0 as [|row0 rows]; [congruence|]. now inversion R. }
  assert (Hne0 : ~ (inject_Z xn == 0)%Q).
  { unfold Qeq, inject_Z. simpl. lia. }
  set (y := map (fun xi => (/ inject_Z xn * inject_Z xi)%Q) x').
  assert (Hy : solves A0 (y ++ [1%Q])).
  { unfold solves. eapply Forall_impl; [|exact Hbal]. cbv beta.
    intros row Hrow.
    rewrite (rowSumQ_ext row (y ++ [1%Q])
               (map (fun xi => (/ inject_Z xn * inject_Z xi)%Q) x)).
    - rewrite rowSumQ_scaled, Hrow. ring.
    - unfold x, y. rewrite map_app. apply Forall2_app.
      + clear. induction x'; constructor; [reflexivity | assumption].
      + constructor; [|constructor]. field. exact Hne0. }
  destruct (solveRationalForLastColumn_solves A0 y) as (xr & E & Lr & Sr & Rr).
  { rewrite Hhd, Lx. destruct x'; [congruence | simpl; lia]. }
  { now rewrite Hhd. }
  { unfold y. rewrite length_map, Hhd, Lx. lia. }
  { exact Hy. }
  (* the fractions are the ratios of the integers *)
  assert (Hratio : Forall2 (fun f xi => num f * xn = xi * den f)
                           (xr ++ [mkFrac 1 1]) x).
  { unfold x.
    apply Forall2_app; [|constructor; [cbn [num den]; lia | constructor]].
    destruct (Huniq (map value xr ++ [1%Q])) as (t & Ht).
    { rewrite length_app, length_map, Lr, Hhd. simpl. lia. }
    { exact Sr. }
    unfold x in Ht. apply Forall2_app_inv_l in Ht.
    destruct Ht as (l1 & l2 & H1 & H2 & El).
    inversion H2 as [|? xn' ? ? Hone Hnil]; subst. inversion Hnil; subst.
    apply app_inj_tail in El. destruct El as [<- <-].
    assert (Et : (t == / inject_Z xn)%Q).
    { rewrite <- (Qmult_1_l (/ inject_Z xn)). rewrite Hone.
      field. exact Hne0. }
    rewrite <- (map_id x') in H1. apply Forall2_map_both in H1.
    rewrite Forall_forall in Rr.
    clear -H1 Et Hxn Rr.
    induction H1 as [|f xi xr x' Hf H IH]; constructor.
    - apply value_ratio; [apply Rr; now left | exact Hxn|].
      rewrite Hf, Et. reflexivity.
    - apply IH. intros g Hg. apply Rr. now right. }
  assert (Rraw : Forall reduced (xr ++ [mkFrac 1 1])).
  { apply Forall_app. split; [exact Rr|].
    constructor; [|constructor]. split; simpl; [lia | reflexivity]. }
  assert (Wraw : Forall wfFrac (xr ++ [mkFrac 1 1])).
  { eapply Forall_impl; [|exact Rraw]. intros f [H _]. exact H. }
  destruct (commonDen_spec _ Wraw 1 ltac:(lia)) as (Hcd & _ & Hden).
  cbv zeta in Hcd, Hden.
  assert (Escaled : scaledNumerators (xr ++ [mkFrac 1 1]) = x).
  { apply (primitive_proportional xn
             (fold_left (fun cd f => lcm cd (den f)) (xr ++ [mkFrac 1 1]) 1)).
    - exact Hxn.
    - exact Hcd.
    - unfold scaledNumerators. cbv zeta.
      now apply scaled_proportional.
    - intros d Hd Hdiv.
      apply (scaledNumerators_primitive (xr ++ [mkFrac 1 1])); auto.
      apply in_app_iff. right. now left.
    - exact Hprim. }
  assert (Ecand : candidate (xr ++ [mkFrac 1 1]) = Some x).
  { apply candidate_exact; auto.
    apply Exists_exists. exists xn. split; [|lia].
    unfold x. apply in_app_iff. right. now left. }
  pose proof (solveEquation_unfold leftFormulas rightFormulas countFn) as U.
  cbv zeta in U. fold A0 in U. rewrite U.
  replace (Nat.eqb (length A0) 0) with false
    by (destruct A0; [congruence | reflexivity]).
  replace (Nat.eqb (length (hd [] A0)) 0) with false
    by (rewrite Hhd, Lx; reflexivity).
  cbn [orb]. rewrite E. cbn [bind].
  unfold fracsToIntegerCoeffs. rewrite Ecand.
  replace (verifies A0 x) with true; [reflexivity|].
  symmetry. unfold verifies. apply forallb_forall. intros row Hrow.
  apply Z.eqb_eq. rewrite Forall_forall in Hbal. now apply Hbal.
Qed.

(* ===================================================================== *)
(** * Two more edges *)
(* ===================================================================== *)

(** X29. A group that is opened and never closed is dropped without an
    error: on the tokens of well-nested parts followed by an opening
    delimiter and further well-nested parts, [tokensToCounts] returns the
    counts of the parts before the delimiter alone. *)
Theorem unclosed_group_is_dropped (p q : Parts) (o : jsstring) :
  wellNested p = true -> wellNested q = true -> In o openers ->
  tokensToCounts (flatten p ++ TParen o :: flatten q)
  = Returned (Some (evalParts p [])) /\
  tokensToCounts (flatten p ++ TParen o :: flatten q)
  = tokensToCounts (flatten p).
Proof.
  intros Hp Hq Ho.
  assert (E : tokensToCounts (flatten p ++ TParen o :: flatten q)
              = Returned (Some (evalParts p []))).
  { rewrite tokensToCounts_resume.
    rewrite resume_flatten by (try assumption; reflexivity).
    rewrite resume_open by exact Ho.
    rewrite <- (app_nil_r (flatten q)).
    rewrite resume_flatten by (try assumption; reflexivity).
    reflexivity. }
  split; [exact E|]. rewrite E. symmetry.
  rewrite tokensToCounts_resume. rewrite <- (app_nil_r (flatten p)).
  rewrite resume_flatten by (try assumption; reflexivity).
  reflexivity.
Qed.

Lemma unclosed_group_is_dropped_witness :
  tokensToCounts (tokenizeFormula (js "Ca(OH"))
  = Returned (Some [(js "Ca", 1)]).
Proof.
  apply (unclosed_group_is_dropped
           (PElem (js "Ca") 1 PEnd)
           (PElem (js "O") 1 (PElem (js "H") 1 PEnd)) (js "(")).
  - reflexivity.
  - reflexivity.
  - simpl. tauto.
Defined.

(** On exact integers [analyzeBalanceability] always returns, and it
    agrees with [solveEquation]. *)
Lemma analyzeBalanceability_record_Z (leftFormulas rightFormulas : list jsstring)
    (countFn : jsstring -> ElementCount) :
  exists r,
    analyzeBalanceability leftFormulas rightFormulas countFn = Returned r /\
    solveEquation leftFormulas rightFormulas countFn = Returned (suggestion r) /\
    (balanceableAllSpecies r = true <-> suggestion r <> None) /\
    nullity r = (if balanceableAllSpecies r then 1 else 0)%nat.
Proof.
  unfold solveEquation, analyzeBalanceability.
  set (A0 := A (buildElementMatrix leftFormulas rightFormulas countFn)).
  destruct (Nat.eqb (length A0) 0 || Nat.eqb (length (hd [] A0)) 0).
  { eexists. split; [reflexivity|]. cbn.
    repeat split; try reflexivity; try discriminate. congruence. }
  destruct (solveRationalForLastColumn_returns A0) as (raw & E & _).
  rewrite E. cbn [bind].
  destruct raw as [raw|].
  - destruct (fracsToIntegerCoeffs raw (length leftFormulas)
                (length rightFormulas) A0) as [s|].
    + eexists. split; [reflexivity|]. cbn.
      repeat split; try reflexivity; try discriminate.
    + eexists. split; [reflexivity|]. cbn.
      repeat split; try reflexivity; try discriminate. congruence.
  - eexists. split; [reflexivity|]. cbn.
    repeat split; try reflexivity; try discriminate. congruence.
Qed.

(* ===================================================================== *)
(** * The checked runs *)
(* ===================================================================== *)

(** ** A checked run that has not left the safe range is the exact run *)

Lemma agrees_refl {X} (p : outcome X) : agrees p p.
Proof. now right. Qed.

Lemma agrees_inexact {X} (p : outcome X) : agrees Inexact p.
Proof. now left. Qed.

Lemma agrees_returned {X} (g p : outcome X) (x : X) :
  agrees g p -> g = Returned x -> p = Returned x.
Proof. intros [->| ->]; [discriminate | trivial]. Qed.

Lemma agrees_not_inexact {X} (g p : outcome X) :
  agrees g p -> g <> Inexact -> g = p.
Proof. intros [->| ->] H; [now destruct H | reflexivity]. Qed.

Lemma agrees_bind {X Y} (g p : outcome X) (fg fp : X -> outcome Y) :
  agrees g p ->
  (forall x, p = Returned x -> agrees (fg x) (fp x)) ->
  agrees (bind g fg) (bind p fp).
Proof.
  intros [->| ->] H; [now left|].
  destruct p as [x| | | |]; simpl; try now right.
  now apply H.
Qed.

(** The checked step gives, unless it leaves the range, the value [x] the
    exact code computes. *)
Lemma agrees_step {X Y} (g : outcome X) (x : X) (fg : X -> outcome Y)
    (p : outcome Y) :
  agrees g (Returned x) -> agrees (fg x) p -> agrees (bind g fg) p.
Proof.
  intros [->| ->] H; [now left | exact H].
Qed.

Lemma agrees_mapM {X Y} (fg fp : X -> outcome Y) (l : list X) :
  (forall x, In x l -> agrees (fg x) (fp x)) ->
  agrees (mapM fg l) (mapM fp l).
Proof.
  induction l as [|x l IH]; intros H; [apply agrees_refl|].
  cbn [mapM]. apply agrees_bind; [apply H; now left|].
  intros y _. apply agrees_bind; [apply IH; intros; apply H; now right|].
  intros ys _. apply agrees_refl.
Qed.

(** [mapM] of a function that always returns. *)
Lemma mapM_returned {X Y} (f : X -> Y) (l : list X) :
  mapM (fun x => Returned (f x)) l = Returned (map f l).
Proof.
  induction l as [|x l IH]; [reflexivity|]. cbn [mapM map bind].
  now rewrite IH.
Qed.

Lemma agrees_mapM_pure {X Y} (fg : X -> outcome Y) (f : X -> Y) (l : list X) :
  (forall x, In x l -> agrees (fg x) (Returned (f x))) ->
  agrees (mapM fg l) (Returned (map f l)).
Proof.
  intros H. rewrite <- mapM_returned. now apply agrees_mapM.
Qed.

Lemma agrees_foldM {X Y} (fg : Y -> X -> outcome Y) (f : Y -> X -> Y)
    (l : list X) (acc : Y) :
  (forall a x, agrees (fg a x) (Returned (f a x))) ->
  agrees (foldM fg l acc) (Returned (fold_left f l acc)).
Proof.
  intros H. revert acc. induction l as [|x l IH]; intros acc;
    [apply agrees_refl|].
  cbn [foldM fold_left]. eapply agrees_step; [apply H | apply IH].
Qed.

Lemma exact_agrees (x : Z) : agrees (Safe.exact x) (Returned x).
Proof. unfold Safe.exact. destruct (isSafe x); [now right | now left]. Qed.

Lemma add_agrees (x y : Z) : agrees (Safe.add x y) (Returned (x + y)).
Proof.
  unfold Safe.add. destruct (isSafe x && isSafe y);
    [apply exact_agrees | now left].
Qed.

Lemma sub_agrees (x y : Z) : agrees (Safe.sub x y) (Returned (x - y)).
Proof.
  unfold Safe.sub. destruct (isSafe x && isSafe y);
    [apply exact_agrees | now left].
Qed.

Lemma mul_agrees (x y : Z) : agrees (Safe.mul x y) (Returned (x * y)).
Proof.
  unfold Safe.mul. destruct (isSafe x && isSafe y);
    [apply exact_agrees | now left].
Qed.

Lemma div_agrees (x y : Z) : agrees (Safe.div x y) (Returned (x / y)).
Proof.
  unfold Safe.div.
  destruct (isSafe x && isSafe y && negb (y =? 0) && (x mod y =? 0));
    [now right | now left].
Qed.

(** What a checked operation that returns has checked. *)
Lemma isSafe_bounds (x : Z) :
  isSafe x = true <-> - MAX_SAFE_INTEGER <= x <= MAX_SAFE_INTEGER.
Proof. unfold isSafe. rewrite andb_true_iff, !Z.leb_le. tauto. Qed.

Lemma exact_returned (x r : Z) :
  Safe.exact x = Returned r -> r = x /\ isSafe x = true.
Proof.
  unfold Safe.exact. destruct (isSafe x) eqn:E; [|discriminate].
  intros [= <-]. now split.
Qed.

Lemma mul_returned (x y r : Z) :
  Safe.mul x y = Returned r ->
  r = x * y /\ isSafe x = true /\ isSafe y = true /\ isSafe r = true.
Proof.
  unfold Safe.mul. destruct (isSafe x) eqn:Ex; [|discriminate].
  destruct (isSafe y) eqn:Ey; [|discriminate]. simpl.
  intros H. apply exact_returned in H as [-> H]. now repeat split.
Qed.

Lemma add_returned (x y r : Z) :
  Safe.add x y = Returned r ->
  r = x + y /\ isSafe x = true /\ isSafe y = true /\ isSafe r = true.
Proof.
  unfold Safe.add. destruct (isSafe x) eqn:Ex; [|discriminate].
  destruct (isSafe y) eqn:Ey; [|discriminate]. simpl.
  intros H. apply exact_returned in H as [-> H]. now repeat split.
Qed.

Lemma sub_returned (x y r : Z) :
  Safe.sub x y = Returned r ->
  r = x - y /\ isSafe x = true /\ isSafe y = true /\ isSafe r = true.
Proof.
  unfold Safe.sub. destruct (isSafe x) eqn:Ex; [|discriminate].
  destruct (isSafe y) eqn:Ey; [|discriminate]. simpl.
  intros H. apply exact_returned in H as [-> H]. now repeat split.
Qed.

Lemma div_returned (x y r : Z) :
  Safe.div x y = Returned r ->
  x = y * r /\ y <> 0 /\ isSafe x = true /\ isSafe y = true.
Proof.
  unfold Safe.div. destruct (isSafe x) eqn:Ex; [|discriminate].
  destruct (isSafe y) eqn:Ey; [|discriminate]. simpl.
  destruct (y =? 0) eqn:E0; [discriminate|]. simpl.
  destruct (x mod y =? 0) eqn:Em; [|discriminate].
  intros [= <-]. apply Z.eqb_neq in E0. apply Z.eqb_eq in Em.
  repeat split; trivial.
  pose proof (Z.div_mod x y E0). lia.
Qed.

(** ** The parser *)

Lemma tokenize_from_agrees (s : jsstring) (skip : nat) :
  agrees (Safe.tokenize_from skip s) (Returned (tokenize_from skip s)).
Proof.
  revert skip. induction s as [|c r IH]; intros skip; [apply agrees_refl|].
  cbn [Safe.tokenize_from tokenize_from].
  destruct skip as [|k]; [|apply IH].
  destruct ((c =? ch_middle_dot) || (c =? ch_period))%N.
  { eapply agrees_step; [apply IH | apply agrees_refl]. }
  destruct (isBracket c).
  { eapply agrees_step; [apply IH | apply agrees_refl]. }
  destruct (isUpper c).
  { destruct (match r with
              | d :: r' => if isLower d then ([c; d], r') else ([c], r)
              | [] => ([c], r)
              end) as [sym after].
    cbv zeta. set (ds := takeWhile isDigit after).
    apply (agrees_step _ (match ds with [] => 1 | _ :: _ => parseInt ds end)).
    - destruct ds; [apply agrees_refl | apply exact_agrees].
    - eapply agrees_step; [apply IH | apply agrees_refl]. }
  destruct (isDigit c); [|apply IH].
  cbv zeta. eapply agrees_step; [apply exact_agrees|].
  eapply agrees_step; [apply IH | apply agrees_refl].
Qed.

Lemma tokenizeFormula_agrees (formula : jsstring) :
  agrees (Safe.tokenizeFormula formula) (Returned (tokenizeFormula formula)).
Proof. apply tokenize_from_agrees. Qed.

Lemma pushCounts_agrees (into : CountMap) (elem : jsstring) (n : Z) :
  agrees (Safe.pushCounts into elem n) (Returned (pushCounts into elem n)).
Proof.
  unfold Safe.pushCounts, pushCounts.
  eapply agrees_step; [apply add_agrees | apply agrees_refl].
Qed.

Lemma mergeScaled_agrees (group : list (jsstring * Z)) (top : CountMap)
    (mult : Z) :
  agrees (Safe.mergeScaled top group mult)
         (Returned (mergeScaled top group mult)).
Proof.
  revert top. induction group as [|[k val] group IH]; intros top;
    [apply agrees_refl|].
  cbn [Safe.mergeScaled].
  eapply agrees_step; [apply mul_agrees|].
  eapply agrees_step; [apply pushCounts_agrees | apply IH].
Qed.

Lemma mergeIntoTop_agrees (stack : list CountMap) (group : CountMap)
    (mult : Z) :
  agrees (Safe.mergeIntoTop stack group mult) (mergeIntoTop stack group mult).
Proof.
  destruct stack as [|top below]; cbn [Safe.mergeIntoTop mergeIntoTop].
  - destruct group as [|[k val] group]; [apply agrees_refl|].
    eapply agrees_step; [apply mul_agrees | apply agrees_refl].
  - eapply agrees_step; [apply mergeScaled_agrees | apply agrees_refl].
Qed.

(** [mergeIntoTop] returns or raises a [TypeError], so the [match] of [go] on
    its result is a [bind]. *)
Lemma mergeIntoTop_match {Y} (stack : list CountMap) (group : CountMap)
    (mult : Z) (k : list CountMap -> outcome Y) :
  match mergeIntoTop stack group mult with
  | Returned s => k s
  | _ => TypeError
  end = bind (mergeIntoTop stack group mult) k.
Proof.
  destruct stack as [|top below]; [destruct group|]; reflexivity.
Qed.

Lemma nested_match {Y} (o : outcome (option CountMap))
    (k : CountMap -> outcome Y) :
  match o with
  | Returned (Some sub) => k sub
  | Returned None => TypeError
  | TypeError => TypeError
  | ZeroDenominator => ZeroDenominator
  | OutOfFuel => OutOfFuel
  | Inexact => Inexact
  end
  = bind o (fun sub => match sub with Some sub => k sub | None => TypeError end).
Proof. destruct o as [[sub|]| | | |]; reflexivity. Qed.

Lemma go_agrees (fuel : nat) (rest : list Token) (stack : list CountMap) :
  agrees (Safe.go fuel rest stack) (go fuel rest stack).
Proof.
  revert rest stack. induction fuel as [|fuel IH]; intros rest stack;
    [apply agrees_refl|].
  cbn [Safe.go go].
  destruct rest as [|t rest']; [apply agrees_refl|].
  destruct t as [|v|symbol count|n].
  - (* dot *)
    destruct rest' as [|[|v|symbol count|n] suffix]; try apply IH.
    rewrite nested_match.
    apply agrees_bind; [apply IH|].
    intros [sub|] _; [|apply agrees_refl].
    rewrite mergeIntoTop_match.
    apply agrees_bind; [apply mergeIntoTop_agrees | intros; apply agrees_refl].
  - (* delimiter *)
    destruct (set_has openers v); [apply IH|].
    destruct (set_has closers v); [|apply IH].
    destruct stack as [|group stack']; [apply agrees_refl|].
    destruct (match rest' with
              | TNum m :: r => (m, r)
              | _ => (1, rest')
              end) as [mult rest''].
    rewrite mergeIntoTop_match.
    apply agrees_bind; [apply mergeIntoTop_agrees | intros; apply IH].
  - (* element *)
    destruct stack as [|top below]; [apply agrees_refl|].
    eapply agrees_step; [apply pushCounts_agrees | apply IH].
  - (* integer *)
    destruct rest' as [|[|v|symbol count|n'] r]; try apply IH.
    + destruct (hasOpener v); [|apply IH].
      destruct (scanGroup 0 (TParen v :: r)) as [group after].
      rewrite nested_match.
      apply agrees_bind; [apply IH|].
      intros [sub|] _; [|apply agrees_refl].
      rewrite mergeIntoTop_match.
      apply agrees_bind; [apply mergeIntoTop_agrees | intros; apply IH].
    + eapply agrees_step; [apply mul_agrees|].
      destruct stack as [|top below]; [apply agrees_refl|].
      eapply agrees_step; [apply pushCounts_agrees | apply IH].
Qed.

Lemma tokensToCounts_agrees (tokens : list Token) :
  agrees (Safe.tokensToCounts tokens) (tokensToCounts tokens).
Proof. apply go_agrees. Qed.

Lemma countElementsInFormula_agrees (formula : jsstring) :
  agrees (Safe.countElementsInFormula formula)
         (countElementsInFormula formula).
Proof.
  unfold Safe.countElementsInFormula, countElementsInFormula.
  eapply agrees_step; [apply tokenizeFormula_agrees|].
  destruct (tokensToCounts_agrees (tokenizeFormula formula)) as [->| ->];
    [now left|].
  right. now destruct (tokensToCounts _) as [[c|]| | | |].
Qed.

Lemma multiplyCounts_agrees (counts : ElementCount) (k : Z) :
  agrees (Safe.multiplyCounts counts k) (Returned (multiplyCounts counts k)).
Proof.
  unfold Safe.multiplyCounts, multiplyCounts.
  apply agrees_foldM. intros out kv.
  eapply agrees_step; [apply mul_agrees | apply agrees_refl].
Qed.

Lemma sumCounts_agrees (list : list ElementCount) :
  agrees (Safe.sumCounts list) (Returned (sumCounts list)).
Proof.
  unfold Safe.sumCounts, sumCounts. cbv zeta.
  eapply agrees_step; [|apply agrees_refl].
  apply (agrees_foldM _
           (fun out obj =>
              fold_left (fun out kv => pushCounts out (fst kv) (snd kv))
                        obj out)).
  intros out obj. apply agrees_foldM. intros a kv. apply pushCounts_agrees.
Qed.

(** ** The solver *)

Lemma lcm_agrees (a b : Z) : agrees (Safe.lcm a b) (Returned (lcm a b)).
Proof.
  unfold Safe.lcm, lcm.
  eapply agrees_step; [apply div_agrees | apply mul_agrees].
Qed.


Lemma fSub_agrees (a b : Frac) : agrees (Safe.fSub a b) (fSub a b).
Proof.
  unfold Safe.fSub, fSub.
  eapply agrees_step; [apply mul_agrees|].
  eapply agrees_step; [apply mul_agrees|].
  eapply agrees_step; [apply sub_agrees|].
  eapply agrees_step; [apply mul_agrees | apply agrees_refl].
Qed.

Lemma fMul_agrees (a b : Frac) : agrees (Safe.fMul a b) (fMul a b).
Proof.
  unfold Safe.fMul, fMul.
  eapply agrees_step; [apply mul_agrees|].
  eapply agrees_step; [apply mul_agrees | apply agrees_refl].
Qed.

Lemma fDiv_agrees (a b : Frac) : agrees (Safe.fDiv a b) (fDiv a b).
Proof.
  unfold Safe.fDiv, fDiv.
  eapply agrees_step; [apply mul_agrees|].
  eapply agrees_step; [apply mul_agrees | apply agrees_refl].
Qed.

Lemma agrees_mapFromM (fg fp : Frac -> outcome Frac) (row : list Frac)
    (col : nat) :
  (forall x, agrees (fg x) (fp x)) ->
  agrees (mapFromM fg col row) (mapFromM fp col row).
Proof.
  intros H. revert col. induction row as [|x row IH]; intros col;
    [apply agrees_refl|].
  cbn [mapFromM]. destruct col as [|col].
  - apply agrees_bind; [apply H|]. intros y _.
    apply agrees_bind; [apply IH | intros; apply agrees_refl].
  - apply agrees_bind; [apply IH | intros; apply agrees_refl].
Qed.

Lemma agrees_map2FromM (fg fp : Frac -> Frac -> outcome Frac)
    (row other : list Frac) (col : nat) :
  (forall x y, agrees (fg x y) (fp x y)) ->
  agrees (map2FromM fg col row other) (map2FromM fp col row other).
Proof.
  intros H. revert col other. induction row as [|x row IH]; intros col other;
    [apply agrees_refl|].
  cbn [map2FromM]. destruct col as [|col].
  - apply agrees_bind; [apply H|]. intros y _.
    apply agrees_bind; [apply IH | intros; apply agrees_refl].
  - apply agrees_bind; [apply IH | intros; apply agrees_refl].
Qed.

Lemma eliminateRow_agrees (col : nat) (pivRow : list Frac) (pivb : Frac)
    (Br : list Frac) (br : Frac) :
  agrees (Safe.eliminateRow col pivRow pivb Br br)
         (eliminateRow col pivRow pivb Br br).
Proof.
  unfold Safe.eliminateRow, eliminateRow. cbv zeta.
  destruct (num (nth col Br zeroFrac) =? 0); [apply agrees_refl|].
  apply agrees_bind.
  { apply agrees_map2FromM. intros x p.
    apply agrees_bind; [apply fMul_agrees | intros; apply fSub_agrees]. }
  intros Br' _. apply agrees_bind; [apply fMul_agrees|].
  intros t _. apply agrees_bind; [apply fSub_agrees|].
  intros; apply agrees_refl.
Qed.

Lemma eliminateRows_agrees (col row : nat) (pivRow : list Frac) (pivb : Frac)
    (Bs : list (list Frac)) (bs : list Frac) (r : nat) :
  agrees (Safe.eliminateRows col row pivRow pivb r Bs bs)
         (eliminateRows col row pivRow pivb r Bs bs).
Proof.
  revert bs r. induction Bs as [|Br Bs IH]; intros bs r;
    [apply agrees_refl|].
  destruct bs as [|br bs]; [apply agrees_refl|].
  cbn [Safe.eliminateRows eliminateRows].
  apply agrees_bind.
  { destruct (Nat.eqb r row); [apply agrees_refl | apply eliminateRow_agrees]. }
  intros [Br' br'] _.
  apply agrees_bind; [apply IH|]. intros [Bs'' bs''] _. apply agrees_refl.
Qed.

Lemma eliminateCol_agrees (m col : nat) (st : ElimState) :
  agrees (Safe.eliminateCol m col st) (eliminateCol m col st).
Proof.
  unfold Safe.eliminateCol, eliminateCol. cbv zeta.
  destruct (Nat.eqb (findPivot (skipn (row st) (B st)) (row st) col) m);
    [apply agrees_refl|].
  apply agrees_bind.
  { apply agrees_mapFromM. intros x. apply fDiv_agrees. }
  intros Brow _. apply agrees_bind; [apply fDiv_agrees|].
  intros brow _. apply agrees_bind; [apply eliminateRows_agrees|].
  intros [B3 b3] _. apply agrees_refl.
Qed.

Lemma eliminateCols_agrees (m : nat) (cols : list nat) (st : ElimState) :
  agrees (Safe.eliminateCols m cols st) (eliminateCols m cols st).
Proof.
  revert st. induction cols as [|col cols IH]; intros st;
    [apply agrees_refl|].
  cbn [Safe.eliminateCols eliminateCols].
  destruct (Nat.ltb (row st) m); [|apply agrees_refl].
  apply agrees_bind; [apply eliminateCol_agrees | intros; apply IH].
Qed.

(** An entry that is there, as the checked run reads it and as [nth] does. *)
Lemma entryOf_agrees (Ai : list Z) (j : nat) :
  agrees (Safe.entryOf Ai j) (Returned (nth j Ai 0)).
Proof.
  unfold Safe.entryOf. destruct (nth_error Ai j) as [x|] eqn:E;
    [|apply agrees_inexact].
  rewrite (nth_error_nth _ _ _ E). apply exact_agrees.
Qed.

Lemma solveRationalForLastColumn_agrees (A0 : list (list Z)) :
  agrees (Safe.solveRationalForLastColumn A0) (solveRationalForLastColumn A0).
Proof.
  unfold Safe.solveRationalForLastColumn, solveRationalForLastColumn.
  cbv zeta. destruct (Nat.leb (length (hd [] A0)) 1); [apply agrees_refl|].
  apply agrees_bind.
  { apply agrees_mapM. intros Ai _. apply agrees_mapM. intros j _.
    eapply agrees_step; [apply entryOf_agrees | apply agrees_refl]. }
  intros B0 _. apply agrees_bind.
  { apply agrees_mapM. intros Ai _.
    eapply agrees_step; [apply entryOf_agrees | apply agrees_refl]. }
  intros b0 _. apply agrees_bind; [apply eliminateCols_agrees|].
  intros; apply agrees_refl.
Qed.

Lemma candidate_agrees (fv : list Frac) :
  agrees (Safe.candidate fv) (Returned (candidate fv)).
Proof.
  unfold Safe.candidate, candidate.
  destruct fv as [|f0 fv']; [apply agrees_refl|].
  cbv zeta. set (fv := f0 :: fv').
  set (commonDen := fold_left (fun cd f => lcm cd (den f)) fv 1).
  apply (agrees_step _ commonDen).
  { apply agrees_foldM. intros a f. apply lcm_agrees. }
  set (vec := map (fun f => toInt32 (num f * (commonDen / den f))) fv).
  apply (agrees_step _ vec).
  { apply agrees_mapM_pure. intros f _.
    eapply agrees_step; [apply div_agrees|].
    eapply agrees_step; [apply mul_agrees | apply agrees_refl]. }
  destruct (forallb (fun v => v =? 0) vec); [apply agrees_refl|].
  eapply agrees_step; [|apply agrees_refl].
  apply agrees_mapM_pure. intros v _. apply div_agrees.
Qed.

Lemma rowSum_agrees (row final : list Z) (s : Z) :
  agrees (Safe.rowSum s row final) (Returned (s + rowSum row final)).
Proof.
  revert final s. induction row as [|a row IH]; intros final s.
  - cbn [Safe.rowSum rowSum]. rewrite Z.add_0_r. apply agrees_refl.
  - destruct final as [|x final]; [apply agrees_inexact|].
    cbn [Safe.rowSum rowSum].
    eapply agrees_step; [apply mul_agrees|].
    eapply agrees_step; [apply add_agrees|].
    rewrite Z.add_assoc. apply IH.
Qed.

Lemma verifies_agrees (A0 : list (list Z)) (final : list Z) :
  agrees (Safe.verifies A0 final) (Returned (verifies A0 final)).
Proof.
  induction A0 as [|row A0 IH]; [apply agrees_refl|].
  cbn [Safe.verifies]. unfold verifies. cbn [forallb].
  fold (verifies A0 final).
  eapply agrees_step; [apply rowSum_agrees|].
  rewrite Z.add_0_l.
  destruct (rowSum row final =? 0); [apply IH | apply agrees_refl].
Qed.

Lemma fracsToIntegerCoeffs_agrees (fv : list Frac) (leftLen rightLen : nat)
    (A0 : list (list Z)) :
  agrees (Safe.fracsToIntegerCoeffs fv leftLen rightLen A0)
         (Returned (fracsToIntegerCoeffs fv leftLen rightLen A0)).
Proof.
  unfold Safe.fracsToIntegerCoeffs, fracsToIntegerCoeffs.
  eapply agrees_step; [apply candidate_agrees|].
  destruct (candidate fv) as [final|]; [|apply agrees_refl].
  eapply agrees_step; [apply verifies_agrees|].
  destruct (verifies A0 final); apply agrees_refl.
Qed.

(** A [mapM] returns the results of its calls, or ends as the first call
    that does not return. *)
Lemma mapM_cases {X Y} (f : X -> outcome Y) (l : list X) :
  (exists ys, mapM f l = Returned ys /\
              forall x, In x l -> exists y, f x = Returned y) \/
  (exists x, In x l /\ sameError (f x) (mapM f l)).
Proof.
  induction l as [|x l IH].
  - left. exists []. split; [reflexivity | intros x []].
  - cbn [mapM]. destruct (f x) as [y| | | |] eqn:E.
    + destruct IH as [(ys & E' & H)|(x' & Hin & H)].
      * left. exists (y :: ys). cbn [bind]. rewrite E'. split; [reflexivity|].
        intros x' [<-|Hin]; [now exists y | now apply H].
      * right. exists x'. split; [now right|]. cbn [bind].
        destruct (mapM f l); cbn [bind]; trivial.
    + right. exists x. split; [now left|]. now rewrite E.
    + right. exists x. split; [now left|]. now rewrite E.
    + right. exists x. split; [now left|]. now rewrite E.
    + right. exists x. split; [now left|]. now rewrite E.
Qed.

Lemma mapM_ext {X Y} (f g : X -> outcome Y) (l : list X) :
  (forall x, In x l -> f x = g x) -> mapM f l = mapM g l.
Proof.
  induction l as [|x l IH]; intros H; [reflexivity|].
  cbn [mapM]. rewrite (H x) by now left.
  destruct (g x); cbn [bind]; trivial.
  rewrite IH; [reflexivity|]. intros; apply H; now right.
Qed.

Lemma total_returned (countFn : jsstring -> outcome ElementCount)
    (f : jsstring) (c : ElementCount) :
  countFn f = Returned c -> total countFn f = c.
Proof. unfold total. now intros ->. Qed.

(** What the count function raises, [buildElementMatrix] raises. *)
Lemma buildElementMatrix_raises (leftFormulas rightFormulas : list jsstring)
    (countFn : jsstring -> outcome ElementCount) :
  (forall f, In f (leftFormulas ++ rightFormulas) ->
             exists c, countFn f = Returned c) \/
  (exists f, In f (leftFormulas ++ rightFormulas) /\
             sameError (countFn f)
               (Safe.buildElementMatrix leftFormulas rightFormulas countFn)).
Proof.
  unfold Safe.buildElementMatrix.
  destruct (mapM_cases (fun f => c <- countFn f ;; Returned (map fst c))
              (leftFormulas ++ rightFormulas))
    as [(ys & E & H)|(f & Hin & H)].
  - left. intros f Hin.
    destruct (H f Hin) as (y & Ey).
    destruct (countFn f) as [c| | | |]; try discriminate. now exists c.
  - right. exists f. split; [exact Hin|].
    destruct (countFn f); cbn in H;
      destruct (mapM _ (leftFormulas ++ rightFormulas)) as [ys| | | |];
      cbn in *; trivial; contradiction.
Qed.

Lemma buildElementMatrix_agrees (leftFormulas rightFormulas : list jsstring)
    (countFn : jsstring -> outcome ElementCount) :
  (forall f, In f (leftFormulas ++ rightFormulas) ->
             exists c, countFn f = Returned c) ->
  agrees (Safe.buildElementMatrix leftFormulas rightFormulas countFn)
         (Returned (buildElementMatrix leftFormulas rightFormulas
                      (total countFn))).
Proof.
  intros Hret.
  assert (Hc : forall f, In f (leftFormulas ++ rightFormulas) ->
                         countFn f = Returned (total countFn f)).
  { intros f Hin. destruct (Hret f Hin) as [c E]. rewrite E.
    now rewrite (total_returned _ _ _ E). }
  unfold Safe.buildElementMatrix, buildElementMatrix. cbv zeta.
  rewrite (mapM_ext _ (fun f => Returned (map fst (total countFn f))))
    by (intros f Hin; now rewrite (Hc f Hin)).
  rewrite mapM_returned. cbn [bind]. rewrite <- flat_map_concat_map.
  eapply agrees_step; [|apply agrees_refl].
  apply agrees_mapM_pure. intros el _.
  eapply agrees_step.
  { apply (agrees_mapM_pure _
             (fun f => orZero (map_get (total countFn f) el))).
    intros f Hin. rewrite (Hc f) by (apply in_or_app; now left).
    cbn [bind]. apply exact_agrees. }
  eapply agrees_step; [|apply agrees_refl].
  apply (agrees_mapM_pure _
           (fun f => - orZero (map_get (total countFn f) el))).
  intros f Hin. rewrite (Hc f) by (apply in_or_app; now right).
  cbn [bind]. eapply agrees_step; [apply exact_agrees | apply agrees_refl].
Qed.

Lemma analyzeBalanceability_agrees_exact
    (leftFormulas rightFormulas : list jsstring)
    (countFn : jsstring -> outcome ElementCount) :
  (forall f, In f (leftFormulas ++ rightFormulas) ->
             exists c, countFn f = Returned c) ->
  agrees (Safe.analyzeBalanceability leftFormulas rightFormulas countFn)
         (analyzeBalanceability leftFormulas rightFormulas (total countFn)).
Proof.
  intros Hret. unfold Safe.analyzeBalanceability, analyzeBalanceability.
  eapply agrees_step; [now apply buildElementMatrix_agrees|].
  cbv zeta.
  set (A0 := A (buildElementMatrix leftFormulas rightFormulas (total countFn))).
  destruct (Nat.eqb (length A0) 0 || Nat.eqb (length (hd [] A0)) 0);
    [apply agrees_refl|].
  apply agrees_bind; [apply solveRationalForLastColumn_agrees|].
  intros [raw|] _; [|apply agrees_refl].
  eapply agrees_step; [apply fracsToIntegerCoeffs_agrees|].
  destruct (fracsToIntegerCoeffs _ _ _ _); apply agrees_refl.
Qed.

Lemma solveEquation_agrees (leftFormulas rightFormulas : list jsstring)
    (countFn : jsstring -> outcome ElementCount) :
  (forall f, In f (leftFormulas ++ rightFormulas) ->
             exists c, countFn f = Returned c) ->
  agrees (Safe.solveEquation leftFormulas rightFormulas countFn)
         (solveEquation leftFormulas rightFormulas (total countFn)).
Proof.
  intros Hret. unfold Safe.solveEquation, solveEquation.
  apply agrees_bind; [now apply analyzeBalanceability_agrees_exact|].
  intros; apply agrees_refl.
Qed.

(** What the count function raises, [solveEquation] raises. *)
Lemma solveEquation_raises (leftFormulas rightFormulas : list jsstring)
    (countFn : jsstring -> outcome ElementCount) :
  (forall f, In f (leftFormulas ++ rightFormulas) ->
             exists c, countFn f = Returned c) \/
  (exists f, In f (leftFormulas ++ rightFormulas) /\
             sameError (countFn f)
               (Safe.solveEquation leftFormulas rightFormulas countFn) /\
             sameError (countFn f)
               (Safe.analyzeBalanceability leftFormulas rightFormulas
                  countFn)).
Proof.
  destruct (buildElementMatrix_raises leftFormulas rightFormulas countFn)
    as [H|(f & Hin & H)]; [now left|].
  right. exists f. split; [exact Hin|].
  unfold Safe.solveEquation, Safe.analyzeBalanceability.
  destruct (Safe.buildElementMatrix leftFormulas rightFormulas countFn)
    as [em| | | |]; cbn [bind]; destruct (countFn f); cbn in H;
    try contradiction; now split.
Qed.

(** ** The playground *)

Lemma sideCounts_agrees (species : list Species) (coeffs : list Z)
    (idx : nat) :
  agrees (Safe.sideCounts idx species coeffs)
         (Playground.sideCounts idx species coeffs).
Proof.
  revert idx. induction species as [|sp species IH]; intros idx;
    [apply agrees_refl|].
  cbn [Safe.sideCounts Playground.sideCounts].
  apply agrees_bind; [apply countElementsInFormula_agrees|].
  intros c _. eapply agrees_step; [apply multiplyCounts_agrees|].
  apply agrees_bind; [apply IH | intros; apply agrees_refl].
Qed.

Lemma counts_agrees (species : LeftRight Species) (coeffs : LeftRight Z) :
  agrees (Safe.counts species coeffs) (Playground.counts species coeffs).
Proof.
  unfold Safe.counts, Playground.counts.
  apply agrees_bind; [apply sideCounts_agrees|]. intros leftCounts _.
  apply agrees_bind; [apply sideCounts_agrees|]. intros rightCounts _.
  eapply agrees_step; [apply sumCounts_agrees|].
  eapply agrees_step; [apply sumCounts_agrees|].
  cbv zeta. eapply agrees_step; [|apply agrees_refl].
  apply (agrees_mapM_pure _
           (fun el => (el, orZero (map_get (sumCounts leftCounts) el)
                           - orZero (map_get (sumCounts rightCounts) el)))).
  intros el _. eapply agrees_step; [apply sub_agrees | apply agrees_refl].
Qed.

(* ===================================================================== *)
(** * What holds on JavaScript numbers *)
(* ===================================================================== *)

(** ** The counts of a formula *)

(** C7, as the code has it.  In a run of [countElementsInFormula] that
    returns and in which every number read or computed is a safe integer,
    every count is non-negative.  A count of 0 is possible; it needs a 0
    among the numbers of the formula: when every multiplicity and
    multiplier the tokenizer reads is positive, every count is positive. *)
Theorem counts_nonnegative (formula : jsstring) (r : ElementCount) :
  Safe.countElementsInFormula formula = Returned r ->
  valuesOk (fun n => 0 <= n) r /\
  (Forall (tokenOk (fun n => 0 < n)) (tokenizeFormula formula) ->
   valuesOk (fun n => 0 < n) r).
Proof.
  intros H.
  apply (agrees_returned _ _ _ (countElementsInFormula_agrees formula)) in H.
  now apply counts_nonnegative_Z.
Qed.

Lemma counts_nonnegative_witness :
  valuesOk (fun n => 0 <= n) [(js "H", 2); (js "O", 1)] /\
  valuesOk (fun n => 0 < n) [(js "H", 2); (js "O", 1)].
Proof.
  destruct (counts_nonnegative (js "H2O") [(js "H", 2); (js "O", 1)]
              eq_refl) as [H1 H2].
  split; [exact H1|]. apply H2.
  repeat constructor; simpl; lia.
Defined.

(** C7, as the specification has it, fails: the formula [H0] yields the
    symbol [H] with the count 0. *)
Lemma zero_count_is_reported :
  Safe.countElementsInFormula (js "H0") = Returned [(js "H", 0)] /\
  countElementsInFormula (js "H0") = Returned [(js "H", 0)] /\
  ~ (forall formula r k v,
        Safe.countElementsInFormula formula = Returned r ->
        In (k, v) r -> 0 <= v /\ v <> 0).
Proof.
  split; [reflexivity|]. split; [reflexivity|].
  intros H.
  destruct (H (js "H0") [(js "H", 0)] (js "H") 0 eq_refl (or_introl eq_refl))
    as [_ Hne].
  now apply Hne.
Qed.

(** ** The sanity check of the solver *)






(** Where the code rounds, the checked run ends with [Inexact] and nothing
    is said of the code: a numeral beyond 2^53 - 1, a denominator of 2^55,
    the product of [lcm] on two numbers of nine digits, and the solver on
    counts of ten and of seven digits. *)
Lemma rounded_runs_are_left_out :
  Safe.countElementsInFormula (js "H9007199254740993") = Inexact /\
  Safe.fSub (mkFrac 1 1) (mkFrac 1 (2 ^ 55)) = Inexact /\
  Safe.lcm 134217729 134217731 = Inexact /\
  Safe.solveEquation [js "H1073741824"; js "HO33554432"] [js "H1073741824O"]
    Safe.countElementsInFormula = Inexact /\
  Safe.solveEquation [js "H3254257O2058756"; js "H5279348O2978347"]
    [js "H22346558O13052553"] Safe.countElementsInFormula = Inexact.
Proof. repeat split; lazy; reflexivity. Qed.

(** ** [gcd] and [lcm] *)

Lemma isSafe_between (x hi : Z) :
  0 <= x <= hi -> isSafe hi = true -> isSafe x = true.
Proof.
  rewrite !isSafe_bounds. unfold MAX_SAFE_INTEGER. lia.
Qed.

(** X13. On safe integers [gcd] is the greatest common divisor of its
    arguments, whatever their signs, except that it is 1 when both are 0;
    it is positive and divides both.  On positive arguments [lcm] is the
    least common multiple whenever that is a safe integer: the division is
    exact and so is the product. *)
Theorem gcd_is_greatest_common_divisor (a b : Z) :
  isSafe a = true -> isSafe b = true ->
  (a <> 0 \/ b <> 0 -> gcd a b = Z.gcd a b) /\
  gcd 0 0 = 1 /\
  0 < gcd a b /\ (gcd a b | a) /\ (gcd a b | b) /\
  (0 < a -> 0 < b ->
   (forall l, Safe.lcm a b = Returned l -> l = Z.lcm a b) /\
   (Z.lcm a b <= MAX_SAFE_INTEGER -> Safe.lcm a b = Returned (Z.lcm a b))).
Proof.
  intros Sa Sb.
  split; [|split; [reflexivity|split; [apply gcd_pos|split;
    [apply gcd_divide_l|split; [apply gcd_divide_r|]]]]].
  - intros H. rewrite gcd_spec.
    destruct (Z.eqb_spec (Z.gcd a b) 0) as [E|E]; [|reflexivity].
    apply Z.gcd_eq_0 in E. lia.
  - intros Ha Hb. split.
    + intros l Hl.
      apply (agrees_returned _ _ _ (lcm_agrees a b)) in Hl.
      injection Hl as <-. now apply lcm_Zlcm.
    + intros Hle. unfold Safe.lcm.
      pose proof (gcd_pos a b) as Hg.
      destruct (gcd_divide_l a b) as [q Eq].
      assert (Hq : a / gcd a b = q)
        by (rewrite Eq at 1; apply Z.div_mul; lia).
      assert (Hq0 : 0 < q) by nia.
      assert (Sg : isSafe (gcd a b) = true)
        by (apply (isSafe_between _ a); [nia | exact Sa]).
      assert (El : q * b = Z.lcm a b)
        by (rewrite <- (lcm_Zlcm a b Ha Hb); unfold lcm; now rewrite Hq).
      unfold Safe.div. rewrite Sa, Sg. cbn [andb].
      replace (gcd a b =? 0) with false by (symmetry; apply Z.eqb_neq; lia).
      replace (a mod gcd a b =? 0) with true
        by (symmetry; apply Z.eqb_eq; rewrite Eq at 1;
            apply Z.mod_mul; lia).
      cbn [negb andb bind]. rewrite Hq.
      unfold Safe.mul, Safe.exact.
      rewrite (isSafe_between q a) by first [exact Sa | split; [lia | nia]].
      rewrite Sb. cbn [andb]. rewrite El.
      replace (isSafe (Z.lcm a b)) with true; [reflexivity|].
      symmetry. apply isSafe_bounds. pose proof (Z.lcm_nonneg a b).
      unfold MAX_SAFE_INTEGER in *. lia.
Qed.

Lemma gcd_is_greatest_common_divisor_witness :
  gcd (-12) 18 = Z.gcd (-12) 18 /\ Safe.lcm 4 6 = Returned (Z.lcm 4 6).
Proof.
  split.
  - apply (gcd_is_greatest_common_divisor (-12) 18); try reflexivity.
    left. discriminate.
  - destruct (gcd_is_greatest_common_divisor 4 6 eq_refl eq_refl)
      as (_ & _ & _ & _ & _ & H).
    apply H; [reflexivity | reflexivity | discriminate].
Defined.

(** ** The fractions *)



(** ** What a solved equation satisfies *)

(** A run of [solveEquation] that returns is a run of the exact solver on
    the counts the count function has returned. *)
Lemma checked_solveEquation_returned
    (leftFormulas rightFormulas : list jsstring)
    (countFn : jsstring -> outcome ElementCount) (r : option Solution) :
  Safe.solveEquation leftFormulas rightFormulas countFn = Returned r ->
  (forall f, In f (leftFormulas ++ rightFormulas) ->
             countFn f = Returned (total countFn f)) /\
  solveEquation leftFormulas rightFormulas (total countFn) = Returned r.
Proof.
  intros H.
  destruct (solveEquation_raises leftFormulas rightFormulas countFn)
    as [Hret|(f & _ & Hf & _)].
  - split.
    + intros f Hin. destruct (Hret f Hin) as [c E].
      now rewrite (total_returned _ _ _ E).
    + now apply (agrees_returned _ _ _ (solveEquation_agrees _ _ _ Hret)).
  - rewrite H in Hf. now destruct (countFn f).
Qed.

(** X17. In a run in which every number is a safe integer, an answer of
    [solveEquation] balances the equation: the count function has returned
    on every formula, the answer has one coefficient for each species of
    either side, and for every symbol the atoms on the left (the counts of
    the left formulas, each times its coefficient) are as many as the atoms
    on the right. *)
Theorem solveEquation_balances (leftFormulas rightFormulas : list jsstring)
    (countFn : jsstring -> outcome ElementCount) (s : Solution) :
  Safe.solveEquation leftFormulas rightFormulas countFn = Returned (Some s) ->
  (forall f, In f (leftFormulas ++ rightFormulas) ->
             countFn f = Returned (total countFn f)) /\
  length (left s) = length leftFormulas /\
  length (right s) = length rightFormulas /\
  forall e, atoms (total countFn) leftFormulas (left s) e
            = atoms (total countFn) rightFormulas (right s) e.
Proof.
  intros H. apply checked_solveEquation_returned in H as [Hret H].
  split; [exact Hret|].
  pose proof (solveEquation_lengths _ _ _ _ H) as (Hl & Hr & _).
  split; [exact Hl|]. split; [exact Hr|].
  intros e. now apply solveEquation_atoms.
Qed.

Lemma solveEquation_balances_witness :
  length [1; 5] = length [js "C3H8"; js "O2"] /\
  length [3; 4] = length [js "CO2"; js "H2O"] /\
  forall e, atoms (total Safe.countElementsInFormula)
              [js "C3H8"; js "O2"] [1; 5] e
            = atoms (total Safe.countElementsInFormula)
                [js "CO2"; js "H2O"] [3; 4] e.
Proof.
  apply (solveEquation_balances [js "C3H8"; js "O2"] [js "CO2"; js "H2O"]
           Safe.countElementsInFormula (mkLR [1; 5] [3; 4])).
  vm_compute. reflexivity.
Defined.

(** ** The elimination *)

(** X27. In a run of the elimination in which every number is a safe
    integer, the elimination finds a solution whenever there is one: for a
    matrix with at least two columns, if [A y = 0] has a rational solution
    whose last entry is 1, [solveRationalForLastColumn] returns fractions in
    lowest terms, the last of which is 1, that solve [A y = 0] too; if the
    solution with last entry 1 is unique, the fractions are that
    solution. *)
Theorem elimination_finds_a_solution (A0 : list (list Z)) (y : list Q) :
  let n := length (hd [] A0) in
  Safe.solveRationalForLastColumn A0 <> Inexact ->
  (2 <= n)%nat -> Forall (fun Ai => length Ai = n) A0 ->
  length y = (n - 1)%nat -> solves A0 (y ++ [1%Q]) ->
  exists x,
    Safe.solveRationalForLastColumn A0
    = Returned (Some (x ++ [mkFrac 1 1])) /\
    length x = (n - 1)%nat /\
    solves A0 (map value x ++ [1%Q]) /\
    Forall reduced x /\
    ((forall z, length z = (n - 1)%nat -> solves A0 (z ++ [1%Q]) ->
                Forall2 Qeq z y) ->
     Forall2 Qeq (map value x) y).
Proof.
  intros n Hex Hn HA Hy Hsol.
  destruct (solveRationalForLastColumn_solves A0 y Hn HA Hy Hsol)
    as (x & E & Lx & Sx & Rx).
  exists x. split.
  { rewrite <- E.
    apply agrees_not_inexact;
      [apply solveRationalForLastColumn_agrees | exact Hex]. }
  repeat split; try assumption.
  intros Huniq. apply Huniq; [|exact Sx]. now rewrite length_map.
Qed.

Lemma elimination_finds_a_solution_witness :
  exists x,
    Safe.solveRationalForLastColumn [[2; 0; -2]; [0; 2; -1]]
    = Returned (Some (x ++ [mkFrac 1 1])) /\
    length x = 2%nat /\
    solves [[2; 0; -2]; [0; 2; -1]] (map value x ++ [1%Q]) /\
    Forall reduced x /\
    ((forall z, length z = 2%nat ->
                solves [[2; 0; -2]; [0; 2; -1]] (z ++ [1%Q]) ->
                Forall2 Qeq z [1%Q; (1 # 2)%Q]) ->
     Forall2 Qeq (map value x) [1%Q; (1 # 2)%Q]).
Proof.
  apply (elimination_finds_a_solution [[2; 0; -2]; [0; 2; -1]]
           [1%Q; (1 # 2)%Q]).
  - vm_compute. discriminate.
  - simpl. lia.
  - repeat constructor.
  - reflexivity.
  - repeat constructor; vm_compute; reflexivity.
Defined.

(** X28. In a run in which every number is a safe integer, the solver
    finds the balance when the equation has exactly one: if the count
    function returns on every formula, the non-negative integers [x], one
    for each species, the last of them positive, without common divisor and
    all below 2^31, balance the equation, and every rational solution of it
    is a multiple of [x], then [solveEquation] returns [x], split into its
    left and right parts. *)
Theorem solveEquation_finds_the_balance
    (leftFormulas rightFormulas : list jsstring)
    (countFn : jsstring -> outcome ElementCount) (x' : list Z) (xn : Z) :
  let A0 := A (buildElementMatrix leftFormulas rightFormulas
                 (total countFn)) in
  let x := x' ++ [xn] in
  Safe.solveEquation leftFormulas rightFormulas countFn <> Inexact ->
  (forall f, In f (leftFormulas ++ rightFormulas) ->
             exists c, countFn f = Returned c) ->
  A0 <> [] ->
  length x = (length leftFormulas + length rightFormulas)%nat ->
  x' <> [] ->
  Forall (fun v => 0 <= v < 2 ^ 31) x -> 0 < xn ->
  primitive x ->
  Forall (fun row => rowSum row x = 0) A0 ->
  (forall z : list Q,
      length z = length x -> solves A0 z ->
      exists t : Q, Forall2 (fun zi xi => (zi == t * inject_Z xi)%Q) z x) ->
  Safe.solveEquation leftFormulas rightFormulas countFn
  = Returned (Some (mkLR (firstn (length leftFormulas) x)
                         (skipn (length leftFormulas) x))).
Proof.
  intros A0 x Hex Hret HA Hlen Hne Hfit Hxn Hprim Hbal Huniq.
  rewrite (agrees_not_inexact _ _ (solveEquation_agrees _ _ _ Hret) Hex).
  now apply finds_the_balance_Z.
Qed.

Lemma solveEquation_finds_the_balance_witness :
  Safe.solveEquation [js "H2"; js "O2"] [js "H2O"]
    Safe.countElementsInFormula
  = Returned (Some (mkLR [2; 1] [2])).
Proof.
  apply (solveEquation_finds_the_balance [js "H2"; js "O2"] [js "H2O"]
           Safe.countElementsInFormula [2; 1] 2).
  - vm_compute. discriminate.
  - intros f [<-|[<-|[<-|[]]]]; eexists; vm_compute; reflexivity.
  - vm_compute. discriminate.
  - reflexivity.
  - discriminate.
  - repeat constructor; lia.
  - lia.
  - intros d Hd Hdiv. inversion Hdiv as [|? ? _ Hdiv']; subst.
    inversion Hdiv' as [|? ? H1 _]; subst.
    apply Z.divide_1_r_nonneg in H1; lia.
  - vm_compute. repeat constructor.
  - intros z Hz Hs.
    destruct z as [|z1 [|z2 [|z3 [|z4 z]]]]; try discriminate.
    assert (EA : A (buildElementMatrix [js "H2"; js "O2"] [js "H2O"]
                      (total Safe.countElementsInFormula))
                 = [[2; 0; -2]; [0; 2; -1]])
      by (vm_compute; reflexivity).
    rewrite EA in Hs.
    inversion Hs as [|? ? H1 Hs']; subst.
    inversion Hs' as [|? ? H2 _]; subst.
    cbn [rowSumQ] in H1, H2. cbv [inject_Z] in H1, H2.
    exists z2. cbn [app].
    repeat constructor; cbv [inject_Z]; lra.
Defined.

(** ** [analyzeBalanceability] *)

(** X30. [analyzeBalanceability] raises nothing of its own: a run that
    does not return has left the safe range, or ends as a call of the
    count function has ended.  A run that returns agrees with
    [solveEquation]: [solveEquation] returns its suggestion;
    [balanceableAllSpecies] is true exactly when there is a suggestion; and
    the nullity it reports is 1 when there is one and 0 when there is
    none, whatever the dimension of the solutions. *)
Theorem analyzeBalanceability_agrees (leftFormulas rightFormulas : list jsstring)
    (countFn : jsstring -> outcome ElementCount) :
  Safe.analyzeBalanceability leftFormulas rightFormulas countFn = Inexact \/
  (exists f, In f (leftFormulas ++ rightFormulas) /\
             sameError (countFn f)
               (Safe.analyzeBalanceability leftFormulas rightFormulas
                  countFn)) \/
  exists r,
    Safe.analyzeBalanceability leftFormulas rightFormulas countFn
    = Returned r /\
    Safe.solveEquation leftFormulas rightFormulas countFn
    = Returned (suggestion r) /\
    (balanceableAllSpecies r = true <-> suggestion r <> None) /\
    nullity r = (if balanceableAllSpecies r then 1 else 0)%nat.
Proof.
  destruct (solveEquation_raises leftFormulas rightFormulas countFn)
    as [Hret|(f & Hin & _ & Hf)]; [|right; left; now exists f].
  destruct (analyzeBalanceability_agrees_exact _ _ _ Hret) as [E|E];
    [now left|].
  right. right.
  destruct (analyzeBalanceability_record_Z leftFormulas rightFormulas
              (total countFn)) as (r & Er & _ & Hb & Hn).
  exists r. rewrite E. split; [exact Er|]. split; [|split; assumption].
  unfold Safe.solveEquation. rewrite E, Er. cbn [bind].
  destruct (balanceableAllSpecies r) eqn:Eb; [reflexivity|]. cbn [negb].
  destruct (suggestion r) as [s|]; [|reflexivity].
  assert (false = true) by (apply Hb; discriminate). discriminate.
Qed.

(** ** The balance the playground shows *)

Lemma countFormula_checked (f : jsstring) (c : ElementCount) :
  Safe.countElementsInFormula f = Returned c ->
  Safe.countElementsInFormula f = Returned (countFormula f).
Proof.
  intros H. rewrite H. f_equal.
  apply (agrees_returned _ _ _ (countElementsInFormula_agrees f)) in H.
  unfold countFormula. now rewrite H.
Qed.

Lemma checked_sideCounts_counted (species : list Species) (coeffs : list Z)
    (idx : nat) (cs : list ElementCount) :
  Safe.sideCounts idx species coeffs = Returned cs ->
  Forall (fun sp => Safe.countElementsInFormula (formula sp)
                    = Returned (countFormula (formula sp))) species.
Proof.
  revert idx cs. induction species as [|sp species IH]; intros idx cs H;
    [constructor|].
  cbn [Safe.sideCounts] in H.
  destruct (Safe.countElementsInFormula (formula sp)) as [c| | | |] eqn:Ec;
    try discriminate.
  cbn [bind] in H.
  destruct (Safe.multiplyCounts c _) as [mc| | | |]; try discriminate.
  cbn [bind] in H.
  destruct (Safe.sideCounts (S idx) species coeffs) as [cs'| | | |] eqn:Es;
    try discriminate.
  constructor; [|now apply (IH _ _ Es)].
  cbv beta. now apply (countFormula_checked _ c).
Qed.

(** X19. In a run in which every number is a safe integer, the balanced
    flag of the playground means what it says: it is set exactly when the
    equation has at least one element and, for every symbol, the atoms on
    the left (counts times the coefficients in use: the one the user set,
    or else the one written in the equation) are as many as the atoms on
    the right.  The elements listed are the symbols of the formulas of
    either side, and the difference shown for each is left minus right.
    The counts are those [countElementsInFormula] has returned. *)
Theorem playground_balanced_flag (species : LeftRight Species)
    (coeffs : LeftRight Z) (v : Playground.Counts) :
  Safe.counts species coeffs = Returned v ->
  let L := atoms countFormula (map formula (left species))
             (effective 0 (left species) (left coeffs)) in
  let R := atoms countFormula (map formula (right species))
             (effective 0 (right species) (right coeffs)) in
  Forall (fun sp => Safe.countElementsInFormula (formula sp)
                    = Returned (countFormula (formula sp)))
         (left species ++ right species) /\
  (Playground.balanced v = true <->
   Playground.elements v <> [] /\ forall e, L e = R e) /\
  (forall e, In e (Playground.elements v) <->
             exists sp, In sp (left species ++ right species) /\
                        In e (keys (countFormula (formula sp)))) /\
  (forall e, orZero (map_get (Playground.diff v) e) = L e - R e).
Proof.
  intros H. split.
  - unfold Safe.counts in H.
    destruct (Safe.sideCounts 0 (left species) (left coeffs))
      as [lc| | | |] eqn:El; try discriminate.
    cbn [bind] in H.
    destruct (Safe.sideCounts 0 (right species) (right coeffs))
      as [rc| | | |] eqn:Er; try discriminate.
    apply Forall_app. split; eapply checked_sideCounts_counted; eassumption.
  - apply (agrees_returned _ _ _ (counts_agrees species coeffs)) in H.
    now apply balanced_flag_Z.
Qed.

Lemma playground_balanced_flag_witness :
  exists v,
    Safe.counts
      (mkLR [parseSpecies (js "2 H2"); parseSpecies (js "O2")]
            [parseSpecies (js "2H2O")])
      (mkLR [] []) = Returned v /\
    (Playground.balanced v = true <->
     Playground.elements v <> [] /\
     forall e,
       atoms countFormula [js "H2"; js "O2"] [2; 1] e
       = atoms countFormula [js "H2O"] [2] e).
Proof.
  eexists. split; [reflexivity|].
  destruct (playground_balanced_flag
              (mkLR [parseSpecies (js "2 H2"); parseSpecies (js "O2")]
                    [parseSpecies (js "2H2O")])
              (mkLR [] []) _ eq_refl) as (_ & H & _).
  exact H.
Defined.

(** ** Sums of counts *)

(** X9. [sumCounts] of any list of objects, in a run in which every sum is
    a safe integer: the keys of the result are the keys of the objects of
    the list, and the value of every symbol is the sum of its counts over
    the list (an object without the symbol counting 0).  When the keys are
    element symbols, on which [localeCompare] is the order of the code
    units, the keys of the result are in strictly increasing order.  The
    sum of no object is the empty object. *)
Theorem sumCounts_sums_every_symbol (l : list ElementCount)
    (r : ElementCount) :
  Forall (fun c => NoDup (keys c)) l ->
  Safe.sumCounts l = Returned r ->
  (Forall (fun c => Forall (fun k => isSymbol k = true) (keys c)) l ->
   StronglySorted lex_lt (keys r)) /\
  (forall e, In e (keys r) <-> exists c, In c l /\ In e (keys c)) /\
  (forall e, orZero (map_get r e) = countIn l e) /\
  Safe.sumCounts [] = Returned [].
Proof.
  intros H Hr.
  apply (agrees_returned _ _ _ (sumCounts_agrees l)) in Hr.
  injection Hr as <-.
  split; [intros _; apply sumCounts_sorted|].
  split; [apply sumCounts_keys|].
  split; [|reflexivity]. intros e. now apply sumCounts_get.
Qed.

Lemma sumCounts_sums_every_symbol_witness :
  StronglySorted lex_lt (keys [(js "H", 4); (js "O", 3)]).
Proof.
  destruct (sumCounts_sums_every_symbol
              [[(js "H", 2)]; [(js "O", 2)]; [(js "H", 2); (js "O", 1)]]
              [(js "H", 4); (js "O", 3)]) as (H & _).
  - repeat constructor; simpl; intuition discriminate.
  - reflexivity.
  - apply H. repeat constructor.
Defined.

Lemma isSafe_0 : isSafe 0 = true.
Proof. reflexivity. Qed.

Lemma isSafe_1 : isSafe 1 = true.
Proof. reflexivity. Qed.

(** Counts of distinct keys, pushed onto a map that has none of them, are
    appended as they are. *)
Lemma checked_pushAll_fresh (c : ElementCount) :
  forall acc,
    NoDup (keys acc ++ keys c) ->
    Forall (fun kv => isSafe (snd kv) = true) c ->
    foldM (fun out kv => Safe.pushCounts out (fst kv) (snd kv)) c acc
    = Returned (acc ++ c).
Proof.
  induction c as [|[k n] c IH]; intros acc Hnd Hs.
  - cbn [foldM]. now rewrite app_nil_r.
  - inversion Hs as [|? ? Sn Hs']; subst. cbn [snd] in Sn.
    assert (Hk : ~ In k (keys acc)).
    { intros Hin. cbn [keys map fst] in Hnd.
      apply NoDup_remove_2 in Hnd. apply Hnd. apply in_or_app. now left. }
    cbn [foldM fst snd]. unfold Safe.pushCounts.
    replace (map_get acc k) with (@None Z)
      by (symmetry; now apply map_get_none).
    cbn [orZero]. unfold Safe.add, Safe.exact.
    rewrite isSafe_0, Sn. cbn [andb Z.add]. rewrite Sn. cbn [bind].
    rewrite map_set_absent by exact Hk.
    rewrite IH; [now rewrite <- app_assoc | | exact Hs'].
    unfold keys in *. rewrite map_app, <- app_assoc. exact Hnd.
Qed.

Lemma checked_multiply_by_one (c : ElementCount) :
  forall acc,
    NoDup (keys acc ++ keys c) ->
    Forall (fun kv => isSafe (snd kv) = true) c ->
    foldM (fun out kv => v <- Safe.mul (snd kv) 1 ;;
                         Returned (map_set out (fst kv) v)) c acc
    = Returned (acc ++ c).
Proof.
  induction c as [|[k n] c IH]; intros acc Hnd Hs.
  - cbn [foldM]. now rewrite app_nil_r.
  - inversion Hs as [|? ? Sn Hs']; subst. cbn [snd] in Sn.
    assert (Hk : ~ In k (keys acc)).
    { intros Hin. cbn [keys map fst] in Hnd.
      apply NoDup_remove_2 in Hnd. apply Hnd. apply in_or_app. now left. }
    cbn [foldM fst snd]. unfold Safe.mul, Safe.exact.
    rewrite Sn, isSafe_1, Z.mul_1_r. cbn [andb]. rewrite Sn. cbn [bind].
    rewrite map_set_absent by exact Hk.
    rewrite IH; [now rewrite <- app_assoc | | exact Hs'].
    unfold keys in *. rewrite map_app, <- app_assoc. exact Hnd.
Qed.

(** X10. An object whose keys are element symbols in increasing order and
    whose counts are safe integers, as every result of
    [countElementsInFormula] is, is the sum of itself alone:
    [sumCounts([c])] is [c], entry for entry; so is [multiplyCounts(c, 1)]. *)
Theorem sumCounts_of_one_object (c : ElementCount) :
  Forall (fun k => isSymbol k = true) (keys c) ->
  StronglySorted lex_lt (keys c) ->
  Forall (fun kv => isSafe (snd kv) = true) c ->
  Safe.sumCounts [c] = Returned c /\
  Safe.multiplyCounts c 1 = Returned c.
Proof.
  intros _ H Hs. pose proof (StronglySorted_lex_NoDup _ H) as Hnd.
  split.
  - unfold Safe.sumCounts. cbn [foldM].
    rewrite checked_pushAll_fresh by assumption. cbn [bind app].
    rewrite sortEntries_sorted_fixed by exact H.
    now rewrite fromEntries_NoDup.
  - unfold Safe.multiplyCounts.
    now rewrite checked_multiply_by_one.
Qed.

Lemma sumCounts_of_one_object_witness :
  Safe.sumCounts [[(js "C", 3); (js "H", 8)]]
  = Returned [(js "C", 3); (js "H", 8)] /\
  Safe.multiplyCounts [(js "C", 3); (js "H", 8)] 1
  = Returned [(js "C", 3); (js "H", 8)].
Proof.
  apply (sumCounts_of_one_object [(js "C", 3); (js "H", 8)]);
    repeat constructor.
Defined.
